(** * libfork: the fork-join runtime, checked against its specification

    A shallow embedding of the parts of libfork that the specification's
    claims are about: the geometric segmented stack ([stack.hpp]), the frame
    control block ([frame.hpp]), the fork, call and join awaitables
    ([awaitables.hpp]), the final suspend of a forked child ([promise.hpp]),
    the NUMA-aware steal loop ([numa_context.hpp]), the lazy pool's
    sleep/wake protocol ([lazy_pool.hpp], [event_count.hpp]) and the future of
    a root task ([sync_wait.hpp]); and of what these rest on: the work-stealing
    deque ([deque.hpp]), the list of submissions ([list.hpp]), the generator
    of the steal loop ([random.hpp]), the distribution of workers over the
    topology ([numa.hpp]) and the algorithms [fold], [for_each], [map] and
    [scan].

    Conventions.  Addresses are integers and [0] is [nullptr].  Unsigned
    machine integers are integers with their wrap-around written out
    ([wrap16], [wrap64]).  A function that dereferences a pointer returns
    [None] when the pointer does not name a live object (undefined behaviour
    in the source); an exception is an explicit [Throw] result. *)

From Stdlib Require Import ZArith Lia.
From Stdlib Require QArith Sorted.
From stdpp Require Import gmap list.

Local Open Scope Z_scope.

(** ** Machine integers *)

Definition k_u16_max : Z := 65535.
Definition wrap16 (x : Z) : Z := x mod 65536.
Definition wrap64 (x : Z) : Z := x mod 2 ^ 64.

(** ** Exceptions and results *)

Inductive exn : Type :=
  | bad_alloc
  | exception_before_join
  | broken_future
  | empty_future
  | user_exception (id : Z).

Global Instance exn_eq_dec : EqDecision exn.
Proof. solve_decision. Defined.

Inductive result (A : Type) : Type :=
  | Ok (a : A)
  | Throw (e : exn).
Arguments Ok {A} a.
Arguments Throw {A} e.

Inductive memory_order : Type :=
  | relaxed | consume | acquire | release | acq_rel | seq_cst.

(** ** stack.hpp: geometric segmented stacks *)

Module Stack.

Record stacklet : Type := mk_stacklet {
  m_lo : Z;    (* this stacklet's stack *)
  m_sp : Z;    (* the stack pointer *)
  m_hi : Z;    (* one past the end of the stack *)
  m_prev : Z;  (* doubly linked list (past) *)
  m_next : Z   (* doubly linked list (future) *)
}.

Definition set_sp (sp : Z) (s : stacklet) : stacklet :=
  mk_stacklet (m_lo s) sp (m_hi s) (m_prev s) (m_next s).

Definition set_next_field (nx : Z) (s : stacklet) : stacklet :=
  mk_stacklet (m_lo s) (m_sp s) (m_hi s) (m_prev s) nx.

(** A stack is the pointer [m_fib] to its allocation stacklet; the stacklets
    themselves live in the C heap, keyed by the address [malloc] gave. *)
Record stack : Type := mk_stack {
  heap : gmap Z stacklet;
  m_fib : Z
}.

Definition capacity (s : stacklet) : Z := m_hi s - m_lo s.
Definition unused (s : stacklet) : Z := m_hi s - m_sp s.
Definition stacklet_empty (s : stacklet) : bool := bool_decide (m_sp s = m_lo s).

(** [stacklet::is_top]: a single empty cached stacklet is accepted above
    the top. *)
Definition is_top (h : gmap Z stacklet) (s : stacklet) : option bool :=
  if decide (m_next s ≠ 0) then
    n ← h !! m_next s;
    Some (stacklet_empty n && bool_decide (m_next n = 0))
  else Some true.

(** [stacklet::set_next]: [std::free(std::exchange(m_next, new_next))];
    freeing [nullptr] does nothing, and [0] is never a key of the heap. *)
Definition set_next (this new_next : Z) (h : gmap Z stacklet) : option (gmap Z stacklet) :=
  s ← h !! this;
  Some (delete (m_next s) (<[this := set_next_field new_next s]> h)).

Section Platform.

(** [__STDCPP_DEFAULT_NEW_ALIGNMENT__] and [sizeof(stacklet)] are fixed by
    the platform; the source states what it needs of them in
    [static_assert]s, which are the hypotheses of the theorems below. *)
Variable k_new_align : Z.
Variable sizeof_stacklet : Z.

Definition page_size : Z := 4096.
Definition malloc_meta_data_size : Z := 6 * 8.  (* 6 * sizeof(void * ) *)

(** [round_up_to_page_size]: [size_t] arithmetic. *)
Definition round_up_to_page_size (size : Z) : Z :=
  let minimum := wrap64 (size + malloc_meta_data_size) in
  let rounded := Z.land (wrap64 (minimum + page_size - 1))
                        (wrap64 (Z.lnot (page_size - 1))) in
  wrap64 (rounded - malloc_meta_data_size).

(** [stacklet::next_stacklet(size, prev)].  [malloc] answers the one
    request this call can make. *)
Definition next_stacklet (malloc : Z → option Z) (size prev : Z)
    (h : gmap Z stacklet) : option (result (Z * gmap Z stacklet)) :=
  let request := round_up_to_page_size (wrap64 (size + sizeof_stacklet)) in
  match malloc request with
  | None => Some (Throw bad_alloc)
  | Some next =>
      h1 ← (if decide (prev ≠ 0) then set_next prev next h else Some h);
      Some (Ok (next,
                <[next := mk_stacklet (next + sizeof_stacklet)
                                       (next + sizeof_stacklet)
                                       (next + request) prev 0]> h1))
  end.

(** [LF_FIBRE_INIT_SIZE] *)
Definition fibre_init_size : Z := 1.

(** [stack::stack()] *)
Definition stack_new (malloc : Z → option Z) (h : gmap Z stacklet)
    : option (result stack) :=
  r ← next_stacklet malloc fibre_init_size 0 h;
  match r with
  | Throw e => Some (Throw e)
  | Ok (p, h') => Some (Ok (mk_stack h' p))
  end.

(** [stack::~stack]: free a cached stacklet, then the stacklet itself. *)
Definition stack_destroy (h : gmap Z stacklet) (fib : Z) : option (gmap Z stacklet) :=
  h1 ← set_next fib 0 h;
  Some (delete fib h1).

(** [*this = stack{frag}]: the temporary built from [frag] is swapped with
    [*this] and then destroyed, which frees what [*this] held. *)
Definition stack_assign_from (frag : Z) (st : stack) : option stack :=
  h' ← stack_destroy (heap st) (m_fib st);
  Some (mk_stack h' frag).

(** [stack::empty] *)
Definition stack_empty (st : stack) : option bool :=
  s ← heap st !! m_fib st;
  Some (stacklet_empty s && bool_decide (m_prev s = 0)).

(** [stack::release]: [std::exchange(m_fib, stacklet::next_stacklet())] *)
Definition stack_release (malloc : Z → option Z) (st : stack)
    : option (result (Z * stack)) :=
  r ← next_stacklet malloc fibre_init_size 0 (heap st);
  match r with
  | Throw e => Some (Throw e)
  | Ok (p, h') => Some (Ok (m_fib st, mk_stack h' p))
  end.

(** [stack::top] *)
Definition stack_top (st : stack) : Z := m_fib st.

(** The rounding of [stack::allocate]. *)
Definition ext_size_of (size : Z) : Z :=
  Z.land (wrap64 (size + k_new_align - 1)) (wrap64 (Z.lnot (k_new_align - 1))).

(** The bump at the end of [stack::allocate]:
    [std::exchange(m_fib->m_sp, m_fib->m_sp + ext_size)], on 64-bit
    addresses. *)
Definition bump (ext_size : Z) (st : stack) : option (result Z * stack) :=
  s ← heap st !! m_fib st;
  Some (Ok (m_sp s),
        mk_stack (<[m_fib st := set_sp (wrap64 (m_sp s + ext_size)) s]> (heap st))
                 (m_fib st)).

(** The growth branch of [stack::allocate]. *)
Definition grow (malloc : Z → option Z) (ext_size : Z) (top : stacklet) (st : stack)
    : option (result Z * stack) :=
  r ← next_stacklet malloc (Z.max (wrap64 (2 * capacity top)) ext_size)
                    (m_fib st) (heap st);
  match r with
  | Throw e => Some (Throw e, st)
  | Ok (p, h') => bump ext_size (mk_stack h' p)
  end.

(** [stack::allocate] *)
Definition allocate (malloc : Z → option Z) (size : Z) (st : stack)
    : option (result Z * stack) :=
  top ← heap st !! m_fib st;
  let ext_size := ext_size_of size in
  if decide (unused top < ext_size) then
    if decide (m_next top ≠ 0) then
      nxt ← heap st !! m_next top;
      if decide (capacity nxt >= ext_size) then
        bump ext_size (mk_stack (heap st) (m_next top))
      else grow malloc ext_size top st
    else grow malloc ext_size top st
  else bump ext_size st.

(** [stack::deallocate] *)
Definition deallocate (ptr : Z) (st : stack) : option stack :=
  s ← heap st !! m_fib st;
  let s1 := set_sp ptr s in
  let h1 := <[m_fib st := s1]> (heap st) in
  if stacklet_empty s1 then
    '(h2, fib) ← (if decide (m_prev s1 ≠ 0) then
                    h' ← set_next (m_fib st) 0 h1; Some (h', m_prev s1)
                  else Some (h1, m_fib st));
    f ← h2 !! fib;
    if decide (m_next f ≠ 0) then
      n ← h2 !! m_next f;
      if decide (capacity n > 8 * capacity f) then
        h3 ← set_next fib 0 h2; Some (mk_stack h3 fib)
      else Some (mk_stack h2 fib)
    else Some (mk_stack h2 fib)
  else Some (mk_stack h1 (m_fib st)).


(** What [stack::allocate] relies on: stacklets are laid out inside the
    address space with an aligned stack pointer, and a cached stacklet above
    the top is empty ([LF_ASSERT(m_fib && m_fib->is_top())]). *)
Definition aligned (p : Z) : Prop := p mod k_new_align = 0.

Definition stacklet_ok (s : stacklet) : Prop :=
  0 ≤ m_lo s ≤ m_sp s ∧ m_sp s ≤ m_hi s < 2 ^ 62 ∧ aligned (m_sp s).

Definition cached_ok (h : gmap Z stacklet) (top : stacklet) : Prop :=
  m_next top = 0
  ∨ ∃ c, h !! m_next top = Some c ∧ stacklet_ok c ∧ m_sp c = m_lo c ∧ m_next c = 0.

Definition stack_ok (st : stack) (top : stacklet) : Prop :=
  heap st !! m_fib st = Some top ∧ m_fib st ≠ 0
  ∧ stacklet_ok top ∧ cached_ok (heap st) top.

(** What [std::malloc] guarantees of a block it returns for the heap [h]:
    not null, suitably aligned, inside the address space and not a block
    that is still live. *)
Definition malloc_ok (malloc : Z → option Z) (h : gmap Z stacklet) : Prop :=
  ∀ r a, malloc r = Some a →
    a ≠ 0 ∧ 0 ≤ a ∧ a + r < 2 ^ 62 ∧ aligned a ∧ h !! a = None.

End Platform.

End Stack.

(** ** deque.hpp: the owner's view of the Chase-Lev deque

    [items] are the live slots between [top] and [bottom], the most recently
    pushed first; [buf_cap] is the capacity of the ring buffer.  The owner
    pushes and pops at the bottom, thieves steal at the top. *)

Module Deque.

Record deque : Type := mk_deque {
  items : list Z;
  buf_cap : Z
}.

Inductive err : Type := none | lost | empty.

Definition k_default_capacity : Z := 1024.

Definition deque_new : deque := mk_deque [] k_default_capacity.

(** [deque::push]: a full buffer is replaced by one of twice the capacity,
    which [new_ok] tells whether [new] could allocate. *)
Definition push (new_ok : bool) (val : Z) (d : deque) : result deque :=
  if decide (buf_cap d < Z.of_nat (length (items d)) + 1) then
    if new_ok then Ok (mk_deque (val :: items d) (2 * buf_cap d))
    else Throw bad_alloc
  else Ok (mk_deque (val :: items d) (buf_cap d)).

(** [deque::pop] with [when_empty] returning [nullptr]. *)
Definition pop (d : deque) : Z * deque :=
  match items d with
  | x :: rest => (x, mk_deque rest (buf_cap d))
  | [] => (0, d)
  end.

(** [deque::steal] when no other thread moves [top] meanwhile. *)
Definition steal (d : deque) : err * Z * deque :=
  match reverse (items d) with
  | x :: rest => (none, x, mk_deque (reverse rest) (buf_cap d))
  | [] => (empty, 0, d)
  end.

End Deque.

(** ** deque.hpp: the ring buffer and the indices of the deque

    The deque as the source has it: [m_top] and [m_bottom] count the steals
    and the pushes, and slot [i & m_mask] of the ring buffer holds item [i].
    The operations are those of the owner and of a thief when no other
    thread runs in between; [std::ptrdiff_t] overflow is undefined
    behaviour. *)

Module RingDeque.

Definition ptrdiff (x : Z) : option Z :=
  if decide (- 2 ^ 63 ≤ x < 2 ^ 63) then Some x else None.

(** [std::has_single_bit]: the argument is a power of two. *)
Definition has_single_bit (x : Z) : bool := (0 <? x) && (x =? 2 ^ Z.log2 x).

(** [impl::atomic_ring_buf<T>]; a [std::atomic<T>] is value-initialised. *)
Record atomic_ring_buf : Type := mk_ring {
  m_cap : Z;
  m_mask : Z;
  m_array : list Z
}.

(** [atomic_ring_buf(cap)], with its [LF_ASSERT]. *)
Definition ring_new (cap : Z) : option atomic_ring_buf :=
  if (0 <? cap) && has_single_bit cap
  then Some (mk_ring cap (cap - 1) (replicate (Z.to_nat cap) 0))
  else None.

Definition capacity (r : atomic_ring_buf) : Z := m_cap r.

(** [store(index, val)] and [load(index)] *)
Definition store (index val : Z) (r : atomic_ring_buf) : option atomic_ring_buf :=
  if decide (0 ≤ index) then
    let k := Z.to_nat (Z.land index (m_mask r)) in
    _ ← m_array r !! k;
    Some (mk_ring (m_cap r) (m_mask r) (<[k := val]> (m_array r)))
  else None.

Definition load (index : Z) (r : atomic_ring_buf) : option Z :=
  if decide (0 ≤ index) then m_array r !! Z.to_nat (Z.land index (m_mask r))
  else None.

(** [resize(bot, top)]: the loop [for (i = top; i != bot; ++i)] ends only
    when [top <= bot]. *)
Definition resize (bot top : Z) (r : atomic_ring_buf) : option atomic_ring_buf :=
  if decide (top ≤ bot) then
    cap ← ptrdiff (2 * m_cap r);
    ptr ← ring_new cap;
    foldl (λ acc i, p ← acc; v ← load i r; store i v p) (Some ptr) (seqZ top (bot - top))
  else None.

(** [lf::deque<T>] *)
Record deque : Type := mk_deque {
  m_top : Z;
  m_bottom : Z;
  m_buf : atomic_ring_buf;
  m_garbage : list atomic_ring_buf
}.

Definition deque_new (cap : Z) : option deque :=
  r ← ring_new cap; Some (mk_deque 0 0 r []).

Definition ssize (d : deque) : Z := Z.max (m_bottom d - m_top d) 0.
Definition empty (d : deque) : bool := bool_decide (m_top d >= m_bottom d).

(** [deque::push]; [new_ok] tells whether [new] can allocate. *)
Definition push (new_ok : bool) (val : Z) (d : deque) : option (result deque) :=
  let bottom := m_bottom d in
  let top := m_top d in
  let buf := m_buf d in
  if decide (capacity buf < (bottom - top) + 1) then
    if new_ok then
      bigger ← resize bottom top buf;
      buf' ← store bottom val bigger;
      b ← ptrdiff (bottom + 1);
      Some (Ok (mk_deque top b buf' (m_garbage d ++ [buf])))
    else Some (Throw bad_alloc)
  else
    buf' ← store bottom val buf;
    b ← ptrdiff (bottom + 1);
    Some (Ok (mk_deque top b buf' (m_garbage d))).

(** [deque::pop]: [None] when [when_empty] was invoked.  The
    compare-exchange on [m_top] succeeds, no thief being at work. *)
Definition pop (d : deque) : option (option Z * deque) :=
  bottom ← ptrdiff (m_bottom d - 1);
  let buf := m_buf d in
  let top := m_top d in
  if decide (top ≤ bottom) then
    if decide (top = bottom) then
      v ← load bottom buf;
      Some (Some v, mk_deque (top + 1) (bottom + 1) buf (m_garbage d))
    else
      v ← load bottom buf;
      Some (Some v, mk_deque top bottom buf (m_garbage d))
  else Some (None, mk_deque top (bottom + 1) buf (m_garbage d)).

(** [deque::steal], the compare-exchange succeeding. *)
Definition steal (d : deque) : option (Deque.err * Z * deque) :=
  let top := m_top d in
  let bottom := m_bottom d in
  if decide (top < bottom) then
    tmp ← load top (m_buf d);
    Some (Deque.none, tmp, mk_deque (top + 1) bottom (m_buf d) (m_garbage d))
  else Some (Deque.empty, 0, d).

(** The owner pushes the values [vals] one after the other, [new] never
    failing. *)
Fixpoint pushes (vals : list Z) (d : deque) : option deque :=
  match vals with
  | [] => Some d
  | val :: rest =>
      r ← push true val d;
      match r with
      | Ok d' => pushes rest d'
      | Throw _ => None
      end
  end.

(** The owner pops [n] times: the values, in the order they came. *)
Fixpoint pops (n : nat) (d : deque) : option (list (option Z) * deque) :=
  match n with
  | O => Some ([], d)
  | S k => '(r, d') ← pop d; '(rs, d'') ← pops k d'; Some (r :: rs, d'')
  end.

(** A thief steals [n] times. *)
Fixpoint steals (n : nat) (d : deque) : option (list (Deque.err * Z) * deque) :=
  match n with
  | O => Some ([], d)
  | S k => '(e, v, d') ← steal d; '(rs, d'') ← steals k d'; Some ((e, v) :: rs, d'')
  end.

(** The items between [m_top] and [m_bottom], the oldest first. *)
Definition contents (d : deque) : list Z :=
  omap (λ i, load i (m_buf d)) (seqZ (m_top d) (m_bottom d - m_top d)).

(** The deque as the owner's list, the most recently pushed item first. *)
Definition view (d : deque) : Deque.deque :=
  Deque.mk_deque (reverse (contents d)) (capacity (m_buf d)).

(** What the constructors and the operations keep: the buffer's capacity is
    a power of two that the live items fit in, and the indices are far from
    the end of [std::ptrdiff_t]. *)
Definition ring_ok (r : atomic_ring_buf) : Prop :=
  ∃ k, 0 ≤ k < 62 ∧ m_cap r = 2 ^ k ∧ m_mask r = m_cap r - 1
       ∧ length (m_array r) = Z.to_nat (m_cap r).

Definition deque_ok (d : deque) : Prop :=
  ring_ok (m_buf d)
  ∧ 0 ≤ m_top d ≤ m_bottom d ∧ m_bottom d < 2 ^ 62
  ∧ m_bottom d - m_top d ≤ m_cap (m_buf d).

End RingDeque.

(** ** deque.hpp: the owner and the thieves at work together

    The deque shared by its owner and any number of thieves, one atomic
    operation at a time in a sequentially consistent order.  The owner works
    through a list of pushes and pops; every thief steals again and again.
    A thief keeps the ring buffer it loaded from [m_buf], which is the
    buffer in use or one of [m_garbage]; [new] does not fail. *)

Module SharedDeque.

Inductive op : Type := op_push (val : Z) | op_pop.

Inductive event : Type :=
  | pushed (val : Z)
  | popped (val : Z)
  | pop_empty
  | stolen (val : Z)
  | steal_lost
  | steal_empty.

(** Where the owner is, with its local variables. *)
Inductive owner_pc : Type :=
  | o_idle
  | push_buf (val top : Z)   (* [m_top] loaded; next the test of the capacity *)
  | push_cell (val : Z)      (* next [buf->store(bottom, val)] *)
  | push_bottom (val : Z)    (* next [m_bottom.store(bottom + 1)] *)
  | pop_top (bottom : Z)     (* [m_bottom] stored; next [m_top.load] *)
  | pop_test (bottom top : Z)
  | pop_won (bottom : Z)     (* the compare-exchange succeeded *)
  | pop_lost (bottom : Z).   (* the compare-exchange failed *)

(** Where a thief is, with its local variables; [buf] counts the buffers
    that were retired before the one the thief loaded. *)
Inductive thief_pc : Type :=
  | t_idle
  | steal_bottom (top : Z)   (* [m_top] loaded; next [m_bottom.load] *)
  | steal_buf (top : Z)      (* next [m_buf.load] *)
  | steal_cell (top : Z) (buf : nat)
  | steal_cas (top tmp : Z).

Record state : Type := mk_state {
  mem : RingDeque.deque;
  owner : owner_pc;
  todo : list op;
  thieves : list thief_pc;
  log : list event
}.

Definition set_top (top : Z) (d : RingDeque.deque) : RingDeque.deque :=
  RingDeque.mk_deque top (RingDeque.m_bottom d) (RingDeque.m_buf d) (RingDeque.m_garbage d).

Definition set_bottom (bottom : Z) (d : RingDeque.deque) : RingDeque.deque :=
  RingDeque.mk_deque (RingDeque.m_top d) bottom (RingDeque.m_buf d) (RingDeque.m_garbage d).

(** The buffers a thief may hold, the oldest first. *)
Definition buffers (d : RingDeque.deque) : list RingDeque.atomic_ring_buf :=
  RingDeque.m_garbage d ++ [RingDeque.m_buf d].

(** The next atomic operation of the owner. *)
Definition owner_step (st : state) : option state :=
  let d := mem st in
  match owner st with
  | o_idle =>
      match todo st with
      | [] => Some st
      | op_push val :: rest =>
          Some (mk_state d (push_buf val (RingDeque.m_top d)) rest (thieves st) (log st))
      | op_pop :: rest =>
          bottom ← RingDeque.ptrdiff (RingDeque.m_bottom d - 1);
          Some (mk_state (set_bottom bottom d) (pop_top bottom) rest (thieves st) (log st))
      end
  | push_buf val top =>
      let bottom := RingDeque.m_bottom d in
      let buf := RingDeque.m_buf d in
      if decide (RingDeque.capacity buf < (bottom - top) + 1) then
        bigger ← RingDeque.resize bottom top buf;
        Some (mk_state (RingDeque.mk_deque (RingDeque.m_top d) bottom bigger
                                           (RingDeque.m_garbage d ++ [buf]))
                       (push_cell val) (todo st) (thieves st) (log st))
      else Some (mk_state d (push_cell val) (todo st) (thieves st) (log st))
  | push_cell val =>
      buf' ← RingDeque.store (RingDeque.m_bottom d) val (RingDeque.m_buf d);
      Some (mk_state (RingDeque.mk_deque (RingDeque.m_top d) (RingDeque.m_bottom d) buf'
                                         (RingDeque.m_garbage d))
                     (push_bottom val) (todo st) (thieves st) (log st))
  | push_bottom val =>
      b ← RingDeque.ptrdiff (RingDeque.m_bottom d + 1);
      Some (mk_state (set_bottom b d) o_idle (todo st) (thieves st) (log st ++ [pushed val]))
  | pop_top bottom =>
      Some (mk_state d (pop_test bottom (RingDeque.m_top d)) (todo st) (thieves st) (log st))
  | pop_test bottom top =>
      if decide (top ≤ bottom) then
        if decide (top = bottom) then
          desired ← RingDeque.ptrdiff (top + 1);
          if decide (RingDeque.m_top d = top) then
            Some (mk_state (set_top desired d) (pop_won bottom) (todo st) (thieves st)
                           (log st))
          else Some (mk_state d (pop_lost bottom) (todo st) (thieves st) (log st))
        else
          v ← RingDeque.load bottom (RingDeque.m_buf d);
          Some (mk_state d o_idle (todo st) (thieves st) (log st ++ [popped v]))
      else
        Some (mk_state (set_bottom (bottom + 1) d) o_idle (todo st) (thieves st)
                       (log st ++ [pop_empty]))
  | pop_won bottom =>
      v ← RingDeque.load bottom (RingDeque.m_buf d);
      Some (mk_state (set_bottom (bottom + 1) d) o_idle (todo st) (thieves st)
                     (log st ++ [popped v]))
  | pop_lost bottom =>
      Some (mk_state (set_bottom (bottom + 1) d) o_idle (todo st) (thieves st)
                     (log st ++ [pop_empty]))
  end.

(** The next atomic operation of a thief: the memory, the thief and what it
    returned, if it did. *)
Definition thief_step (d : RingDeque.deque) (t : thief_pc)
    : option (RingDeque.deque * thief_pc * list event) :=
  match t with
  | t_idle => Some (d, steal_bottom (RingDeque.m_top d), [])
  | steal_bottom top =>
      if decide (top < RingDeque.m_bottom d) then Some (d, steal_buf top, [])
      else Some (d, t_idle, [steal_empty])
  | steal_buf top => Some (d, steal_cell top (length (RingDeque.m_garbage d)), [])
  | steal_cell top buf =>
      r ← buffers d !! buf;
      tmp ← RingDeque.load top r;
      Some (d, steal_cas top tmp, [])
  | steal_cas top tmp =>
      desired ← RingDeque.ptrdiff (top + 1);
      if decide (RingDeque.m_top d = top) then Some (set_top desired d, t_idle, [stolen tmp])
      else Some (d, t_idle, [steal_lost])
  end.

(** One step of the thread [who]: the owner, or the thief of that number,
    if there is one. *)
Definition step (who : option nat) (st : state) : option state :=
  match who with
  | None => owner_step st
  | Some i =>
      match thieves st !! i with
      | None => Some st
      | Some t =>
          '(d, t', evs) ← thief_step (mem st) t;
          Some (mk_state d (owner st) (todo st) (<[i := t']> (thieves st)) (log st ++ evs))
      end
  end.

Fixpoint run (schedule : list (option nat)) (st : state) : option state :=
  match schedule with
  | [] => Some st
  | who :: rest => st' ← step who st; run rest st'
  end.

(** [deque(cap)] with the owner's work and [n] thieves. *)
Definition init (cap : Z) (work : list op) (n : nat) : option state :=
  d ← RingDeque.deque_new cap;
  Some (mk_state d o_idle work (replicate n t_idle) []).

(** The values the log says were pushed, and those it says were handed
    out. *)
Definition pushed_values (l : list event) : list Z :=
  omap (λ e, match e with pushed v => Some v | _ => None end) l.

Definition taken_values (l : list event) : list Z :=
  omap (λ e, match e with popped v | stolen v => Some v | _ => None end) l.

(** One past the last item of the deque: [m_bottom], but for a pop under
    way, which has lowered it by one. *)
Definition logical_bottom (st : state) : Z :=
  match owner st with
  | pop_top b | pop_test b _ | pop_won b | pop_lost b => b + 1
  | _ => RingDeque.m_bottom (mem st)
  end.

(** The items in the deque, the oldest first, and the item a pop has won
    and not yet returned. *)
Definition items (st : state) : list Z :=
  omap (λ i, RingDeque.load i (RingDeque.m_buf (mem st)))
       (seqZ (RingDeque.m_top (mem st)) (logical_bottom st - RingDeque.m_top (mem st))).

Definition held (st : state) : list Z :=
  match owner st with
  | pop_won b =>
      match RingDeque.load b (RingDeque.m_buf (mem st)) with
      | Some v => [v]
      | None => []
      end
  | _ => []
  end.

(** The pushes the owner has not completed. *)
Fixpoint pushes_in (work : list op) : Z :=
  match work with
  | [] => 0
  | op_push _ :: rest => 1 + pushes_in rest
  | op_pop :: rest => pushes_in rest
  end.

Definition pushes_left (st : state) : Z :=
  pushes_in (todo st)
  + match owner st with
    | push_buf _ _ | push_cell _ | push_bottom _ => 1
    | _ => 0
    end.

(** What holds in every state the threads can reach.  A thief that has seen
    [top < bottom] and finds [m_top] unchanged has a claim to the item at
    [top]: the item is in the deque, and a pop that takes its item without
    a compare-exchange takes another one. *)
Definition claim (st : state) (top : Z) : Prop :=
  top < logical_bottom st
  ∧ match owner st with
    | pop_test b t => t < b → top < b
    | _ => True
    end.

Definition thief_ok (st : state) (t : thief_pc) : Prop :=
  let d := mem st in
  match t with
  | t_idle => True
  | steal_bottom top => 0 ≤ top ∧ top ≤ RingDeque.m_top d
  | steal_buf top =>
      0 ≤ top ∧ top ≤ RingDeque.m_top d ∧ (top = RingDeque.m_top d → claim st top)
  | steal_cell top buf =>
      0 ≤ top ∧ top ≤ RingDeque.m_top d
      ∧ (buf < length (buffers d))%nat
      ∧ (top = RingDeque.m_top d →
         claim st top
         ∧ ∀ r, buffers d !! buf = Some r →
                RingDeque.load top r = RingDeque.load top (RingDeque.m_buf d))
  | steal_cas top tmp =>
      0 ≤ top ∧ top ≤ RingDeque.m_top d
      ∧ (top = RingDeque.m_top d →
         claim st top ∧ RingDeque.load top (RingDeque.m_buf d) = Some tmp)
  end.

Definition owner_ok (st : state) : Prop :=
  let d := mem st in
  match owner st with
  | o_idle => True
  | push_buf _ top =>
      0 ≤ top ∧ top ≤ RingDeque.m_top d
      ∧ RingDeque.m_bottom d - top ≤ RingDeque.m_cap (RingDeque.m_buf d)
  | push_cell _ =>
      RingDeque.m_bottom d - RingDeque.m_top d < RingDeque.m_cap (RingDeque.m_buf d)
  | push_bottom val =>
      RingDeque.m_bottom d - RingDeque.m_top d < RingDeque.m_cap (RingDeque.m_buf d)
      ∧ RingDeque.load (RingDeque.m_bottom d) (RingDeque.m_buf d) = Some val
  | pop_top b => RingDeque.m_bottom d = b
  | pop_test b top =>
      RingDeque.m_bottom d = b ∧ 0 ≤ top ∧ top ≤ RingDeque.m_top d
      ∧ (top < b → RingDeque.m_top d ≤ b)
  | pop_won b | pop_lost b =>
      RingDeque.m_bottom d = b ∧ 0 ≤ b ∧ RingDeque.m_top d = b + 1
  end.

(** [limit] bounds the number of pushes. *)
Definition inv (limit : Z) (st : state) : Prop :=
  let d := mem st in
  Forall RingDeque.ring_ok (buffers d)
  ∧ 0 ≤ RingDeque.m_top d ≤ logical_bottom st
  ∧ logical_bottom st - RingDeque.m_top d ≤ RingDeque.m_cap (RingDeque.m_buf d)
  ∧ RingDeque.m_cap (RingDeque.m_buf d) < 2 ^ 60
  ∧ logical_bottom st + pushes_left st ≤ limit
  ∧ owner_ok st
  ∧ Forall (thief_ok st) (thieves st)
  ∧ pushed_values (log st) ≡ₚ taken_values (log st) ++ held st ++ items st.

End SharedDeque.

(** ** list.hpp: the intrusive list of submitted tasks *)

Module IntrusiveList.

(** [intrusive_list<T>::node] *)
Record node : Type := mk_node {
  m_data : Z;
  m_next : Z
}.

(** [push(new_node)] on the list whose head is [m_head]: the new head and
    the nodes.  The compare-exchange succeeds once no other producer gets in
    between. *)
Definition push (new_node : Z) (m_head : Z) (h : gmap Z node) : option (Z * gmap Z node) :=
  n ← h !! new_node;
  if decide (new_node ≠ 0 ∧ m_next n = 0) then
    Some (new_node, <[new_node := mk_node (m_data n) m_head]> h)
  else None.

(** The loop of [try_pop_all]: [while (last) { ... }]; [None] when a node
    is not live or the fuel does not reach the end of the list. *)
Fixpoint reverse_loop (fuel : nat) (last first : Z) (h : gmap Z node)
    : option (Z * gmap Z node) :=
  match fuel with
  | O => None
  | S k =>
      if decide (last ≠ 0) then
        n ← h !! last;
        reverse_loop k (m_next n) last (<[last := mk_node (m_data n) first]> h)
      else Some (first, h)
  end.

(** [try_pop_all]: the root returned, the new head and the nodes. *)
Definition try_pop_all (fuel : nat) (m_head : Z) (h : gmap Z node)
    : option (Z * Z * gmap Z node) :=
  '(first, h') ← reverse_loop fuel m_head 0 h;
  Some (first, 0, h').

(** [for_each_elem(root, func)] for a [func] that destroys the node it is
    called on: the values [func] is called with, in order, and the nodes
    that are left. *)
Fixpoint for_each_elem (fuel : nat) (root : Z) (h : gmap Z node)
    : option (list Z * gmap Z node) :=
  match fuel with
  | O => None
  | S k =>
      if decide (root ≠ 0) then
        n ← h !! root;
        '(vs, h') ← for_each_elem k (m_next n) (delete root h);
        Some (m_data n :: vs, h')
      else Some ([], h)
  end.

(** Producers push the nodes [ns] one after the other. *)
Fixpoint pushes (ns : list Z) (m_head : Z) (h : gmap Z node) : option (Z * gmap Z node) :=
  match ns with
  | [] => Some (m_head, h)
  | n :: rest => '(hd, h') ← push n m_head h; pushes rest hd h'
  end.

(** The nodes [ns] are linked from [p] on, in this order, up to [nullptr]. *)
Fixpoint linked (h : gmap Z node) (p : Z) (ns : list Z) : Prop :=
  match ns with
  | [] => p = 0
  | n :: rest => p = n ∧ n ≠ 0 ∧ ∃ nd, h !! n = Some nd ∧ linked h (m_next nd) rest
  end.

End IntrusiveList.

(** ** frame.hpp: the control block of a task *)

Module Frame.

Record frame : Type := mk_frame {
  m_eptr : option exn;  (* the exception pointer, when one is constructed *)
  m_stacklet : Z;       (* the stacklet this frame was allocated on *)
  m_parent : Z;         (* the parent frame, or the semaphore of a root *)
  m_join : Z;           (* std::atomic_uint16_t, starts at k_u16_max *)
  m_steal : Z;          (* std::uint16_t *)
  m_except : bool       (* an exception has been set *)
}.

Definition frame_new (stacklet : Z) : frame :=
  mk_frame None stacklet 0 k_u16_max 0 false.

Definition set_parent (parent : Z) (f : frame) : frame :=
  mk_frame (m_eptr f) (m_stacklet f) parent (m_join f) (m_steal f) (m_except f).

Definition stacklet (f : frame) : Z := m_stacklet f.
Definition parent (f : frame) : Z := m_parent f.
Definition semaphore (f : frame) : Z := m_parent f.

Definition load_joins (f : frame) : Z := m_join f.

(** [m_join.fetch_sub(val)]: the value before, and the frame after. *)
Definition fetch_sub_joins (val : Z) (f : frame) : Z * frame :=
  (m_join f,
   mk_frame (m_eptr f) (m_stacklet f) (m_parent f) (wrap16 (m_join f - val))
            (m_steal f) (m_except f)).

Definition load_steals (f : frame) : Z := m_steal f.

(** [m_steal++] *)
Definition fetch_add_steal (f : frame) : Z * frame :=
  (m_steal f,
   mk_frame (m_eptr f) (m_stacklet f) (m_parent f) (m_join f)
            (wrap16 (m_steal f + 1)) (m_except f)).

Definition reset (f : frame) : frame :=
  mk_frame (m_eptr f) (m_stacklet f) (m_parent f) k_u16_max 0 (m_except f).

(** [capture_exception] with [e] the exception being thrown: the first one
    is kept. *)
Definition capture_exception (e : exn) (f : frame) : frame :=
  mk_frame (if m_except f then m_eptr f else Some e)
           (m_stacklet f) (m_parent f) (m_join f) (m_steal f) true.

Definition atomic_has_exception (f : frame) : bool := m_except f.
Definition unsafe_has_exception (f : frame) : bool := m_except f.

(** The frame [rethrow] leaves: the exception pointer destroyed and the
    flag cleared. *)
Definition clear_exception (f : frame) : frame :=
  mk_frame None (m_stacklet f) (m_parent f) (m_join f) (m_steal f) false.

(** [rethrow]: the exception pointer is taken out and rethrown;
    [LF_ASSERT( *m_eptr != nullptr)]. *)
Definition rethrow (f : frame) : option (exn * frame) :=
  e ← m_eptr f;
  Some (e, clear_exception f).

Definition unsafe_rethrow_if_exception (f : frame) : option (result unit * frame) :=
  if m_except f then
    '(e, f') ← rethrow f; Some (Throw e, f')
  else Some (Ok (), f).

End Frame.

(** ** tag.hpp *)

Inductive tag : Type := tag_root | tag_call | tag_fork.

Inductive modifier : Type :=
  | mod_none | mod_sync | mod_sync_outside | mod_eager_throw | mod_eager_throw_outside.

Inductive region : Type := unknown | outside | inside | opening_fork.

Global Instance region_eq_dec : EqDecision region.
Proof. solve_decision. Defined.

(** ** What a worker thread sees *)

(** A coroutine handle: a task's frame, or [std::noop_coroutine()]. *)
Inductive coroutine_handle : Type :=
  | coro (frame : Z)
  | noop_coroutine.

(** The atomic operations and the destructions a function performs, in
    program order. *)
Inductive event : Type :=
  | ev_load_joins (frame : Z) (order : memory_order)
  | ev_fetch_sub_joins (frame : Z) (val : Z) (order : memory_order)
  | ev_fence (order : memory_order)
  | ev_destroy (frame : Z)
  | ev_sem_release (sem : Z).

(** The frames in memory, keyed by address, with the thread-local stack
    ([tls::stack()]) and context ([tls::context()]) of the worker. *)
Record world : Type := mk_world {
  frames : gmap Z Frame.frame;
  tls_stack : Stack.stack;
  tls_context : Deque.deque;
  trace : list event
}.

Definition set_frames (fs : gmap Z Frame.frame) (w : world) : world :=
  mk_world fs (tls_stack w) (tls_context w) (trace w).
Definition set_stack (s : Stack.stack) (w : world) : world :=
  mk_world (frames w) s (tls_context w) (trace w).
Definition set_context (d : Deque.deque) (w : world) : world :=
  mk_world (frames w) (tls_stack w) d (trace w).
Definition emit (e : event) (w : world) : world :=
  mk_world (frames w) (tls_stack w) (tls_context w) (trace w ++ [e]).

(** [handle.destroy()]: the promise is destructed and the coroutine's memory
    is given back to the worker's stack by [promise_base::operator delete]. *)
Definition destroy (c : Z) (w : world) : option world :=
  _ ← frames w !! c;
  s ← Stack.deallocate c (tls_stack w);
  Some (emit (ev_destroy c) (set_stack s (set_frames (delete c (frames w)) w))).

(** The creation of the coroutine of a forked or called child of [parent]:
    [promise_base::operator new] takes [size] bytes from the worker's stack
    ([tls::stack()->allocate(size)]), [promise::promise] constructs the frame
    in them with [tls::stack()->top()] as its stacklet, and [await_transform]
    in the parent calls [set_parent]. *)
Definition create (k_new_align sizeof_stacklet : Z) (malloc : Z → option Z)
    (size parent : Z) (w : world) : option (result Z * world) :=
  '(r, s) ← Stack.allocate k_new_align sizeof_stacklet malloc size (tls_stack w);
  match r with
  | Throw e => Some (Throw e, set_stack s w)
  | Ok c =>
      let f := Frame.set_parent parent (Frame.frame_new (Stack.stack_top s)) in
      Some (Ok c, set_frames (<[c := f]> (frames w)) (set_stack s w))
  end.

(** What a non-returning suspension hands to the coroutine machinery: the
    coroutine to transfer to, or the end of the program when a [noexcept]
    function lets an exception out. *)
Inductive control : Type :=
  | transfer (h : coroutine_handle)
  | terminate.

(** [expr.await]: when [await_suspend] throws, the exception is caught, the
    awaiting coroutine is resumed and the exception is rethrown in it. *)
Inductive suspension : Type :=
  | symmetric_transfer (h : coroutine_handle)
  | resume_and_rethrow (awaiting : Z) (e : exn).

Definition co_await_suspend (awaiting : Z) (r : result coroutine_handle) : suspension :=
  match r with
  | Ok h => symmetric_transfer h
  | Throw e => resume_and_rethrow awaiting e
  end.

(** ** tls.hpp: the thread-local stack and context of a worker *)

Module Tls.

Inductive error : Type :=
  | worker_already_initialized   (* runtime_error("Worker already initialized") *)
  | finalize_on_wrong_thread     (* runtime_error("Finalize called on wrong thread") *)
  | finalize_not_initialized     (* runtime_error("Finalize called before ...") *)
  | schedule_in_worker
  | allocation_failed.           (* std::bad_alloc *)

Inductive outcome (A : Type) : Type :=
  | Returns (a : A)
  | Throws (e : error).
Arguments Returns {A} a.
Arguments Throws {A} e.

(** The thread-local variables: the two flags, and whether an object lives
    in each of the two [manual_lifetime]s. *)
Record tls : Type := mk_tls {
  has_stack : bool;
  thread_stack : bool;
  has_context : bool;
  thread_context : bool
}.

(** The values the variables are initialised with. *)
Definition initial : tls := mk_tls false false false false.

(** [manual_lifetime::destroy]: there must be an object to destroy. *)
Definition destroy_stack (t : tls) : option tls :=
  if thread_stack t then Some (mk_tls (has_stack t) false (has_context t) (thread_context t))
  else None.

Definition destroy_context (t : tls) : option tls :=
  if thread_context t then Some (mk_tls (has_stack t) (thread_stack t) (has_context t) false)
  else None.

(** [tls::stack()] and [tls::context()]: the object behind the pointer
    returned is used by the caller. *)
Definition stack (t : tls) : option unit :=
  if has_stack t && thread_stack t then Some () else None.

Definition context (t : tls) : option unit :=
  if has_context t && thread_context t then Some () else None.

(** [worker_init]; [data] is [thread_context.data()], the address of the
    thread's storage, and [stack_ok] tells whether the construction of the
    stack succeeds or throws. *)
Definition worker_init (stack_ok : bool) (data : Z) (t : tls) : option (outcome Z * tls) :=
  if has_context t && has_stack t then Some (Throws worker_already_initialized, t)
  else
    let t1 := mk_tls (has_stack t) (thread_stack t) (has_context t) true in
    t2 ← (if stack_ok
          then Some (mk_tls (has_stack t1) true (has_context t1) (thread_context t1))
          else destroy_context t1);
    Some (Returns data, mk_tls true (thread_stack t2) true (thread_context t2)).

(** [finalize(worker)] *)
Definition finalize (worker data : Z) (t : tls) : option (outcome unit * tls) :=
  if decide (worker ≠ data) then Some (Throws finalize_on_wrong_thread, t)
  else if negb (has_context t) || negb (has_stack t)
  then Some (Throws finalize_not_initialized, t)
  else
    t1 ← destroy_context t;
    t2 ← destroy_stack t1;
    Some (Returns (), mk_tls false (thread_stack t2) false (thread_context t2)).

(** What [schedule] does to the thread-local variables; [rest_ok] tells
    whether what follows the construction of the stack returns or throws. *)
Definition schedule (stack_ok rest_ok : bool) (t : tls) : option (outcome unit * tls) :=
  if has_stack t || has_context t then Some (Throws schedule_in_worker, t)
  else if stack_ok then
    let t1 := mk_tls true true (has_context t) (thread_context t) in
    t2 ← destroy_stack t1;
    Some (if rest_ok then Returns () else Throws allocation_failed,
          mk_tls false (thread_stack t2) (has_context t2) (thread_context t2))
  else Some (Throws allocation_failed, t).

End Tls.

(** ** awaitables.hpp *)

Module Awaitables.

(** [try_self_stealing] *)
Definition try_self_stealing (w : world) : option (coroutine_handle * world) :=
  let '(eff_stolen, d) := Deque.pop (tls_context w) in
  if decide (eff_stolen ≠ 0) then
    f ← frames w !! eff_stolen;
    Some (coro eff_stolen,
          set_frames (<[eff_stolen := (Frame.fetch_add_steal f).2]> (frames w))
                     (set_context d w))
  else Some (noop_coroutine, set_context d w).

(** [fork_awaitable] *)
Record fork_awaitable : Type := mk_fork_awaitable {
  fork_child : Z;  (* unique_frame child *)
  fork_self : Z    (* frame *self *)
}.

(** [fork_awaitable::await_suspend].  When the push throws, the local
    [unique_frame stack_child] is destructed, which destroys the child. *)
Definition fork_await_suspend (new_ok : bool) (a : fork_awaitable) (w : world)
    : option (result coroutine_handle * fork_awaitable * world) :=
  let stack_child := fork_child a in
  let a' := mk_fork_awaitable 0 (fork_self a) in
  match Deque.push new_ok (fork_self a) (tls_context w) with
  | Throw e =>
      w' ← (if decide (stack_child ≠ 0) then destroy stack_child w else Some w);
      Some (Throw e, a', w')
  | Ok d => Some (Ok (coro stack_child), a', set_context d w)
  end.

(** [co_await] on a [fork_awaitable], up to the transfer of control. *)
Definition fork_co_await (new_ok : bool) (a : fork_awaitable) (w : world)
    : option (suspension * fork_awaitable * world) :=
  '(r, a', w') ← fork_await_suspend new_ok a w;
  Some (co_await_suspend (fork_self a) r, a', w').

(** [call_awaitable::await_suspend] *)
Definition call_await_suspend (child : Z) (w : world) : coroutine_handle * Z * world :=
  (coro child, 0, w).

(** [sync_fork_awaitable<ChildThrows, R>::await_resume] *)
Definition sync_fork_await_resume (ChildThrows : bool) (R : region)
    (steals_pre : Z) (self : Z) (w : world) : option (result bool * world) :=
  f ← frames w !! self;
  let steals_post := Frame.load_steals f in
  if decide (steals_post = steals_pre) then
    if ChildThrows then
      if decide (R = opening_fork) then
        '(r, f') ← Frame.unsafe_rethrow_if_exception f;
        Some (match r with Throw e => Throw e | Ok _ => Ok true end,
              set_frames (<[self := f']> (frames w)) w)
      else if decide (steals_post = 0) then
        '(r, f') ← Frame.unsafe_rethrow_if_exception f;
        Some (match r with Throw e => Throw e | Ok _ => Ok true end,
              set_frames (<[self := f']> (frames w)) w)
      else if Frame.atomic_has_exception f then Some (Throw exception_before_join, w)
      else Some (Ok true, w)
    else Some (Ok true, w)
  else Some (Ok false, w).

(** [eager_call_awaitable<R>::await_resume] *)
Definition eager_call_await_resume (R : region) (self : Z) (w : world)
    : option (result unit * world) :=
  f ← frames w !! self;
  if decide (R = outside) then
    '(r, f') ← Frame.unsafe_rethrow_if_exception f;
    Some (r, set_frames (<[self := f']> (frames w)) w)
  else if decide (Frame.load_steals f = 0) then
    '(r, f') ← Frame.unsafe_rethrow_if_exception f;
    Some (r, set_frames (<[self := f']> (frames w)) w)
  else if Frame.atomic_has_exception f then Some (Throw exception_before_join, w)
  else Some (Ok (), w).

(** [join_awaitable::take_stack_reset_frame] *)
Definition take_stack_reset_frame (self : Z) (w : world) : option world :=
  f ← frames w !! self;
  s ← Stack.stack_assign_from (Frame.stacklet f) (tls_stack w);
  Some (set_frames (<[self := Frame.reset f]> (frames w)) (set_stack s w)).

(** [join_awaitable::await_ready] *)
Definition join_await_ready (self : Z) (w : world) : option (bool * world) :=
  f ← frames w !! self;
  if decide (Frame.load_steals f = 0) then Some (true, w)
  else
    let w1 := emit (ev_load_joins self acquire) w in
    let joined := k_u16_max - Frame.load_joins f in
    if decide (Frame.load_steals f = joined) then
      w2 ← take_stack_reset_frame self w1; Some (true, w2)
    else Some (false, w1).

(** [join_awaitable::await_suspend] *)
Definition join_await_suspend (self : Z) (task : coroutine_handle) (w : world)
    : option (coroutine_handle * world) :=
  f ← frames w !! self;
  let steals := Frame.load_steals f in
  let '(joined, f') := Frame.fetch_sub_joins (wrap16 (k_u16_max - steals)) f in
  let w1 := emit (ev_fetch_sub_joins self (wrap16 (k_u16_max - steals)) release)
                 (set_frames (<[self := f']> (frames w)) w) in
  if decide (steals = k_u16_max - joined) then
    w2 ← take_stack_reset_frame self (emit (ev_fence acquire) w1);
    Some (task, w2)
  else try_self_stealing w1.

(** [join_awaitable::await_resume] *)
Definition join_await_resume (self : Z) (w : world) : option (result unit * world) :=
  f ← frames w !! self;
  '(r, f') ← Frame.unsafe_rethrow_if_exception f;
  Some (r, set_frames (<[self := f']> (frames w)) w).

End Awaitables.

(** ** promise.hpp *)

Module Promise.

(** The awaitable [await_transform] picks for a fork or a call with a given
    modifier; [throwing] is [stash_exception_in_return<I>]. *)
Inductive awaitable : Type :=
  | call_awaitable
  | eager_call_awaitable (R : region)
  | fork_awaitable
  | sync_fork_awaitable (ChildThrows : bool) (R : region).

Definition await_transform (t : tag) (m : modifier) (throwing : bool) : option awaitable :=
  match t with
  | tag_call =>
      match m with
      | mod_eager_throw => Some (if throwing then eager_call_awaitable unknown else call_awaitable)
      | mod_eager_throw_outside =>
          Some (if throwing then eager_call_awaitable outside else call_awaitable)
      | _ => Some call_awaitable
      end
  | tag_fork =>
      match m with
      | mod_none => Some fork_awaitable
      | mod_sync => Some (sync_fork_awaitable throwing unknown)
      | mod_sync_outside => Some (sync_fork_awaitable throwing opening_fork)
      | _ => None
      end
  | tag_root => None
  end.

(** What [await_resume] of the picked awaitable does in the parent [self];
    [steals_pre] is the steal count [await_transform] read before the fork.
    The result is [Some b] for a sync fork's report and [None] otherwise. *)
Definition await_resume (a : awaitable) (steals_pre : Z) (self : Z) (w : world)
    : option (result (option bool) * world) :=
  match a with
  | call_awaitable | fork_awaitable => Some (Ok None, w)
  | eager_call_awaitable R =>
      '(r, w') ← Awaitables.eager_call_await_resume R self w;
      Some (match r with Throw e => Throw e | Ok _ => Ok None end, w')
  | sync_fork_awaitable ChildThrows R =>
      '(r, w') ← Awaitables.sync_fork_await_resume ChildThrows R steals_pre self w;
      Some (match r with Throw e => Throw e | Ok b => Ok (Some b) end, w')
  end.

(** [promise::unhandled_exception] of a forked or called [child] whose
    return address does not stash exceptions: the exception [e] in flight is
    handed to the parent's frame. *)
Definition unhandled_exception (e : exn) (child : Z) (w : world) : option world :=
  c ← frames w !! child;
  p ← frames w !! Frame.parent c;
  Some (set_frames (<[Frame.parent c := Frame.capture_exception e p]> (frames w)) w).

(** Children that end in an exception one after the other, in the order of
    their exchanges on the parent's flag. *)
Fixpoint unhandled_exceptions (ces : list (Z * exn)) (w : world) : option world :=
  match ces with
  | [] => Some w
  | (child, e) :: rest => w' ← unhandled_exception e child w; unhandled_exceptions rest w'
  end.

(** The parent's frame after the [capture_exception]s of those children. *)
Definition captures (f : Frame.frame) (ces : list (Z * exn)) : Frame.frame :=
  foldl (λ f ce, Frame.capture_exception ce.2 f) f ces.

Section Platform.

Variable sizeof_stacklet : Z.

(** [detail::final_await_suspend].  It is [noexcept]: an allocation failure
    in [release] ends the program. *)
Definition final_await_suspend (malloc : Z → option Z) (parent : Z) (w : world)
    : option (control * world) :=
  let '(parent_task, d) := Deque.pop (tls_context w) in
  if decide (parent_task ≠ 0) then
    Some (transfer (coro parent), set_context d w)
  else
    let w0 := set_context d w in
    p ← frames w0 !! parent;
    let p_stacklet := Frame.stacklet p in
    let c_stacklet := Stack.stack_top (tls_stack w0) in
    let '(before, p') := Frame.fetch_sub_joins 1 p in
    let w1 := emit (ev_fetch_sub_joins parent 1 release)
                   (set_frames (<[parent := p']> (frames w0)) w0) in
    if decide (before = 1) then
      let w2 := emit (ev_fence acquire) w1 in
      w3 ← (if decide (p_stacklet ≠ c_stacklet) then
              s ← Stack.stack_assign_from p_stacklet (tls_stack w2);
              Some (set_stack s w2)
            else Some w2);
      Some (transfer (coro parent),
            set_frames (<[parent := Frame.reset p']> (frames w3)) w3)
    else if decide (p_stacklet = c_stacklet) then
      r ← Stack.stack_release sizeof_stacklet malloc (tls_stack w1);
      match r with
      | Throw _ => Some (terminate, w1)
      | Ok (_, s) => Some (transfer noop_coroutine, set_stack s w1)
      end
    else Some (transfer noop_coroutine, w1).

(** [promise<R, I, Tag>::final_awaitable::await_suspend] *)
Definition final_awaitable_await_suspend (t : tag) (malloc : Z → option Z)
    (child : Z) (w : world) : option (control * world) :=
  c ← frames w !! child;
  match t with
  | tag_root =>
      w1 ← destroy child (emit (ev_sem_release (Frame.semaphore c)) w);
      Some (transfer noop_coroutine, w1)
  | tag_call =>
      w1 ← destroy child w;
      Some (transfer (coro (Frame.parent c)), w1)
  | tag_fork =>
      w1 ← destroy child w;
      final_await_suspend malloc (Frame.parent c) w1
  end.

End Platform.

End Promise.

(** ** The join of a frame whose continuation was stolen

    The parties of the join of the frame [self]: the forked children that
    reach their final suspend on a worker, each with the stack and the deque
    of that worker, and the worker of the parent, which evaluates
    [await_ready] at the join and, when that is false, [await_suspend].
    Every party does one operation on the join counter of [self], so a list
    of parties is an order of these operations. *)

Module JoinRace.

Inductive party : Type :=
  | child_final (tls_stack : Stack.stack) (tls_context : Deque.deque)
  | parent_ready
  | parent_suspend.

(** Where the parent is: before its join, between [await_ready] and
    [await_suspend], suspended at the join, or resumed after it. *)
Inductive join_pc : Type := at_join | not_ready | suspended | resumed.

Record state : Type := mk_state {
  shared : gmap Z Frame.frame;   (* the frames, which all workers see *)
  parent_stack : Stack.stack;    (* the stack of the parent's worker *)
  parent_context : Deque.deque;  (* the deque of the parent's worker *)
  pc : join_pc;
  resumptions : nat              (* how often the parent went on after the join *)
}.

Definition is_handle (self : Z) (h : coroutine_handle) : bool :=
  match h with
  | coro c => bool_decide (c = self)
  | noop_coroutine => false
  end.

(** The frame [f] with the join counter at [j]. *)
Definition counting (j : Z) (f : Frame.frame) : Frame.frame :=
  Frame.mk_frame (Frame.m_eptr f) (Frame.m_stacklet f) (Frame.m_parent f) j
                 (Frame.m_steal f) (Frame.m_except f).

Section Platform.

Variable sizeof_stacklet : Z.
Variable malloc : Z → option Z.
Variable self : Z.

(** One party runs its function; a program that [std::terminate] ended has
    no next state. *)
Definition step (p : party) (st : state) : option state :=
  match p with
  | child_final s d =>
      '(c, w) ← Promise.final_await_suspend sizeof_stacklet malloc self
                  (mk_world (shared st) s d []);
      match c with
      | terminate => None
      | transfer h =>
          Some (mk_state (frames w) (parent_stack st) (parent_context st) (pc st)
                         (if is_handle self h then S (resumptions st) else resumptions st))
      end
  | parent_ready =>
      match pc st with
      | at_join =>
          '(b, w) ← Awaitables.join_await_ready self
                      (mk_world (shared st) (parent_stack st) (parent_context st) []);
          Some (mk_state (frames w) (tls_stack w) (tls_context w)
                         (if (b : bool) then resumed else not_ready)
                         (if (b : bool) then S (resumptions st) else resumptions st))
      | _ => None
      end
  | parent_suspend =>
      match pc st with
      | not_ready =>
          '(h, w) ← Awaitables.join_await_suspend self (coro self)
                      (mk_world (shared st) (parent_stack st) (parent_context st) []);
          Some (mk_state (frames w) (tls_stack w) (tls_context w)
                         (if is_handle self h then resumed else suspended)
                         (if is_handle self h then S (resumptions st) else resumptions st))
      | _ => None
      end
  end.

Fixpoint run (ps : list party) (st : state) : option state :=
  match ps with
  | [] => Some st
  | p :: rest => st' ← step p st; run rest st'
  end.

End Platform.

(** A child whose parent was stolen: the deque of its worker gives it
    nothing, and the worker has a stack. *)
Definition stolen_from (p : party) : Prop :=
  match p with
  | child_final s d =>
      Deque.items d = [] ∧ is_Some (Stack.heap s !! Stack.m_fib s)
  | _ => False
  end.

End JoinRace.

(** ** Sample stacks

    The first stacklet of a fresh stack on an LP64 platform
    ([k_new_align = 16], [sizeof(stacklet) = 48]): [malloc] answered the
    request of 4048 bytes with the block at 4096. *)
Module StackSamples.

Definition top0 : Stack.stacklet := Stack.mk_stacklet 4144 4144 8144 0 0.
Definition st0 : Stack.stack := Stack.mk_stack {[ 4096 := top0 ]} 4096.

(** A [malloc] that has one block left, at 12288, for requests below 1 MiB. *)
Definition malloc0 (request : Z) : option Z :=
  if decide (request < 2 ^ 20) then Some 12288 else None.

(** A [malloc] that has nothing left. *)
Definition malloc_null (request : Z) : option Z := None.

End StackSamples.

(** ** event_count.hpp *)

Definition wrap32 (x : Z) : Z := x mod 2 ^ 32.

Module EventCount.

Definition k_add_waiter : Z := 1.
Definition k_sub_waiter : Z := wrap64 (-1).
Definition k_epoch_shift : Z := 32.
Definition k_add_epoch : Z := Z.shiftl 1 k_epoch_shift.
Definition k_waiter_mask : Z := k_add_epoch - 1.

(** [m_val.fetch_add(x)]: the value before, and the word after. *)
Definition fetch_add (x m_val : Z) : Z * Z := (m_val, wrap64 (m_val + x)).

(** The 32-bit half of [m_val] that [epoch()] points at. *)
Definition epoch (m_val : Z) : Z := wrap32 (Z.shiftr m_val k_epoch_shift).

(** [notify_one] and [notify_all] up to the call on the futex: the word
    after, and whether there was a waiter to notify. *)
Definition notify (m_val : Z) : bool * Z :=
  let '(prev, m) := fetch_add k_add_epoch m_val in
  (negb (Z.land prev k_waiter_mask =? 0), m).

(** [prepare_wait]: the key, and the word after. *)
Definition prepare_wait (m_val : Z) : Z * Z :=
  let '(prev, m) := fetch_add k_add_waiter m_val in
  (wrap32 (Z.shiftr prev k_epoch_shift), m).

(** [cancel_wait], and the end of [wait]. *)
Definition cancel_wait (m_val : Z) : Z := (fetch_add k_sub_waiter m_val).2.

(** [epoch()->wait(key)] blocks while the epoch is the key. *)
Definition blocks (key m_val : Z) : bool := epoch m_val =? key.

(** [prev & k_waiter_mask]: the waiter count held in the low half. *)
Definition waiters (m_val : Z) : Z := Z.land m_val k_waiter_mask.

(** The calls that threads make on one event count.  [call_cancel_wait]
    stands for [cancel_wait] and for the end of a [wait] that returned. *)
Inductive call : Type := call_notify | call_prepare_wait | call_cancel_wait.

(** One call on the word; [cancel_wait] and [wait] assume that a waiter is
    registered ([LF_ASSERT((prev & k_waiter_mask) != 0)]). *)
Definition run_call (c : call) (m_val : Z) : option Z :=
  match c with
  | call_notify => Some (notify m_val).2
  | call_prepare_wait => Some (prepare_wait m_val).2
  | call_cancel_wait =>
      if waiters m_val =? 0 then None else Some (cancel_wait m_val)
  end.

(** A sequence of calls, in the order of their [fetch_add]s. *)
Fixpoint run_calls (cs : list call) (m_val : Z) : option Z :=
  match cs with
  | [] => Some m_val
  | c :: rest => m ← run_call c m_val; run_calls rest m
  end.

Definition is_notify (c : call) : bool :=
  match c with call_notify => true | _ => false end.

(** How many of the calls are [notify_one] or [notify_all]. *)
Definition notifications (cs : list call) : Z :=
  Z.of_nat (length (filter (λ c, is_notify c = true) cs)).

Definition is_prepare_wait (c : call) : bool :=
  match c with call_prepare_wait => true | _ => false end.

(** How many of the calls are [prepare_wait]. *)
Definition registrations (cs : list call) : Z :=
  Z.of_nat (length (filter (λ c, is_prepare_wait c = true) cs)).

End EventCount.

(** ** lazy_pool.hpp *)

Module Lazy.

(** [lazy_vars::fat_counters] *)
Record fat_counters : Type := mk_fat {
  thief : Z;     (* std::atomic_uint64_t *)
  notifier : Z   (* the m_val of the event_count *)
}.

(** [lazy_vars], with the stop flag of [busy_vars]. *)
Record lazy_vars : Type := mk_vars {
  active : Z;
  numa : list fat_counters;
  stop : bool
}.

Definition set_thief (x : Z) (c : fat_counters) : fat_counters := mk_fat x (notifier c).
Definition set_notifier (m : Z) (c : fat_counters) : fat_counters := mk_fat (thief c) m.
Definition set_active (a : Z) (v : lazy_vars) : lazy_vars := mk_vars a (numa v) (stop v).
Definition set_numa (i : nat) (c : fat_counters) (v : lazy_vars) : lazy_vars :=
  mk_vars (active v) (<[i := c]> (numa v)) (stop v).

(** *** [thief_work_sleep] run without interference

    The part before [resume(handle)]: the counters after, and the domains on
    whose notifier [notify_one] was called, in program order. *)
Definition notify_one_call (i : nat) (st : lazy_vars * list nat) : lazy_vars * list nat :=
  match numa st.1 !! i with
  | Some c => (set_numa i (set_notifier (EventCount.notify (notifier c)).2 c) st.1,
               st.2 ++ [i])
  | None => st
  end.

Definition notify_idle_domain (st : lazy_vars * list nat) (i : nat) : lazy_vars * list nat :=
  match numa st.1 !! i with
  | Some c => if thief c =? 0 then notify_one_call i st else st
  | None => st
  end.

Definition thief_work_sleep_enter (tid : nat) (v : lazy_vars) : option (lazy_vars * list nat) :=
  c ← numa v !! tid;
  let st1 := (set_numa tid (set_thief (wrap64 (thief c - 1)) c) v, []) in
  let st2 := if thief c =? 1 then notify_one_call tid st1 else st1 in
  let st3 := (set_active (wrap64 (active st2.1 + 1)) st2.1, st2.2) in
  if active st2.1 =? 0 then
    Some (foldl notify_idle_domain st3 (seq 0 (length (numa v))))
  else Some st3.

(** The domains whose thief counter reads zero. *)
Definition idle (v : lazy_vars) (i : nat) : bool :=
  match numa v !! i with
  | Some c => thief c =? 0
  | None => false
  end.

(** The part after [resume(handle)]. *)
Definition thief_work_sleep_leave (v : lazy_vars) : lazy_vars :=
  set_active (wrap64 (active v - 1)) v.

(** *** The workers as a transition system

    A program point stands before the next operation on shared state of
    [lazy_work] (inlining [thief_work_sleep]). *)
Inductive pc : Type :=
  | wake_up                    (* thief.fetch_add(1) *)
  | find_work                  (* try_pop_all(), try_steal() *)
  | do_prepare                 (* notifier.prepare_wait() *)
  | prepared (key : Z)         (* try_pop_all(), stop.test() *)
  | cancel_for_work            (* cancel_wait(), then thief_work_sleep *)
  | stop_cancel                (* cancel_wait() *)
  | stop_notify                (* notify_all(): the fetch_add *)
  | stop_wake                  (* notify_all(): the futex *)
  | stop_dec                   (* thief.fetch_sub(1), return *)
  | sleep_dec (key : Z)        (* thief.fetch_sub(1) == 1 ? *)
  | sleep_check (key : Z)      (* active.load() > 0 ? *)
  | sleep_cancel               (* cancel_wait(), goto wake_up *)
  | waiting (key : Z)          (* wait(key): compare the epoch *)
  | blocked (key : Z)          (* asleep in wait(key) *)
  | woken                      (* wait(key): fetch_add(k_sub_waiter), goto wake_up *)
  | tws_enter                  (* numa[tid].thief.fetch_sub(1) == 1 ? *)
  | tws_notify                 (* numa[tid].notifier.notify_one(): the fetch_add *)
  | tws_wake                   (* numa[tid].notifier.notify_one(): the futex *)
  | tws_active                 (* active.fetch_add(1) == 0 ? *)
  | tws_loop (i : nat)         (* domain.thief.load() == 0 ?, or the end of the loop *)
  | tws_loop_notify (i : nat)  (* domain.notifier.notify_one(): the fetch_add *)
  | tws_loop_wake (i : nat)    (* domain.notifier.notify_one(): the futex *)
  | running                    (* resume(handle), then active.fetch_sub(1) *)
  | exited.

Record thread : Type := mk_thread {
  dom : nat;  (* node.numa *)
  at_pc : pc
}.

Record state : Type := mk_state {
  vars : lazy_vars;
  threads : list thread
}.

Definition is_blocked (d : nat) (t : thread) : bool :=
  bool_decide (dom t = d) && match at_pc t with blocked _ => true | _ => false end.

(** The futex's [notify_one]: a thread blocked on domain [d]'s epoch returns
    from its wait; [victim] names it, and is [None] when there is none. *)
Definition futex_wake_one (d : nat) (victim : option nat) (l : list thread)
    : option (list thread) :=
  match victim with
  | Some v =>
      t ← l !! v;
      if is_blocked d t then Some (<[v := mk_thread (dom t) woken]> l) else None
  | None => if existsb (is_blocked d) l then None else Some l
  end.

(** The futex's [notify_all]. *)
Definition futex_wake_all (d : nat) (l : list thread) : list thread :=
  (λ t, if is_blocked d t then mk_thread (dom t) woken else t) <$> l.

Definition goto (u : nat) (t : thread) (p : pc) (v : lazy_vars) (s : state) : state :=
  mk_state v (<[u := mk_thread (dom t) p]> (threads s)).

(** One operation of thread [u].  [found] is what [try_pop_all] or
    [try_steal] answers where the thread asks. *)
Definition step_thread (u : nat) (found : bool) (victim : option nat) (s : state)
    : option state :=
  t ← threads s !! u;
  c ← numa (vars s) !! dom t;
  let v := vars s in
  let d := dom t in
  match at_pc t with
  | wake_up =>
      Some (goto u t find_work (set_numa d (set_thief (wrap64 (thief c + 1)) c) v) s)
  | find_work =>
      Some (goto u t (if found then tws_enter else do_prepare) v s)
  | do_prepare =>
      let '(key, m) := EventCount.prepare_wait (notifier c) in
      Some (goto u t (prepared key) (set_numa d (set_notifier m c) v) s)
  | prepared key =>
      Some (goto u t (if found then cancel_for_work
                      else if stop v then stop_cancel else sleep_dec key) v s)
  | cancel_for_work =>
      Some (goto u t tws_enter
                 (set_numa d (set_notifier (EventCount.cancel_wait (notifier c)) c) v) s)
  | stop_cancel =>
      Some (goto u t stop_notify
                 (set_numa d (set_notifier (EventCount.cancel_wait (notifier c)) c) v) s)
  | stop_notify =>
      let '(waiters, m) := EventCount.notify (notifier c) in
      Some (goto u t (if waiters then stop_wake else stop_dec)
                 (set_numa d (set_notifier m c) v) s)
  | stop_wake =>
      Some (goto u t stop_dec v (mk_state v (futex_wake_all d (threads s))))
  | stop_dec =>
      Some (goto u t exited (set_numa d (set_thief (wrap64 (thief c - 1)) c) v) s)
  | sleep_dec key =>
      Some (goto u t (if thief c =? 1 then sleep_check key else waiting key)
                 (set_numa d (set_thief (wrap64 (thief c - 1)) c) v) s)
  | sleep_check key =>
      Some (goto u t (if 0 <? active v then sleep_cancel else waiting key) v s)
  | sleep_cancel =>
      Some (goto u t wake_up
                 (set_numa d (set_notifier (EventCount.cancel_wait (notifier c)) c) v) s)
  | waiting key =>
      Some (goto u t (if EventCount.blocks key (notifier c) then blocked key else woken) v s)
  | blocked key =>
      if EventCount.blocks key (notifier c) then None
      else Some (goto u t woken v s)
  | woken =>
      Some (goto u t wake_up
                 (set_numa d (set_notifier (EventCount.cancel_wait (notifier c)) c) v) s)
  | tws_enter =>
      Some (goto u t (if thief c =? 1 then tws_notify else tws_active)
                 (set_numa d (set_thief (wrap64 (thief c - 1)) c) v) s)
  | tws_notify =>
      let '(waiters, m) := EventCount.notify (notifier c) in
      Some (goto u t (if waiters then tws_wake else tws_active)
                 (set_numa d (set_notifier m c) v) s)
  | tws_wake =>
      l ← futex_wake_one d victim (threads s);
      Some (goto u t tws_active v (mk_state v l))
  | tws_active =>
      Some (goto u t (if active v =? 0 then tws_loop 0 else running)
                 (set_active (wrap64 (active v + 1)) v) s)
  | tws_loop i =>
      match numa v !! i with
      | Some ci => Some (goto u t (if thief ci =? 0 then tws_loop_notify i
                                   else tws_loop (S i)) v s)
      | None => Some (goto u t running v s)
      end
  | tws_loop_notify i =>
      ci ← numa v !! i;
      let '(waiters, m) := EventCount.notify (notifier ci) in
      Some (goto u t (if waiters then tws_loop_wake i else tws_loop (S i))
                 (set_numa i (set_notifier m ci) v) s)
  | tws_loop_wake i =>
      l ← futex_wake_one i victim (threads s);
      Some (goto u t (tws_loop (S i)) v (mk_state v l))
  | running =>
      Some (goto u t wake_up (set_active (wrap64 (active v - 1)) v) s)
  | exited => None
  end.

(** What happens to the shared state from outside the workers' loops: a
    submission to a worker of domain [d] calls its [notify_all], in two
    operations; the pool's destructor sets the stop flag. *)
Inductive label : Type :=
  | by_thread (u : nat) (found : bool) (victim : option nat)
  | submit_bump (d : nat)
  | submit_wake (d : nat)
  | request_stop.

Definition step (l : label) (s : state) : option state :=
  match l with
  | by_thread u found victim => step_thread u found victim s
  | submit_bump d =>
      c ← numa (vars s) !! d;
      Some (mk_state (set_numa d (set_notifier (EventCount.notify (notifier c)).2 c) (vars s))
                     (threads s))
  | submit_wake d => Some (mk_state (vars s) (futex_wake_all d (threads s)))
  | request_stop =>
      Some (mk_state (mk_vars (active (vars s)) (numa (vars s)) true) (threads s))
  end.

Fixpoint run (ls : list label) (s : state) : option state :=
  match ls with
  | [] => Some s
  | l :: ls' => s' ← step l s; run ls' s'
  end.

(** The pool after the start latch: every counter is zero and every worker
    stands at [wake_up]; [doms] gives the domain of each worker. *)
Definition init (ndom : nat) (doms : list nat) : state :=
  mk_state (mk_vars 0 (replicate ndom (mk_fat 0 0)) false)
           ((λ d, mk_thread d wake_up) <$> doms).

Definition reachable (ndom : nat) (doms : list nat) (n : nat) (s : state) : Prop :=
  ∃ ls, length ls = n ∧ run ls (init ndom doms) = Some s.

(** *** Counting workers *)

Definition b2z (b : bool) : Z := if b then 1 else 0.

Fixpoint count (P : thread → bool) (l : list thread) : Z :=
  match l with
  | [] => 0
  | t :: l' => (if P t then 1 else 0) + count P l'
  end.

Definition in_dom (d : nat) (P : pc → bool) (t : thread) : bool :=
  bool_decide (dom t = d) && P (at_pc t).

(** Workers counted in [thief]. *)
Definition thief_pc (p : pc) : bool :=
  match p with
  | find_work | do_prepare | prepared _ | cancel_for_work | stop_cancel | stop_notify
  | stop_wake | stop_dec | sleep_dec _ | tws_enter => true
  | _ => false
  end.

(** Workers counted in [active]. *)
Definition active_pc (p : pc) : bool :=
  match p with
  | tws_loop _ | tws_loop_notify _ | tws_loop_wake _ | running => true
  | _ => false
  end.

(** Workers counted in the waiter half of the notifier. *)
Definition waiter_pc (p : pc) : bool :=
  match p with
  | prepared _ | cancel_for_work | stop_cancel | sleep_dec _ | sleep_check _
  | sleep_cancel | waiting _ | blocked _ | woken => true
  | _ => false
  end.

(** Workers asleep. *)
Definition blocked_pc (p : pc) : bool :=
  match p with blocked _ => true | _ => false end.

(** Workers about to fall asleep: their key is still the epoch [e]. *)
Definition closing_pc (e : Z) (p : pc) : bool :=
  match p with waiting k => k =? e | _ => false end.

(** Workers that are awake and will count themselves as thieves before they
    can sleep: on the way to [wake_up], or, with an active worker around,
    about to find that out. *)
Definition rising_pc (e : Z) (p : pc) : bool :=
  match p with
  | wake_up | woken | sleep_cancel | sleep_check _ => true
  | waiting k => negb (k =? e)
  | _ => false
  end.

(** Workers that are about to call [notify_one] on domain [d], or will look
    at domain [d] in their loop. *)
Definition notifying (d : nat) (t : thread) : bool :=
  match at_pc t with
  | tws_notify => bool_decide (dom t = d)
  | tws_loop i | tws_loop_notify i => bool_decide (i ≤ d)%nat
  | tws_loop_wake i => bool_decide (i < d)%nat
  | _ => false
  end.

(** Workers between the two halves of a [notify_one] on domain [d]. *)
Definition waking (d : nat) (t : thread) : bool :=
  match at_pc t with
  | tws_wake => bool_decide (dom t = d)
  | tws_loop_wake i => bool_decide (i = d)
  | _ => false
  end.

Definition thieves (s : state) (d : nat) : Z :=
  default 0 (thief <$> numa (vars s) !! d).
Definition epoch_of (s : state) (d : nat) : Z :=
  default 0 ((λ c, EventCount.epoch (notifier c)) <$> numa (vars s) !! d).
Definition sleeping (s : state) (d : nat) : Z :=
  count (in_dom d blocked_pc) (threads s).

(** *** Bookkeeping: what the counters count *)

Definition key_pc (p : pc) : option Z :=
  match p with
  | prepared k | sleep_dec k | sleep_check k | waiting k | blocked k => Some k
  | _ => None
  end.

Definition index_pc (p : pc) : option nat :=
  match p with
  | tws_loop_notify i | tws_loop_wake i => Some i
  | _ => None
  end.

Definition stopping_pc (p : pc) : bool :=
  match p with
  | stop_cancel | stop_notify | stop_wake | stop_dec | exited => true
  | _ => false
  end.

(** After [n] operations: each thief counter is the number of workers of its
    domain between [wake_up] and their decrement, each notifier holds an
    epoch of at most [n] above the number of workers of its domain registered
    as waiters, no key is ahead of its epoch, and [active] is the number of
    workers inside [thief_work_sleep] past its increment. *)
Record consistent (n : Z) (s : state) : Prop := mk_consistent {
  c_domain : ∀ d c, numa (vars s) !! d = Some c →
    thief c = count (in_dom d thief_pc) (threads s)
    ∧ ∃ e, 0 ≤ e ≤ n
           ∧ notifier c = e * 2 ^ 32 + count (in_dom d waiter_pc) (threads s)
           ∧ ∀ u t k, threads s !! u = Some t → dom t = d →
                      key_pc (at_pc t) = Some k → 0 ≤ k ≤ e;
  c_active : active (vars s) = count (λ t, active_pc (at_pc t)) (threads s);
  c_threads : ∀ u t, threads s !! u = Some t →
    (dom t < length (numa (vars s)))%nat
    ∧ (∀ i, index_pc (at_pc t) = Some i → (i < length (numa (vars s)))%nat)
    ∧ (stopping_pc (at_pc t) = true → stop (vars s) = true);
  c_size : Z.of_nat (length (threads s)) < 2 ^ 31
}.

(** [covered] with the thief counter read as the count it holds. *)
Definition cover (d : nat) (e : Z) (l : list thread) : Prop :=
  1 ≤ count (in_dom d thief_pc) l + count (in_dom d (rising_pc e)) l + count (notifying d) l
  ∨ (count (in_dom d (closing_pc e)) l = 0
     ∧ (count (in_dom d blocked_pc) l = 0 ∨ 1 ≤ count (waking d) l)).

(** Every domain is covered while a worker is active and the pool is not
    stopping. *)
Definition covering (s : state) : Prop :=
  stop (vars s) = false → 0 < active (vars s) →
  ∀ d c, numa (vars s) !! d = Some c →
         cover d (EventCount.epoch (notifier c)) (threads s).

(** The invariant as the specification states it. *)
Definition spec_invariant (s : state) : Prop :=
  0 < active (vars s) →
  ∀ d, (d < length (numa (vars s)))%nat → 1 ≤ thieves s d ∨ sleeping s d = 0.

(** The invariant the code keeps: with an active worker, every domain has a
    thief, or a worker on its way to become one, or a notification on its
    way, or nobody about to fall asleep and nobody asleep whom a pending
    futex call will not wake. *)
Definition covered (s : state) (d : nat) : Prop :=
  1 ≤ thieves s d
  ∨ 1 ≤ count (in_dom d (rising_pc (epoch_of s d))) (threads s)
  ∨ 1 ≤ count (notifying d) (threads s)
  ∨ (count (in_dom d (closing_pc (epoch_of s d))) (threads s) = 0
     ∧ (sleeping s d = 0 ∨ 1 ≤ count (waking d) (threads s))).

Definition lazy_invariant (s : state) : Prop :=
  stop (vars s) = false → 0 < active (vars s) →
  ∀ d, (d < length (numa (vars s)))%nat → covered s d.

(** No wake-up and no notification is in flight for domain [d]. *)
Definition quiet (s : state) (d : nat) : Prop :=
  count (in_dom d (rising_pc (epoch_of s d))) (threads s) = 0
  ∧ count (notifying d) (threads s) = 0
  ∧ count (waking d) (threads s) = 0.

End Lazy.

(** ** random.hpp: the xoshiro256** generator *)

Module Xoshiro.

(** [m_state], four [std::uint64_t]. *)
Record xoshiro : Type := mk_xoshiro {
  s0 : Z;
  s1 : Z;
  s2 : Z;
  s3 : Z
}.

(** The default seed. *)
Definition default_seed : xoshiro :=
  mk_xoshiro 0x8D0B73B52EA17D89 0x2AA426A407C2B04F 0xF513614E4798928A 0xA65E479EC5B49D41.

(** [rotl(val, bits)]: [(val << bits) | (val >> (64 - bits))] on 64 bits. *)
Definition rotl (val bits : Z) : Z :=
  Z.lor (wrap64 (Z.shiftl val bits)) (Z.shiftr val (64 - bits)).

(** [operator()]: the number generated and the state after. *)
Definition next (g : xoshiro) : Z * xoshiro :=
  let result := wrap64 (rotl (wrap64 (s1 g * 5)) 7 * 9) in
  let temp := wrap64 (Z.shiftl (s1 g) 17) in
  let s2a := Z.lxor (s2 g) (s0 g) in
  let s3a := Z.lxor (s3 g) (s1 g) in
  let s1a := Z.lxor (s1 g) s2a in
  let s0a := Z.lxor (s0 g) s3a in
  let s2b := Z.lxor s2a temp in
  let s3b := rotl s3a 45 in
  (result, mk_xoshiro s0a s1a s2b s3b).

(** [n] calls of [operator()]: the numbers, and the state after. *)
Fixpoint draws (n : nat) (g : xoshiro) : list Z * xoshiro :=
  match n with
  | O => ([], g)
  | S k => let '(x, g') := next g in let '(xs, g'') := draws k g' in (x :: xs, g'')
  end.

(** The state whose words are all zero. *)
Definition zero : xoshiro := mk_xoshiro 0 0 0 0.

(** The words of the state are 64-bit values. *)
Definition in_range (g : xoshiro) : Prop :=
  0 ≤ s0 g < 2 ^ 64 ∧ 0 ≤ s1 g < 2 ^ 64 ∧ 0 ≤ s2 g < 2 ^ 64 ∧ 0 ≤ s3 g < 2 ^ 64.

End Xoshiro.

(** ** numa_context: stealing from the neighbours *)

Module Numa.

Definition k_min_steal_attempts : Z := 1024.
Definition k_steal_attempts_per_target : Z := 32.

(** [numa_context], with contexts as pointers.  [weights] is the vector
    from which [m_dist], a [std::discrete_distribution], is built: it draws
    index [k] with probability [weights[k]] over the sum of the weights. *)
Record numa_context : Type := mk_numa_context {
  m_close : list Z;
  m_neigh : list Z;
  weights : list QArith_base.Q
}.

(** [1. / (n * I * I)], in exact arithmetic. *)
Definition weight (n i : nat) : QArith_base.Q :=
  QArith_base.Qdiv (QArith_base.inject_Z 1)
    (QArith_base.Qmult
       (QArith_base.Qmult (QArith_base.inject_Z (Z.of_nat n)) (QArith_base.inject_Z (Z.of_nat i)))
       (QArith_base.inject_Z (Z.of_nat i))).

(** The inner loop of [init_worker_and_bind]: one [push_back] to each
    vector for every member of the cohort. *)
Fixpoint push_cohort (w : QArith_base.Q) (cohort : list Z) (acc : list QArith_base.Q * list Z) : list QArith_base.Q * list Z :=
  match cohort with
  | [] => acc
  | context :: rest => push_cohort w rest (acc.1 ++ [w], acc.2 ++ [context])
  end.

(** The outer loop, from index [i] on. *)
Fixpoint push_cohorts (i : nat) (cohorts : list (list Z)) (acc : list QArith_base.Q * list Z)
  : list QArith_base.Q * list Z :=
  match cohorts with
  | [] => acc
  | cohort :: rest =>
      push_cohorts (S i) rest (push_cohort (weight (length cohort) i) cohort acc)
  end.

(** [init_worker_and_bind] on [topo.neighbors], whose first list is the
    worker itself. *)
Definition init_worker_and_bind (neighbors : list (list Z)) : numa_context :=
  let close := match neighbors with
               | _ :: first_hop :: _ => first_hop
               | _ => []
               end in
  let acc := push_cohorts 1 (tail neighbors) ([], []) in
  mk_numa_context close acc.2 acc.1.

(** What one call of [try_steal] did. *)
Record stolen (rng world : Type) : Type := mk_stolen {
  task : Z;            (* the task handle returned, 0 for [nullptr] *)
  context : numa_context;
  rng_after : rng;
  world_after : world;
  probes : list Z      (* the contexts on which [steal] was called, in order *)
}.
Arguments mk_stolen {_ _} _ _ _ _ _.
Arguments task {_ _} _.
Arguments context {_ _} _.
Arguments rng_after {_ _} _.
Arguments world_after {_ _} _.
Arguments probes {_ _} _.

Section Steal.

(** The state of the [xoshiro] generator, and that of the other workers'
    deques as this worker's calls find them. *)
Variables rng world : Type.
(** [std::ranges::shuffle(m_close, m_rng)]. *)
Variable shuffle : list Z → rng → list Z * rng.
(** [m_dist(m_rng)] for a distribution built from the given weights. *)
Variable draw : list QArith_base.Q → rng → nat * rng.
(** [context->m_context->try_steal()]. *)
Variable steal : Z → world → Deque.err * Z * world.

(** The loop over [m_close], with [LF_RETURN_OR_CONTINUE] as its body:
    [Some task] when the macro returned. *)
Fixpoint probe_each (cs : list Z) (w : world) (tr : list Z) : option Z * world * list Z :=
  match cs with
  | [] => (None, w, tr)
  | c :: rest =>
      let '(e, t, w') := steal c w in
      match e with
      | Deque.none => (Some t, w', tr ++ [c])
      | Deque.lost | Deque.empty => probe_each rest w' (tr ++ [c])
      end
  end.

(** The loop of [attempts] random probes; an index outside [m_neigh] is
    undefined behaviour. *)
Fixpoint probe_random (attempts : nat) (nc : numa_context) (g : rng) (w : world) (tr : list Z)
  : option (option Z * rng * world * list Z) :=
  match attempts with
  | O => Some (None, g, w, tr)
  | S k =>
      let '(ix, g') := draw (weights nc) g in
      c ← m_neigh nc !! ix;
      let '(e, t, w') := steal c w in
      match e with
      | Deque.none => Some (Some t, g', w', tr ++ [c])
      | Deque.lost | Deque.empty => probe_random k nc g' w' (tr ++ [c])
      end
  end.

(** [m_dist(m_rng)] called [n] times in a row: the indices drawn, and the
    generator afterwards. *)
Fixpoint draws (n : nat) (ws : list QArith_base.Q) (g : rng) : list nat * rng :=
  match n with
  | O => ([], g)
  | S k =>
      let '(ix, g') := draw ws g in
      let '(ixs, g'') := draws k ws g' in
      (ix :: ixs, g'')
  end.

Definition try_steal (nc : numa_context) (g : rng) (w : world) : option (stolen rng world) :=
  match m_neigh nc with
  | [] => Some (mk_stolen 0 nc g w [])
  | _ :: _ =>
      let '(close, g1) := shuffle (m_close nc) g in
      let nc1 := mk_numa_context close (m_neigh nc) (weights nc) in
      match probe_each close w [] with
      | (Some t, w1, tr) => Some (mk_stolen t nc1 g1 w1 tr)
      | (None, w1, tr) =>
          let attempts :=
            wrap64 (k_min_steal_attempts
                    + wrap64 (k_steal_attempts_per_target * Z.of_nat (length (m_neigh nc)))) in
          '(r, g2, w2, tr2) ← probe_random (Z.to_nat attempts) nc1 g1 w1 tr;
          match r with
          | Some t => Some (mk_stolen t nc1 g2 w2 tr2)
          | None => Some (mk_stolen 0 nc1 g2 w2 tr2)
          end
      end
  end.

End Steal.

Arguments probe_each {_} _ _ _ _.
Arguments probe_random {_ _} _ _ _ _ _ _ _.
Arguments draws {_} _ _ _ _.
Arguments try_steal {_ _} _ _ _ _ _ _.

(** Every probe fails: no call of [steal] reports [none]. *)
Definition all_fail {world : Type} (steal : Z → world → Deque.err * Z * world) : Prop :=
  ∀ c w, (steal c w).1.1 ≠ Deque.none.

(** A [steal] that reports [empty] wherever the given one reports [lost]. *)
Definition lost_as_empty {world : Type} (steal : Z → world → Deque.err * Z * world)
  (c : Z) (w : world) : Deque.err * Z * world :=
  match steal c w with
  | (Deque.lost, t, w') => (Deque.empty, t, w')
  | r => r
  end.

End Numa.

(** ** numa.hpp: distributing the workers over the topology *)

Module Topology.

(** [std::set<int>], as its elements in ascending order: [insert], and
    [std::distance(s.begin(), s.find(x))]. *)
Fixpoint set_insert (x : Z) (s : list Z) : list Z :=
  match s with
  | [] => [x]
  | y :: rest =>
      if decide (x < y) then x :: s
      else if decide (x = y) then s
      else y :: set_insert x rest
  end.

Fixpoint set_index (x : Z) (s : list Z) : nat :=
  match s with
  | [] => 0
  | y :: rest => if decide (x = y) then 0%nat else S (set_index x rest)
  end.

(** With hwloc: [numa_topology::distribute] over the distance matrix that
    [distance_matrix] computed from hwloc's answers. *)
Module Hwloc.

Section Distribute.

(** [distance_matrix::operator()] *)
Variable dist : nat → nat → Z.

(** The first loop over [j]: [uniques.insert(dist(i, j))] for [i != j]. *)
Definition uniques (n i : nat) : list Z :=
  foldl (λ s j, if decide (i ≠ j) then set_insert (dist i j) s else s) [] (seq 0 n).

(** The body of the second loop, for [data[j] = d]: a [push_back] on one of
    the neighbors-lists; an index past the end of [neighbors] is undefined
    behaviour. *)
Definition place (us : list Z) (i : nat) (nb : option (list (list Z))) (jd : nat * Z)
    : option (list (list Z)) :=
  nb ← nb;
  let k := if decide (i = jd.1) then 0%nat else S (set_index (dist i jd.1) us) in
  b ← nb !! k;
  Some (<[k := b ++ [jd.2]]> nb).

(** [nodes[i].neighbors] *)
Definition neighbors (data : list Z) (i : nat) : option (list (list Z)) :=
  let us := uniques (length data) i in
  foldl (place us i) (Some (replicate (S (length us)) [])) (imap pair data).

Definition distribute (data : list Z) : option (list (list (list Z))) :=
  mapM (neighbors data) (seq 0 (length data)).

(** Among the indexed objects [l], those other than [i] at distance [u]
    from [i], in the order of [l]. *)
Definition cohort (i : nat) (u : Z) (l : list (nat * Z)) : list Z :=
  (λ jd, jd.2) <$> filter (λ jd, i ≠ jd.1 ∧ dist i jd.1 = u) l.

(** Among the indexed objects [l], the object [i] itself. *)
Definition self (i : nat) (l : list (nat * Z)) : list Z :=
  (λ jd, jd.2) <$> filter (λ jd, i = jd.1) l.

End Distribute.

End Hwloc.

(** Without hwloc: every other object is one hop away. *)
Module NoHwloc.

(** The body of the inner loop, [node.neighbors[1].push_back(neigh)] when
    [neigh != data[i]]. *)
Definition place (d : Z) (nb : option (list (list Z))) (neigh : Z) : option (list (list Z)) :=
  nb ← nb;
  if decide (neigh ≠ d) then
    b ← nb !! 1%nat;
    Some (<[1%nat := b ++ [neigh]]> nb)
  else Some nb.

(** [node.neighbors] for [data[i] = d]. *)
Definition neighbors (data : list Z) (d : Z) : option (list (list Z)) :=
  let node := if decide (1 < length data)%nat then [[d]; []] else [[d]] in
  foldl (place d) (Some node) data.

Definition distribute (data : list Z) : option (list (list (list Z))) :=
  mapM (neighbors data) data.

End NoHwloc.

End Topology.

(** ** fold.hpp: the parallel fold

    What the tasks of [lf::fold] return.  An iterator is a position in the
    range [data], a difference of iterators is an integer, and the value a
    forked or called child writes is there after the join; [bop] and [proj]
    are total functions that do not throw. *)

Module Fold.

Section Fold.

Variables A B : Type.
Variable proj : A → B.
Variable bop : B → B → B.
Variable data : list A.

(** The projected elements from position [head] up to position [tail]. *)
Definition slice (head tail : nat) : list B :=
  proj <$> take (tail - head) (drop head data).

(** The loop [for (++head; head != tail; ++head) lhs = bop(lhs, proj( *head))],
    from position [head] on. *)
Definition accumulate (lhs : B) (head tail : nat) : option B :=
  foldl (λ acc i, l ← acc; x ← data !! i; Some (bop l (proj x)))
        (Some lhs) (seq head (tail - head)).

(** [fold_overload_impl::operator()(fold, head, tail, n, bop, proj)] *)
Fixpoint fold_impl_n (fuel : nat) (head tail : nat) (n : Z) : option B :=
  match fuel with
  | O => None
  | S k =>
      if decide (n > 1) then
        let len := Z.of_nat tail - Z.of_nat head in
        if decide (len > 0) then
          if decide (len ≤ n) then
            x ← data !! head;
            accumulate (proj x) (S head) tail
          else
            let mid := (head + Z.to_nat (len / 2))%nat in
            if decide (Z.of_nat mid - Z.of_nat head > 0 ∧ Z.of_nat tail - Z.of_nat mid > 0) then
              lhs ← fold_impl_n k head mid n;
              rhs ← fold_impl_n k mid tail n;
              Some (bop lhs rhs)
            else None
        else None
      else None
  end.

(** [fold_overload_impl::operator()(fold, head, tail, bop, proj)], the case
    [n = 1]. *)
Fixpoint fold_impl (fuel : nat) (head tail : nat) : option B :=
  match fuel with
  | O => None
  | S k =>
      let len := Z.of_nat tail - Z.of_nat head in
      if decide (len >= 0) then
        if decide (len = 0) then None
        else if decide (len = 1) then
          x ← data !! head; Some (proj x)
        else
          let mid := (head + Z.to_nat (len / 2))%nat in
          if decide (Z.of_nat mid - Z.of_nat head > 0 ∧ Z.of_nat tail - Z.of_nat mid > 0) then
            lhs ← fold_impl k head mid;
            rhs ← fold_impl k mid tail;
            Some (bop lhs rhs)
          else None
      else None
  end.

(** [fold_overload::operator()(_, head, tail, n, bop, proj)]: [Some None] is
    [std::nullopt]. *)
Definition fold_n (fuel : nat) (head tail : nat) (n : Z) : option (option B) :=
  if decide (head = tail) then Some None
  else if decide (n = 1) then r ← fold_impl fuel head tail; Some (Some r)
  else r ← fold_impl_n fuel head tail n; Some (Some r).

(** [fold_overload::operator()(_, range, n, bop, proj)] on the whole of [data]. *)
Definition fold (fuel : nat) (n : Z) : option (option B) :=
  if decide (data = []) then Some None
  else if decide (n = 1) then r ← fold_impl fuel 0 (length data); Some (Some r)
  else r ← fold_impl_n fuel 0 (length data) n; Some (Some r).

End Fold.

(** The sequential left fold of a list, [None] on the empty list. *)
Definition reduce {B : Type} (bop : B → B → B) (bs : list B) : option B :=
  match bs with
  | [] => None
  | b :: rest => Some (foldl bop b rest)
  end.

End Fold.

(** ** for_each.hpp and map.hpp

    The effects of the tasks of [lf::for_each] and [lf::map], in the order of
    the serial execution (the forked half before the called half): the
    arguments [fun] is called with, and the assignments [*out = ...]. *)

Module ForEach.

Section ForEach.

Variables A B : Type.
Variable proj : A → B.
Variable data : list A.

(** The loop [for (; head != tail; ++head) fun(proj( *head))]. *)
Definition visit (head tail : nat) : option (list B) :=
  foldl (λ acc i, l ← acc; x ← data !! i; Some (l ++ [proj x]))
        (Some []) (seq head (tail - head)).

(** [for_each_overload::operator()(for_each, head, tail, n, fun, proj)] *)
Fixpoint for_each_n (fuel : nat) (head tail : nat) (n : Z) : option (list B) :=
  match fuel with
  | O => None
  | S k =>
      if decide (n > 0) then
        let len := Z.of_nat tail - Z.of_nat head in
        if decide (len >= 0) then
          if decide (len = 0) then Some []
          else if decide (len ≤ n) then visit head tail
          else
            let mid := (head + Z.to_nat (len / 2))%nat in
            l ← for_each_n k head mid n;
            r ← for_each_n k mid tail n;
            Some (l ++ r)
        else None
      else None
  end.

(** [for_each_overload::operator()(for_each, head, tail, fun, proj)] *)
Fixpoint for_each_1 (fuel : nat) (head tail : nat) : option (list B) :=
  match fuel with
  | O => None
  | S k =>
      let len := Z.of_nat tail - Z.of_nat head in
      if decide (len >= 0) then
        if decide (len = 0) then Some []
        else if decide (len = 1) then x ← data !! head; Some [proj x]
        else
          let mid := (head + Z.to_nat (len / 2))%nat in
          l ← for_each_1 k head mid;
          r ← for_each_1 k mid tail;
          Some (l ++ r)
      else None
  end.

(** [for_each_overload::operator()(for_each, range, n, fun, proj)] *)
Definition for_each (fuel : nat) (n : Z) : option (list B) :=
  if decide (n > 0) then
    if decide (n = 1) then for_each_1 fuel 0 (length data)
    else for_each_n fuel 0 (length data) n
  else None.

End ForEach.

End ForEach.

Module Map.

Section Map.

Variables A B C : Type.
Variable proj : A → B.
Variable func : B → C.
Variable data : list A.

(** The loop [for (; head != tail; ++head, ++out) *out = fun(proj( *head))]:
    the positions assigned to, with the values. *)
Definition assign (head tail out : nat) : option (list (nat * C)) :=
  foldl (λ acc i, l ← acc; x ← data !! (head + i)%nat;
                  Some (l ++ [((out + i)%nat, func (proj x))]))
        (Some []) (seq 0 (tail - head)).

(** [map_overload::operator()(map, head, tail, out, n, fun, proj)] *)
Fixpoint map_n (fuel : nat) (head tail out : nat) (n : Z) : option (list (nat * C)) :=
  match fuel with
  | O => None
  | S k =>
      if decide (n > 0) then
        let len := Z.of_nat tail - Z.of_nat head in
        if decide (len >= 0) then
          if decide (len = 0) then Some []
          else if decide (len ≤ n) then assign head tail out
          else
            let dif := Z.to_nat (len / 2) in
            let mid := (head + dif)%nat in
            l ← map_n k head mid out n;
            r ← map_n k mid tail (out + dif) n;
            Some (l ++ r)
        else None
      else None
  end.

(** [map_overload::operator()(map, head, tail, out, fun, proj)] *)
Fixpoint map_1 (fuel : nat) (head tail out : nat) : option (list (nat * C)) :=
  match fuel with
  | O => None
  | S k =>
      let len := Z.of_nat tail - Z.of_nat head in
      if decide (len >= 0) then
        if decide (len = 0) then Some []
        else if decide (len = 1) then x ← data !! head; Some [(out, func (proj x))]
        else
          let dif := Z.to_nat (len / 2) in
          let mid := (head + dif)%nat in
          l ← map_1 k head mid out;
          r ← map_1 k mid tail (out + dif);
          Some (l ++ r)
      else None
  end.

(** [map_overload::operator()(map, range, out, n, fun, proj)] *)
Definition map (fuel : nat) (out : nat) (n : Z) : option (list (nat * C)) :=
  if decide (n > 0) then
    if decide (n = 1) then map_1 fuel 0 (length data) out
    else map_n fuel 0 (length data) out n
  else None.

(** The assignments on an output range [o]; one past its end is undefined
    behaviour. *)
Definition store_all (ws : list (nat * C)) (o : list C) : option (list C) :=
  foldl (λ acc w, b ← acc; _ ← b !! w.1; Some (<[w.1 := w.2]> b)) (Some o) ws.

End Map.

End Map.

(** ** scan.hpp: the parallel inclusive scan

    What the tasks of [lf::scan] write.  An iterator is a position in its
    range and the output range is a list; [input] reads a position of the
    input range, which is a range of its own or, for a scan in place, the
    output range.  [bop] and [proj] are total functions that do not throw.
    A fork may be stolen: [ready] tells, for each synchronising fork, whether
    the child completed before the parent went on, and when the parent was
    stolen [right_first] tells which of the forked and the called half runs
    first. *)

Module Scan.

Inductive op : Type := op_scan | op_fold.

Inductive interval : Type := ival_all | ival_lhs | ival_mid | ival_rhs.

Global Instance interval_eq_dec : EqDecision interval.
Proof. solve_decision. Defined.

Definition l_child_of (ival : interval) : interval :=
  match ival with
  | ival_all | ival_lhs => ival_lhs
  | ival_mid | ival_rhs => ival_mid
  end.

Definition r_child_of (ival : interval) : interval :=
  match ival with
  | ival_all | ival_rhs => ival_rhs
  | ival_lhs | ival_mid => ival_mid
  end.

(** The three places of the algorithm that fork one half and call the
    other. *)
Inductive site : Type := in_rise_sweep | in_fall_sweep_impl | in_fall_sweep.

(** [*(it + i)] on the range [l]: no position before the range or past its
    end can be dereferenced. *)
Definition deref {T : Type} (l : list T) (i : Z) : option T :=
  if decide (0 ≤ i) then l !! Z.to_nat i else None.

(** [*(it + i) = v] *)
Definition assign {T : Type} (l : list T) (i : Z) (v : T) : option (list T) :=
  _ ← deref l i; Some (<[Z.to_nat i := v]> l).

(** The input range [data], distinct from the output range, and the input
    range of a scan in place, which is the [len] positions of the output
    range [o] from [out] on. *)
Definition from_range {A B : Type} (data : list A) : list B → Z → option A :=
  λ _ i, deref data i.

Definition in_place {B : Type} (out len : Z) : list B → Z → option B :=
  λ o i, if decide (0 ≤ i < len) then deref o (i + out) else None.

(** [std::inclusive_scan]: the running totals of a list. *)
Fixpoint running {B : Type} (bop : B → B → B) (acc : B) (bs : list B) : list B :=
  match bs with
  | [] => []
  | b :: rest => bop acc b :: running bop (bop acc b) rest
  end.

Definition inclusive_scan {B : Type} (bop : B → B → B) (bs : list B) : list B :=
  match bs with
  | [] => []
  | b :: rest => b :: running bop b rest
  end.

Section Scan.

Context {A B : Type}.
Variable proj : A → B.
Variable bop : B → B → B.
Variable input : list B → Z → option A.
Variable ready : Z → Z → bool.
Variable right_first : site → Z → Z → bool.

(** [for (; beg != end; ++beg, ++out) { acc = bop(acc, proj( *beg)); *out = acc; }] *)
Definition scan_loop (acc : B) (beg end_ out : Z) (o : list B) : option (B * list B) :=
  if decide (beg ≤ end_) then
    foldl (λ st i, '(acc, o) ← st;
                   x ← input o (beg + i);
                   let acc' := bop acc (proj x) in
                   o' ← assign o (out + i) acc';
                   Some (acc', o'))
          (Some (acc, o)) (seqZ 0 (end_ - beg))
  else None.

(** [acc = proj( *beg); for (++beg; beg != end; ++beg) acc = bop(acc, proj( *beg))] *)
Definition fold_loop (beg end_ : Z) (o : list B) : option B :=
  if decide (beg + 1 ≤ end_) then
    x ← input o beg;
    foldl (λ st i, acc ← st; y ← input o i; Some (bop acc (proj y)))
          (Some (proj x)) (seqZ (beg + 1) (end_ - beg - 1))
  else None.

(** The two halves of an interval, the forked one [l] and the called one
    [r], in the order the schedule gives them; the join follows. *)
Definition fork_call {L R : Type} (rf : bool)
    (l : list B → option (L * list B)) (r : list B → option (R * list B))
    (o : list B) : option (L * list B) :=
  if rf then
    '(_, o1) ← r o; l o1
  else
    '(x, o1) ← l o; '(_, o2) ← r o1; Some (x, o2).

(** The end of [rise_sweep], which restores the invariant: on [ival_lhs]
    and [ival_mid] the reduction is propagated to the right sibling. *)
Definition propagate (ival : interval) (out mid size : Z) (o : list B) : option (list B) :=
  match ival with
  | ival_lhs | ival_mid =>
      l_child ← deref o (out + mid - 1);
      r_child ← deref o (out + size - 1);
      assign o (out + size - 1) (bop l_child r_child)
  | _ => Some o
  end.

(** [rise_sweep<I, S, Proj, Bop, O, Ival, Op>::operator()]: the position
    returned (none for [op_fold], whose task returns [void]) and the output
    range. *)
Fixpoint rise_sweep (fuel : nat) (ival : interval) (o_p : op)
    (beg end_ n out : Z) (o : list B) : option (option Z * list B) :=
  match fuel with
  | O => None
  | S k =>
      let size := end_ - beg in
      if decide (size >= 1) then
        if decide (size ≤ n) then
          match o_p, ival with
          | op_fold, ival_mid =>
              acc ← fold_loop beg end_ o;
              o' ← assign o (out + size - 1) acc;
              Some (None, o')
          | op_fold, ival_rhs => Some (None, o)
          | op_fold, _ => None
          | op_scan, (ival_mid | ival_rhs) =>
              acc ← deref o (out - 1);
              '(_, o') ← scan_loop acc beg end_ out o;
              Some (Some end_, o')
          | op_scan, _ =>
              x ← input o beg;
              o1 ← assign o out (proj x);
              '(_, o') ← scan_loop (proj x) (beg + 1) end_ (out + 1) o1;
              Some (Some end_, o')
          end
        else
          let mid := size / 2 in
          let up_lhs o_p := rise_sweep k (l_child_of ival) o_p beg (beg + mid) n out in
          let up_rhs o_p := rise_sweep k (r_child_of ival) o_p (beg + mid) end_ n (out + mid) in
          match o_p with
          | op_scan =>
              if ready beg (beg + mid) then
                '(left_out, o1) ← up_lhs op_scan o;
                if decide (left_out = Some (beg + mid)) then up_rhs op_scan o1
                else
                  '(_, o2) ← up_rhs op_fold o1;
                  o3 ← propagate ival out mid size o2;
                  Some (left_out, o3)
              else
                '(left_out, o2) ← fork_call (right_first in_rise_sweep beg end_)
                                            (up_lhs op_scan) (up_rhs op_fold) o;
                o3 ← propagate ival out mid size o2;
                Some (left_out, o3)
          | op_fold =>
              match ival with
              | ival_mid | ival_rhs =>
                  '(_, o2) ← fork_call (right_first in_rise_sweep beg end_)
                                       (up_lhs op_fold) (up_rhs op_fold) o;
                  o3 ← propagate ival out mid size o2;
                  Some (None, o3)
              | _ => None
              end
          end
      else None
  end.

(** [fall_sweep_impl<I, S, Proj, Bop, O, Ival>::operator()], which exists
    for [ival_mid] and [ival_rhs] only. *)
Fixpoint fall_sweep_impl (fuel : nat) (ival : interval)
    (beg end_ n out : Z) (o : list B) : option (unit * list B) :=
  match fuel with
  | O => None
  | S k =>
      match ival with
      | ival_all | ival_lhs => None
      | _ =>
          let size := end_ - beg in
          if decide (size > 0) then
            if decide (size ≤ n) then
              acc ← deref o (out - 1);
              let last := if decide (ival = ival_rhs) then end_ else beg + size - 1 in
              '(_, o') ← scan_loop acc beg last out o;
              Some ((), o')
            else
              let mid := size / 2 in
              l ← deref o (out - 1);
              r ← deref o (out + mid - 1);
              o1 ← assign o (out + mid - 1) (bop l r);
              fork_call (right_first in_fall_sweep_impl beg end_)
                        (fall_sweep_impl k (l_child_of ival) beg (beg + mid) n out)
                        (fall_sweep_impl k (r_child_of ival) (beg + mid) end_ n (out + mid))
                        o1
          else None
      end
  end.

(** [fall_sweep<I, S, Proj, Bop, O, Ival>::operator()].  Going to the right
    half is a call of [recur_rhs] or, where that is the same instantiation,
    the next round of the loop; [scan_end] and [end_] stay what they are, so
    the assertion holds in every round when it holds in the first. *)
Fixpoint fall_sweep (fuel : nat) (ival : interval)
    (beg end_ n out scan_end : Z) (o : list B) : option (unit * list B) :=
  match fuel with
  | O => None
  | S k =>
      if decide (scan_end < end_) then
        let size := end_ - beg in
        let mid := size ÷ 2 in
        let split := beg + mid in
        if decide (scan_end < split) then
          fork_call (right_first in_fall_sweep beg end_)
                    (fall_sweep k (l_child_of ival) beg (beg + mid) n out scan_end)
                    (fall_sweep_impl k (r_child_of ival) (beg + mid) end_ n (out + mid))
                    o
        else if decide (scan_end = split) then
          fall_sweep_impl k (r_child_of ival) (beg + mid) end_ n (out + mid) o
        else
          fall_sweep k (r_child_of ival) (beg + mid) end_ n (out + mid) scan_end o
      else None
  end.

(** [scan_impl::operator()] *)
Definition scan_impl (fuel : nat) (beg end_ out n : Z) (o : list B) : option (list B) :=
  if decide (end_ = beg) then Some o
  else
    '(scan_end, o1) ← rise_sweep fuel ival_all op_scan beg end_ n out o;
    scan_end ← scan_end;
    if decide (scan_end ≠ end_) then
      '(_, o2) ← fall_sweep fuel ival_all beg end_ n out scan_end o1;
      Some o2
    else Some o1.

End Scan.

(** [scan_overload::operator()(_, range, out, n, bop, proj)] on the range
    [data] and an output range distinct from it, and
    [scan_overload::operator()(_, range, n, bop, proj)] in place on the
    [len] positions of [o] from [out] on; the overloads without [n] pass 1. *)
Definition scan_n {A B : Type} (proj : A → B) (bop : B → B → B) (data : list A)
    (ready : Z → Z → bool) (right_first : site → Z → Z → bool)
    (fuel : nat) (out n : Z) (o : list B) : option (list B) :=
  scan_impl proj bop (from_range data) ready right_first
            fuel 0 (Z.of_nat (length data)) out n o.

Definition scan_in_place_n {B : Type} (proj : B → B) (bop : B → B → B)
    (ready : Z → Z → bool) (right_first : site → Z → Z → bool)
    (fuel : nat) (out len n : Z) (o : list B) : option (list B) :=
  scan_impl proj bop (in_place out len) ready right_first fuel 0 len out n o.

Section Shape.

Context {A B : Type}.
Variable proj : A → B.
Variable bop : B → B → B.
Variable data : list A.

(** The fold of the projected input from position [b] up to [e], and the
    totals [std::inclusive_scan] gives on the projected input. *)
Definition chunk (b e : Z) : option B :=
  fold_loop proj bop (from_range data) b e [].

Definition totals : list B := inclusive_scan bop (proj <$> data).

(** What the sweeps leave in the output range [o], which starts [d]
    positions after the input: [scanned] says that the positions of the
    input from [b] up to [s] hold their totals, [unchanged] that [o'] is [o]
    outside the positions from [lo] up to [hi]. *)
Definition scanned (d : Z) (o : list B) (b s : Z) : Prop :=
  ∀ i, b ≤ i < s → deref o (i + d) = deref totals i.

Definition unchanged (o o' : list B) (lo hi : Z) : Prop :=
  length o' = length o ∧ ∀ j, j < lo ∨ hi ≤ j → deref o' j = deref o j.

(** The position up to which the down-sweep reads the input of an interval:
    the last position of an interval with a right sibling holds a fold. *)
Definition upto (ival : interval) (e : Z) : Z :=
  match ival with
  | ival_all | ival_rhs => e
  | _ => e - 1
  end.

(** An interval the up-sweep folded, with chunks of [n]: the last position
    of every forked half holds the fold of that half, and the input of a
    chunk is still [intact] where the down-sweep will read it. *)
Inductive folded (intact : list B → Z → Prop) (n d : Z) (o : list B)
    : interval → Z → Z → Prop :=
  | folded_leaf ival b e :
      e - b ≤ n →
      (∀ i, b ≤ i < upto ival e → intact o i) →
      folded intact n d o ival b e
  | folded_node ival b e :
      n < e - b →
      folded intact n d o ival_mid b (b + (e - b) / 2) →
      deref o (b + (e - b) / 2 - 1 + d) = chunk b (b + (e - b) / 2) →
      folded intact n d o (r_child_of ival) (b + (e - b) / 2) e →
      folded intact n d o ival b e.

(** An interval the up-sweep scanned up to [s]: what is not scanned is
    folded, to the right of a half whose last position holds its total. *)
Inductive risen (intact : list B → Z → Prop) (n d : Z) (o : list B)
    : interval → Z → Z → Z → Prop :=
  | risen_full ival b e :
      risen intact n d o ival b e e
  | risen_left ival b e s :
      s < b + (e - b) / 2 →
      risen intact n d o (l_child_of ival) b (b + (e - b) / 2) s →
      deref o (b + (e - b) / 2 - 1 + d) = deref totals (b + (e - b) / 2 - 1) →
      folded intact n d o (r_child_of ival) (b + (e - b) / 2) e →
      risen intact n d o ival b e s
  | risen_split ival b e :
      folded intact n d o (r_child_of ival) (b + (e - b) / 2) e →
      risen intact n d o ival b e (b + (e - b) / 2)
  | risen_right ival b e s :
      b + (e - b) / 2 < s →
      risen intact n d o (r_child_of ival) (b + (e - b) / 2) e s →
      risen intact n d o ival b e s.

End Shape.

End Scan.

(** ** future.hpp and sync_wait.hpp: the handle to a root task *)

Module Future.

Inductive future_state : Type := no_wait | ready | retrievd.

(** [future_shared_state<R>]: the semaphore of the root task, starting at
    zero, the status, and what [try_eventually<R>] holds once the task has
    finished. *)
Record future_shared_state : Type := mk_shared {
  sem : Z;
  status : future_state;
  eventually : option (result Z)
}.

Definition set_sem (n : Z) (s : future_shared_state) : future_shared_state :=
  mk_shared n (status s) (eventually s).
Definition set_status (x : future_state) (s : future_shared_state) : future_shared_state :=
  mk_shared (sem s) x (eventually s).

(** The shared states are kept by address; a future is its [m_heap], a
    pointer that it shares with the root task's promise, 0 for [nullptr]. *)

(** How a member function of the future ends: it returns, it throws, or it
    is blocked in a semaphore and has changed nothing yet. *)
Inductive outcome : Type :=
  | Returns (v : Z) (h : gmap Z future_shared_state)
  | Throws (e : exn) (h : gmap Z future_shared_state)
  | Blocks.

(** [sem.acquire()] and, on the side of the task, [sem.release()]. *)
Definition sem_acquire (p : Z) (h : gmap Z future_shared_state) : option outcome :=
  s ← h !! p;
  Some (if 0 <? sem s then Returns 0 (<[p := set_sem (sem s - 1) s]> h) else Blocks).

Definition sem_release (p : Z) (h : gmap Z future_shared_state)
  : option (gmap Z future_shared_state) :=
  s ← h !! p;
  Some (<[p := set_sem (sem s + 1) s]> h).

Definition valid (m_heap : Z) : bool := negb (m_heap =? 0).

(** [~future]. *)
Definition destructor (m_heap : Z) (h : gmap Z future_shared_state) : option outcome :=
  if valid m_heap then
    s ← h !! m_heap;
    match status s with
    | no_wait => sem_acquire m_heap h
    | ready | retrievd => Some (Returns 0 h)
    end
  else Some (Returns 0 h).

(** [detach]: the new value of [m_heap]. *)
Definition detach (m_heap : Z) : Z := 0.

Definition wait (m_heap : Z) (h : gmap Z future_shared_state) : option outcome :=
  if valid m_heap then
    s ← h !! m_heap;
    match status s with
    | no_wait =>
        r ← sem_acquire m_heap h;
        match r with
        | Returns _ h1 =>
            s1 ← h1 !! m_heap;
            Some (Returns 0 (<[m_heap := set_status ready s1]> h1))
        | other => Some other
        end
    | ready | retrievd => Some (Returns 0 h)
    end
  else Some (Throws broken_future h).

Definition get (m_heap : Z) (h : gmap Z future_shared_state) : option outcome :=
  r ← wait m_heap h;
  match r with
  | Returns _ h1 =>
      s ← h1 !! m_heap;
      match status s with
      | retrievd => Some (Throws empty_future h1)
      | no_wait | ready =>
          let h2 := <[m_heap := set_status retrievd s]> h1 in
          match eventually s with
          | Some (Throw e) => Some (Throws e h2)
          | Some (Ok v) => Some (Returns v h2)
          | None => None
          end
      end
  | other => Some other
  end.

(** The shared states a call left behind, if it came back. *)
Definition store_after (o : outcome) : option (gmap Z future_shared_state) :=
  match o with
  | Returns _ h | Throws _ h => Some h
  | Blocks => None
  end.

End Future.

(** ** The workers of a pool running one root task

    The functions above, read for what they do to the join and steal
    counters and to the work-stealing deque, put together with the worker
    loop ([resume] of a submitted and of a stolen task) and with [schedule]
    and [sync_wait].  A release build is modelled: a failing [LF_ASSERT] is
    undefined behaviour, an [LF_ASSERT_NO_ASSUME] is nothing.  The segmented
    stacks are left out here: a coroutine frame gets a fresh address, and
    allocation does not fail. *)

Module Runtime.

(** The body of an async function, from a suspension point on.  The [i]-th
    [fork] since the last [join] returns into a variable of its own, which
    the body reads after the [join]; a [call] returns into a variable that
    is read when the call is over. *)
Inductive task : Type :=
  | co_return (v : Z)
  | co_fork (child : task) (k : task)
  | co_call (child : task) (k : Z → task)
  | co_join (k : list Z → task).

(** The plain function an async function stands for: a fork and a call are
    calls, a join is nothing. *)
Fixpoint eval (t : task) (xs : list Z) : Z :=
  match t with
  | co_return v => v
  | co_fork child k => eval k (xs ++ [eval child []])
  | co_call child k => eval (k (eval child [])) xs
  | co_join k => eval (k xs) []
  end.

(** The coroutine frame of a task: the control block and the coroutine's
    own state. *)
Record coroutine : Type := mk_coroutine {
  control : Frame.frame;
  tg : tag;
  ret : Z;                  (* the return address of a forked task: a variable of the parent *)
  body : task;              (* where the coroutine is suspended, or runs *)
  forks : Z;                (* the forks since the last join *)
  vars : gmap Z Z;          (* the variables the forks return into, once written *)
  in_join : bool            (* suspended at a join *)
}.

Definition set_control (c : Frame.frame) (f : coroutine) : coroutine :=
  mk_coroutine c (tg f) (ret f) (body f) (forks f) (vars f) (in_join f).
Definition set_body (t : task) (f : coroutine) : coroutine :=
  mk_coroutine (control f) (tg f) (ret f) t (forks f) (vars f) (in_join f).
Definition set_forks (n : Z) (f : coroutine) : coroutine :=
  mk_coroutine (control f) (tg f) (ret f) (body f) n (vars f) (in_join f).
Definition set_vars (xs : gmap Z Z) (f : coroutine) : coroutine :=
  mk_coroutine (control f) (tg f) (ret f) (body f) (forks f) xs (in_join f).
Definition set_in_join (b : bool) (f : coroutine) : coroutine :=
  mk_coroutine (control f) (tg f) (ret f) (body f) (forks f) (vars f) b.

(** The variables of the open scope as the body reads them after the join,
    in the order of the forks; one that was never written reads as 0. *)
Fixpoint read_from (xs : gmap Z Z) (i : Z) (n : nat) : list Z :=
  match n with
  | O => []
  | S n' => default 0 (xs !! i) :: read_from xs (i + 1) n'
  end.

Definition read (F : coroutine) : list Z := read_from (vars F) 0 (Z.to_nat (forks F)).

(** What a worker thread is doing. *)
Inductive activity : Type :=
  | idle                  (* in its loop, between tasks *)
  | stolen (f : Z)        (* holds a handle it stole, before [resume] *)
  | running (f : Z)       (* inside coroutine [f] *)
  | suspending (f : Z).   (* [join_awaitable::await_ready] said no *)

Record worker : Type := mk_worker {
  context : Deque.deque;
  act : activity
}.

Record state : Type := mk_state {
  frames : gmap Z coroutine;
  workers : list worker;
  next : Z;                                  (* the next address the allocator gives *)
  heap : gmap Z Future.future_shared_state;  (* the futures' shared states *)
  submitted : option Z                       (* a root task waiting in a submission queue *)
}.

Definition set_frames (fs : gmap Z coroutine) (s : state) : state :=
  mk_state fs (workers s) (next s) (heap s) (submitted s).
Definition set_worker (w : nat) (x : worker) (s : state) : state :=
  mk_state (frames s) (<[w := x]> (workers s)) (next s) (heap s) (submitted s).
Definition set_next (n : Z) (s : state) : state :=
  mk_state (frames s) (workers s) n (heap s) (submitted s).
Definition set_heap (h : gmap Z Future.future_shared_state) (s : state) : state :=
  mk_state (frames s) (workers s) (next s) h (submitted s).
Definition set_submitted (r : option Z) (s : state) : state :=
  mk_state (frames s) (workers s) (next s) (heap s) r.

(** A new coroutine frame for a child of [parent]. *)
Definition spawn (t : tag) (parent : Z) (into : Z) (child : task) : coroutine :=
  mk_coroutine (Frame.set_parent parent (Frame.frame_new 0)) t into child 0 ∅ false.

(** [co_await lf::fork(x, f)(args)]: the child is created, then
    [fork_awaitable::await_suspend] pushes the parent and transfers to the
    child. *)
Definition fork (w : nat) (x : worker) (f : Z) (F : coroutine) (child k : task)
  (s : state) : option state :=
  let c := next s in
  let F' := set_forks (forks F + 1) (set_body k F) in
  match Deque.push true f (context x) with
  | Ok d =>
      Some (set_worker w (mk_worker d (running c))
              (set_next (c + 1)
                 (set_frames (<[c := spawn tag_fork f (forks F) child]>
                                (<[f := F']> (frames s))) s)))
  | Throw _ => None
  end.

(** [co_await lf::call(x, f)(args)]: [call_awaitable::await_suspend]
    transfers to the child. *)
Definition call (w : nat) (x : worker) (f : Z) (child : task) (s : state) : option state :=
  let c := next s in
  Some (set_worker w (mk_worker (context x) (running c))
          (set_next (c + 1)
             (set_frames (<[c := spawn tag_call f 0 child]> (frames s)) s))).

(** [join_awaitable::await_resume] and the statements after the join. *)
Definition join_resume (k : list Z → task) (F : coroutine) : option coroutine :=
  if decide (Frame.load_steals (control F) = 0) then
    Some (set_in_join false (set_vars ∅ (set_forks 0 (set_body (k (read F)) F))))
  else None.

(** [co_await lf::join], up to [await_ready]: when it says no, the
    coroutine is suspended and [await_suspend] is to come. *)
Definition join (w : nat) (x : worker) (f : Z) (F : coroutine) (k : list Z → task)
  (s : state) : option state :=
  let steals := Frame.load_steals (control F) in
  if decide (steals = 0) then
    F' ← join_resume k F;
    Some (set_frames (<[f := F']> (frames s)) s)
  else
    let joined := k_u16_max - Frame.load_joins (control F) in
    if decide (steals = joined) then
      F' ← join_resume k (set_control (Frame.reset (control F)) F);
      Some (set_frames (<[f := F']> (frames s)) s)
    else
      Some (set_worker w (mk_worker (context x) (suspending f))
              (set_frames (<[f := set_in_join true F]> (frames s)) s)).

(** [try_self_stealing] *)
Definition try_self_stealing (w : nat) (x : worker) (s : state) : option state :=
  let '(eff_stolen, d) := Deque.pop (context x) in
  if decide (eff_stolen ≠ 0) then
    E ← frames s !! eff_stolen;
    Some (set_worker w (mk_worker d (running eff_stolen))
            (set_frames
               (<[eff_stolen := set_control (Frame.fetch_add_steal (control E)).2 E]>
                  (frames s)) s))
  else Some (set_worker w (mk_worker d idle) s).

(** [join_awaitable::await_suspend] *)
Definition join_await_suspend (w : nat) (x : worker) (f : Z) (F : coroutine) (s : state)
  : option state :=
  let steals := Frame.load_steals (control F) in
  let '(joined, c') := Frame.fetch_sub_joins (wrap16 (k_u16_max - steals)) (control F) in
  if decide (steals = k_u16_max - joined) then
    Some (set_worker w (mk_worker (context x) (running f))
            (set_frames (<[f := set_control (Frame.reset c') F]> (frames s)) s))
  else
    try_self_stealing w x (set_frames (<[f := set_control c' F]> (frames s)) s).

(** [detail::final_await_suspend], after the child has been destroyed. *)
Definition final_await_suspend (w : nat) (x : worker) (parent : Z) (s : state)
  : option state :=
  let '(parent_task, d) := Deque.pop (context x) in
  if decide (parent_task ≠ 0) then
    Some (set_worker w (mk_worker d (running parent)) s)
  else
    P ← frames s !! parent;
    let '(before, c') := Frame.fetch_sub_joins 1 (control P) in
    if decide (before = 1) then
      Some (set_worker w (mk_worker d (running parent))
              (set_frames (<[parent := set_control (Frame.reset c') P]> (frames s)) s))
    else
      Some (set_worker w (mk_worker d idle)
              (set_frames (<[parent := set_control c' P]> (frames s)) s)).

(** [co_return v]: [return_value] stores through the return address, then
    [final_suspend] and [final_awaitable::await_suspend]. *)
Definition final (w : nat) (x : worker) (f : Z) (F : coroutine) (v : Z) (s : state)
  : option state :=
  if decide (Frame.load_steals (control F) = 0) then
    let parent := Frame.parent (control F) in
    match tg F with
    | tag_root =>
        S ← heap s !! parent;
        h ← Future.sem_release parent
               (<[parent := Future.mk_shared (Future.sem S) (Future.status S) (Some (Ok v))]>
                  (heap s));
        Some (set_worker w (mk_worker (context x) idle)
                (set_heap h (set_frames (delete f (frames s)) s)))
    | tag_call =>
        P ← frames s !! parent;
        match body P with
        | co_call _ k =>
            Some (set_worker w (mk_worker (context x) (running parent))
                    (set_frames (<[parent := set_body (k v) P]> (delete f (frames s))) s))
        | _ => None
        end
    | tag_fork =>
        P ← frames s !! parent;
        final_await_suspend w x parent
          (set_frames (<[parent := set_vars (<[ret F := v]> (vars P)) P]>
                         (delete f (frames s))) s)
    end
  else None.

(** One step of worker [w] inside the task it has. *)
Definition run (w : nat) (s : state) : option state :=
  x ← workers s !! w;
  match act x with
  | idle => None
  | stolen f =>
      F ← frames s !! f;
      Some (set_worker w (mk_worker (context x) (running f))
              (set_frames (<[f := set_control (Frame.fetch_add_steal (control F)).2 F]>
                             (frames s)) s))
  | suspending f =>
      F ← frames s !! f;
      join_await_suspend w x f F s
  | running f =>
      F ← frames s !! f;
      match body F with
      | co_join k =>
          if in_join F then
            F' ← join_resume k F;
            Some (set_frames (<[f := F']> (frames s)) s)
          else join w x f F k s
      | co_return v => final w x f F v s
      | co_fork child k => fork w x f F child k s
      | co_call child _ => call w x f child s
      end
  end.

(** An idle worker steals from the deque of worker [v].  An attempt that
    finds the deque empty changes nothing, and is not a step. *)
Definition steal (w v : nat) (s : state) : option state :=
  x ← workers s !! w;
  y ← workers s !! v;
  match act x with
  | idle =>
      match Deque.steal (context y) with
      | (Deque.none, f, d) =>
          Some (set_worker w (mk_worker (context x) (stolen f))
                  (set_worker v (mk_worker d (act y)) s))
      | _ => None
      end
  | _ => None
  end.

(** An idle worker finds the root task in its submission queue:
    [resume(submit_handle)]. *)
Definition resume_submitted (w : nat) (s : state) : option state :=
  x ← workers s !! w;
  r ← submitted s;
  match act x with
  | idle => Some (set_submitted None (set_worker w (mk_worker (context x) (running r)) s))
  | _ => None
  end.

Inductive label : Type :=
  | l_submitted (w : nat)
  | l_steal (w v : nat)
  | l_run (w : nat).

Definition step (l : label) (s : state) : option state :=
  match l with
  | l_submitted w => resume_submitted w s
  | l_steal w v => if decide (w = v) then None else steal w v s
  | l_run w => run w s
  end.

Fixpoint exec (ls : list label) (s : state) : option state :=
  match ls with
  | [] => Some s
  | l :: rest => s' ← step l s; exec rest s'
  end.

(** [schedule(pool, f, args...)] on a pool of [n] workers: the future is at
    address 1 of the heap, the root task at address 1 of the frames. *)
Definition schedule (n : nat) (t : task) : state :=
  mk_state {[ 1 := spawn tag_root 1 0 t ]}
           (replicate n (mk_worker Deque.deque_new idle))
           2
           {[ 1 := Future.mk_shared 0 Future.no_wait None ]}
           (Some 1).

(** [sync_wait]: [schedule(...).get()], with the pool in the state [s]. *)
Definition sync_wait (s : state) : option Future.outcome := Future.get 1 (heap s).

End Runtime.

(** ** The specification's wording of two behaviours, to compare with the code *)

Module Wording.

(** "In all other cases W gives up (releases) the stack it owned and returns
    to the scheduler loop": whenever the final suspend of a forked child
    does not resume the parent, the worker's stack afterwards is the one
    [stack::release] leaves. *)
Definition releases_stack (sizeof_stacklet : Z) (malloc : Z → option Z) (w w' : world) : Prop :=
  ∃ old, Stack.stack_release sizeof_stacklet malloc (tls_stack w)
         = Some (Ok (old, tls_stack w')).

Definition final_suspend_always_releases (sizeof_stacklet : Z) : Prop :=
  ∀ malloc parent w w',
    Deque.items (tls_context w) = [] →
    Promise.final_await_suspend sizeof_stacklet malloc parent w
    = Some (transfer noop_coroutine, w') →
    releases_stack sizeof_stacklet malloc w w'.

(** "If the current frame has exclusive ownership and an exception is
    stashed, the awaitable rethrows the real stashed exception; otherwise it
    throws the substitute when the frame's atomic exception flag is set":
    for every dispatch with a sync or eager_throw modifier. *)
Definition eager_modifier (t : tag) (m : modifier) : Prop :=
  (t = tag_fork ∧ (m = mod_sync ∨ m = mod_sync_outside))
  ∨ (t = tag_call ∧ (m = mod_eager_throw ∨ m = mod_eager_throw_outside)).

Definition rethrows_or_substitutes : Prop :=
  ∀ t m throwing a steals_pre self w f e,
    eager_modifier t m →
    Promise.await_transform t m throwing = Some a →
    frames w !! self = Some f →
    Frame.m_except f = true → Frame.m_eptr f = Some e →
    (Frame.m_steal f = 0 →
       ∃ w', Promise.await_resume a steals_pre self w = Some (Throw e, w'))
    ∧ (Frame.m_steal f ≠ 0 →
       Promise.await_resume a steals_pre self w = Some (Throw exception_before_join, w)).

(** "Otherwise allocates a fresh stacklet of size max(2 * capacity(top), n)",
    for every [allocate(n)]: whenever [allocate] puts a stacklet it got from
    [malloc] on top, that stacklet has room for [max (2 * capacity top) n]
    bytes. *)
Definition fresh_stacklet_holds (k_new_align sizeof_stacklet : Z) : Prop :=
  ∀ malloc size st top p st' t',
    Stack.stack_ok k_new_align st top →
    Stack.malloc_ok k_new_align malloc (Stack.heap st) →
    0 ≤ size < 2 ^ 64 →
    Stack.allocate k_new_align sizeof_stacklet malloc size st = Some (Ok p, st') →
    Stack.heap st !! Stack.m_fib st' = None →
    Stack.heap st' !! Stack.m_fib st' = Some t' →
    Z.max (2 * (Stack.m_hi top - Stack.m_lo top)) size ≤ Stack.m_hi t' - Stack.m_lo t'.

(** "Whenever that increment raises A from 0 it notifies one thread in
    every NUMA domain." *)
Definition notifies_every_domain : Prop :=
  ∀ tid v v' calls,
    Lazy.thief_work_sleep_enter tid v = Some (v', calls) →
    Lazy.active v = 0 →
    ∀ i, (i < length (Lazy.numa v))%nat → i ∈ calls.

End Wording.

(** ** Sample worlds *)

Module Samples.

(** A worker whose stack is the empty stacklet at 12288, with an empty
    deque, and a parent frame at 4200 that lives on the stacklet at 4096. *)
Definition heap1 : gmap Z Stack.stacklet :=
  {[ 4096 := Stack.mk_stacklet 4144 4400 8144 0 0;
     12288 := Stack.mk_stacklet 12336 12336 16336 0 0 ]}.

Definition parent_frame (join steal : Z) : Frame.frame :=
  Frame.mk_frame None 4096 0 join steal false.

Definition world1 (join steal : Z) : world :=
  mk_world {[ 4200 := parent_frame join steal ]}
           (Stack.mk_stack heap1 12288) Deque.deque_new [].

(** A [malloc] with one block left, at 20480. *)
Definition malloc1 (request : Z) : option Z := Some 20480.

(** The same worker when the parent has captured the exception 7. *)
Definition world_thrown (steal : Z) : world :=
  mk_world {[ 4200 := Frame.mk_frame (Some (user_exception 7)) 4096 0 k_u16_max steal true ]}
           (Stack.mk_stack heap1 12288) Deque.deque_new [].

(** A worker running the parent at 4200 on the stacklet at 4096. *)
Definition world_before_fork (d : Deque.deque) : world :=
  mk_world {[ 4200 := Frame.mk_frame None 4096 0 k_u16_max 0 false ]}
           (Stack.mk_stack {[ 4096 := Stack.mk_stacklet 4144 4400 8144 0 0 ]} 4096) d [].

(** The same worker when it has just allocated the child's frame of 256
    bytes at 4400. *)
Definition heap2 : gmap Z Stack.stacklet :=
  {[ 4096 := Stack.mk_stacklet 4144 4656 8144 0 0 ]}.

Definition world_fork (d : Deque.deque) : world :=
  mk_world {[ 4200 := Frame.mk_frame None 4096 0 k_u16_max 0 false;
              4400 := Frame.mk_frame None 4096 4200 k_u16_max 0 false ]}
           (Stack.mk_stack heap2 4096) d [].

(** A deque of capacity one that holds the continuation of an ancestor. *)
Definition full_deque : Deque.deque := Deque.mk_deque [4150] 1.

(** Two workers, one per domain.  Worker 0 finds nothing and goes to sleep
    as the last thief of domain 0 while nobody is active.  A task is then
    submitted to worker 1, which takes it, leaves the thieves of domain 1,
    and has just counted itself active. *)
Definition race_trace : list Lazy.label :=
  [ Lazy.by_thread 0 false None;   (* wake_up: thief 0 -> 1 *)
    Lazy.by_thread 0 false None;   (* find_work: nothing *)
    Lazy.by_thread 0 false None;   (* prepare_wait *)
    Lazy.by_thread 0 false None;   (* no submission, no stop *)
    Lazy.by_thread 0 false None;   (* thief 1 -> 0: the last thief *)
    Lazy.by_thread 0 false None;   (* active is 0 *)
    Lazy.by_thread 0 false None;   (* wait(key): asleep *)
    Lazy.by_thread 1 false None;   (* wake_up: thief 0 -> 1 *)
    Lazy.submit_bump 1;            (* schedule() on worker 1: notify_all *)
    Lazy.submit_wake 1;
    Lazy.by_thread 1 true None;    (* find_work: the submission *)
    Lazy.by_thread 1 false None;   (* thief 1 -> 0: the last thief *)
    Lazy.by_thread 1 false None;   (* notify_one on domain 1: no waiter *)
    Lazy.by_thread 1 false None ]. (* active 0 -> 1 *)

Definition race_state : Lazy.state :=
  Lazy.mk_state
    (Lazy.mk_vars 1 [Lazy.mk_fat 0 1; Lazy.mk_fat 0 (2 * 2 ^ 32)] false)
    [Lazy.mk_thread 0 (Lazy.blocked 0); Lazy.mk_thread 1 (Lazy.tws_loop 0)].

(** No worker is active; domain 0 has one thief, domain 1 has two. *)
Definition vars_two_domains : Lazy.lazy_vars :=
  Lazy.mk_vars 0 [Lazy.mk_fat 1 0; Lazy.mk_fat 2 0] false.

(** A worker with two first-hop neighbours and one at two hops; a generator
    whose shuffle reverses and whose draws are all 0; deques that are all
    empty. *)
Definition topo_neighbors : list (list Z) := [[10]; [11; 12]; [13]].
Definition shuffle_reverse (l : list Z) (g : unit) : list Z * unit := (reverse l, g).
Definition draw_first (ws : list QArith_base.Q) (g : unit) : nat * unit := (0%nat, g).
Definition steal_empty (c : Z) (w : unit) : Deque.err * Z * unit := (Deque.empty, 0, w).

(** A future whose root task has not finished, at address 1. *)
Definition pending_store : gmap Z Future.future_shared_state :=
  {[ 1 := Future.mk_shared 0 Future.no_wait None ]}.

(** Four workers on two sockets: workers 0 and 1 share the first socket,
    2 and 3 the second; the distance is 0 to oneself, 1 within a socket and
    3 across. *)
Definition dist_two_sockets (i j : nat) : Z :=
  if decide (i = j) then 0
  else if decide (i / 2 = j / 2)%nat then 1 else 3.


(** A deque whose buffer of capacity 2 is full: 7 was pushed, then 8. *)
Definition ring_full : RingDeque.deque :=
  RingDeque.mk_deque 0 2 (RingDeque.mk_ring 2 1 [7; 8]) [].


(** Three unlinked nodes, carrying the submissions 101, 102 and 103. *)
Definition three_nodes : gmap Z IntrusiveList.node :=
  {[ 16 := IntrusiveList.mk_node 101 0;
     32 := IntrusiveList.mk_node 102 0;
     48 := IntrusiveList.mk_node 103 0 ]}.


(** A worker about to fork: the parent's frame is at 100, and the child's
    frame at 4144 is the one allocation on the worker's stack. *)
Definition forking_world : world :=
  mk_world {[ 100 := Frame.frame_new 4096;
              4144 := Frame.set_parent 100 (Frame.frame_new 4096) ]}
           (Stack.mk_stack {[ 4096 := Stack.mk_stacklet 4144 4208 8144 0 0 ]} 4096)
           Deque.deque_new [].


(** Seven ones, the input of the example in scan.hpp. *)
Definition seven_ones : list Z := [1; 1; 1; 1; 1; 1; 1].

(** The join of the parent at 4200 after two steals.  The parent's worker
    and the worker of one child have the stacklet at 12288 on top; the
    worker of the other child still has the parent's stacklet at 4096. *)
Definition join_start : JoinRace.state :=
  JoinRace.mk_state {[ 4200 := parent_frame k_u16_max 2 ]}
                    (Stack.mk_stack heap1 12288) Deque.deque_new JoinRace.at_join 0.

Definition child_on_parents_stack : JoinRace.party :=
  JoinRace.child_final (Stack.mk_stack heap1 4096) Deque.deque_new.

Definition child_on_own_stack : JoinRace.party :=
  JoinRace.child_final (Stack.mk_stack heap1 12288) Deque.deque_new.

(** The owner pushes 7 and pops; a thief that saw the 7 before the pop
    lowered the bottom takes it first, so the pop finds nothing.  The owner
    pushes 8, 9 and 10, which makes the buffer of capacity 2 grow, and a
    second thief steals the 8. *)
Definition steal_race_work : list SharedDeque.op :=
  [SharedDeque.op_push 7; SharedDeque.op_pop; SharedDeque.op_push 8;
   SharedDeque.op_push 9; SharedDeque.op_push 10].

Definition steal_race : list (option nat) :=
  [None; None; None; None;
   Some 0%nat; Some 0%nat; Some 0%nat;
   None; None;
   Some 0%nat; Some 0%nat;
   None; None;
   None; None; None; None; None; None; None; None; None; None; None; None;
   Some 1%nat; Some 1%nat; Some 1%nat; Some 1%nat; Some 1%nat].

End Samples.

(** * Theorems *)

(** ** Arithmetic of the roundings *)

Lemma wrap64_small x : 0 ≤ x < 2 ^ 64 → wrap64 x = x.
Proof. intros H. unfold wrap64. apply Z.mod_small. exact H. Qed.

Lemma wrap64_lnot_ones e : 0 ≤ e ≤ 64 → wrap64 (Z.lnot (2 ^ e - 1)) = 2 ^ 64 - 2 ^ e.
Proof.
  intros He. unfold wrap64, Z.lnot. rewrite <- Z.sub_1_r.
  replace (- (2 ^ e - 1) - 1) with (2 ^ 64 - 2 ^ e + (-1) * 2 ^ 64) by lia.
  rewrite Z.mod_add by lia.
  assert (0 < 2 ^ e ≤ 2 ^ 64).
  { split; [apply Z.pow_pos_nonneg; lia | apply Z.pow_le_mono_r; lia]. }
  apply Z.mod_small. lia.
Qed.

(** [x & ~(2^e - 1)] on 64-bit words clears the low [e] bits. *)
Lemma land_clear_low e x :
  0 ≤ e ≤ 64 → 0 ≤ x < 2 ^ 64 →
  Z.land x (wrap64 (Z.lnot (2 ^ e - 1))) = 2 ^ e * (x / 2 ^ e).
Proof.
  intros He Hx.
  rewrite <- (Z.shiftr_div_pow2 x e), Z.mul_comm, <- Z.shiftl_mul_pow2 by lia.
  rewrite <- Z.ldiff_ones_r by lia.
  apply Z.bits_inj'. intros n Hn.
  rewrite Z.land_spec, Z.ldiff_spec.
  unfold wrap64. rewrite Z.sub_1_r, <- Z.ones_equiv.
  destruct (Z_lt_dec n 64) as [Hlt | Hge].
  - rewrite Z.mod_pow2_bits_low by lia. rewrite Z.lnot_spec by lia. reflexivity.
  - rewrite Z.mod_pow2_bits_high by lia.
    assert (Z.testbit x n = false) as ->; [| reflexivity].
    destruct (Z.eq_dec x 0) as [-> | Hx0]; [apply Z.bits_0 |].
    apply Z.bits_above_log2; [lia |].
    apply Z.log2_lt_pow2; [lia |].
    apply Z.lt_le_trans with (2 ^ 64); [lia | apply Z.pow_le_mono_r; lia].
Qed.

Section StackSpec.

Variables (k_new_align sizeof_stacklet log2_align : Z).

(** [static_assert(std::has_single_bit(k_new_align))] *)
Hypothesis align_pow2 : k_new_align = 2 ^ log2_align ∧ 0 ≤ log2_align ≤ 60.
(** [static_assert(sizeof(stacklet) >= impl::k_new_align)] *)
Hypothesis sizeof_ge : k_new_align ≤ sizeof_stacklet < 2 ^ 61.
(** [static_assert(sizeof(stacklet) % impl::k_new_align == 0)] *)
Hypothesis sizeof_mult : sizeof_stacklet mod k_new_align = 0.

Lemma k_new_align_pos : 0 < k_new_align ≤ 2 ^ 60.
Proof.
  destruct align_pow2 as [-> He]. split.
  - apply Z.pow_pos_nonneg; lia.
  - apply Z.pow_le_mono_r; lia.
Qed.

Lemma ext_size_of_eq size :
  0 ≤ size → size + k_new_align ≤ 2 ^ 64 →
  Stack.ext_size_of k_new_align size
  = k_new_align * ((size + k_new_align - 1) / k_new_align).
Proof.
  intros Hs0 Hs. pose proof k_new_align_pos as Hk. unfold Stack.ext_size_of.
  rewrite (wrap64_small (size + k_new_align - 1)) by lia.
  destruct align_pow2 as [Hk2 He]. rewrite Hk2 at 2 3 4.
  rewrite land_clear_low by lia. rewrite <- Hk2. reflexivity.
Qed.

Lemma ext_size_of_bounds size :
  0 ≤ size → size + k_new_align ≤ 2 ^ 64 →
  size ≤ Stack.ext_size_of k_new_align size < size + k_new_align
  ∧ Stack.ext_size_of k_new_align size mod k_new_align = 0.
Proof.
  intros Hs0 Hs. pose proof k_new_align_pos as Hk.
  rewrite ext_size_of_eq by assumption.
  pose proof (Z.div_mod (size + k_new_align - 1) k_new_align ltac:(lia)) as Hdm.
  pose proof (Z.mod_pos_bound (size + k_new_align - 1) k_new_align ltac:(lia)) as Hmb.
  split; [lia |].
  rewrite Z.mul_comm. apply Z.mod_mul. lia.
Qed.

Lemma round_up_to_page_size_eq size :
  0 ≤ size → size + 4143 < 2 ^ 64 →
  Stack.round_up_to_page_size size
  = 4096 * ((size + 48 + 4095) / 4096) - 48.
Proof.
  intros Hs0 Hs. unfold Stack.round_up_to_page_size, Stack.malloc_meta_data_size, Stack.page_size.
  rewrite (wrap64_small (size + 6 * 8)) by lia.
  rewrite (wrap64_small (size + 6 * 8 + 4096 - 1)) by lia.
  change 4096 with (2 ^ 12) at 2.
  rewrite land_clear_low by lia.
  change (2 ^ 12) with 4096.
  pose proof (Z.div_mod (size + 6 * 8 + 4096 - 1) 4096 ltac:(lia)) as Hdm.
  pose proof (Z.mod_pos_bound (size + 6 * 8 + 4096 - 1) 4096 ltac:(lia)) as Hmb.
  rewrite wrap64_small by lia.
  replace (size + 48 + 4095) with (size + 6 * 8 + 4096 - 1) by lia. lia.
Qed.

Lemma round_up_to_page_size_bounds size :
  0 ≤ size → size + 4143 < 2 ^ 64 →
  size ≤ Stack.round_up_to_page_size size < size + 4096
  ∧ (Stack.round_up_to_page_size size + 48) mod 4096 = 0.
Proof.
  intros Hs0 Hs. rewrite round_up_to_page_size_eq by assumption.
  pose proof (Z.div_mod (size + 48 + 4095) 4096 ltac:(lia)) as Hdm.
  pose proof (Z.mod_pos_bound (size + 48 + 4095) 4096 ltac:(lia)) as Hmb.
  split; [lia |].
  replace (4096 * ((size + 48 + 4095) / 4096) - 48 + 48)
    with (((size + 48 + 4095) / 4096) * 4096) by lia.
  apply Z.mod_mul. lia.
Qed.

(** The size handed to [malloc] when the stack grows: no [size_t] operation
    wraps, the request covers the header and the wanted stack with less than
    a page to spare, and the request plus the estimated [malloc] header is a
    whole number of pages. *)
Lemma grow_request top size :
  Stack.stacklet_ok k_new_align top →
  0 ≤ size → size + k_new_align + sizeof_stacklet + 4143 ≤ 2 ^ 64 →
  let ext := Stack.ext_size_of k_new_align size in
  let want := Z.max (2 * (Stack.m_hi top - Stack.m_lo top)) ext in
  let request := Stack.round_up_to_page_size (want + sizeof_stacklet) in
  wrap64 (Z.max (wrap64 (2 * Stack.capacity top)) ext + sizeof_stacklet) = want + sizeof_stacklet
  ∧ want + sizeof_stacklet ≤ request < want + sizeof_stacklet + 4096
  ∧ (request + 48) mod 4096 = 0.
Proof.
  intros (Hlo & Hhi & _) Hs0 Hs. cbv zeta.
  pose proof k_new_align_pos as Hk.
  pose proof (ext_size_of_bounds size Hs0 ltac:(lia)) as [Hext _].
  set (ext := Stack.ext_size_of k_new_align size) in *.
  unfold Stack.capacity.
  assert (0 ≤ 2 * (Stack.m_hi top - Stack.m_lo top) < 2 ^ 63) as Hcap by lia.
  rewrite (wrap64_small (2 * (Stack.m_hi top - Stack.m_lo top))) by lia.
  set (want := Z.max (2 * (Stack.m_hi top - Stack.m_lo top)) ext).
  assert (0 ≤ want ∧ want + sizeof_stacklet + 4143 < 2 ^ 64) as Hwant by (unfold want; lia).
  rewrite wrap64_small by lia.
  pose proof (round_up_to_page_size_bounds (want + sizeof_stacklet) ltac:(lia) ltac:(lia))
    as [Hr Hp].
  repeat split; [lia | lia | exact Hp].
Qed.

(** The three ways in which [allocate] succeeds. *)
Lemma allocate_cases malloc size st top p st1 :
  Stack.stack_ok k_new_align st top →
  0 ≤ size → size + k_new_align + sizeof_stacklet + 4143 ≤ 2 ^ 64 →
  Stack.allocate k_new_align sizeof_stacklet malloc size st = Some (Ok p, st1) →
  let ext := Stack.ext_size_of k_new_align size in
  (ext ≤ Stack.unused top
   ∧ p = Stack.m_sp top
   ∧ st1 = Stack.mk_stack
             (<[Stack.m_fib st := Stack.set_sp (wrap64 (Stack.m_sp top + ext)) top]>
                (Stack.heap st))
             (Stack.m_fib st))
  ∨ (∃ c, Stack.m_next top ≠ 0 ∧ Stack.heap st !! Stack.m_next top = Some c
          ∧ ext ≤ Stack.capacity c
          ∧ p = Stack.m_sp c
          ∧ st1 = Stack.mk_stack
                    (<[Stack.m_next top := Stack.set_sp (wrap64 (Stack.m_sp c + ext)) c]>
                       (Stack.heap st))
                    (Stack.m_next top))
  ∨ (∃ a request, malloc request = Some a
          ∧ sizeof_stacklet + ext ≤ request
          ∧ p = a + sizeof_stacklet
          ∧ st1 = Stack.mk_stack
                    (<[a := Stack.mk_stacklet (a + sizeof_stacklet)
                                              (wrap64 (a + sizeof_stacklet + ext))
                                              (a + request) (Stack.m_fib st) 0]>
                       (delete (Stack.m_next top)
                          (<[Stack.m_fib st := Stack.set_next_field a top]> (Stack.heap st))))
                    a).
Proof.
  intros (Htop & Hfib & Hok & Hcached) Hs0 Hs Halloc ext.
  pose proof (grow_request top size Hok Hs0 Hs) as (Hw & Hreq & _).
  fold ext in Hw, Hreq.
  set (request := Stack.round_up_to_page_size _) in Hreq.
  assert (Hgrow : ∀ q st', Stack.grow sizeof_stacklet malloc ext top st = Some (Ok q, st') →
    ∃ a, malloc request = Some a ∧ q = a + sizeof_stacklet
      ∧ st' = Stack.mk_stack
                (<[a := Stack.mk_stacklet (a + sizeof_stacklet)
                                          (wrap64 (a + sizeof_stacklet + ext))
                                          (a + request) (Stack.m_fib st) 0]>
                   (delete (Stack.m_next top)
                      (<[Stack.m_fib st := Stack.set_next_field a top]> (Stack.heap st))))
                a).
  { intros q st'. unfold Stack.grow, Stack.next_stacklet. rewrite Hw. fold request.
    destruct (malloc request) as [a |] eqn:Hm; [| discriminate].
    rewrite decide_True by exact Hfib.
    unfold Stack.set_next. rewrite Htop. simpl.
    unfold Stack.bump. simpl. rewrite lookup_insert_eq. simpl.
    rewrite insert_insert_eq. intros [= <- <-]. by exists a. }
  unfold Stack.allocate in Halloc. rewrite Htop in Halloc. simpl in Halloc. fold ext in Halloc.
  destruct (decide (Stack.unused top < ext)) as [Hlt|Hge].
  - destruct (decide (Stack.m_next top ≠ 0)) as [Hnz|Hz].
    + destruct (Stack.heap st !! Stack.m_next top) as [c|] eqn:Hc; [|discriminate].
      simpl in Halloc. destruct (decide (Stack.capacity c >= ext)).
      * unfold Stack.bump in Halloc. simpl in Halloc. rewrite Hc in Halloc.
        injection Halloc as <- <-. right. left. exists c.
        split; [done|]. split; [done|]. split; [lia|]. done.
      * destruct (Hgrow _ _ Halloc) as (a & Hm & -> & ->). right. right.
        exists a, request. repeat split; [done | lia].
    + destruct (Hgrow _ _ Halloc) as (a & Hm & -> & ->). right. right.
      exists a, request. repeat split; [done | lia].
  - unfold Stack.bump in Halloc. rewrite Htop in Halloc. injection Halloc as <- <-.
    left. split; [lia | done].
Qed.


Lemma set_sp_same s : Stack.set_sp (Stack.m_sp s) s = s.
Proof. by destruct s. Qed.

Lemma set_next_field_same s : Stack.set_next_field (Stack.m_next s) s = s.
Proof. by destruct s. Qed.

(** The guard against over-caching at the end of [deallocate], on a top
    stacklet [f] that may have a cached stacklet above it. *)
Lemma deallocate_empty_top h fib f ptr s :
  h !! fib = Some s → Stack.set_sp ptr s = f → Stack.m_sp f = Stack.m_lo f →
  Stack.m_prev f = 0 → fib ≠ 0 →
  Stack.deallocate ptr (Stack.mk_stack h fib)
  = if decide (Stack.m_next f ≠ 0) then
      n ← <[fib := f]> h !! Stack.m_next f;
      if decide (Stack.capacity n > 8 * Stack.capacity f) then
        Some (Stack.mk_stack
                (delete (Stack.m_next f) (<[fib := Stack.set_next_field 0 f]> h)) fib)
      else Some (Stack.mk_stack (<[fib := f]> h) fib)
    else Some (Stack.mk_stack (<[fib := f]> h) fib).
Proof.
  intros Hs <- Hemp Hprev Hfib. unfold Stack.deallocate.
  cbn [Stack.heap Stack.m_fib]. rewrite Hs. cbn [mbind option_bind].
  unfold Stack.stacklet_empty. rewrite bool_decide_eq_true_2 by done.
  rewrite decide_False by (intros H; apply H; exact Hprev). cbn [mbind option_bind].
  rewrite lookup_insert_eq. cbn [mbind option_bind].
  destruct (decide (Stack.m_next (Stack.set_sp ptr s) ≠ 0)); [|done].
  destruct (<[fib:=Stack.set_sp ptr s]> h !! Stack.m_next (Stack.set_sp ptr s)) as [nx|]; [|done].
  cbn [mbind option_bind].
  destruct (decide _); [|done].
  unfold Stack.set_next. rewrite lookup_insert_eq. cbn [mbind option_bind].
  by rewrite insert_insert_eq.
Qed.

(** [deallocate] of the last allocation of a stacklet that has a
    predecessor: the stack moves back to the predecessor [f]. *)
Lemma deallocate_pop h fib s ptr prev f :
  h !! fib = Some s → ptr = Stack.m_lo s → Stack.m_next s = 0 →
  Stack.m_prev s = prev → prev ≠ 0 → prev ≠ fib → h !! prev = Some f →
  Stack.deallocate ptr (Stack.mk_stack h fib)
  = let h2 := delete 0 (<[fib := Stack.set_sp ptr s]> h) in
    if decide (Stack.m_next f ≠ 0) then
      n ← h2 !! Stack.m_next f;
      if decide (Stack.capacity n > 8 * Stack.capacity f) then
        Some (Stack.mk_stack
                (delete (Stack.m_next f) (<[prev := Stack.set_next_field 0 f]> h2)) prev)
      else Some (Stack.mk_stack h2 prev)
    else Some (Stack.mk_stack h2 prev).
Proof.
  intros Hs -> Hnx Hprev Hp0 Hpf Hf. unfold Stack.deallocate.
  cbn [Stack.heap Stack.m_fib]. rewrite Hs. cbn [mbind option_bind].
  unfold Stack.stacklet_empty. rewrite bool_decide_eq_true_2 by done.
  rewrite decide_True by (cbn; by rewrite Hprev).
  assert (Stack.set_next fib 0 (<[fib:=Stack.set_sp (Stack.m_lo s) s]> h)
          = Some (delete 0 (<[fib:=Stack.set_sp (Stack.m_lo s) s]> h))) as ->.
  { unfold Stack.set_next. rewrite lookup_insert_eq. cbn [mbind option_bind].
    rewrite insert_insert_eq.
    replace (Stack.m_next (Stack.set_sp (Stack.m_lo s) s)) with 0 by (by destruct s).
    replace (Stack.set_next_field 0 (Stack.set_sp (Stack.m_lo s) s))
      with (Stack.set_sp (Stack.m_lo s) s) by (destruct s; cbn in *; by subst).
    done. }
  cbn [mbind option_bind].
  replace (Stack.m_prev (Stack.set_sp (Stack.m_lo s) s)) with prev by (by destruct s).
  assert (delete 0 (<[fib:=Stack.set_sp (Stack.m_lo s) s]> h) !! prev = Some f) as Hl.
  { by rewrite lookup_delete_ne, lookup_insert_ne. }
  rewrite Hl. cbn [mbind option_bind]. cbv zeta.
  destruct (decide (Stack.m_next f ≠ 0)); [|done].
  destruct (_ !! Stack.m_next f) as [nx|]; [|done]. cbn [mbind option_bind].
  destruct (decide _); [|done].
  unfold Stack.set_next. rewrite Hl. done.
Qed.

(** A successful [allocate] followed by [deallocate] of the pointer it
    returned, on a stack at rest. *)
Lemma allocate_then_deallocate (malloc : Z → option Z) (size : Z)
    (st : Stack.stack) (top : Stack.stacklet) (p : Z) (st1 : Stack.stack) :
  Stack.stack_ok k_new_align st top →
  Stack.malloc_ok k_new_align malloc (Stack.heap st) →
  0 < size → size + k_new_align + sizeof_stacklet + 4143 ≤ 2 ^ 64 →
  (Stack.m_sp top = Stack.m_lo top → Stack.m_prev top = 0) →
  (∀ c, Stack.heap st !! Stack.m_next top = Some c → Stack.m_prev c = Stack.m_fib st) →
  Stack.allocate k_new_align sizeof_stacklet malloc size st = Some (Ok p, st1) →
  ∃ st2 top2,
    Stack.deallocate p st1 = Some st2
    ∧ Stack.m_fib st2 = Stack.m_fib st
    ∧ Stack.stack_ok k_new_align st2 top2
    ∧ Stack.m_lo top2 = Stack.m_lo top ∧ Stack.m_sp top2 = Stack.m_sp top
    ∧ Stack.m_hi top2 = Stack.m_hi top ∧ Stack.m_prev top2 = Stack.m_prev top
    ∧ (∀ k, k ≠ 0 → k ≠ Stack.m_fib st → k ≠ Stack.m_next top → k ≠ Stack.m_next top2 →
            Stack.heap st2 !! k = Stack.heap st !! k).
Proof.
  intros Hstack Hmalloc Hs Hwide Hrest Hback Halloc.
  pose proof k_new_align_pos as Hk.
  assert (0 ≤ size) as Hs0 by lia.
  pose proof (ext_size_of_bounds size Hs0 ltac:(lia)) as [Hext Hextm].
  destruct (allocate_cases _ _ _ _ _ _ Hstack Hs0 Hwide Halloc)
    as [(Hfit & -> & ->) | [(c & Hnz & Hc & Hcfit & -> & ->)
                           | (a & request & Hm & Hreq & -> & ->)]];
    destruct Hstack as (Htop & Hfib & Hok & Hcached);
    set (ext := Stack.ext_size_of k_new_align size) in *.
  - (* served by the top stacklet *)
    destruct (decide (Stack.m_sp top = Stack.m_lo top)) as [Hemp|Hnonemp].
    + rewrite (deallocate_empty_top _ _ top _ _ (lookup_insert_eq _ _ _));
        [| by destruct top | done | by apply Hrest | done].
      rewrite !insert_insert_eq, (insert_id _ _ _ Htop).
      destruct (decide (Stack.m_next top ≠ 0)) as [Hnz|Hz].
      * destruct Hcached as [?|(c & Hc & Hcok & Hcsp & Hcn)]; [done|].
        rewrite Hc. cbn [mbind option_bind].
        assert (Stack.m_next top ≠ Stack.m_fib st) as Hne.
        { intros Heq. rewrite Heq, Htop in Hc. injection Hc as <-. done. }
        destruct (decide (Stack.capacity c > 8 * Stack.capacity top)).
        -- eexists _, (Stack.set_next_field 0 top). split; [reflexivity|].
           split; [reflexivity|]. split.
           { split; [|split; [done|split; [done|by left]]].
             cbn [Stack.heap Stack.m_fib].
             rewrite lookup_delete_ne, lookup_insert_eq by done. done. }
           repeat (split; [reflexivity|]).
           intros k _ Hk1 Hk2 _. cbn [Stack.heap].
           by rewrite lookup_delete_ne, lookup_insert_ne.
        -- exists st, top. split; [by destruct st|].
           split; [reflexivity|]. split.
           { split; [done|split; [done|split; [done|]]]. right. by exists c. }
           done.
      * exists st, top. split; [by destruct st|].
        split; [reflexivity|]. split.
        { split; [done|split; [done|split; [done|]]]. left. by destruct (decide (Stack.m_next top = 0)); [|exfalso; apply Hz]. }
        done.
    + exists st, top. split.
      { unfold Stack.deallocate. cbn [Stack.heap Stack.m_fib]. rewrite lookup_insert_eq.
        cbn [mbind option_bind]. unfold Stack.stacklet_empty.
        rewrite bool_decide_eq_false_2 by (by destruct top).
        rewrite insert_insert_eq.
        replace (Stack.set_sp _ _) with top by (by destruct top).
        rewrite (insert_id _ _ _ Htop). by destruct st. }
      split; [reflexivity|]. split; [done|]. done.
  - (* served by the cached stacklet *)
    destruct Hcached as [?|(c' & Hc' & Hcok & Hcsp & Hcn)]; [done|].
    rewrite Hc in Hc'. injection Hc' as <-.
    assert (Stack.m_next top ≠ Stack.m_fib st) as Hne.
    { intros Heq. rewrite Heq, Htop in Hc. injection Hc as <-. done. }
    rewrite (deallocate_pop _ _ _ _ (Stack.m_fib st) top (lookup_insert_eq _ _ _));
      [| by destruct c | by destruct c | destruct c; by apply (Hback _ Hc) | done | done
       | by rewrite lookup_insert_ne ].
    cbv zeta. rewrite insert_insert_eq.
    replace (Stack.set_sp (Stack.m_sp c) _) with c by (by destruct c).
    rewrite (insert_id _ _ _ Hc).
    rewrite decide_True by done.
    rewrite lookup_delete_ne, Hc by done. cbn [mbind option_bind].
    assert (delete 0 (Stack.heap st) !! Stack.m_fib st = Some top) as Hl
      by (by rewrite lookup_delete_ne).
    destruct (decide (Stack.capacity c > 8 * Stack.capacity top)).
    + eexists _, (Stack.set_next_field 0 top). split; [reflexivity|].
      split; [reflexivity|]. split.
      { split; [|split; [done|split; [done|by left]]].
        cbn [Stack.heap Stack.m_fib].
        by rewrite lookup_delete_ne, lookup_insert_eq. }
      repeat (split; [reflexivity|]).
      intros k Hk0 Hk1 Hk2 _. cbn [Stack.heap].
      by rewrite lookup_delete_ne, lookup_insert_ne, lookup_delete_ne.
    + eexists _, top. split; [reflexivity|].
      split; [reflexivity|]. split.
      { split; [done|split; [done|split; [done|]]]. right. exists c.
        cbn [Stack.heap]. by rewrite lookup_delete_ne. }
      repeat (split; [reflexivity|]).
      intros k Hk0 _ _ _. cbn [Stack.heap]. by rewrite lookup_delete_ne.
  - (* served by a new stacklet *)
    destruct (Hmalloc _ _ Hm) as (Ha0 & Hapos & Hahi & Haal & Hafresh).
    assert (a ≠ Stack.m_fib st) as Hafib by (intros ->; by rewrite Htop in Hafresh).
    assert (Stack.m_next top ≠ Stack.m_fib st) as Hne.
    { intros Heq. destruct Hcached as [Hz|(c & Hc & _ & _ & Hcn)]; [congruence|].
      rewrite Heq, Htop in Hc. injection Hc as <-. congruence. }
    assert (a ≠ Stack.m_next top) as Hanx.
    { intros ->. destruct Hcached as [Hz|(c & Hc & _)]; [done|]. by rewrite Hc in Hafresh. }
    rewrite (deallocate_pop _ _ _ _ (Stack.m_fib st) (Stack.set_next_field a top)
               (lookup_insert_eq _ _ _));
      [| done | done | done | done | done
       | by rewrite lookup_insert_ne, lookup_delete_ne, lookup_insert_eq ].
    cbv zeta. rewrite insert_insert_eq.
    cbn [Stack.m_next Stack.set_next_field Stack.set_sp Stack.m_lo Stack.m_hi Stack.m_sp Stack.m_prev].
    rewrite decide_True by done.
    rewrite lookup_delete_ne, lookup_insert_eq by done. cbn [mbind option_bind].
    unfold Stack.set_sp.
    cbn [Stack.m_next Stack.m_lo Stack.m_hi Stack.m_sp Stack.m_prev].
    set (e := Stack.mk_stacklet (a + sizeof_stacklet) (a + sizeof_stacklet)
                (a + request) (Stack.m_fib st) 0).
    set (h2 := delete 0 (<[a:=e]> _)).
    assert (h2 !! Stack.m_fib st = Some (Stack.set_next_field a top)) as Hl.
    { unfold h2. by rewrite lookup_delete_ne, lookup_insert_ne, lookup_delete_ne,
        lookup_insert_eq. }
    assert (∀ k, k ≠ 0 → k ≠ Stack.m_fib st → k ≠ Stack.m_next top → k ≠ a →
                 h2 !! k = Stack.heap st !! k) as Hrest2.
    { intros k ? ? ? ?. unfold h2.
      by rewrite lookup_delete_ne, lookup_insert_ne, lookup_delete_ne, lookup_insert_ne. }
    destruct (decide _).
    + eexists _, (Stack.set_next_field 0 (Stack.set_next_field a top)).
      split; [reflexivity|]. split; [reflexivity|]. split.
      { split; [|split; [done|split; [done|by left]]].
        cbn [Stack.heap Stack.m_fib].
        by rewrite lookup_delete_ne, lookup_insert_eq. }
      repeat (split; [reflexivity|]).
      intros k Hk0 Hk1 Hk2 _. cbn [Stack.heap].
      destruct (decide (k = a)) as [->|Hka].
      * by rewrite lookup_delete_eq.
      * rewrite lookup_delete_ne, lookup_insert_ne by done. by apply Hrest2.
    + eexists _, (Stack.set_next_field a top). split; [reflexivity|].
      split; [reflexivity|]. split.
      { split; [done|split; [done|split; [done|]]]. right. exists e.
        cbn [Stack.heap Stack.m_next Stack.set_next_field].
        split; [unfold h2; by rewrite lookup_delete_ne, lookup_insert_eq|].
        split; [|done].
        unfold Stack.stacklet_ok, Stack.aligned. cbn.
        split; [lia|]. split; [lia|].
        rewrite <- Z.add_mod_idemp_l by lia. unfold Stack.aligned in Haal.
        rewrite Haal. exact sizeof_mult. }
      repeat (split; [reflexivity|]).
      intros k Hk0 Hk1 Hk2 Hk3. cbn [Stack.heap]. by apply Hrest2.
Qed.

End StackSpec.

Lemma sample_stack_ok : Stack.stack_ok 16 StackSamples.st0 StackSamples.top0.
Proof.
  unfold Stack.stack_ok, Stack.stacklet_ok, Stack.cached_ok, Stack.aligned. simpl.
  repeat split; first [lia | reflexivity].
Defined.

Lemma sample_malloc_ok : Stack.malloc_ok 16 StackSamples.malloc0 (Stack.heap StackSamples.st0).
Proof.
  intros r a. unfold StackSamples.malloc0, Stack.aligned. case_decide; [| discriminate].
  intros [= <-]. repeat split; first [lia | reflexivity].
Defined.



(** ** The join race *)

Lemma wrap16_small x : 0 ≤ x ≤ k_u16_max → wrap16 x = x.
Proof. unfold wrap16, k_u16_max. intros H. apply Z.mod_small. lia. Qed.

Lemma stack_assign_from_live frag st t :
  Stack.heap st !! Stack.m_fib st = Some t →
  Stack.stack_assign_from frag st
  = Some (Stack.mk_stack
            (delete (Stack.m_fib st)
               (delete (Stack.m_next t)
                  (<[Stack.m_fib st := Stack.set_next_field 0 t]> (Stack.heap st))))
            frag).
Proof.
  intros H. unfold Stack.stack_assign_from, Stack.stack_destroy, Stack.set_next.
  rewrite H. reflexivity.
Qed.

(** C2. A join on a frame [self] with a nonzero steal count [s] whose join
    counter [j] does not yet show [s] joined children is not ready: it
    suspends.  The suspension subtracts [k_u16_max - s] from the join counter
    with release ordering.  When the counter was [k_u16_max - s] just before
    (exactly [s] children had joined) the worker issues an acquire fence,
    takes the frame's stacklet as its stack, resets the steal count to [0]
    and the join counter to [k_u16_max] and resumes the task; this is the
    only case in which it does so.  Otherwise it leaves the frame with the
    new counter and goes on with [try_self_stealing]. *)
Theorem join_await_suspend_race (self : Z) (task : coroutine_handle) (w : world)
    (f : Frame.frame) (t : Stack.stacklet) :
  frames w !! self = Some f →
  Stack.heap (tls_stack w) !! Stack.m_fib (tls_stack w) = Some t →
  0 < Frame.m_steal f ≤ k_u16_max →
  0 ≤ Frame.m_join f ≤ k_u16_max →
  let s := Frame.m_steal f in
  let j := Frame.m_join f in
  let sub := ev_fetch_sub_joins self (k_u16_max - s) release in
  let f' := Frame.mk_frame (Frame.m_eptr f) (Frame.m_stacklet f) (Frame.m_parent f)
                           (wrap16 (j - (k_u16_max - s))) s (Frame.m_except f) in
  let w1 := emit sub (set_frames (<[self := f']> (frames w)) w) in
  let won :=
    mk_world (<[self := Frame.mk_frame (Frame.m_eptr f) (Frame.m_stacklet f)
                                        (Frame.m_parent f) k_u16_max 0 (Frame.m_except f)]>
                (frames w))
             (Stack.mk_stack
                (delete (Stack.m_fib (tls_stack w))
                   (delete (Stack.m_next t)
                      (<[Stack.m_fib (tls_stack w) := Stack.set_next_field 0 t]>
                         (Stack.heap (tls_stack w)))))
                (Frame.m_stacklet f))
             (tls_context w)
             (trace w ++ [sub; ev_fence acquire]) in
  (s ≠ k_u16_max - j →
     Awaitables.join_await_ready self w = Some (false, emit (ev_load_joins self acquire) w))
  ∧ (j = k_u16_max - s → Awaitables.join_await_suspend self task w = Some (task, won))
  ∧ (j ≠ k_u16_max - s →
       Awaitables.join_await_suspend self task w = Awaitables.try_self_stealing w1
       ∧ trace w1 = trace w ++ [sub])
  ∧ ((∃ w', Awaitables.join_await_suspend self task w = Some (task, w')
            ∧ trace w' = trace w ++ [sub; ev_fence acquire])
     ↔ j = k_u16_max - s).
Proof.
  intros Hf Ht Hs Hj. cbv zeta.
  assert (Hsub : wrap16 (k_u16_max - Frame.m_steal f) = k_u16_max - Frame.m_steal f).
  { apply wrap16_small. lia. }
  assert (Hwon : Frame.m_join f = k_u16_max - Frame.m_steal f →
    Awaitables.join_await_suspend self task w
    = Some (task,
        mk_world (<[self := Frame.mk_frame (Frame.m_eptr f) (Frame.m_stacklet f)
                                        (Frame.m_parent f) k_u16_max 0 (Frame.m_except f)]>
                (frames w))
             (Stack.mk_stack
                (delete (Stack.m_fib (tls_stack w))
                   (delete (Stack.m_next t)
                      (<[Stack.m_fib (tls_stack w) := Stack.set_next_field 0 t]>
                         (Stack.heap (tls_stack w)))))
                (Frame.m_stacklet f))
             (tls_context w)
             (trace w ++ [ev_fetch_sub_joins self (k_u16_max - Frame.m_steal f) release;
                          ev_fence acquire]))).
  { intros Heq. unfold Awaitables.join_await_suspend. rewrite Hf. simpl.
    unfold Frame.load_steals. rewrite Hsub.
    rewrite decide_True by lia.
    unfold Awaitables.take_stack_reset_frame. simpl.
    rewrite lookup_insert_eq. simpl.
    rewrite (stack_assign_from_live _ _ t Ht). simpl.
    unfold set_frames, set_stack, emit, Frame.reset. simpl.
    rewrite insert_insert_eq, <- app_assoc. reflexivity. }
  assert (Hlost : Frame.m_join f ≠ k_u16_max - Frame.m_steal f →
    Awaitables.join_await_suspend self task w
    = Awaitables.try_self_stealing
        (emit (ev_fetch_sub_joins self (k_u16_max - Frame.m_steal f) release)
           (set_frames
              (<[self := Frame.mk_frame (Frame.m_eptr f) (Frame.m_stacklet f)
                           (Frame.m_parent f)
                           (wrap16 (Frame.m_join f - (k_u16_max - Frame.m_steal f)))
                           (Frame.m_steal f) (Frame.m_except f)]> (frames w)) w))).
  { intros Hne. unfold Awaitables.join_await_suspend. rewrite Hf. simpl.
    unfold Frame.load_steals. rewrite Hsub.
    rewrite decide_False by lia. reflexivity. }
  split; [| split; [| split]].
  - intros Hne. unfold Awaitables.join_await_ready. rewrite Hf. simpl.
    unfold Frame.load_steals, Frame.load_joins.
    rewrite decide_False by lia. rewrite decide_False by lia. reflexivity.
  - exact Hwon.
  - intros Hne. split; [exact (Hlost Hne) | reflexivity].
  - split.
    + intros (w' & Hres & Htr).
      destruct (decide (Frame.m_join f = k_u16_max - Frame.m_steal f)) as [Heq | Hne];
        [exact Heq | exfalso].
      rewrite (Hlost Hne) in Hres. unfold Awaitables.try_self_stealing in Hres.
      simpl in Hres. destruct (Deque.pop (tls_context w)) as [x d].
      case_decide.
      * rewrite lookup_insert in Hres. case_decide.
        -- simpl in Hres. injection Hres as _ <-. simpl in Htr.
           apply app_inv_head in Htr. discriminate.
        -- destruct (frames w !! x); [| discriminate].
           simpl in Hres. injection Hres as _ <-. simpl in Htr.
           apply app_inv_head in Htr. discriminate.
      * injection Hres as _ <-. simpl in Htr. apply app_inv_head in Htr. discriminate.
    + intros Heq. eexists. split; [exact (Hwon Heq) | reflexivity].
Qed.

(** One stolen child has joined ([join = k_u16_max - 1], [steal = 1]): the
    joining worker wins. *)
Lemma join_await_suspend_race_witness :
  Awaitables.join_await_suspend 4200 (coro 4200) (Samples.world1 65534 1)
  = Some (coro 4200,
          mk_world {[ 4200 := Samples.parent_frame 65535 0 ]}
                   (Stack.mk_stack
                      (delete 12288
                         (delete 0
                            (<[12288 := Stack.mk_stacklet 12336 12336 16336 0 0]>
                               Samples.heap1)))
                      4096)
                   Deque.deque_new
                   [ev_fetch_sub_joins 4200 65534 release; ev_fence acquire]).
Proof.
  pose proof (join_await_suspend_race 4200 (coro 4200) (Samples.world1 65534 1)
                (Samples.parent_frame 65534 1)
                (Stack.mk_stacklet 12336 12336 16336 0 0)
                eq_refl eq_refl) as H.
  simpl in H. unfold k_u16_max in H.
  destruct (H ltac:(lia) ltac:(lia)) as (_ & Hwon & _).
  rewrite (Hwon eq_refl). unfold Samples.world1, Samples.parent_frame. simpl.
  rewrite insert_singleton_eq. reflexivity.
Defined.

(** ** The final suspend of a forked child *)

Lemma set_context_same w : set_context (tls_context w) w = w.
Proof. destruct w. reflexivity. Qed.

Section FinalSuspend.

Variable sizeof_stacklet : Z.

(** C3, as the code has it.  At the final suspend of a forked child the
    worker pops its deque.  (a) A popped continuation is the parent's: the
    worker transfers to the parent, and neither the parent's frame nor the
    trace of atomic operations changes.  (b) With nothing to pop, the worker
    subtracts one from the parent's join counter with release ordering.  When
    the counter was 1 it issues an acquire fence, makes the parent's stacklet
    the top of its stack (installing a stack built from the parent's stacklet
    when that is not already its top), resets the parent's counters and
    transfers to the parent.  (c) When the counter was not 1 it returns to
    the scheduler ([noop_coroutine]) and releases its stack only when the
    stack's top is the parent's stacklet; a stack of its own it keeps. *)
Theorem final_await_suspend_spec (malloc : Z → option Z) (parent : Z) (w : world)
    (p : Frame.frame) (t : Stack.stacklet) :
  frames w !! parent = Some p →
  Stack.heap (tls_stack w) !! Stack.m_fib (tls_stack w) = Some t →
  let sub := ev_fetch_sub_joins parent 1 release in
  let p' := Frame.mk_frame (Frame.m_eptr p) (Frame.m_stacklet p) (Frame.m_parent p)
                           (wrap16 (Frame.m_join p - 1)) (Frame.m_steal p)
                           (Frame.m_except p) in
  let w1 := emit sub (set_frames (<[parent := p']> (frames w)) w) in
  let final := Promise.final_await_suspend sizeof_stacklet malloc parent w in
  (∀ x rest, Deque.items (tls_context w) = x :: rest → x ≠ 0 →
     final = Some (transfer (coro parent),
                   set_context (Deque.mk_deque rest (Deque.buf_cap (tls_context w))) w))
  ∧ (Deque.items (tls_context w) = [] →
     (Frame.m_join p = 1 →
        ∃ s, final = Some (transfer (coro parent),
                           mk_world (<[parent := Frame.reset p]> (frames w)) s
                                    (tls_context w)
                                    (trace w ++ [sub; ev_fence acquire]))
             ∧ Stack.m_fib s = Frame.m_stacklet p
             ∧ (Frame.m_stacklet p = Stack.m_fib (tls_stack w) → s = tls_stack w)
             ∧ (Frame.m_stacklet p ≠ Stack.m_fib (tls_stack w) →
                  Stack.stack_assign_from (Frame.m_stacklet p) (tls_stack w) = Some s))
     ∧ (Frame.m_join p ≠ 1 → Frame.m_stacklet p = Stack.m_fib (tls_stack w) →
          final = match Stack.stack_release sizeof_stacklet malloc (tls_stack w) with
                  | Some (Ok (_, s)) => Some (transfer noop_coroutine, set_stack s w1)
                  | Some (Throw _) => Some (terminate, w1)
                  | None => None
                  end)
     ∧ (Frame.m_join p ≠ 1 → Frame.m_stacklet p ≠ Stack.m_fib (tls_stack w) →
          final = Some (transfer noop_coroutine, w1)
          ∧ tls_stack w1 = tls_stack w)).
Proof.
  intros Hp Ht. cbv zeta. split.
  - intros x rest Hitems Hx. unfold Promise.final_await_suspend, Deque.pop.
    rewrite Hitems. rewrite decide_True by exact Hx. reflexivity.
  - intros Hitems.
    assert (Hpop : Deque.pop (tls_context w) = (0, tls_context w)).
    { unfold Deque.pop. rewrite Hitems. reflexivity. }
    unfold Promise.final_await_suspend. rewrite Hpop.
    rewrite decide_False by (intros H; apply H; reflexivity).
    rewrite set_context_same. rewrite Hp. simpl.
    unfold Frame.stacklet, Stack.stack_top.
    split; [| split].
    + intros Hone. rewrite decide_True by exact Hone.
      destruct (decide (Frame.m_stacklet p ≠ Stack.m_fib (tls_stack w))) as [Hne | Heq].
      * simpl. rewrite (stack_assign_from_live _ _ t Ht). simpl.
        eexists. split; [| split; [| split]].
        -- unfold set_frames, set_stack, emit, Frame.reset. simpl.
           rewrite insert_insert_eq, <- app_assoc. reflexivity.
        -- reflexivity.
        -- intros Heq. contradiction.
        -- intros _. reflexivity.
      * apply dec_stable in Heq. simpl.
        exists (tls_stack w). split; [| split; [| split]].
        -- unfold set_frames, set_stack, emit, Frame.reset. simpl.
           rewrite insert_insert_eq, <- app_assoc. reflexivity.
        -- symmetry. exact Heq.
        -- intros _. reflexivity.
        -- intros Hne. contradiction.
    + intros Hnone Heq. rewrite decide_False by exact Hnone.
      rewrite decide_True by exact Heq. simpl.
      destruct (Stack.stack_release sizeof_stacklet malloc (tls_stack w))
        as [[[old s] | e] |]; reflexivity.
    + intros Hnone Hne. rewrite decide_False by exact Hnone.
      rewrite decide_False by exact Hne. split; reflexivity.
Qed.

End FinalSuspend.

(** The parent at 4200 holds [join = 1] (it has issued its join and one
    child is owed) and lives on the stacklet at 4096, which is not the
    worker's: the worker installs it and resumes the parent. *)
Lemma final_await_suspend_spec_witness :
  ∃ s, Promise.final_await_suspend 48 Samples.malloc1 4200 (Samples.world1 1 1)
       = Some (transfer (coro 4200),
               mk_world (<[4200 := Frame.reset (Samples.parent_frame 1 1)]>
                           (frames (Samples.world1 1 1)))
                        s Deque.deque_new
                        [ev_fetch_sub_joins 4200 1 release; ev_fence acquire])
       ∧ Stack.m_fib s = 4096.
Proof.
  destruct (final_await_suspend_spec 48 Samples.malloc1 4200 (Samples.world1 1 1)
              (Samples.parent_frame 1 1) (Stack.mk_stacklet 12336 12336 16336 0 0)
              eq_refl eq_refl) as (_ & Hempty).
  destruct (Hempty eq_refl) as (Hwon & _).
  destruct (Hwon eq_refl) as (s & Hres & Hfib & _).
  exists s. split; [exact Hres | exact Hfib].
Defined.

(** C3 as the specification words it fails: with the parent on the stacklet
    at 4096, no join issued yet ([join = k_u16_max]) and the worker on its own
    stacklet at 12288, the worker returns to the scheduler and keeps its
    stack, where [release] would have left it on a fresh stacklet. *)
Lemma final_suspend_keeps_own_stack :
  ¬ Wording.final_suspend_always_releases 48.
Proof.
  intros Hclaim.
  destruct (Hclaim Samples.malloc1 4200 (Samples.world1 65535 1)
              (emit (ev_fetch_sub_joins 4200 1 release)
                 (set_frames (<[4200 := Samples.parent_frame 65534 1]>
                                (frames (Samples.world1 65535 1)))
                    (Samples.world1 65535 1)))
              eq_refl eq_refl) as (old & Hrel).
  vm_compute in Hrel. discriminate Hrel.
Qed.

(** ** A fork whose push throws *)

Lemma push_throws_iff new_ok val d :
  (∃ e, Deque.push new_ok val d = Throw e)
  ↔ Deque.buf_cap d < Z.of_nat (length (Deque.items d)) + 1 ∧ new_ok = false.
Proof.
  unfold Deque.push. case_decide.
  - destruct new_ok; split.
    + intros [e He]. discriminate.
    + intros [_ Hf]. discriminate.
    + intros _. split; [assumption | reflexivity].
    + intros _. eexists. reflexivity.
  - split.
    + intros [e He]. discriminate.
    + intros [Hlt _]. contradiction.
Qed.

Section ForkPush.

Variables (k_new_align sizeof_stacklet log2_align : Z).
Hypothesis align_pow2 : k_new_align = 2 ^ log2_align ∧ 0 ≤ log2_align ≤ 60.
Hypothesis sizeof_ge : k_new_align ≤ sizeof_stacklet < 2 ^ 61.
Hypothesis sizeof_mult : sizeof_stacklet mod k_new_align = 0.

(** C4. The parent [self] creates the child's coroutine, which takes its
    frame from the worker's stack, and forks it.  When the push of the
    parent's continuation throws (the deque is full and the bigger buffer
    cannot be allocated), [co_await] on the fork awaitable destroys the
    child's frame, hands no coroutine to transfer to, and resumes the parent
    with [bad_alloc] rethrown in it; the awaitable no longer holds the child.
    The frames and the deque are then what they were before the child was
    created, and so is the worker's stack: its top stacklet is the one it was,
    with the same stack, stack pointer and predecessor, the other stacklets
    are untouched, and at most one empty stacklet is left cached above the
    top.  When the push does not throw, control transfers to the child with
    the parent's continuation on the deque. *)
Theorem fork_push_throws (new_ok : bool) (malloc : Z → option Z) (size self child : Z)
    (w0 w : world) (top : Stack.stacklet) :
  Stack.stack_ok k_new_align (tls_stack w0) top →
  Stack.malloc_ok k_new_align malloc (Stack.heap (tls_stack w0)) →
  0 < size → size + k_new_align + sizeof_stacklet + 4143 ≤ 2 ^ 64 →
  (Stack.m_sp top = Stack.m_lo top → Stack.m_prev top = 0) →
  (∀ c, Stack.heap (tls_stack w0) !! Stack.m_next top = Some c →
        Stack.m_prev c = Stack.m_fib (tls_stack w0)) →
  frames w0 !! child = None → child ≠ 0 →
  create k_new_align sizeof_stacklet malloc size self w0 = Some (Ok child, w) →
  let a := Awaitables.mk_fork_awaitable child self in
  let full := Deque.buf_cap (tls_context w0)
              < Z.of_nat (length (Deque.items (tls_context w0))) + 1 in
  (full ∧ new_ok = false →
     ∃ w' top',
       Awaitables.fork_co_await new_ok a w
       = Some (resume_and_rethrow self bad_alloc, Awaitables.mk_fork_awaitable 0 self, w')
       ∧ frames w' = frames w0
       ∧ tls_context w' = tls_context w0
       ∧ trace w' = trace w0 ++ [ev_destroy child]
       ∧ Stack.m_fib (tls_stack w') = Stack.m_fib (tls_stack w0)
       ∧ Stack.stack_ok k_new_align (tls_stack w') top'
       ∧ Stack.m_lo top' = Stack.m_lo top ∧ Stack.m_sp top' = Stack.m_sp top
       ∧ Stack.m_hi top' = Stack.m_hi top ∧ Stack.m_prev top' = Stack.m_prev top
       ∧ (∀ k, k ≠ 0 → k ≠ Stack.m_fib (tls_stack w0) →
               k ≠ Stack.m_next top → k ≠ Stack.m_next top' →
               Stack.heap (tls_stack w') !! k = Stack.heap (tls_stack w0) !! k))
  ∧ (¬ (full ∧ new_ok = false) →
     ∃ d, Deque.push new_ok self (tls_context w0) = Ok d
          ∧ Deque.items d = self :: Deque.items (tls_context w0)
          ∧ Awaitables.fork_co_await new_ok a w
            = Some (symmetric_transfer (coro child),
                    Awaitables.mk_fork_awaitable 0 self, set_context d w)).
Proof.
  intros Hstack Hmalloc Hs Hwide Hrest Hback Hfresh Hnz Hcreate. cbv zeta.
  unfold create in Hcreate.
  destruct (Stack.allocate k_new_align sizeof_stacklet malloc size (tls_stack w0))
    as [[[c | e] s] |] eqn:Halloc; cbn [mbind option_bind] in Hcreate;
    [| discriminate | discriminate].
  injection Hcreate as -> <-.
  destruct (allocate_then_deallocate _ _ _ align_pow2 sizeof_ge sizeof_mult
              malloc size (tls_stack w0) top child s
              Hstack Hmalloc Hs Hwide Hrest Hback Halloc)
    as (st2 & top2 & Hd & Hfib & Hok2 & Hlo & Hsp & Hhi & Hprev & Hothers).
  unfold Awaitables.fork_co_await, Awaitables.fork_await_suspend.
  cbn [Awaitables.fork_child Awaitables.fork_self tls_context set_frames set_stack].
  split.
  - intros [Hfull ->]. unfold Deque.push. rewrite decide_True by exact Hfull.
    rewrite decide_True by exact Hnz.
    unfold destroy. cbn [frames tls_stack set_frames set_stack].
    rewrite lookup_insert_eq. cbn [mbind option_bind]. rewrite Hd.
    cbn [mbind option_bind co_await_suspend].
    eexists _, top2. split; [reflexivity |].
    cbn [frames tls_stack tls_context trace emit set_frames set_stack].
    split; [apply delete_insert_id; exact Hfresh |].
    repeat (split; [first [reflexivity | assumption] |]). exact Hothers.
  - intros Hok. unfold Deque.push.
    destruct (decide (Deque.buf_cap (tls_context w0)
                      < Z.of_nat (length (Deque.items (tls_context w0))) + 1)) as [Hfull | Hroom].
    + destruct new_ok.
      * eexists. split; [reflexivity |]. split; reflexivity.
      * exfalso. apply Hok. split; [exact Hfull | reflexivity].
    + eexists. split; [reflexivity |]. split; reflexivity.
Qed.

End ForkPush.

(** The parent at 4200 creates a child of 256 bytes, which gets the frame at
    4400, and forks it with a full deque and no memory for a bigger buffer:
    the frames, the deque and the stack are as before the child was
    created. *)
Lemma fork_push_throws_witness :
  ∃ w',
    Awaitables.fork_co_await false (Awaitables.mk_fork_awaitable 4400 4200)
      (Samples.world_fork Samples.full_deque)
    = Some (resume_and_rethrow 4200 bad_alloc, Awaitables.mk_fork_awaitable 0 4200, w')
    ∧ frames w' = frames (Samples.world_before_fork Samples.full_deque)
    ∧ tls_context w' = Samples.full_deque
    ∧ Stack.m_fib (tls_stack w') = 4096
    ∧ ∃ top', Stack.heap (tls_stack w') !! 4096 = Some top' ∧ Stack.m_sp top' = 4400.
Proof.
  assert (256 + 16 + 48 + 4143 ≤ 2 ^ 64) as Hwide by (apply Z.leb_le; reflexivity).
  assert (Hstack : Stack.stack_ok 16 (tls_stack (Samples.world_before_fork Samples.full_deque))
                     (Stack.mk_stacklet 4144 4400 8144 0 0)).
  { unfold Stack.stack_ok, Stack.stacklet_ok, Stack.cached_ok, Stack.aligned. simpl.
    repeat split; first [lia | reflexivity | (left; reflexivity)]. }
  assert (Hmalloc : Stack.malloc_ok 16 StackSamples.malloc_null
                      (Stack.heap (tls_stack (Samples.world_before_fork Samples.full_deque)))).
  { intros r a Hm. discriminate Hm. }
  destruct (fork_push_throws 16 48 4 ltac:(split; [reflexivity | lia]) ltac:(lia)
              ltac:(reflexivity) false StackSamples.malloc_null 256 4200 4400
              (Samples.world_before_fork Samples.full_deque)
              (Samples.world_fork Samples.full_deque)
              (Stack.mk_stacklet 4144 4400 8144 0 0)
              Hstack Hmalloc ltac:(lia) Hwide
              ltac:(simpl; lia) ltac:(intros c Hc; discriminate Hc)
              eq_refl ltac:(lia) eq_refl) as (Hthrow & _).
  destruct (Hthrow ltac:(split; [simpl; lia | reflexivity]))
    as (w' & top' & Hres & Hframes & Hctx & _ & Hfib & (Htop & _) & _ & Hsp & _).
  exists w'. split; [exact Hres |]. split; [exact Hframes |]. split; [exact Hctx |].
  change (Stack.m_fib (tls_stack w') = 4096) in Hfib.
  split; [exact Hfib |]. exists top'. split; [| exact Hsp].
  rewrite Hfib in Htop. exact Htop.
Defined.

(** ** Eager rethrow and the substitute exception *)

Lemma unsafe_rethrow_stashed f e :
  Frame.m_except f = true → Frame.m_eptr f = Some e →
  Frame.unsafe_rethrow_if_exception f = Some (Throw e, Frame.clear_exception f).
Proof.
  intros Hx He. unfold Frame.unsafe_rethrow_if_exception, Frame.rethrow.
  rewrite Hx, He. reflexivity.
Qed.

Lemma unsafe_rethrow_none f :
  Frame.m_except f = false →
  Frame.unsafe_rethrow_if_exception f = Some (Ok (), f).
Proof. intros Hx. unfold Frame.unsafe_rethrow_if_exception. rewrite Hx. reflexivity. Qed.

Lemma set_frames_same self f w :
  frames w !! self = Some f → set_frames (<[self := f]> (frames w)) w = w.
Proof. intros Hf. rewrite insert_id by exact Hf. destruct w. reflexivity. Qed.




(** ** The lazy pool *)

Section Counting.

Import Lazy.

Lemma count_nonneg P l : 0 ≤ count P l.
Proof. induction l as [| t l IH]; simpl; [lia | destruct (P t); lia]. Qed.

Lemma count_le_length P l : count P l ≤ Z.of_nat (length l).
Proof. induction l as [| t l IH]; simpl length; simpl count; [lia | destruct (P t); lia]. Qed.

Lemma count_insert P l u t t' :
  l !! u = Some t →
  count P (<[u := t']> l) = count P l - b2z (P t) + b2z (P t')
  ∧ b2z (P t) ≤ count P l.
Proof.
  revert u. induction l as [| x l IH]; intros u Hu; [discriminate |].
  destruct u as [| u]; simpl in *.
  - injection Hu as ->. pose proof (count_nonneg P l). unfold b2z.
    destruct (P t), (P t'); simpl; lia.
  - destruct (IH u Hu) as [-> ?]. destruct (P x); lia.
Qed.

Lemma count_le P Q l :
  (∀ t, P t = true → Q t = true) → count P l ≤ count Q l.
Proof.
  intros H. induction l as [| x l IH]; simpl; [lia |].
  destruct (P x) eqn:HP; [rewrite (H x HP); lia |].
  destruct (Q x); lia.
Qed.

Lemma count_fmap P (f : thread → thread) l : count P (f <$> l) = count (λ t, P (f t)) l.
Proof.
  induction l as [| x l IH]; [reflexivity |].
  rewrite fmap_cons. cbn [count]. rewrite IH. reflexivity.
Qed.

Lemma count_ext P Q l : (∀ t, P t = Q t) → count P l = count Q l.
Proof. intros H. induction l as [| x l IH]; simpl; [reflexivity | rewrite H, IH; reflexivity]. Qed.

Lemma count_zero P l u t : count P l = 0 → l !! u = Some t → P t = false.
Proof.
  intros H Hu. destruct (count_insert P l u t t Hu) as [_ Hle].
  destruct (P t); [simpl in Hle; lia | reflexivity].
Qed.

Lemma count_existsb P l : existsb P l = false → count P l = 0.
Proof.
  induction l as [| x l IH]; simpl; [reflexivity |].
  destruct (P x); simpl; [discriminate | exact IH].
Qed.

(** A bump of the epoch turns every worker about to fall asleep into one
    that will return from [wait] at once. *)
Lemma count_epoch_bump d e l :
  (∀ u t k, l !! u = Some t → dom t = d → key_pc (at_pc t) = Some k → 0 ≤ k ≤ e) →
  count (in_dom d (rising_pc (e + 1))) l
  = count (in_dom d (rising_pc e)) l + count (in_dom d (closing_pc e)) l
  ∧ count (in_dom d (closing_pc (e + 1))) l = 0.
Proof.
  induction l as [| x l IH]; intros Hk; [split; reflexivity |].
  destruct IH as [IH1 IH2].
  { intros u t k Hu. exact (Hk (S u) t k Hu). }
  simpl. rewrite IH1, IH2. unfold in_dom.
  destruct (bool_decide (dom x = d)) eqn:Hd; simpl; [| lia].
  apply bool_decide_eq_true_1 in Hd.
  pose proof (Hk 0%nat x) as Hx. simpl in Hx.
  destruct (at_pc x) as [| | | k | | | | | | k | k | | k | k | | | | | | i | i | i | |];
    simpl; try lia.
  specialize (Hx k eq_refl Hd eq_refl).
  destruct (Z.eqb_spec k (e + 1)), (Z.eqb_spec k e); simpl; lia.
Qed.

(** The futex's [notify_all] on domain [d]: nobody of [d] is left asleep,
    and whoever was is on the way to [wake_up]. *)
Lemma count_wake_all_other d P l :
  (∀ t, is_blocked d t = true → P (mk_thread (dom t) woken) = P t) →
  count P (futex_wake_all d l) = count P l.
Proof.
  intros H. unfold futex_wake_all. rewrite count_fmap. apply count_ext.
  intros t. destruct (is_blocked d t) eqn:Hb; [apply H; exact Hb | reflexivity].
Qed.

Lemma count_add P Q R l :
  (∀ t, b2z (P t) = b2z (Q t) + b2z (R t)) →
  count P l = count Q l + count R l.
Proof.
  intros H. induction l as [| x l IH]; simpl; [reflexivity |].
  rewrite IH. specialize (H x). unfold b2z in H.
  destruct (P x), (Q x), (R x); simpl in *; lia.
Qed.

Lemma count_false l : count (λ _, false) l = 0.
Proof. induction l as [| x l IH]; simpl; [reflexivity | exact IH]. Qed.

Lemma count_wake_all_blocked d d' l :
  count (in_dom d' blocked_pc) (futex_wake_all d l)
  = if decide (d' = d) then 0 else count (in_dom d' blocked_pc) l.
Proof.
  unfold futex_wake_all. rewrite count_fmap. case_decide as Hd.
  - subst d'. rewrite <- (count_false l). apply count_ext.
    intros [dx p]. unfold is_blocked, in_dom. simpl.
    destruct (bool_decide (dx = d)) eqn:Hx; simpl; [| rewrite Hx; reflexivity].
    destruct p; simpl; rewrite Hx; reflexivity.
  - apply count_ext. intros [dx p]. unfold is_blocked, in_dom. simpl.
    destruct (bool_decide (dx = d)) eqn:Hx; simpl; [| reflexivity].
    apply bool_decide_eq_true_1 in Hx. subst dx.
    destruct p; simpl;
      rewrite bool_decide_eq_false_2 by (intros Heq; apply Hd; symmetry; exact Heq);
      reflexivity.
Qed.

Lemma count_wake_all_rising d d' e l :
  count (in_dom d' (rising_pc e)) (futex_wake_all d l)
  = count (in_dom d' (rising_pc e)) l
    + (if decide (d' = d) then count (in_dom d' blocked_pc) l else 0).
Proof.
  unfold futex_wake_all. rewrite count_fmap. case_decide as Hd.
  - subst d'. apply count_add.
    intros [dx p]. unfold is_blocked, in_dom. simpl.
    destruct (bool_decide (dx = d)) eqn:Hx; simpl; [| rewrite Hx; reflexivity].
    destruct p; simpl; rewrite Hx; simpl; try reflexivity.
    destruct (negb (key =? e)); reflexivity.
  - rewrite Z.add_0_r. apply count_ext. intros [dx p]. unfold is_blocked, in_dom. simpl.
    destruct (bool_decide (dx = d)) eqn:Hx; simpl; [| reflexivity].
    apply bool_decide_eq_true_1 in Hx. subst dx.
    destruct p; simpl;
      rewrite bool_decide_eq_false_2 by (intros Heq; apply Hd; symmetry; exact Heq);
      reflexivity.
Qed.

End Counting.

Section EventCountArith.

(** The notifier's word with epoch [e] and [w] waiters. *)
Variables e w : Z.
Hypothesis He : 0 ≤ e < 2 ^ 31.
Hypothesis Hw : 0 ≤ w < 2 ^ 31.

Lemma epoch_packed : EventCount.epoch (e * 2 ^ 32 + w) = e.
Proof.
  unfold EventCount.epoch, EventCount.k_epoch_shift, wrap32.
  rewrite Z.shiftr_div_pow2 by lia.
  rewrite Z.div_add_l by lia. rewrite (Z.div_small w) by lia.
  rewrite Z.add_0_r. apply Z.mod_small. lia.
Qed.

Lemma notify_packed :
  EventCount.notify (e * 2 ^ 32 + w) = (negb (w =? 0), (e + 1) * 2 ^ 32 + w).
Proof.
  unfold EventCount.notify, EventCount.fetch_add, EventCount.k_waiter_mask,
    EventCount.k_add_epoch, EventCount.k_epoch_shift.
  rewrite Z.shiftl_1_l. f_equal.
  - rewrite Z.sub_1_r, <- Z.ones_equiv, Z.land_ones by lia.
    rewrite Z.add_comm, Z.mod_add by lia. rewrite Z.mod_small by lia. reflexivity.
  - unfold wrap64. rewrite Z.mod_small by lia. lia.
Qed.

Lemma prepare_wait_packed :
  EventCount.prepare_wait (e * 2 ^ 32 + w) = (e, e * 2 ^ 32 + (w + 1)).
Proof.
  unfold EventCount.prepare_wait, EventCount.fetch_add, EventCount.k_add_waiter.
  f_equal.
  - exact epoch_packed.
  - unfold wrap64. rewrite Z.mod_small by lia. lia.
Qed.

Lemma cancel_wait_packed :
  1 ≤ w → EventCount.cancel_wait (e * 2 ^ 32 + w) = e * 2 ^ 32 + (w - 1).
Proof.
  intros H1. unfold EventCount.cancel_wait, EventCount.fetch_add, EventCount.k_sub_waiter.
  simpl. unfold wrap64.
  replace (-1 mod 2 ^ 64) with (2 ^ 64 - 1) by reflexivity.
  replace (e * 2 ^ 32 + w + (2 ^ 64 - 1)) with (e * 2 ^ 32 + (w - 1) + 1 * 2 ^ 64) by lia.
  rewrite Z.mod_add by lia. apply Z.mod_small. lia.
Qed.

End EventCountArith.


Section LazyInvariant.

Import Lazy.

Lemma consistent_bounds n s d c :
  consistent n s → numa (vars s) !! d = Some c →
  0 ≤ count (in_dom d waiter_pc) (threads s) < 2 ^ 31
  ∧ 0 ≤ thief c < 2 ^ 31
  ∧ 0 ≤ active (vars s) < 2 ^ 31.
Proof.
  intros Hc Hd. pose proof (c_size _ _ Hc) as Hs.
  destruct (c_domain _ _ Hc d c Hd) as (HT & _). rewrite HT, (c_active _ _ Hc).
  pose proof (count_nonneg (in_dom d waiter_pc) (threads s)).
  pose proof (count_le_length (in_dom d waiter_pc) (threads s)).
  pose proof (count_nonneg (in_dom d thief_pc) (threads s)).
  pose proof (count_le_length (in_dom d thief_pc) (threads s)).
  pose proof (count_nonneg (λ t, active_pc (at_pc t)) (threads s)).
  pose proof (count_le_length (λ t, active_pc (at_pc t)) (threads s)).
  lia.
Qed.

(** One worker moves from [p] to [p'] and the counters of one domain [d1]
    move with it. *)
Lemma consistent_update n s s' u d p p' d1 c1 c1' e1 :
  consistent n s →
  threads s !! u = Some (mk_thread d p) →
  numa (vars s) !! d1 = Some c1 →
  0 ≤ e1 ≤ n →
  notifier c1 = e1 * 2 ^ 32 + count (in_dom d1 waiter_pc) (threads s) →
  (∀ u t k, threads s !! u = Some t → dom t = d1 →
            key_pc (at_pc t) = Some k → 0 ≤ k ≤ e1) →
  threads s' = <[u := mk_thread d p']> (threads s) →
  numa (vars s') = <[d1 := c1']> (numa (vars s)) →
  stop (vars s') = stop (vars s) →
  active (vars s') = active (vars s) + b2z (active_pc p') - b2z (active_pc p) →
  thief c1' = thief c1 + b2z (in_dom d1 thief_pc (mk_thread d p'))
              - b2z (in_dom d1 thief_pc (mk_thread d p)) →
  (∃ e1', e1 ≤ e1' ≤ e1 + 1
          ∧ notifier c1' = e1' * 2 ^ 32 + count (in_dom d1 waiter_pc) (threads s)
                           + b2z (in_dom d1 waiter_pc (mk_thread d p'))
                           - b2z (in_dom d1 waiter_pc (mk_thread d p))) →
  (d ≠ d1 → thief_pc p' = thief_pc p ∧ waiter_pc p' = waiter_pc p
            ∧ (key_pc p' = None ∨ key_pc p' = key_pc p)) →
  (d = d1 → key_pc p' = None ∨ key_pc p' = key_pc p ∨ key_pc p' = Some e1) →
  (∀ i, index_pc p' = Some i → (i < length (numa (vars s)))%nat) →
  (stopping_pc p' = true → stop (vars s) = true) →
  consistent (n + 1) s'.
Proof.
  intros Hcons Hu Hc1 He1 HN1 HK1 Hthreads Hnuma Hstop Hactive Hthief
    (e1' & He1' & HN1') Hother Hown Hindex Hstopping.
  constructor.
  - intros d0 c0 Hl0. rewrite Hnuma in Hl0. rewrite Hthreads.
    apply list_lookup_insert_Some in Hl0 as [(<- & <- & _) | (Hne & Hl0)].
    + destruct (c_domain _ _ Hcons d1 c1 Hc1) as (HT & _).
      destruct (count_insert (in_dom d1 thief_pc) _ u _ (mk_thread d p') Hu) as [-> _].
      destruct (count_insert (in_dom d1 waiter_pc) _ u _ (mk_thread d p') Hu) as [-> _].
      split; [lia |]. exists e1'. split; [lia |]. split; [lia |].
      intros u' t' k Hl' Hd' Hk'.
      apply list_lookup_insert_Some in Hl' as [(<- & <- & _) | (Hne' & Hl')].
      * simpl in Hd', Hk'. specialize (HK1 u (mk_thread d p) k Hu Hd').
        destruct (Hown Hd') as [Hk | [Hk | Hk]]; rewrite Hk in Hk'.
        -- discriminate.
        -- specialize (HK1 Hk'). lia.
        -- injection Hk' as <-. lia.
      * specialize (HK1 u' t' k Hl' Hd' Hk'). lia.
    + destruct (c_domain _ _ Hcons d0 c0 Hl0) as (HT & e0 & He0 & HN0 & HK0).
      destruct (count_insert (in_dom d0 thief_pc) _ u _ (mk_thread d p') Hu) as [-> _].
      destruct (count_insert (in_dom d0 waiter_pc) _ u _ (mk_thread d p') Hu) as [-> _].
      assert (Hsame : b2z (in_dom d0 thief_pc (mk_thread d p'))
                      = b2z (in_dom d0 thief_pc (mk_thread d p))
                      ∧ b2z (in_dom d0 waiter_pc (mk_thread d p'))
                        = b2z (in_dom d0 waiter_pc (mk_thread d p))
                      ∧ (d = d0 → key_pc p' = None ∨ key_pc p' = key_pc p)).
      { unfold in_dom. simpl. destruct (decide (d = d0)) as [-> | Hdd].
        - destruct (Hother ltac:(congruence)) as (-> & -> & Hk). repeat split; intros; assumption.
        - rewrite bool_decide_eq_false_2 by exact Hdd. repeat split. intros; contradiction. }
      destruct Hsame as (HsT & HsW & HsK).
      split; [lia |]. exists e0. split; [lia |]. split; [lia |].
      intros u' t' k Hl' Hd' Hk'.
      apply list_lookup_insert_Some in Hl' as [(<- & <- & _) | (Hne' & Hl')].
      * simpl in Hd', Hk'. destruct (HsK Hd') as [Hk | Hk]; rewrite Hk in Hk'.
        -- discriminate.
        -- exact (HK0 u (mk_thread d p) k Hu Hd' Hk').
      * exact (HK0 u' t' k Hl' Hd' Hk').
  - rewrite Hactive, Hthreads, (c_active _ _ Hcons).
    destruct (count_insert (λ t, active_pc (at_pc t)) _ u _ (mk_thread d p') Hu) as [-> _].
    simpl. lia.
  - intros u' t' Hl'. rewrite Hthreads in Hl'. rewrite Hnuma, Hstop, length_insert.
    apply list_lookup_insert_Some in Hl' as [(<- & <- & _) | (Hne' & Hl')].
    + simpl. destruct (c_threads _ _ Hcons u _ Hu) as (Hd & _).
      repeat split; [exact Hd | exact Hindex | exact Hstopping].
    + exact (c_threads _ _ Hcons u' t' Hl').
  - rewrite Hthreads, length_insert. exact (c_size _ _ Hcons).
Qed.

End LazyInvariant.

Section LazySteps.

Import Lazy.

Lemma wrap64_31 x : 0 ≤ x < 2 ^ 32 → wrap64 x = x.
Proof. intros H. apply wrap64_small. lia. Qed.

(** Waking a blocked worker changes no counter's count. *)
Lemma consistent_wake n v l x t :
  consistent n (mk_state v l) →
  l !! x = Some t → blocked_pc (at_pc t) = true →
  consistent n (mk_state v (<[x := mk_thread (dom t) woken]> l)).
Proof.
  intros Hcons Hx Hb. destruct t as [d p]. destruct p; try discriminate. simpl.
  constructor; simpl.
  - intros d0 c0 Hl0. destruct (c_domain _ _ Hcons d0 c0 Hl0) as (HT & e0 & He0 & HN0 & HK0).
    simpl in *.
    destruct (count_insert (in_dom d0 thief_pc) _ x _ (mk_thread d woken) Hx) as [-> _].
    destruct (count_insert (in_dom d0 waiter_pc) _ x _ (mk_thread d woken) Hx) as [-> _].
    unfold in_dom in *. simpl. rewrite ?andb_false_r, ?andb_true_r. simpl.
    split; [lia |]. exists e0. split; [lia |]. split; [lia |].
    intros u' t' k Hl' Hd' Hk'.
    apply list_lookup_insert_Some in Hl' as [(<- & <- & _) | (Hne' & Hl')].
    + discriminate.
    + exact (HK0 u' t' k Hl' Hd' Hk').
  - pose proof (c_active _ _ Hcons) as HA. simpl in HA. rewrite HA.
    destruct (count_insert (λ t, active_pc (at_pc t)) _ x _ (mk_thread d woken) Hx) as [-> _].
    simpl. lia.
  - intros u' t' Hl'.
    apply list_lookup_insert_Some in Hl' as [(<- & <- & _) | (Hne' & Hl')].
    + simpl. destruct (c_threads _ _ Hcons x _ Hx) as (Hd & _). simpl in Hd.
      repeat split; [exact Hd | discriminate | discriminate].
    + exact (c_threads _ _ Hcons u' t' Hl').
  - rewrite length_insert. exact (c_size _ _ Hcons).
Qed.

Lemma consistent_wake_all n v l d :
  consistent n (mk_state v l) →
  consistent n (mk_state v (futex_wake_all d l)).
Proof.
  intros Hcons. constructor; simpl.
  - intros d0 c0 Hl0. destruct (c_domain _ _ Hcons d0 c0 Hl0) as (HT & e0 & He0 & HN0 & HK0).
    simpl in *.
    rewrite !count_wake_all_other.
    + split; [exact HT |]. exists e0. split; [exact He0 |]. split; [exact HN0 |].
      intros u' t' k Hl' Hd' Hk'. unfold futex_wake_all in Hl'.
      rewrite list_lookup_fmap in Hl'.
      destruct (l !! u') as [t0 |] eqn:Ht0; [| discriminate]. simpl in Hl'.
      injection Hl' as <-.
      destruct (is_blocked d t0); [discriminate |].
      exact (HK0 u' t0 k Ht0 Hd' Hk').
    + intros [dx p]. unfold is_blocked, in_dom. simpl.
      destruct p; simpl; try (rewrite andb_false_r; discriminate). reflexivity.
    + intros [dx p]. unfold is_blocked, in_dom. simpl.
      destruct p; simpl; try (rewrite andb_false_r; discriminate). reflexivity.
  - pose proof (c_active _ _ Hcons) as HA. simpl in HA. rewrite HA.
    rewrite count_wake_all_other; [reflexivity |].
    intros [dx p]. unfold is_blocked. simpl.
    destruct p; simpl; try (rewrite andb_false_r; discriminate). reflexivity.
  - intros u' t' Hl'. unfold futex_wake_all in Hl'. rewrite list_lookup_fmap in Hl'.
    destruct (l !! u') as [t0 |] eqn:Ht0; [| discriminate]. simpl in Hl'.
    injection Hl' as <-.
    destruct (c_threads _ _ Hcons u' t0 Ht0) as (Hd & Hi & Hs). simpl in *.
    destruct (is_blocked d t0) eqn:Hb; simpl.
    + repeat split; [exact Hd | discriminate | discriminate].
    + repeat split; assumption.
  - unfold futex_wake_all. rewrite length_fmap. exact (c_size _ _ Hcons).
Qed.

End LazySteps.

Section LazyThreadStep.

Import Lazy.

Ltac count_step Hu :=
  unfold cover;
  repeat match goal with
  | |- context [count ?P (<[?u := ?t']> ?l)] =>
      let H1 := fresh "Hc" in
      let H2 := fresh "Hm" in
      destruct (count_insert P l u _ t' Hu) as [H1 H2]; rewrite H1; clear H1
  end.

Ltac eqb_cases :=
  repeat match goal with
  | |- context [Z.eqb ?a ?b] => destruct (Z.eqb_spec a b)
  | H : context [Z.eqb ?a ?b] |- _ => destruct (Z.eqb_spec a b)
  | |- context [Z.ltb ?a ?b] => destruct (Z.ltb_spec a b)
  | H : context [Z.ltb ?a ?b] |- _ => destruct (Z.ltb_spec a b)
  end.

Ltac norm :=
  unfold goto in *;
  cbn [dom at_pc thief notifier set_thief set_notifier thief_pc waiter_pc active_pc
       blocked_pc closing_pc rising_pc key_pc index_pc stopping_pc
       vars threads stop active numa set_numa set_active] in *;
  unfold cover, in_dom, notifying, waking, b2z in *;
  cbn [dom at_pc thief notifier set_thief set_notifier thief_pc waiter_pc active_pc
       blocked_pc closing_pc rising_pc key_pc index_pc stopping_pc negb andb] in *;
  rewrite ?andb_false_r, ?andb_true_r in *;
  repeat case_bool_decide; eqb_cases; subst;
  cbn [negb andb] in *.

Ltac crunch := norm; try lia.

Ltac side :=
  norm; rewrite ?wrap64_small by lia;
  first
    [ lia | congruence | reflexivity
    | match goal with
      | |- ∃ _, ?e ≤ _ ≤ _ ∧ _ =>
          first [ exists e; split; [lia |]; lia
                | exists (e + 1); split; [lia |]; lia ]
      end
    | intuition (first [congruence | lia]) ].

(** The domain [d0] after a change of the counters of [d1]. *)
Lemma lookup_insert_cases (nu : list fat_counters) d1 c1' d0 c0 :
  <[d1 := c1']> nu !! d0 = Some c0 →
  (d0 = d1 ∧ c0 = c1') ∨ (d0 ≠ d1 ∧ nu !! d0 = Some c0).
Proof.
  intros H. apply list_lookup_insert_Some in H as [(-> & -> & _) | (Hne & H)].
  - left. split; reflexivity.
  - right. split; [congruence | exact H].
Qed.

Lemma blocked_le_waiters d l :
  count (in_dom d blocked_pc) l ≤ count (in_dom d waiter_pc) l.
Proof.
  apply count_le. intros [dx p]. unfold in_dom. simpl.
  destruct (bool_decide (dx = d)), p; simpl; congruence.
Qed.

Lemma lookup_wake_all_awake d l u t :
  l !! u = Some t → is_blocked d t = false → futex_wake_all d l !! u = Some t.
Proof.
  intros Hu Hb. unfold futex_wake_all. rewrite list_lookup_fmap, Hu. simpl.
  rewrite Hb. reflexivity.
Qed.

(** A worker of domain [d] changes its program point and at most the
    counters of its own domain. *)
Ltac cons_own Hcons Hu Hc He HN HK c' :=
  match goal with
  | |- consistent _ (goto ?u (mk_thread ?d ?p) ?p' ?v' _) =>
      eapply (consistent_update _ _ _ u d p p' d _ c' _ Hcons Hu Hc He HN HK);
      try reflexivity; try (symmetry; apply list_insert_id; exact Hc); side
  end.

Ltac cov_intro Hstop Hact Hl0 :=
  intros Hstop Hact ? ? Hl0; unfold goto in *;
  cbn [vars threads stop active numa set_numa set_active] in Hstop, Hact, Hl0 |- *.

(** The epoch of every domain is what it was. *)
Ltac same_epoch Hcov Hu Hc Hep Hstop Hact Hl0 :=
  first
    [ apply lookup_insert_cases in Hl0 as [(-> & ->) | (? & Hl0)];
      [ specialize (Hcov Hstop Hact _ _ Hc); rewrite Hep in Hcov;
        cbn [notifier set_thief set_notifier] in *;
        rewrite ?Hep; rewrite ?epoch_packed by lia
      | specialize (Hcov Hstop Hact _ _ Hl0) ]
    | specialize (Hcov Hstop Hact _ _ Hl0) ];
  count_step Hu; norm; first [lia | congruence].

(** The epoch of the worker's domain went up by one. *)
Ltac bumped_epoch Hcov Hu Hc Hep HK Hstop Hact Hl0 :=
  apply lookup_insert_cases in Hl0 as [(-> & ->) | (? & Hl0)];
  [ specialize (Hcov Hstop Hact _ _ Hc); rewrite Hep in Hcov;
    cbn [notifier set_thief set_notifier] in *;
    rewrite epoch_packed by lia;
    count_step Hu;
    match goal with
    | |- context [count (in_dom ?d (rising_pc (?e + 1))) ?l] =>
        let Hr := fresh "Hr" in
        let Hcl := fresh "Hcl" in
        destruct (count_epoch_bump d e l HK) as [Hr Hcl]; rewrite Hr, Hcl
    end
  | specialize (Hcov Hstop Hact _ _ Hl0); count_step Hu ];
  norm; first [lia | congruence].

Lemma covering_wake v l x t :
  covering (mk_state v l) →
  l !! x = Some t → blocked_pc (at_pc t) = true →
  covering (mk_state v (<[x := mk_thread (dom t) woken]> l)).
Proof.
  intros Hcov Hx Hb. destruct t as [dx p]. destruct p; try discriminate.
  unfold covering in *. cbn [vars threads dom] in *.
  intros Hstop Hact d0 c0 Hl0. specialize (Hcov Hstop Hact d0 c0 Hl0).
  count_step Hx. norm; lia.
Qed.

(** What the futex's [notify_one] leaves: the worker that called it is
    where it was, and a worker of the domain is on its way to [wake_up]
    unless none was asleep. *)
Lemma futex_wake_one_spec n v l d victim l1 u tu :
  futex_wake_one d victim l = Some l1 →
  consistent n (mk_state v l) → covering (mk_state v l) →
  l !! u = Some tu → blocked_pc (at_pc tu) = false →
  consistent n (mk_state v l1) ∧ covering (mk_state v l1) ∧ l1 !! u = Some tu
  ∧ ∀ e, 1 ≤ count (in_dom d (rising_pc e)) l1 ∨ count (in_dom d blocked_pc) l1 = 0.
Proof.
  intros Hw Hcons Hcov Hu Hnb. unfold futex_wake_one in Hw.
  destruct victim as [x |].
  - destruct (l !! x) as [tx |] eqn:Hx; [| discriminate]. cbn [mbind option_bind] in Hw.
    destruct (is_blocked d tx) eqn:Hbx; [| discriminate]. injection Hw as <-.
    unfold is_blocked in Hbx. apply andb_true_iff in Hbx as [Hdx Hbx].
    apply bool_decide_eq_true_1 in Hdx.
    assert (Hxu : x ≠ u).
    { intros ->. rewrite Hx in Hu. injection Hu as ->.
      unfold blocked_pc in Hnb. rewrite Hnb in Hbx. discriminate. }
    split; [apply consistent_wake; assumption |].
    split; [apply covering_wake; assumption |].
    split; [rewrite list_lookup_insert_ne by exact Hxu; exact Hu |].
    intros e. left.
    assert (Hx1 : <[x := mk_thread (dom tx) woken]> l !! x = Some (mk_thread (dom tx) woken)).
    { apply list_lookup_insert_eq. apply lookup_lt_Some in Hx. exact Hx. }
    destruct (count_insert (in_dom d (rising_pc e)) _ x _ (mk_thread (dom tx) woken) Hx1)
      as [_ Hm].
    unfold in_dom, b2z in Hm. cbn [dom at_pc rising_pc] in Hm.
    rewrite bool_decide_eq_true_2 in Hm by exact Hdx. exact Hm.
  - destruct (existsb (is_blocked d) l) eqn:Hex; [discriminate |]. injection Hw as <-.
    split; [assumption |]. split; [assumption |]. split; [assumption |].
    intros e. right. exact (count_existsb _ _ Hex).
Qed.

(** The end of a [notify_one]: the worker goes on after the futex call. *)
Lemma finish_wake n v l u d p p' dw :
  consistent n (mk_state v l) → covering (mk_state v l) → n + 1 < 2 ^ 31 →
  l !! u = Some (mk_thread d p) →
  (p = tws_wake ∧ p' = tws_active ∧ dw = d)
  ∨ (p = tws_loop_wake dw ∧ p' = tws_loop (S dw)) →
  (∀ e, 1 ≤ count (in_dom dw (rising_pc e)) l ∨ count (in_dom dw blocked_pc) l = 0) →
  consistent (n + 1) (mk_state v (<[u := mk_thread d p']> l))
  ∧ covering (mk_state v (<[u := mk_thread d p']> l)).
Proof.
  intros Hcons Hcov Hn Hu Hp Hextra.
  destruct (c_threads _ _ Hcons u _ Hu) as (Hd & _). cbn [threads vars dom] in Hd.
  destruct (lookup_lt_is_Some_2 _ _ Hd) as [c Hc].
  destruct (c_domain _ _ Hcons d c Hc) as (HT & e & He & HN & HK).
  cbn [threads vars] in HT, HN, HK.
  split.
  - eapply (consistent_update _ _ _ u d p p' d _ c _ Hcons Hu Hc He HN HK);
      try reflexivity; try (symmetry; apply list_insert_id; exact Hc);
      destruct Hp as [(-> & -> & ->) | (-> & ->)]; side.
  - unfold covering in *. cbn [vars threads] in *.
    intros Hstop Hact d0 c0 Hl0. specialize (Hcov Hstop Hact d0 c0 Hl0).
    specialize (Hextra (EventCount.epoch (notifier c0))).
    count_step Hu.
    destruct Hp as [(-> & -> & ->) | (-> & ->)]; norm; lia.
Qed.

Lemma step_thread_preserves n u found victim s s' :
  consistent n s → covering s → n + 1 < 2 ^ 31 →
  step_thread u found victim s = Some s' →
  consistent (n + 1) s' ∧ covering s'.
Proof.
  intros Hcons Hcov Hn Hstep. destruct s as [v l]. unfold step_thread in Hstep.
  cbn [threads vars] in Hstep.
  destruct (l !! u) as [[d p] |] eqn:Hu; [| discriminate].
  cbn [mbind option_bind dom] in Hstep.
  destruct (numa v !! d) as [c |] eqn:Hc; [| discriminate].
  cbn [mbind option_bind dom at_pc] in Hstep.
  destruct (c_domain _ _ Hcons d c Hc) as (HT & e & He & HN & HK).
  cbn [threads vars] in HT, HN, HK.
  destruct (consistent_bounds _ _ d c Hcons Hc) as (HbW & HbT & HbA).
  cbn [threads vars] in HbW, HbA.
  assert (Hep : EventCount.epoch (notifier c) = e) by (rewrite HN; apply epoch_packed; lia).
  destruct (count_insert (in_dom d thief_pc) l u _ (mk_thread d p) Hu) as [_ HmT].
  destruct (count_insert (in_dom d waiter_pc) l u _ (mk_thread d p) Hu) as [_ HmW].
  destruct (count_insert (λ t, active_pc (at_pc t)) l u _ (mk_thread d p) Hu) as [_ HmA].
  unfold in_dom at 1 in HmT. unfold in_dom at 1 in HmW. cbn [dom at_pc] in HmT, HmW, HmA.
  rewrite (bool_decide_eq_true_2 (d = d) eq_refl) in HmT, HmW. cbn [andb] in HmT, HmW.
  pose proof (c_active _ _ Hcons) as HA. cbn [threads vars] in HA.
  pose proof (blocked_le_waiters d l) as HbB.
  destruct (c_threads _ _ Hcons u _ Hu) as (_ & Hidx & Hst). cbn [threads vars dom at_pc] in Hidx, Hst.
  unfold covering in Hcov. cbn [threads vars] in Hcov.
  destruct p; cbn [thief_pc waiter_pc active_pc b2z stopping_pc] in HmT, HmW, HmA, Hst.
  - (* wake_up *)
    injection Hstep as <-. split.
    + cons_own Hcons Hu Hc He HN HK (set_thief (wrap64 (thief c + 1)) c).
    + cov_intro Hstop Hact Hl0. same_epoch Hcov Hu Hc Hep Hstop Hact Hl0.
  - (* find_work *)
    destruct found; injection Hstep as <-; (split;
      [ cons_own Hcons Hu Hc He HN HK c
      | cov_intro Hstop Hact Hl0; same_epoch Hcov Hu Hc Hep Hstop Hact Hl0 ]).
  - (* do_prepare *)
    rewrite HN, prepare_wait_packed in Hstep by lia. injection Hstep as <-. split.
    + cons_own Hcons Hu Hc He HN HK
        (set_notifier (e * 2 ^ 32 + (count (in_dom d waiter_pc) l + 1)) c).
    + cov_intro Hstop Hact Hl0. same_epoch Hcov Hu Hc Hep Hstop Hact Hl0.
  - (* prepared *)
    destruct found;
      [| destruct (decide (stop v = true)) as [Hsv | Hsv];
         [rewrite Hsv in Hstep | rewrite (not_true_is_false _ Hsv) in Hstep]];
      injection Hstep as <-.
    + split.
      * cons_own Hcons Hu Hc He HN HK c.
      * cov_intro Hstop Hact Hl0; same_epoch Hcov Hu Hc Hep Hstop Hact Hl0.
    + split.
      * cons_own Hcons Hu Hc He HN HK c.
      * cov_intro Hstop Hact Hl0. congruence.
    + split.
      * cons_own Hcons Hu Hc He HN HK c.
      * cov_intro Hstop Hact Hl0; same_epoch Hcov Hu Hc Hep Hstop Hact Hl0.
  - (* cancel_for_work *)
    rewrite HN, cancel_wait_packed in Hstep by lia. injection Hstep as <-. split.
    + cons_own Hcons Hu Hc He HN HK
        (set_notifier (e * 2 ^ 32 + (count (in_dom d waiter_pc) l - 1)) c).
    + cov_intro Hstop Hact Hl0. same_epoch Hcov Hu Hc Hep Hstop Hact Hl0.
  - (* stop_cancel *)
    specialize (Hst eq_refl).
    rewrite HN, cancel_wait_packed in Hstep by lia. injection Hstep as <-. split.
    + cons_own Hcons Hu Hc He HN HK
        (set_notifier (e * 2 ^ 32 + (count (in_dom d waiter_pc) l - 1)) c).
    + cov_intro Hstop Hact Hl0. congruence.
  - (* stop_notify *)
    specialize (Hst eq_refl).
    rewrite HN, notify_packed in Hstep by lia.
    destruct (negb (count (in_dom d waiter_pc) l =? 0)); injection Hstep as <-; (split;
      [ cons_own Hcons Hu Hc He HN HK
          (set_notifier ((e + 1) * 2 ^ 32 + count (in_dom d waiter_pc) l) c)
      | cov_intro Hstop Hact Hl0; congruence ]).
  - (* stop_wake *)
    specialize (Hst eq_refl). injection Hstep as <-. split.
    + pose proof (consistent_wake_all _ _ _ d Hcons) as Hcons1.
      assert (Hu1 : futex_wake_all d l !! u = Some (mk_thread d stop_wake)).
      { apply lookup_wake_all_awake; [exact Hu |]. unfold is_blocked. simpl.
        apply andb_false_r. }
      destruct (c_domain _ _ Hcons1 d c Hc) as (HT1 & e1 & He1 & HN1 & HK1).
      eapply (consistent_update _ _ _ u d stop_wake stop_dec d _ c _ Hcons1 Hu1 Hc He1 HN1 HK1);
        try reflexivity; try (symmetry; apply list_insert_id; exact Hc); side.
    + cov_intro Hstop Hact Hl0. congruence.
  - (* stop_dec *)
    specialize (Hst eq_refl). injection Hstep as <-. split.
    + cons_own Hcons Hu Hc He HN HK (set_thief (wrap64 (thief c - 1)) c).
    + cov_intro Hstop Hact Hl0. congruence.
  - (* sleep_dec *)
    destruct (Z.eqb_spec (thief c) 1); injection Hstep as <-; (split;
      [ cons_own Hcons Hu Hc He HN HK (set_thief (wrap64 (thief c - 1)) c)
      | cov_intro Hstop Hact Hl0; same_epoch Hcov Hu Hc Hep Hstop Hact Hl0 ]).
  - (* sleep_check *)
    destruct (Z.ltb_spec 0 (active v)); injection Hstep as <-; (split;
      [ cons_own Hcons Hu Hc He HN HK c
      | cov_intro Hstop Hact Hl0; same_epoch Hcov Hu Hc Hep Hstop Hact Hl0 ]).
  - (* sleep_cancel *)
    rewrite HN, cancel_wait_packed in Hstep by lia. injection Hstep as <-. split.
    + cons_own Hcons Hu Hc He HN HK
        (set_notifier (e * 2 ^ 32 + (count (in_dom d waiter_pc) l - 1)) c).
    + cov_intro Hstop Hact Hl0. same_epoch Hcov Hu Hc Hep Hstop Hact Hl0.
  - (* waiting *)
    unfold EventCount.blocks in Hstep. rewrite Hep in Hstep.
    destruct (Z.eqb_spec e key); injection Hstep as <-; (split;
      [ cons_own Hcons Hu Hc He HN HK c
      | cov_intro Hstop Hact Hl0; same_epoch Hcov Hu Hc Hep Hstop Hact Hl0 ]).
  - (* blocked *)
    unfold EventCount.blocks in Hstep. rewrite Hep in Hstep.
    destruct (Z.eqb_spec e key); [discriminate |]. injection Hstep as <-. split.
    + cons_own Hcons Hu Hc He HN HK c.
    + cov_intro Hstop Hact Hl0. same_epoch Hcov Hu Hc Hep Hstop Hact Hl0.
  - (* woken *)
    rewrite HN, cancel_wait_packed in Hstep by lia. injection Hstep as <-. split.
    + cons_own Hcons Hu Hc He HN HK
        (set_notifier (e * 2 ^ 32 + (count (in_dom d waiter_pc) l - 1)) c).
    + cov_intro Hstop Hact Hl0. same_epoch Hcov Hu Hc Hep Hstop Hact Hl0.
  - (* tws_enter *)
    destruct (Z.eqb_spec (thief c) 1); injection Hstep as <-; (split;
      [ cons_own Hcons Hu Hc He HN HK (set_thief (wrap64 (thief c - 1)) c)
      | cov_intro Hstop Hact Hl0; same_epoch Hcov Hu Hc Hep Hstop Hact Hl0 ]).
  - (* tws_notify *)
    rewrite HN, notify_packed in Hstep by lia.
    destruct (Z.eqb_spec (count (in_dom d waiter_pc) l) 0); cbn [negb] in Hstep;
      injection Hstep as <-; (split;
      [ cons_own Hcons Hu Hc He HN HK
          (set_notifier ((e + 1) * 2 ^ 32 + count (in_dom d waiter_pc) l) c)
      | cov_intro Hstop Hact Hl0; bumped_epoch Hcov Hu Hc Hep HK Hstop Hact Hl0 ]).
  - (* tws_wake *)
    destruct (futex_wake_one d victim l) as [l1 |] eqn:Hw; [| discriminate].
    cbn [mbind option_bind] in Hstep. injection Hstep as <-.
    destruct (futex_wake_one_spec n v l d victim l1 u _ Hw Hcons Hcov Hu eq_refl)
      as (Hcons1 & Hcov1 & Hu1 & Hextra).
    apply (finish_wake n v l1 u d tws_wake tws_active d Hcons1 Hcov1 Hn Hu1);
      [left; repeat split | exact Hextra].
  - (* tws_active *)
    destruct (Z.eqb_spec (active v) 0) as [Hz | Hnz]; injection Hstep as <-; (split;
      [ cons_own Hcons Hu Hc He HN HK c | cov_intro Hstop Hact Hl0 ]).
    + count_step Hu. norm; lia.
    + assert (Hact0 : 0 < active v) by lia.
      specialize (Hcov Hstop Hact0 _ _ Hl0). count_step Hu. norm; lia.
  - (* tws_loop *)
    destruct (numa v !! i) as [ci |] eqn:Hci.
    + pose proof (lookup_lt_Some _ _ _ Hci) as Hi.
      destruct (c_domain _ _ Hcons i ci Hci) as (HTi & _). cbn [threads vars] in HTi.
      pose proof (count_nonneg (in_dom i thief_pc) l) as HTi0.
      destruct (Z.eqb_spec (thief ci) 0); injection Hstep as <-; (split;
        [ cons_own Hcons Hu Hc He HN HK c | cov_intro Hstop Hact Hl0 ]).
      * same_epoch Hcov Hu Hc Hep Hstop Hact Hl0.
      * specialize (Hcov Hstop Hact _ _ Hl0).
        destruct (decide (d0 = i)) as [-> | Hdi];
          [rewrite Hci in Hl0; injection Hl0 as <- |]; count_step Hu; norm; lia.
    + pose proof (lookup_ge_None_1 _ _ Hci) as Hi.
      injection Hstep as <-. split.
      * cons_own Hcons Hu Hc He HN HK c.
      * cov_intro Hstop Hact Hl0. pose proof (lookup_lt_Some _ _ _ Hl0) as Hd0.
        same_epoch Hcov Hu Hc Hep Hstop Hact Hl0.
  - (* tws_loop_notify *)
    destruct (numa v !! i) as [ci |] eqn:Hci; [| discriminate].
    cbn [mbind option_bind] in Hstep.
    pose proof (lookup_lt_Some _ _ _ Hci) as Hi.
    destruct (c_domain _ _ Hcons i ci Hci) as (HTi & ei & Hei & HNi & HKi).
    cbn [threads vars] in HTi, HNi, HKi.
    destruct (consistent_bounds _ _ i ci Hcons Hci) as (HbWi & _ & _).
    cbn [threads vars] in HbWi.
    assert (Hepi : EventCount.epoch (notifier ci) = ei)
      by (rewrite HNi; apply epoch_packed; lia).
    pose proof (blocked_le_waiters i l) as HbBi.
    rewrite HNi, notify_packed in Hstep by lia.
    destruct (Z.eqb_spec (count (in_dom i waiter_pc) l) 0); cbn [negb] in Hstep;
      injection Hstep as <-; (split;
      [ eapply (consistent_update _ _ _ u d (tws_loop_notify i) _ i ci
                  (set_notifier ((ei + 1) * 2 ^ 32 + count (in_dom i waiter_pc) l) ci)
                  ei Hcons Hu Hci Hei HNi HKi);
          try reflexivity; side
      | cov_intro Hstop Hact Hl0; bumped_epoch Hcov Hu Hci Hepi HKi Hstop Hact Hl0 ]).
  - (* tws_loop_wake *)
    destruct (futex_wake_one i victim l) as [l1 |] eqn:Hw; [| discriminate].
    cbn [mbind option_bind] in Hstep. injection Hstep as <-.
    destruct (futex_wake_one_spec n v l i victim l1 u _ Hw Hcons Hcov Hu eq_refl)
      as (Hcons1 & Hcov1 & Hu1 & Hextra).
    apply (finish_wake n v l1 u d (tws_loop_wake i) (tws_loop (S i)) i Hcons1 Hcov1 Hn Hu1);
      [right; repeat split | exact Hextra].
  - (* running *)
    injection Hstep as <-. split.
    + cons_own Hcons Hu Hc He HN HK c.
    + cov_intro Hstop Hact Hl0. rewrite wrap64_small in Hact by lia.
      assert (Hact0 : 0 < active v) by lia.
      specialize (Hcov Hstop Hact0 _ _ Hl0). count_step Hu. norm; lia.
  - (* exited *)
    discriminate.
Qed.

End LazyThreadStep.

Section LazyReach.

Import Lazy.

Lemma consistent_mono n m s : consistent n s → n ≤ m → consistent m s.
Proof.
  intros Hcons Hnm. constructor.
  - intros d c Hc. destruct (c_domain _ _ Hcons d c Hc) as (HT & e & He & HN & HK).
    split; [exact HT |]. exists e. split; [lia |]. split; assumption.
  - exact (c_active _ _ Hcons).
  - exact (c_threads _ _ Hcons).
  - exact (c_size _ _ Hcons).
Qed.

Lemma step_submit_bump n d s s' :
  consistent n s → covering s → n + 1 < 2 ^ 31 →
  step (submit_bump d) s = Some s' →
  consistent (n + 1) s' ∧ covering s'.
Proof.
  intros Hcons Hcov Hn Hstep. destruct s as [v l]. cbn [step vars threads] in Hstep.
  destruct (numa v !! d) as [c |] eqn:Hc; [| discriminate].
  cbn [mbind option_bind] in Hstep.
  destruct (c_domain _ _ Hcons d c Hc) as (HT & e & He & HN & HK).
  cbn [threads vars] in HT, HN, HK.
  destruct (consistent_bounds _ _ d c Hcons Hc) as (HbW & HbT & HbA).
  cbn [threads vars] in HbW, HbA.
  assert (Hep : EventCount.epoch (notifier c) = e) by (rewrite HN; apply epoch_packed; lia).
  rewrite HN, notify_packed in Hstep by lia. cbn [snd] in Hstep. injection Hstep as <-.
  split.
  - constructor; cbn [vars threads numa set_numa stop active].
    + intros d0 c0 Hl0. apply lookup_insert_cases in Hl0 as [(-> & ->) | (Hne & Hl0)].
      * cbn [thief notifier set_notifier]. split; [exact HT |].
        exists (e + 1). split; [lia |]. split; [reflexivity |].
        intros u t k Hu Hd Hk. specialize (HK u t k Hu Hd Hk). lia.
      * destruct (c_domain _ _ Hcons d0 c0 Hl0) as (HT0 & e0 & He0 & HN0 & HK0).
        split; [exact HT0 |]. exists e0. split; [lia |]. split; assumption.
    + exact (c_active _ _ Hcons).
    + intros u t Hu. rewrite length_insert. exact (c_threads _ _ Hcons u t Hu).
    + exact (c_size _ _ Hcons).
  - unfold covering in *. cbn [vars threads numa set_numa stop active] in *.
    intros Hstop Hact d0 c0 Hl0.
    apply lookup_insert_cases in Hl0 as [(-> & ->) | (Hne & Hl0)].
    + specialize (Hcov Hstop Hact _ _ Hc). rewrite Hep in Hcov.
      cbn [notifier set_notifier]. rewrite epoch_packed by lia.
      unfold cover in *.
      destruct (count_epoch_bump d e l HK) as [-> ->].
      pose proof (count_nonneg (in_dom d (closing_pc e)) l). lia.
    + exact (Hcov Hstop Hact _ _ Hl0).
Qed.

Lemma step_submit_wake n d s s' :
  consistent n s → covering s →
  step (submit_wake d) s = Some s' →
  consistent (n + 1) s' ∧ covering s'.
Proof.
  intros Hcons Hcov Hstep. destruct s as [v l]. cbn [step vars threads] in Hstep.
  injection Hstep as <-. split.
  - apply consistent_mono with n; [apply consistent_wake_all; exact Hcons | lia].
  - unfold covering in *. cbn [vars threads] in *.
    intros Hstop Hact d0 c0 Hl0. specialize (Hcov Hstop Hact d0 c0 Hl0).
    unfold cover in *.
    rewrite count_wake_all_rising, count_wake_all_blocked.
    rewrite !count_wake_all_other.
    + pose proof (count_nonneg (in_dom d0 blocked_pc) l). case_decide; lia.
    + intros [dx p]. unfold is_blocked, waking. simpl.
      destruct p; simpl; try (rewrite andb_false_r; discriminate). reflexivity.
    + intros [dx p]. unfold is_blocked, in_dom. simpl.
      destruct p; simpl; try (rewrite andb_false_r; discriminate).
      intros _. rewrite !andb_false_r. reflexivity.
    + intros [dx p]. unfold is_blocked, notifying. simpl.
      destruct p; simpl; try (rewrite andb_false_r; discriminate). reflexivity.
    + intros [dx p]. unfold is_blocked, in_dom. simpl.
      destruct p; simpl; try (rewrite andb_false_r; discriminate).
      intros _. reflexivity.
Qed.

Lemma step_request_stop n s s' :
  consistent n s →
  step request_stop s = Some s' →
  consistent (n + 1) s' ∧ covering s'.
Proof.
  intros Hcons Hstep. destruct s as [v l]. cbn [step vars threads] in Hstep.
  injection Hstep as <-. split.
  - apply consistent_mono with n; [| lia]. constructor; cbn [vars threads numa stop active].
    + exact (c_domain _ _ Hcons).
    + exact (c_active _ _ Hcons).
    + intros u t Hu. destruct (c_threads _ _ Hcons u t Hu) as (Hd & Hi & _).
      repeat split; [exact Hd | exact Hi].
    + exact (c_size _ _ Hcons).
  - intros Hstop. discriminate.
Qed.

Lemma step_preserves n lb s s' :
  consistent n s → covering s → n + 1 < 2 ^ 31 →
  step lb s = Some s' →
  consistent (n + 1) s' ∧ covering s'.
Proof.
  intros Hcons Hcov Hn Hstep. destruct lb as [u found victim | d | d |].
  - exact (step_thread_preserves n u found victim s s' Hcons Hcov Hn Hstep).
  - exact (step_submit_bump n d s s' Hcons Hcov Hn Hstep).
  - exact (step_submit_wake n d s s' Hcons Hcov Hstep).
  - exact (step_request_stop n s s' Hcons Hstep).
Qed.

Lemma run_preserves ls : ∀ n s s',
  consistent n s → covering s → n + Z.of_nat (length ls) < 2 ^ 31 →
  run ls s = Some s' →
  consistent (n + Z.of_nat (length ls)) s' ∧ covering s'.
Proof.
  induction ls as [| lb ls IH]; intros n s s' Hcons Hcov Hn Hrun.
  - injection Hrun as <-. simpl. rewrite Z.add_0_r. split; assumption.
  - cbn [run] in Hrun. destruct (step lb s) as [s1 |] eqn:Hstep; [| discriminate].
    cbn [mbind option_bind] in Hrun. cbn [length] in Hn |- *.
    destruct (step_preserves n lb s s1 Hcons Hcov ltac:(lia) Hstep) as [Hcons1 Hcov1].
    destruct (IH (n + 1) s1 s' Hcons1 Hcov1 ltac:(lia) Hrun) as [Hcons' Hcov'].
    split; [| exact Hcov'].
    replace (n + Z.of_nat (S (length ls))) with (n + 1 + Z.of_nat (length ls)) by lia.
    exact Hcons'.
Qed.

Lemma count_init P doms :
  (∀ d, P (mk_thread d wake_up) = false) →
  count P ((λ d, mk_thread d wake_up) <$> doms) = 0.
Proof.
  intros Hd. induction doms as [| d doms IH]; [reflexivity |].
  rewrite fmap_cons. cbn [count]. rewrite Hd, IH. reflexivity.
Qed.

Lemma init_consistent ndom doms :
  Forall (λ d, (d < ndom)%nat) doms →
  Z.of_nat (length doms) < 2 ^ 31 →
  consistent 0 (init ndom doms) ∧ covering (init ndom doms).
Proof.
  intros Hdoms Hlen. split.
  - constructor; cbn [init vars threads numa active stop].
    + intros d c Hc. apply lookup_replicate in Hc as [-> _]. cbn [thief notifier].
      split; [symmetry; apply count_init; intros d0; apply andb_false_r |].
      exists 0. split; [lia |].
      split; [symmetry; apply count_init; intros d0; apply andb_false_r |].
      intros u t k Hu Hd Hk. rewrite list_lookup_fmap in Hu.
      destruct (doms !! u); [| discriminate]. injection Hu as <-. discriminate.
    + symmetry. apply count_init. reflexivity.
    + intros u t Hu. rewrite list_lookup_fmap in Hu.
      destruct (doms !! u) as [d |] eqn:Hd; [| discriminate]. injection Hu as <-.
      rewrite length_replicate. cbn [dom at_pc].
      rewrite Forall_forall in Hdoms.
      repeat split; [apply Hdoms; eapply list_elem_of_lookup_2; exact Hd
                    | discriminate | discriminate].
    + rewrite length_fmap. exact Hlen.
  - intros _ Hact. cbn [init vars active] in Hact. lia.
Qed.

End LazyReach.

Lemma race_state_reachable : Lazy.reachable 2 [0; 1]%nat 14 Samples.race_state.
Proof. exists Samples.race_trace. split; vm_compute; reflexivity. Qed.

(** C6, as the code keeps it.  In every state the workers of the lazy pool
    reach within [2^31] operations, while the stop flag is unset and a worker
    is active, every domain has a thief, or a worker on its way to become one
    (at [wake_up], returning from or cancelling its wait, about to read
    [active], or holding a key the epoch has left behind), or a worker about
    to notify the domain (or still to visit it in its loop), or else no worker
    about to fall asleep and no worker asleep unless the futex half of a
    [notify_one] is still to come.  Where no such wake-up or notification is
    in flight for a domain, the domain has a thief or no sleeper. *)
Theorem lazy_pool_covered (ndom : nat) (doms : list nat) (n : nat) (s : Lazy.state) :
  Forall (λ d, (d < ndom)%nat) doms →
  Z.of_nat (length doms) < 2 ^ 31 →
  Z.of_nat n < 2 ^ 31 →
  Lazy.reachable ndom doms n s →
  Lazy.lazy_invariant s
  ∧ (Lazy.stop (Lazy.vars s) = false → 0 < Lazy.active (Lazy.vars s) →
     ∀ d, (d < length (Lazy.numa (Lazy.vars s)))%nat → Lazy.quiet s d →
          1 ≤ Lazy.thieves s d ∨ Lazy.sleeping s d = 0).
Proof.
  intros Hdoms Hlen Hn (ls & Hls & Hrun).
  destruct (init_consistent ndom doms Hdoms Hlen) as [Hc0 Hv0].
  destruct (run_preserves ls 0 _ s Hc0 Hv0 ltac:(lia) Hrun) as [Hcons Hcov].
  assert (Hd : ∀ d, (d < length (Lazy.numa (Lazy.vars s)))%nat →
    Lazy.stop (Lazy.vars s) = false → 0 < Lazy.active (Lazy.vars s) →
    ∃ c, Lazy.numa (Lazy.vars s) !! d = Some c
         ∧ Lazy.thieves s d = Lazy.count (Lazy.in_dom d Lazy.thief_pc) (Lazy.threads s)
         ∧ Lazy.epoch_of s d = EventCount.epoch (Lazy.notifier c)
         ∧ Lazy.cover d (EventCount.epoch (Lazy.notifier c)) (Lazy.threads s)).
  { intros d Hlt Hstop Hact. destruct (lookup_lt_is_Some_2 _ _ Hlt) as [c Hc].
    exists c. unfold Lazy.thieves, Lazy.epoch_of. rewrite Hc. simpl.
    destruct (Lazy.c_domain _ _ Hcons d c Hc) as (HT & _).
    repeat split; [exact HT | exact (Hcov Hstop Hact d c Hc)]. }
  split.
  - intros Hstop Hact d Hlt.
    destruct (Hd d Hlt Hstop Hact) as (c & Hc & HT & He & Hcover).
    unfold Lazy.covered, Lazy.sleeping. rewrite HT, He. unfold Lazy.cover in Hcover.
    pose proof (count_nonneg (Lazy.in_dom d Lazy.thief_pc) (Lazy.threads s)).
    pose proof (count_nonneg (Lazy.in_dom d (Lazy.rising_pc (EventCount.epoch (Lazy.notifier c))))
                  (Lazy.threads s)).
    pose proof (count_nonneg (Lazy.notifying d) (Lazy.threads s)).
    lia.
  - intros Hstop Hact d Hlt (Hq1 & Hq2 & Hq3).
    destruct (Hd d Hlt Hstop Hact) as (c & Hc & HT & He & Hcover).
    unfold Lazy.sleeping. rewrite HT. rewrite He in Hq1. unfold Lazy.cover in Hcover.
    lia.
Qed.

(** In the state of the race every domain is covered: worker 1 is about
    to walk the domains. *)
Lemma lazy_pool_covered_witness : Lazy.lazy_invariant Samples.race_state.
Proof.
  apply (lazy_pool_covered 2 [0; 1]%nat 14 Samples.race_state).
  - repeat constructor.
  - simpl. lia.
  - lia.
  - exists Samples.race_trace. split; vm_compute; reflexivity.
Defined.

(** C6 as the specification words it fails in that state: a worker is
    active, domain 0 has no thief, and its one worker is asleep. *)
Lemma spec_invariant_broken :
  Lazy.reachable 2 [0; 1]%nat 14 Samples.race_state
  ∧ ¬ Lazy.spec_invariant Samples.race_state.
Proof.
  split; [exact race_state_reachable |].
  intros Hspec. specialize (Hspec ltac:(simpl; lia) 0%nat ltac:(simpl; lia)).
  vm_compute in Hspec. destruct Hspec as [H | H].
  - apply H. reflexivity.
  - discriminate H.
Qed.

(** ** The thief that found work *)

Section ThiefWorkSleep.

Import Lazy.

Lemma idle_thieves v v' i :
  thief <$> numa v = thief <$> numa v' → idle v i = idle v' i.
Proof.
  intros H. unfold idle.
  assert (Hi : thief <$> (numa v !! i) = thief <$> (numa v' !! i)).
  { rewrite <- !list_lookup_fmap, H. reflexivity. }
  destruct (numa v !! i), (numa v' !! i); simpl in Hi; try discriminate; [| reflexivity].
  injection Hi as ->. reflexivity.
Qed.

Lemma notify_one_call_thieves i st :
  thief <$> numa (notify_one_call i st).1 = thief <$> numa st.1
  ∧ active (notify_one_call i st).1 = active st.1
  ∧ (notify_one_call i st).2 = st.2 ++ match numa st.1 !! i with Some _ => [i] | None => [] end.
Proof.
  unfold notify_one_call. destruct (numa st.1 !! i) as [c |] eqn:Hc; simpl.
  - repeat split. rewrite list_fmap_insert. simpl. apply list_insert_id.
    rewrite list_lookup_fmap, Hc. reflexivity.
  - rewrite app_nil_r. repeat split.
Qed.

Lemma foldl_notify_idle (ds : list nat) : ∀ st,
  (foldl notify_idle_domain st ds).2 = st.2 ++ List.filter (idle st.1) ds
  ∧ active (foldl notify_idle_domain st ds).1 = active st.1
  ∧ thief <$> numa (foldl notify_idle_domain st ds).1 = thief <$> numa st.1.
Proof.
  induction ds as [| i ds IH]; intros st; simpl.
  - rewrite app_nil_r. repeat split.
  - destruct (IH (notify_idle_domain st i)) as (Hlog & Hact & Hth).
    rewrite Hlog, Hact, Hth. clear IH Hlog Hact Hth.
    unfold notify_idle_domain, idle at 2.
    destruct (numa st.1 !! i) as [c |] eqn:Hc.
    + destruct (thief c =? 0).
      * destruct (notify_one_call_thieves i st) as (Hth & Hact & Hlog).
        rewrite Hth, Hact, Hlog, Hc, <- app_assoc. simpl.
        rewrite (List.filter_ext _ _ (λ j, idle_thieves _ _ j Hth)).
        repeat split.
      * repeat split.
    + repeat split.
Qed.

(** C7, as the code has it.  Run without interference, the part of
    [thief_work_sleep] before [resume] decrements the thief count of the
    worker's domain, calls [notify_one] on that domain when the count was 1,
    increments [active], and, when [active] was 0, calls [notify_one] on
    exactly the domains whose thief count is then zero, in order. *)
Theorem thief_work_sleep_enter_spec (tid : nat) (v : lazy_vars) (c : fat_counters) :
  numa v !! tid = Some c →
  let v1 := set_numa tid (set_thief (wrap64 (thief c - 1)) c) v in
  ∃ v',
    thief_work_sleep_enter tid v
    = Some (v', (if thief c =? 1 then [tid] else [])
                ++ (if active v =? 0
                    then List.filter (idle v1) (seq 0 (length (numa v)))
                    else []))
    ∧ active v' = wrap64 (active v + 1)
    ∧ thief <$> numa v' = thief <$> numa v1.
Proof.
  intros Hc v1. unfold thief_work_sleep_enter. rewrite Hc. cbn [mbind option_bind].
  fold v1.
  set (st2 := if thief c =? 1 then notify_one_call tid (v1, []) else (v1, [])).
  assert (H2 : thief <$> numa st2.1 = thief <$> numa v1
               ∧ active st2.1 = active v
               ∧ st2.2 = if thief c =? 1 then [tid] else []).
  { unfold st2. destruct (thief c =? 1); [| repeat split].
    destruct (notify_one_call_thieves tid (v1, [])) as (Hth & Hact & Hlog).
    rewrite Hth, Hact, Hlog. cbn [fst snd].
    assert (Hl : numa v1 !! tid = Some (set_thief (wrap64 (thief c - 1)) c)).
    { apply list_lookup_insert_eq. apply lookup_lt_Some in Hc. exact Hc. }
    rewrite Hl. repeat split. }
  destruct H2 as (Hth2 & Hact2 & Hlog2). rewrite Hact2, <- Hlog2.
  destruct (active v =? 0).
  - destruct (foldl_notify_idle (seq 0 (length (numa v)))
                (set_active (wrap64 (active v + 1)) st2.1, st2.2)) as (Hlog & Hact & Hth).
    cbn [fst snd] in Hlog, Hact, Hth.
    eexists. split; [| split].
    + rewrite (surjective_pairing (foldl _ _ _)). rewrite Hlog.
      rewrite (List.filter_ext _ (idle v1)); [reflexivity |].
      intros j. apply idle_thieves. exact Hth2.
    + exact Hact.
    + exact (eq_trans Hth Hth2).
  - eexists. split; [| split].
    + rewrite app_nil_r. reflexivity.
    + reflexivity.
    + exact Hth2.
Qed.

End ThiefWorkSleep.

(** The last thief of domain 0 finds work while nobody is active and domain
    1 has two thieves: [notify_one] is called on domain 0, for its own
    departure and again in the loop, and not on domain 1. *)
Lemma thief_work_sleep_enter_spec_witness :
  ∃ v', Lazy.thief_work_sleep_enter 0 Samples.vars_two_domains = Some (v', [0; 0]%nat)
        ∧ Lazy.active v' = 1.
Proof.
  destruct (thief_work_sleep_enter_spec 0 Samples.vars_two_domains (Lazy.mk_fat 1 0) eq_refl)
    as (v' & Hres & Hact & _).
  exists v'. split; [exact Hres | exact Hact].
Defined.

(** C7 as the specification words it fails there: domain 1 is not
    notified. *)
Lemma idle_domains_only : ¬ Wording.notifies_every_domain.
Proof.
  intros Hclaim.
  destruct (thief_work_sleep_enter_spec 0 Samples.vars_two_domains (Lazy.mk_fat 1 0) eq_refl)
    as (v' & Hres & _).
  specialize (Hclaim 0%nat Samples.vars_two_domains v' _ Hres eq_refl 1%nat ltac:(simpl; lia)).
  apply list_elem_of_In in Hclaim. vm_compute in Hclaim.
  destruct Hclaim as [H | [H | []]]; discriminate H.
Qed.

(** ** Stealing from the neighbours *)

Section NumaInit.

Import Numa.

(** The weight of a member of a cohort of [n] at hop distance [i], as a
    fraction. *)
Lemma weight_value (n i : nat) :
  (1 ≤ n)%nat → (1 ≤ i)%nat →
  QArith_base.Qeq (weight n i) (QArith_base.Qmake 1 (Pos.of_nat (i * i * n))).
Proof.
  intros Hn Hi.
  assert (Hpos : Z.of_nat n * Z.of_nat i * Z.of_nat i = Z.pos (Pos.of_nat (i * i * n))).
  { rewrite <- positive_nat_Z, Nat2Pos.id by nia. nia. }
  unfold weight, QArith_base.Qdiv, QArith_base.Qmult, QArith_base.Qinv, QArith_base.inject_Z,
    QArith_base.Qeq.
  cbn [QArith_base.Qnum QArith_base.Qden]. rewrite Hpos.
  cbn [QArith_base.Qnum QArith_base.Qden]. lia.
Qed.

Lemma push_cohort_eq w cohort : ∀ acc,
  push_cohort w cohort acc = (acc.1 ++ replicate (length cohort) w, acc.2 ++ cohort).
Proof.
  induction cohort as [| c cohort IH]; intros [ws cs]; simpl.
  - rewrite !app_nil_r. reflexivity.
  - rewrite IH. simpl. rewrite <- !app_assoc. reflexivity.
Qed.

Lemma push_cohorts_neigh cohorts : ∀ i acc,
  (push_cohorts i cohorts acc).2 = acc.2 ++ concat cohorts
  ∧ length (push_cohorts i cohorts acc).1 = (length acc.1 + length (concat cohorts))%nat.
Proof.
  induction cohorts as [| cohort cohorts IH]; intros i acc; simpl.
  - rewrite app_nil_r. split; [reflexivity | lia].
  - destruct (IH (S i) (push_cohort (weight (length cohort) i) cohort acc)) as [-> ->].
    rewrite push_cohort_eq. simpl.
    rewrite <- app_assoc, !length_app, length_replicate. split; [reflexivity | lia].
Qed.

Lemma push_cohorts_old cohorts : ∀ i acc k,
  (k < length acc.1)%nat → (push_cohorts i cohorts acc).1 !! k = acc.1 !! k.
Proof.
  induction cohorts as [| cohort cohorts IH]; intros i acc k Hk; simpl.
  - reflexivity.
  - rewrite IH; rewrite push_cohort_eq; simpl.
    + apply lookup_app_l. exact Hk.
    + rewrite length_app. lia.
Qed.

Lemma push_cohorts_weight cohorts : ∀ i acc k cohort j,
  cohorts !! k = Some cohort → (j < length cohort)%nat →
  (push_cohorts i cohorts acc).1 !! (length acc.1 + length (concat (take k cohorts)) + j)%nat
  = Some (weight (length cohort) (i + k)).
Proof.
  induction cohorts as [| c0 cohorts IH]; intros i acc k cohort j Hk Hj; [discriminate |].
  destruct k as [| k]; simpl in Hk.
  - injection Hk as ->. simpl.
    rewrite push_cohorts_old; rewrite push_cohort_eq; simpl.
    + rewrite lookup_app_r by lia.
      rewrite !Nat.add_0_r.
      replace (length acc.1 + j - length acc.1)%nat with j by lia.
      apply lookup_replicate_2. exact Hj.
    + rewrite length_app, length_replicate. lia.
  - simpl. specialize (IH (S i) (push_cohort (weight (length c0) i) c0 acc) k cohort j Hk Hj).
    rewrite push_cohort_eq in IH |- *. simpl in IH.
    rewrite length_app, length_replicate in IH.
    rewrite length_app.
    replace (length acc.1 + (length c0 + length (concat (take k cohorts))) + j)%nat
      with (length acc.1 + length c0 + length (concat (take k cohorts)) + j)%nat by lia.
    replace (i + S k)%nat with (S i + k)%nat by lia.
    exact IH.
Qed.

Lemma concat_lookup (cohorts : list (list Z)) : ∀ k cohort j c,
  cohorts !! k = Some cohort → cohort !! j = Some c →
  concat cohorts !! (length (concat (take k cohorts)) + j)%nat = Some c.
Proof.
  induction cohorts as [| c0 cohorts IH]; intros k cohort j c Hk Hj; [discriminate |].
  destruct k as [| k]; simpl in Hk |- *.
  - injection Hk as ->. apply lookup_app_l_Some. exact Hj.
  - rewrite length_app, <- Nat.add_assoc, lookup_app_r by lia.
    replace (length c0 + (length (concat (take k cohorts)) + j) - length c0)%nat
      with (length (concat (take k cohorts)) + j)%nat by lia.
    eapply IH; eassumption.
Qed.

(** What [init_worker_and_bind] leaves in the context. *)
Lemma init_worker_and_bind_lists (neighbors : list (list Z)) :
  let nc := init_worker_and_bind neighbors in
  m_close nc = nth 1 neighbors []
  ∧ m_neigh nc = concat (tail neighbors)
  ∧ length (weights nc) = length (m_neigh nc)
  ∧ ∀ i cohort j c,
      (1 ≤ i)%nat → neighbors !! i = Some cohort → cohort !! j = Some c →
      let k := (length (concat (take (i - 1) (tail neighbors))) + j)%nat in
      m_neigh nc !! k = Some c ∧ weights nc !! k = Some (weight (length cohort) i).
Proof.
  intros nc. unfold nc, init_worker_and_bind. cbn [m_close m_neigh weights].
  destruct (push_cohorts_neigh (tail neighbors) 1 ([], [])) as [Hn Hl].
  simpl in Hn, Hl. rewrite Hn, Hl.
  split; [| split; [reflexivity | split; [reflexivity |]]].
  - destruct neighbors as [| ? [| ? ?]]; reflexivity.
  - intros i cohort j c Hi Hc Hj.
    assert (Hc' : tail neighbors !! (i - 1)%nat = Some cohort).
    { destruct neighbors as [| c0 rest]; [discriminate |].
      destruct i as [| i]; [lia |]. simpl in Hc |- *.
      rewrite Nat.sub_0_r. exact Hc. }
    split.
    + eapply concat_lookup; eassumption.
    + pose proof (push_cohorts_weight (tail neighbors) 1 ([], []) (i - 1) cohort j Hc'
                    (lookup_lt_Some _ _ _ Hj)) as Hw.
      simpl in Hw. replace (S (i - 1)) with i in Hw by lia. exact Hw.
Qed.

End NumaInit.
Section NumaSteal.

Import Numa.

Context {rng world : Type}.
Variable shuffle : list Z → rng → list Z * rng.
Variable draw : list QArith_base.Q → rng → nat * rng.
Variable steal : Z → world → Deque.err * Z * world.

Lemma probe_each_spec (cs : list Z) : ∀ w tr,
  ∃ done,
    (probe_each steal cs w tr).2 = tr ++ done
    ∧ done `prefix_of` cs
    ∧ ((probe_each steal cs w tr).1.1 = None → done = cs)
    ∧ (all_fail steal → (probe_each steal cs w tr).1.1 = None).
Proof.
  induction cs as [| c cs IH]; intros w tr; simpl.
  - exists []. rewrite app_nil_r. repeat split; reflexivity.
  - destruct (steal c w) as [[e t] w'] eqn:Hs.
    assert (Hcont : ∃ done,
      (probe_each steal cs w' (tr ++ [c])).2 = tr ++ done
      ∧ done `prefix_of` c :: cs
      ∧ ((probe_each steal cs w' (tr ++ [c])).1.1 = None → done = c :: cs)
      ∧ (all_fail steal → (probe_each steal cs w' (tr ++ [c])).1.1 = None)).
    { destruct (IH w' (tr ++ [c])) as (done & Htr & Hpre & Hall & Hfail).
      exists (c :: done). rewrite Htr, <- app_assoc.
      split; [reflexivity |]. split; [apply prefix_cons; exact Hpre |].
      split; [intros H; rewrite (Hall H); reflexivity | exact Hfail]. }
    destruct e; [| exact Hcont | exact Hcont].
    exists [c]. simpl.
    split; [reflexivity |]. split; [apply prefix_cons, prefix_nil |].
    split; [discriminate |].
    intros Hfail. exfalso. apply (Hfail c w). rewrite Hs. reflexivity.
Qed.

Lemma probe_random_spec (nc : numa_context) :
  (∀ g, (draw (weights nc) g).1 < length (m_neigh nc))%nat →
  ∀ attempts g w tr,
  ∃ r far,
    probe_random draw steal attempts nc g w tr = Some r
    ∧ r.2 = tr ++ far
    ∧ (length far ≤ attempts)%nat
    ∧ Forall (λ c, c ∈ m_neigh nc) far
    ∧ Forall2 (λ c ix, m_neigh nc !! ix = Some c) far
        (take (length far) (draws draw attempts (weights nc) g).1)
    ∧ (r.1.1.1 = None →
       length far = attempts ∧ r.1.1.2 = (draws draw attempts (weights nc) g).2)
    ∧ (all_fail steal → r.1.1.1 = None).
Proof.
  intros Hdraw attempts.
  induction attempts as [| k IH]; intros g w tr; simpl.
  - eexists. exists []. rewrite app_nil_r. simpl.
    repeat split; try reflexivity; try lia; constructor.
  - pose proof (Hdraw g) as Hix.
    destruct (draw (weights nc) g) as [ix g'] eqn:Hd. simpl in Hix.
    destruct (lookup_lt_is_Some_2 _ _ Hix) as [c Hc].
    rewrite Hc. cbn [mbind option_bind].
    destruct (steal c w) as [[e t] w'] eqn:Hs.
    assert (Hin : c ∈ m_neigh nc) by (eapply list_elem_of_lookup_2; exact Hc).
    destruct (draws draw k (weights nc) g') as [ixs g''] eqn:Hds. cbn [fst snd].
    assert (Hcont : ∃ r far,
      probe_random draw steal k nc g' w' (tr ++ [c]) = Some r
      ∧ r.2 = tr ++ far
      ∧ (length far ≤ S k)%nat
      ∧ Forall (λ c, c ∈ m_neigh nc) far
      ∧ Forall2 (λ c ix, m_neigh nc !! ix = Some c) far (take (length far) (ix :: ixs))
      ∧ (r.1.1.1 = None → length far = S k ∧ r.1.1.2 = g'')
      ∧ (all_fail steal → r.1.1.1 = None)).
    { destruct (IH g' w' (tr ++ [c]))
        as (r & far & Hr & Htr & Hlen & Hall & Hfar & Hnone & Hfail).
      rewrite Hds in Hfar, Hnone. cbn [fst snd] in Hfar, Hnone.
      exists r, (c :: far). rewrite Htr, <- app_assoc. simpl.
      split; [exact Hr |]. split; [reflexivity |]. split; [lia |].
      split; [constructor; assumption |].
      split; [constructor; assumption |].
      split; [intros H; destruct (Hnone H) as [-> ->]; split; reflexivity | exact Hfail]. }
    destruct e; [| exact Hcont | exact Hcont].
    eexists. exists [c]. simpl.
    split; [reflexivity |]. split; [reflexivity |]. split; [lia |].
    split; [constructor; [exact Hin | constructor] |].
    split; [constructor; [exact Hc | constructor] |].
    split; [discriminate |].
    intros Hfail. exfalso. apply (Hfail c w). rewrite Hs. reflexivity.
Qed.

Lemma probe_each_lost_as_empty (cs : list Z) : ∀ w tr,
  probe_each (lost_as_empty steal) cs w tr = probe_each steal cs w tr.
Proof.
  induction cs as [| c cs IH]; intros w tr; simpl; [reflexivity |].
  unfold lost_as_empty at 1.
  destruct (steal c w) as [[[] t] w']; rewrite ?IH; reflexivity.
Qed.

Lemma probe_random_lost_as_empty (nc : numa_context) (attempts : nat) : ∀ g w tr,
  probe_random draw (lost_as_empty steal) attempts nc g w tr
  = probe_random draw steal attempts nc g w tr.
Proof.
  induction attempts as [| k IH]; intros g w tr; simpl; [reflexivity |].
  destruct (draw (weights nc) g) as [ix g'].
  destruct (m_neigh nc !! ix) as [c |]; [| reflexivity].
  cbn [mbind option_bind]. unfold lost_as_empty at 1.
  destruct (steal c w) as [[[] t] w']; rewrite ?IH; reflexivity.
Qed.

Lemma try_steal_lost_as_empty (nc : numa_context) g w :
  try_steal shuffle draw (lost_as_empty steal) nc g w = try_steal shuffle draw steal nc g w.
Proof.
  unfold try_steal. destruct (m_neigh nc); [reflexivity |].
  destruct (shuffle (m_close nc) g) as [close g1].
  rewrite probe_each_lost_as_empty.
  destruct (probe_each steal close w []) as [[[t |] w1] tr]; [reflexivity |].
  rewrite probe_random_lost_as_empty. reflexivity.
Qed.

End NumaSteal.


(** ** The destructor of a future *)

Section FutureSpec.

Import Future.

Lemma valid_nonnull (p : Z) : p ≠ 0 → valid p = true.
Proof. intros H. unfold valid. apply negb_true_iff, Z.eqb_neq. exact H. Qed.

Lemma destructor_settled (p : Z) (h : gmap Z future_shared_state) (s : future_shared_state) :
  h !! p = Some s → status s ≠ no_wait → destructor p h = Some (Returns 0 h).
Proof.
  intros Hs Hst. unfold destructor. rewrite Hs. cbn [mbind option_bind].
  destruct (valid p); [| reflexivity].
  destruct (status s); [congruence | reflexivity | reflexivity].
Qed.

Lemma wait_settles (p : Z) (h h' : gmap Z future_shared_state) (v : Z) :
  p ≠ 0 → wait p h = Some (Returns v h') →
  ∃ s', h' !! p = Some s' ∧ status s' ≠ no_wait.
Proof.
  intros Hp. unfold wait, sem_acquire. rewrite (valid_nonnull p Hp).
  destruct (h !! p) as [s |] eqn:Hs; [| discriminate]. cbn [mbind option_bind].
  destruct (status s) eqn:Hst.
  - destruct (0 <? sem s); [| discriminate].
    cbn [mbind option_bind]. rewrite lookup_insert_eq. cbn [mbind option_bind].
    intros [= _ <-]. eexists. rewrite lookup_insert_eq. split; [reflexivity |].
    discriminate.
  - intros [= _ <-]. exists s. split; [exact Hs | congruence].
  - intros [= _ <-]. exists s. split; [exact Hs | congruence].
Qed.

Lemma get_settles (p : Z) (h h' : gmap Z future_shared_state) (o : outcome) :
  p ≠ 0 → get p h = Some o → store_after o = Some h' →
  ∃ s', h' !! p = Some s' ∧ status s' ≠ no_wait.
Proof.
  intros Hp. unfold get.
  destruct (wait p h) as [[v h1 | e h1 |] |] eqn:Hw; cbn [mbind option_bind];
    [| | intros [= <-]; discriminate | discriminate].
  - destruct (wait_settles p h h1 v Hp Hw) as (s1 & Hs1 & Hst1).
    rewrite Hs1. cbn [mbind option_bind].
    destruct (status s1) eqn:Hst; [congruence | |].
    + destruct (eventually s1) as [[v' | e] |]; [| | discriminate];
        intros [= <-] [= <-]; eexists; rewrite lookup_insert_eq;
        (split; [reflexivity | discriminate]).
    + intros [= <-] [= <-]. exists s1. split; [exact Hs1 | congruence].
  - exfalso. revert Hw. unfold wait, sem_acquire. rewrite (valid_nonnull p Hp).
    destruct (h !! p) as [s |]; [| discriminate]. cbn [mbind option_bind].
    destruct (status s); [| discriminate | discriminate].
    destruct (0 <? sem s); [| discriminate].
    cbn [mbind option_bind]. rewrite lookup_insert_eq. discriminate.
Qed.

(** C10.  A future that holds a shared state with status [no_wait] acquires
    the semaphore in its destructor: while the root task has not released
    the semaphore the destructor is blocked, and once it has the destructor
    takes the semaphore and returns.  After [detach], after a [wait] that
    returned, and after a [get] that returned or threw, the destructor
    returns at once and leaves the semaphore alone. *)
Theorem future_destructor_spec (m_heap : Z) (h : gmap Z future_shared_state) (s : future_shared_state) :
  m_heap ≠ 0 → h !! m_heap = Some s →
  (status s = no_wait →
     (sem s = 0 →
        destructor m_heap h = Some Blocks
        ∧ ∃ h1, sem_release m_heap h = Some h1
                ∧ destructor m_heap h1 = Some (Returns 0 (<[m_heap := s]> h1)))
     ∧ (0 < sem s →
        destructor m_heap h = Some (Returns 0 (<[m_heap := set_sem (sem s - 1) s]> h))))
  ∧ (status s ≠ no_wait → destructor m_heap h = Some (Returns 0 h))
  ∧ destructor (detach m_heap) h = Some (Returns 0 h)
  ∧ (∀ v h', wait m_heap h = Some (Returns v h') →
             destructor m_heap h' = Some (Returns 0 h'))
  ∧ (∀ o h', get m_heap h = Some o → store_after o = Some h' →
             destructor m_heap h' = Some (Returns 0 h')).
Proof.
  intros Hp Hs.
  split; [| split; [| split; [| split]]].
  - intros Hst. unfold destructor, sem_release, sem_acquire.
    rewrite (valid_nonnull _ Hp), Hs. cbn [mbind option_bind]. rewrite Hst.
    split.
    + intros H0. rewrite H0. split; [reflexivity |].
      eexists. split; [reflexivity |].
      rewrite lookup_insert_eq. cbn [mbind option_bind status set_sem sem].
      rewrite Hst.
      destruct s as [n st ev]. simpl in *. subst. reflexivity.
    + intros H1. destruct (0 <? sem s) eqn:Hlt; [reflexivity |].
      apply Z.ltb_ge in Hlt. lia.
  - apply destructor_settled. exact Hs.
  - reflexivity.
  - intros v h' Hw. destruct (wait_settles _ _ _ _ Hp Hw) as (s' & Hs' & Hst').
    eapply destructor_settled; eassumption.
  - intros o h' Hg Ho. destruct (get_settles _ _ _ _ Hp Hg Ho) as (s' & Hs' & Hst').
    eapply destructor_settled; eassumption.
Qed.

End FutureSpec.

(** A future whose task is still running: the destructor is blocked, and
    returns once the task has released the semaphore. *)
Lemma future_destructor_spec_witness :
  Future.destructor 1 Samples.pending_store = Some Future.Blocks
  ∧ ∃ h1, Future.sem_release 1 Samples.pending_store = Some h1
          ∧ ∃ h2, Future.destructor 1 h1 = Some (Future.Returns 0 h2).
Proof.
  destruct (future_destructor_spec 1 Samples.pending_store
              (Future.mk_shared 0 Future.no_wait None))
    as (Hpending & _); [lia | reflexivity |].
  destruct (Hpending eq_refl) as ((Hb & h1 & Hr & Hd) & _); [reflexivity |].
  split; [exact Hb |]. exists h1. split; [exact Hr |].
  eexists. exact Hd.
Defined.










(** ** event_count.hpp: the epoch and the waiter count *)

Section EventCountWord.

Import EventCount.

Lemma word_split m :
  0 ≤ m < 2 ^ 64 →
  m = epoch m * 2 ^ 32 + waiters m ∧ 0 ≤ epoch m < 2 ^ 32 ∧ 0 ≤ waiters m < 2 ^ 32.
Proof.
  intros Hm. unfold epoch, waiters, k_waiter_mask, k_add_epoch, k_epoch_shift, wrap32.
  rewrite Z.shiftl_1_l, Z.shiftr_div_pow2 by lia.
  rewrite Z.sub_1_r, <- Z.ones_equiv, Z.land_ones by lia.
  assert (0 ≤ m / 2 ^ 32 < 2 ^ 32).
  { split; [apply Z.div_pos; lia | apply Z.div_lt_upper_bound; lia]. }
  rewrite (Z.mod_small (m / 2 ^ 32)) by lia.
  pose proof (Z.div_mod m (2 ^ 32) ltac:(lia)).
  pose proof (Z.mod_pos_bound m (2 ^ 32) ltac:(lia)). lia.
Qed.

Lemma word_join e w :
  0 ≤ e < 2 ^ 32 → 0 ≤ w < 2 ^ 32 →
  epoch (e * 2 ^ 32 + w) = e ∧ waiters (e * 2 ^ 32 + w) = w.
Proof.
  intros He Hw. unfold epoch, waiters, k_waiter_mask, k_add_epoch, k_epoch_shift, wrap32.
  rewrite Z.shiftl_1_l, Z.shiftr_div_pow2 by lia.
  rewrite Z.sub_1_r, <- Z.ones_equiv, Z.land_ones by lia.
  rewrite Z.div_add_l, (Z.div_small w), Z.add_0_r by lia.
  rewrite (Z.mod_small e) by lia.
  rewrite Z.add_comm, Z.mod_add, Z.mod_small by lia. done.
Qed.

Lemma notify_word m :
  0 ≤ m < 2 ^ 64 →
  0 ≤ (notify m).2 < 2 ^ 64
  ∧ epoch (notify m).2 = wrap32 (epoch m + 1)
  ∧ waiters (notify m).2 = waiters m.
Proof.
  intros Hm. destruct (word_split m Hm) as (Heq & He & Hw).
  unfold notify, fetch_add, k_add_epoch, k_epoch_shift. cbn [snd].
  rewrite Z.shiftl_1_l. unfold wrap64.
  split; [apply Z.mod_pos_bound; lia|].
  destruct (decide (epoch m + 1 < 2 ^ 32)) as [Hlt|Hge].
  - rewrite Z.mod_small by lia.
    replace (m + 2 ^ 32) with ((epoch m + 1) * 2 ^ 32 + waiters m) by lia.
    destruct (word_join (epoch m + 1) (waiters m)) as [-> ->]; [lia..|].
    unfold wrap32. rewrite Z.mod_small by lia. done.
  - assert (epoch m = 2 ^ 32 - 1) as He1 by lia.
    replace (m + 2 ^ 32) with (waiters m + 1 * 2 ^ 64) by lia.
    rewrite Z.mod_add, Z.mod_small by lia.
    destruct (word_join 0 (waiters m)) as [H1 H2]; [lia..|].
    rewrite Z.mul_0_l, Z.add_0_l in H1, H2. rewrite H1, H2, He1. done.
Qed.

Lemma prepare_wait_word m :
  0 ≤ m < 2 ^ 64 → waiters m + 1 < 2 ^ 32 →
  (prepare_wait m).1 = epoch m
  ∧ 0 ≤ (prepare_wait m).2 < 2 ^ 64
  ∧ epoch (prepare_wait m).2 = epoch m
  ∧ waiters (prepare_wait m).2 = waiters m + 1.
Proof.
  intros Hm Hw1. destruct (word_split m Hm) as (Heq & He & Hw).
  unfold prepare_wait, fetch_add, k_add_waiter. cbn [fst snd].
  split; [reflexivity|]. unfold wrap64.
  rewrite Z.mod_small by lia. split; [lia|].
  replace (m + 1) with (epoch m * 2 ^ 32 + (waiters m + 1)) by lia.
  apply word_join; lia.
Qed.

Lemma cancel_wait_word m :
  0 ≤ m < 2 ^ 64 → waiters m ≠ 0 →
  0 ≤ cancel_wait m < 2 ^ 64
  ∧ epoch (cancel_wait m) = epoch m
  ∧ waiters (cancel_wait m) = waiters m - 1.
Proof.
  intros Hm Hw1. destruct (word_split m Hm) as (Heq & He & Hw).
  unfold cancel_wait, fetch_add, k_sub_waiter. cbn [snd]. unfold wrap64.
  replace (-1 mod 2 ^ 64) with (2 ^ 64 - 1) by reflexivity.
  replace (m + (2 ^ 64 - 1)) with (m - 1 + 1 * 2 ^ 64) by lia.
  rewrite Z.mod_add, Z.mod_small by lia. split; [lia|].
  replace (m - 1) with (epoch m * 2 ^ 32 + (waiters m - 1)) by lia.
  apply word_join; lia.
Qed.

Lemma notifications_cons c cs :
  notifications (c :: cs) = (if is_notify c then 1 else 0) + notifications cs.
Proof.
  unfold notifications. rewrite filter_cons.
  destruct (decide (is_notify c = true)) as [H|H].
  - rewrite H. simpl length. lia.
  - apply not_true_is_false in H. rewrite H. lia.
Qed.

Lemma notifications_bounds cs : 0 ≤ notifications cs ≤ Z.of_nat (length cs).
Proof.
  unfold notifications. pose proof (length_filter (λ c, is_notify c = true) cs). lia.
Qed.

Lemma registrations_cons c cs :
  registrations (c :: cs) = (if is_prepare_wait c then 1 else 0) + registrations cs.
Proof.
  unfold registrations. rewrite filter_cons.
  destruct (decide (is_prepare_wait c = true)) as [H|H].
  - rewrite H. simpl length. lia.
  - apply not_true_is_false in H. rewrite H. lia.
Qed.

Lemma registrations_nonneg cs : 0 ≤ registrations cs.
Proof. unfold registrations. lia. Qed.

Lemma wrap32_add_l a b : wrap32 (wrap32 a + b) = wrap32 (a + b).
Proof. unfold wrap32. apply Zplus_mod_idemp_l. Qed.

(** The calls move the epoch by the number of notifications among them, as
    long as the waiter count cannot overflow into the epoch. *)
Lemma run_calls_epoch cs : ∀ m m2,
  0 ≤ m < 2 ^ 64 →
  waiters m + registrations cs < 2 ^ 32 →
  run_calls cs m = Some m2 →
  0 ≤ m2 < 2 ^ 64 ∧ epoch m2 = wrap32 (epoch m + notifications cs).
Proof.
  induction cs as [|c cs IH]; intros m m2 Hm Hw Hrun.
  - simpl in Hrun. injection Hrun as <-. split; [done|].
    unfold notifications. simpl. rewrite Z.add_0_r.
    destruct (word_split m Hm) as (_ & He & _).
    unfold wrap32. rewrite Z.mod_small by lia. done.
  - rewrite notifications_cons. simpl in Hrun.
    rewrite registrations_cons in Hw.
    pose proof (registrations_nonneg cs) as Hreg.
    destruct (word_split m Hm) as (_ & He & Hwm).
    destruct c; simpl in Hrun; cbn [is_notify]; cbn [is_prepare_wait] in Hw.
    + destruct (notify_word m Hm) as (Hb & Hep & Hwt).
      destruct (IH _ _ Hb ltac:(rewrite Hwt; lia) Hrun) as [Hm2 Hep2].
      split; [done|]. rewrite Hep2, Hep, wrap32_add_l. f_equal. lia.
    + destruct (prepare_wait_word m Hm ltac:(lia)) as (_ & Hb & Hep & Hwt).
      destruct (IH _ _ Hb ltac:(rewrite Hwt; lia) Hrun) as [Hm2 Hep2].
      split; [done|]. rewrite Hep2, Hep. f_equal.
    + destruct (waiters m =? 0) eqn:Hz; [discriminate|]. simpl in Hrun.
      apply Z.eqb_neq in Hz.
      destruct (cancel_wait_word m Hm Hz) as (Hb & Hep & Hwt).
      destruct (IH _ _ Hb ltac:(rewrite Hwt; lia) Hrun) as [Hm2 Hep2].
      split; [done|]. rewrite Hep2, Hep. f_equal.
Qed.

End EventCountWord.

(** X1.  No wake-up is lost, up to the wrap of the 32-bit epoch.  A thread
    takes its key with [prepare_wait]; other threads then make any calls on
    the event count, however many, as long as the waiters registered at the
    start and the calls of [prepare_wait] made since stay below [2^32]
    together, so that the waiter count cannot overflow into the epoch.  The
    [wait] on that key blocks exactly when the number of notifications among
    those calls is a multiple of [2^32]: one notification is enough to let it
    through, none leaves it blocked, and [2^32] of them bring the epoch back
    to the key. *)
Theorem wait_blocks_iff_epoch_unchanged (m : Z) (cs : list EventCount.call) (m2 : Z) :
  0 ≤ m < 2 ^ 64 →
  EventCount.waiters m + 1 + EventCount.registrations cs < 2 ^ 32 →
  EventCount.run_calls cs (EventCount.prepare_wait m).2 = Some m2 →
  EventCount.blocks (EventCount.prepare_wait m).1 m2
  = (EventCount.notifications cs mod 2 ^ 32 =? 0).
Proof.
  intros Hm Hw Hrun.
  pose proof (registrations_nonneg cs) as Hreg.
  destruct (prepare_wait_word m Hm ltac:(lia)) as (Hkey & Hb & Hep & Hwt).
  destruct (run_calls_epoch cs _ _ Hb ltac:(rewrite Hwt; lia) Hrun) as [Hm2 Hep2].
  unfold EventCount.blocks. rewrite Hep2, Hep, Hkey.
  destruct (word_split m Hm) as (_ & He & _).
  pose proof (Z.mod_pos_bound (EventCount.notifications cs) (2 ^ 32) ltac:(lia)) as Hr.
  unfold wrap32.
  rewrite <- Zplus_mod_idemp_r.
  destruct (decide (EventCount.notifications cs mod 2 ^ 32 = 0)) as [H0|H0].
  - rewrite H0, Z.add_0_r, Z.mod_small by lia.
    rewrite Z.eqb_refl. symmetry. apply Z.eqb_eq. done.
  - transitivity false; [|symmetry; apply Z.eqb_neq; done].
    apply Z.eqb_neq.
    destruct (decide (EventCount.epoch m + EventCount.notifications cs mod 2 ^ 32 < 2 ^ 32)).
    + rewrite Z.mod_small by lia. lia.
    + replace (EventCount.epoch m + EventCount.notifications cs mod 2 ^ 32)
        with (EventCount.epoch m + EventCount.notifications cs mod 2 ^ 32 - 2 ^ 32 + 1 * 2 ^ 32) by lia.
      rewrite Z.mod_add, Z.mod_small by lia. lia.
Qed.

(** Two waiters are registered in epoch 7; a third takes its key, another
    thread registers and one notifies: the wait on the key does not block. *)
Lemma wait_blocks_iff_epoch_unchanged_witness :
  EventCount.blocks (EventCount.prepare_wait (7 * 2 ^ 32 + 2)).1
    (8 * 2 ^ 32 + 4) = false.
Proof.
  assert (0 ≤ 7 * 2 ^ 32 + 2 < 2 ^ 64) as Hm
    by (split; [apply Z.leb_le | apply Z.ltb_lt]; reflexivity).
  assert (EventCount.waiters (7 * 2 ^ 32 + 2) + 1
          + EventCount.registrations [EventCount.call_prepare_wait; EventCount.call_notify]
          < 2 ^ 32) as Hw
    by (apply Z.ltb_lt; reflexivity).
  exact (wait_blocks_iff_epoch_unchanged (7 * 2 ^ 32 + 2)
           [EventCount.call_prepare_wait; EventCount.call_notify] (8 * 2 ^ 32 + 4)
           Hm Hw eq_refl).
Defined.

(** X2.  The fast path of [await]: [prepare_wait] followed by [cancel_wait]
    hands out the current epoch as the key, passes the assertion of
    [cancel_wait], and leaves the word as it was. *)
Theorem prepare_cancel_round_trip (m : Z) :
  0 ≤ m < 2 ^ 64 →
  EventCount.waiters m + 1 < 2 ^ 32 →
  (EventCount.prepare_wait m).1 = EventCount.epoch m
  ∧ EventCount.run_call EventCount.call_cancel_wait (EventCount.prepare_wait m).2 = Some m.
Proof.
  intros Hm Hw.
  destruct (prepare_wait_word m Hm Hw) as (Hkey & Hb & Hep & Hwt).
  split; [done|]. unfold EventCount.run_call.
  destruct (word_split m Hm) as (Heq & He & Hwm).
  destruct (EventCount.waiters _ =? 0) eqn:Hz; [apply Z.eqb_eq in Hz; lia|].
  f_equal. unfold EventCount.cancel_wait, EventCount.prepare_wait, EventCount.fetch_add,
    EventCount.k_sub_waiter, EventCount.k_add_waiter. cbn [snd]. unfold wrap64.
  replace (-1 mod 2 ^ 64) with (2 ^ 64 - 1) by reflexivity.
  rewrite (Z.mod_small (m + 1)) by lia.
  replace (m + 1 + (2 ^ 64 - 1)) with (m + 1 * 2 ^ 64) by lia.
  rewrite Z.mod_add, Z.mod_small by lia. done.
Qed.

Lemma prepare_cancel_round_trip_witness :
  EventCount.run_call EventCount.call_cancel_wait (EventCount.prepare_wait 5).2 = Some 5.
Proof.
  assert (0 ≤ 5 < 2 ^ 64) as Hm
    by (split; [apply Z.leb_le | apply Z.ltb_lt]; reflexivity).
  assert (EventCount.waiters 5 + 1 < 2 ^ 32) as Hw by (apply Z.ltb_lt; reflexivity).
  exact (proj2 (prepare_cancel_round_trip 5 Hm Hw)).
Defined.
(** ** frame.hpp and promise.hpp: exceptions that reach the parent *)

Section CapturedExceptions.

Variable self : Z.

Import Promise.

Lemma captures_set f ces :
  Frame.m_except f = true →
  captures f ces = f.
Proof.
  revert f. induction ces as [|[c e] ces IH]; intros f Hf; [done|].
  simpl. assert (Frame.capture_exception e f = f) as ->.
  { unfold Frame.capture_exception. rewrite Hf. destruct f; simpl in *. by subst. }
  by apply IH.
Qed.

Lemma unhandled_exceptions_frames ces : ∀ w f,
  frames w !! self = Some f →
  (∀ c e, (c, e) ∈ ces →
     c ≠ self ∧ ∃ fc, frames w !! c = Some fc ∧ Frame.parent fc = self) →
  ∃ w1, Promise.unhandled_exceptions ces w = Some w1
        ∧ frames w1 = <[self := captures f ces]> (frames w)
        ∧ tls_stack w1 = tls_stack w ∧ tls_context w1 = tls_context w
        ∧ trace w1 = trace w.
Proof.
  induction ces as [|[c e] ces IH]; intros w f Hf Hch.
  - exists w. simpl. by rewrite insert_id.
  - destruct (Hch c e ltac:(left)) as (Hne & fc & Hfc & Hp).
    simpl. unfold Promise.unhandled_exception. rewrite Hfc. simpl. rewrite Hp, Hf. simpl.
    set (w' := set_frames _ w).
    destruct (IH w' (Frame.capture_exception e f)) as (w1 & Hrun & Hfr & Hst & Hctx & Htr).
    { unfold w'. simpl. apply lookup_insert_eq. }
    { intros c' e' Hin. destruct (Hch c' e' ltac:(by right)) as (Hne' & fc' & Hfc' & Hp').
      split; [done|]. exists fc'. split; [|done].
      unfold w'. simpl. by rewrite lookup_insert_ne. }
    exists w1. split; [done|]. split; [|done].
    rewrite Hfr. unfold w'. simpl. by rewrite insert_insert_eq.
Qed.

End CapturedExceptions.

(** X3.  The first exception wins.  When one or more children of [self]
    end in an exception, [unhandled_exception] hands each to the parent's
    frame, which keeps the first and drops the others; the parent's join then
    rethrows that first exception and clears the frame, so that a second
    join of the same frame returns normally. *)
Theorem first_exception_wins (self : Z) (f : Frame.frame) (c0 : Z) (e0 : exn)
    (ces : list (Z * exn)) (w : world) :
  frames w !! self = Some f →
  Frame.m_except f = false →
  (∀ c e, (c, e) ∈ (c0, e0) :: ces →
     c ≠ self ∧ ∃ fc, frames w !! c = Some fc ∧ Frame.parent fc = self) →
  ∃ w1 w2 w3,
    Promise.unhandled_exceptions ((c0, e0) :: ces) w = Some w1
    ∧ Awaitables.join_await_resume self w1 = Some (Throw e0, w2)
    ∧ frames w2 = <[self := Frame.clear_exception f]> (frames w)
    ∧ Awaitables.join_await_resume self w2 = Some (Ok (), w3)
    ∧ frames w3 = frames w2.
Proof.
  intros Hf Hex Hch.
  destruct (unhandled_exceptions_frames self _ w f Hf Hch) as (w1 & Hrun & Hfr & _).
  unfold Promise.captures in Hfr. simpl in Hfr. fold (Promise.captures (Frame.capture_exception e0 f) ces) in Hfr.
  rewrite captures_set in Hfr by done.
  exists w1. eexists. eexists. split; [exact Hrun|].
  unfold Awaitables.join_await_resume at 1. rewrite Hfr, lookup_insert_eq. simpl.
  unfold Frame.unsafe_rethrow_if_exception, Frame.rethrow. simpl. rewrite Hex. simpl.
  split; [reflexivity|]. simpl. rewrite insert_insert_eq. split; [reflexivity|].
  unfold Awaitables.join_await_resume. simpl. rewrite lookup_insert_eq. simpl.
  split; [reflexivity|]. simpl. by rewrite !insert_insert_eq.
Qed.

Lemma first_exception_wins_witness :
  ∃ w1 w2 w3,
    Promise.unhandled_exceptions [(2, user_exception 7); (3, bad_alloc)]
      (mk_world {[ 1 := Frame.frame_new 10;
                   2 := Frame.set_parent 1 (Frame.frame_new 20);
                   3 := Frame.set_parent 1 (Frame.frame_new 30) ]}
                StackSamples.st0 Deque.deque_new []) = Some w1
    ∧ Awaitables.join_await_resume 1 w1 = Some (Throw (user_exception 7), w2)
    ∧ frames w2 = <[1 := Frame.clear_exception (Frame.frame_new 10)]>
                    {[ 1 := Frame.frame_new 10;
                       2 := Frame.set_parent 1 (Frame.frame_new 20);
                       3 := Frame.set_parent 1 (Frame.frame_new 30) ]}
    ∧ Awaitables.join_await_resume 1 w2 = Some (Ok (), w3)
    ∧ frames w3 = frames w2.
Proof.
  apply (first_exception_wins 1 (Frame.frame_new 10) 2 (user_exception 7) [(3, bad_alloc)]).
  - reflexivity.
  - reflexivity.
  - intros c e Hin.
    apply elem_of_cons in Hin as [Heq|Hin]; [injection Heq as -> ->|].
    { split; [discriminate|]. eexists. split; reflexivity. }
    apply list_elem_of_singleton in Hin. injection Hin as -> ->.
    split; [discriminate|]. eexists. split; reflexivity.
Defined.
(** ** sync_wait.hpp: what [wait] and [get] do *)

(** X4.  [future::get] hands out the result once.  While the root task has
    not released the semaphore, [wait] and [get] block.  Once the task has
    stored its result (a value or an exception) and released, the first [get]
    returns the value or throws the exception and marks the state retrieved;
    every later [get] throws [empty_future] and changes nothing, and a later
    [wait] returns at once.  On a future that was detached, [wait] and [get]
    throw [broken_future]. *)
Theorem future_get_once (p : Z) (h : gmap Z Future.future_shared_state)
    (s : Future.future_shared_state) (r : result Z) :
  p ≠ 0 → h !! p = Some s →
  Future.status s = Future.no_wait → Future.sem s = 0 →
  let stored := <[p := Future.mk_shared 0 Future.no_wait (Some r)]> h in
  let retrieved := <[p := Future.mk_shared 0 Future.retrievd (Some r)]> h in
  Future.wait p h = Some Future.Blocks
  ∧ Future.get p h = Some Future.Blocks
  ∧ (∃ released, Future.sem_release p stored = Some released
       ∧ Future.get p released
         = Some (match r with
                 | Ok v => Future.Returns v retrieved
                 | Throw e => Future.Throws e retrieved
                 end))
  ∧ Future.get p retrieved = Some (Future.Throws empty_future retrieved)
  ∧ Future.wait p retrieved = Some (Future.Returns 0 retrieved)
  ∧ Future.wait (Future.detach p) h = Some (Future.Throws broken_future h)
  ∧ Future.get (Future.detach p) h = Some (Future.Throws broken_future h).
Proof.
  intros Hp Hs Hst Hsem stored retrieved.
  assert (Future.wait p h = Some Future.Blocks) as Hwait.
  { unfold Future.wait, Future.sem_acquire. rewrite (valid_nonnull p Hp), Hs.
    cbn [mbind option_bind]. rewrite Hst, Hsem. reflexivity. }
  split; [exact Hwait|].
  split; [unfold Future.get; rewrite Hwait; reflexivity|].
  split.
  - eexists. split.
    + unfold Future.sem_release, stored. rewrite lookup_insert_eq. reflexivity.
    + unfold Future.get, Future.wait, Future.sem_acquire.
      rewrite (valid_nonnull p Hp), lookup_insert_eq.
      cbn [mbind option_bind Future.status Future.sem Future.set_sem Future.eventually Future.set_status].
      change (0 <? 0 + 1) with true. cbn iota.
      cbn [mbind option_bind]. rewrite lookup_insert_eq.
      cbn [mbind option_bind Future.status Future.sem Future.set_sem Future.eventually Future.set_status].
      rewrite lookup_insert_eq.
      cbn [mbind option_bind Future.status Future.sem Future.set_sem Future.eventually Future.set_status].
      unfold retrieved, stored. rewrite !insert_insert_eq.
      destruct r; reflexivity.
  - split; [|split; [|split; reflexivity]].
    + unfold Future.get, Future.wait. rewrite (valid_nonnull p Hp).
      unfold retrieved. rewrite !lookup_insert_eq.
      cbn [mbind option_bind Future.status].
      unfold retrieved. rewrite !lookup_insert_eq. reflexivity.
    + unfold Future.wait. rewrite (valid_nonnull p Hp).
      unfold retrieved. rewrite !lookup_insert_eq. reflexivity.
Qed.

Lemma future_get_once_witness :
  Future.get 1 (<[1 := Future.mk_shared 0 Future.retrievd (Some (Ok 55))]> Samples.pending_store)
  = Some (Future.Throws empty_future
            (<[1 := Future.mk_shared 0 Future.retrievd (Some (Ok 55))]> Samples.pending_store)).
Proof.
  assert (1 ≠ 0) as Hp by discriminate.
  exact (proj1 (proj2 (proj2 (proj2
    (future_get_once 1 Samples.pending_store (Future.mk_shared 0 Future.no_wait None) (Ok 55)
       Hp eq_refl eq_refl eq_refl))))).
Defined.
(** ** stack.hpp: allocations are given back in FILO order *)

Section StackFilo.

Variables (k_new_align sizeof_stacklet log2_align : Z).
Hypothesis align_pow2 : k_new_align = 2 ^ log2_align ∧ 0 ≤ log2_align ≤ 60.
Hypothesis sizeof_ge : k_new_align ≤ sizeof_stacklet < 2 ^ 61.
Hypothesis sizeof_mult : sizeof_stacklet mod k_new_align = 0.

(** X5.  FILO round trip.  On a stack at rest (its top stacklet is not an
    empty stacklet that has a predecessor, and a cached stacklet points back
    at the top), a successful [allocate] followed by [deallocate] of the
    pointer it returned brings the stack back: the allocation stacklet is the
    one it was, with the same stack, stack pointer and predecessor; at most
    one empty stacklet is left cached above it; and no other stacklet is
    touched.  This holds whichever way the allocation was served: from the
    top stacklet, from the cached one, or from a stacklet that [malloc] gave. *)
Theorem allocate_deallocate_round_trip (malloc : Z → option Z) (size : Z)
    (st : Stack.stack) (top : Stack.stacklet) (p : Z) (st1 : Stack.stack) :
  Stack.stack_ok k_new_align st top →
  Stack.malloc_ok k_new_align malloc (Stack.heap st) →
  0 < size < 2 ^ 62 →
  (Stack.m_sp top = Stack.m_lo top → Stack.m_prev top = 0) →
  (∀ c, Stack.heap st !! Stack.m_next top = Some c → Stack.m_prev c = Stack.m_fib st) →
  Stack.allocate k_new_align sizeof_stacklet malloc size st = Some (Ok p, st1) →
  ∃ st2 top2,
    Stack.deallocate p st1 = Some st2
    ∧ Stack.m_fib st2 = Stack.m_fib st
    ∧ Stack.stack_ok k_new_align st2 top2
    ∧ Stack.m_lo top2 = Stack.m_lo top ∧ Stack.m_sp top2 = Stack.m_sp top
    ∧ Stack.m_hi top2 = Stack.m_hi top ∧ Stack.m_prev top2 = Stack.m_prev top
    ∧ (∀ k, k ≠ 0 → k ≠ Stack.m_fib st → k ≠ Stack.m_next top → k ≠ Stack.m_next top2 →
            Stack.heap st2 !! k = Stack.heap st !! k).
Proof.
  intros Hstack Hmalloc Hs Hrest Hback Halloc.
  pose proof (k_new_align_pos _ _ _ align_pow2 sizeof_ge sizeof_mult) as Hk.
  apply (allocate_then_deallocate _ _ _ align_pow2 sizeof_ge sizeof_mult
           malloc size st top p st1); try assumption; lia.
Qed.

(** X6.  A worker that gives its stack away and later takes it back.
    [release] hands out the allocation stacklet and leaves the worker an
    empty stack on a fresh stacklet; assigning [stack{frag}] from the pointer
    handed out frees that fresh stacklet again and restores the stack that
    was released, stacklet for stacklet.  When [malloc] fails, [release]
    throws [bad_alloc]. *)
Theorem release_then_take_back (malloc : Z → option Z) (st : Stack.stack) :
  Stack.malloc_ok k_new_align malloc (Stack.heap st) →
  Stack.heap st !! 0 = None →
  let request := Stack.round_up_to_page_size (wrap64 (Stack.fibre_init_size + sizeof_stacklet)) in
  match malloc request with
  | None => Stack.stack_release sizeof_stacklet malloc st = Some (Throw bad_alloc)
  | Some a =>
      ∃ st1, Stack.stack_release sizeof_stacklet malloc st = Some (Ok (Stack.m_fib st, st1))
             ∧ Stack.m_fib st1 = a
             ∧ Stack.stack_empty st1 = Some true
             ∧ Stack.stack_assign_from (Stack.m_fib st) st1 = Some st
  end.
Proof.
  intros Hmalloc H0 request. unfold Stack.stack_release, Stack.next_stacklet.
  fold request. destruct (malloc request) as [a|] eqn:Hm; [|done].
  destruct (Hmalloc _ _ Hm) as (Ha0 & _ & _ & _ & Hafresh).
  rewrite decide_False by (intros H; by apply H). cbn [mbind option_bind].
  eexists. split; [reflexivity|]. split; [reflexivity|]. split.
  - unfold Stack.stack_empty. cbn [Stack.heap Stack.m_fib]. rewrite lookup_insert_eq.
    cbn [mbind option_bind]. unfold Stack.stacklet_empty. cbn.
    by rewrite !bool_decide_eq_true_2.
  - unfold Stack.stack_assign_from, Stack.stack_destroy, Stack.set_next.
    cbn [Stack.heap Stack.m_fib]. rewrite lookup_insert_eq. cbn [mbind option_bind].
    cbn [Stack.m_next]. rewrite insert_insert_eq.
    destruct st as [h fib]. cbn [Stack.heap Stack.m_fib] in *. do 2 f_equal.
    apply map_eq. intros k.
    destruct (decide (k = a)) as [->|Hka]; [by rewrite lookup_delete_eq|].
    rewrite lookup_delete_ne by done.
    destruct (decide (k = 0)) as [->|Hk0]; [by rewrite lookup_delete_eq|].
    by rewrite lookup_delete_ne, lookup_insert_ne.
Qed.

End StackFilo.

(** The fresh stack again: 5000 bytes are served by a new stacklet at 12288
    and given back; the stack returns to its first stacklet. *)
Lemma allocate_deallocate_round_trip_witness :
  ∃ st2 top2,
    Stack.deallocate 12336
      (Stack.mk_stack
         (<[12288 := Stack.mk_stacklet 12336 17344 20432 4096 0]>
            (delete 0 (<[4096 := Stack.set_next_field 12288 StackSamples.top0]>
                         (Stack.heap StackSamples.st0))))
         12288) = Some st2
    ∧ Stack.m_fib st2 = Stack.m_fib StackSamples.st0
    ∧ Stack.stack_ok 16 st2 top2
    ∧ Stack.m_lo top2 = Stack.m_lo StackSamples.top0
    ∧ Stack.m_sp top2 = Stack.m_sp StackSamples.top0
    ∧ Stack.m_hi top2 = Stack.m_hi StackSamples.top0
    ∧ Stack.m_prev top2 = Stack.m_prev StackSamples.top0
    ∧ (∀ k, k ≠ 0 → k ≠ Stack.m_fib StackSamples.st0 → k ≠ Stack.m_next StackSamples.top0 →
            k ≠ Stack.m_next top2 →
            Stack.heap st2 !! k = Stack.heap StackSamples.st0 !! k).
Proof.
  apply (allocate_deallocate_round_trip 16 48 4 ltac:(split; [reflexivity | lia]) ltac:(lia)
           ltac:(reflexivity) StackSamples.malloc0 5000 StackSamples.st0 StackSamples.top0).
  - exact sample_stack_ok.
  - exact sample_malloc_ok.
  - lia.
  - intros _. reflexivity.
  - intros c Hc. vm_compute in Hc. discriminate Hc.
  - vm_compute. reflexivity.
Defined.

(** The fresh stack is released and taken back. *)
Lemma release_then_take_back_witness :
  ∃ st1, Stack.stack_release 48 StackSamples.malloc0 StackSamples.st0
         = Some (Ok (4096, st1))
         ∧ Stack.m_fib st1 = 12288
         ∧ Stack.stack_empty st1 = Some true
         ∧ Stack.stack_assign_from 4096 st1 = Some StackSamples.st0.
Proof.
  exact (release_then_take_back 16 48 StackSamples.malloc0 StackSamples.st0
           sample_malloc_ok eq_refl).
Defined.
(** ** numa.hpp: the neighbors-lists *)

Section TopologySets.

Import Topology.

Lemma set_insert_elem x y s : y ∈ set_insert x s ↔ y = x ∨ y ∈ s.
Proof.
  induction s as [|z s IH]; simpl.
  - rewrite list_elem_of_singleton. split; [by left|]. intros [?|?%elem_of_nil]; done.
  - destruct (decide (x < z)); [by rewrite elem_of_cons|].
    destruct (decide (x = z)) as [->|].
    + rewrite elem_of_cons. tauto.
    + rewrite !elem_of_cons, IH. tauto.
Qed.

Lemma set_insert_sorted x s :
  Sorted.StronglySorted Z.lt s → Sorted.StronglySorted Z.lt (set_insert x s).
Proof.
  induction 1 as [|z s Hs IH Hall]; simpl.
  - repeat constructor.
  - destruct (decide (x < z)).
    + constructor; [by constructor|]. constructor; [done|].
      eapply Forall_impl; [exact Hall|]. intros; simpl in *; lia.
    + destruct (decide (x = z)); [by constructor|].
      constructor; [done|]. apply Forall_forall. intros y Hy.
      apply set_insert_elem in Hy as [->|Hy]; [lia|].
      rewrite Forall_forall in Hall. by apply Hall.
Qed.

Lemma sorted_NoDup s : Sorted.StronglySorted Z.lt s → NoDup s.
Proof.
  induction 1 as [|z s Hs IH Hall]; constructor; [|done].
  intros Hin. rewrite Forall_forall in Hall. specialize (Hall _ Hin). lia.
Qed.

Lemma set_index_lookup u s : u ∈ s → s !! set_index u s = Some u.
Proof.
  induction s as [|z s IH]; [by intros ?%elem_of_nil|].
  intros Hin. simpl. case_decide; [by subst|].
  apply elem_of_cons in Hin as [?|Hin]; [done|]. by apply IH.
Qed.

Lemma concat_insert_snoc (nb : list (list Z)) k b x :
  nb !! k = Some b → concat (<[k := b ++ [x]]> nb) ≡ₚ concat nb ++ [x].
Proof.
  intros Hk. rewrite insert_take_drop by (by eapply lookup_lt_Some).
  rewrite <- (take_drop_middle nb k b Hk) at 3.
  rewrite !concat_app. simpl.
  rewrite <- !app_assoc. do 2 apply Permutation_app_head.
  apply Permutation_app_comm.
Qed.

End TopologySets.

Section TopologyHwloc.

Import Topology Topology.Hwloc.

Variable dist : nat → nat → Z.

Lemma uniques_fold i l : ∀ acc,
  Sorted.StronglySorted Z.lt acc →
  let r := foldl (λ s j, if decide (i ≠ j) then set_insert (dist i j) s else s) acc l in
  Sorted.StronglySorted Z.lt r
  ∧ ∀ u, u ∈ r ↔ u ∈ acc ∨ ∃ j, j ∈ l ∧ i ≠ j ∧ dist i j = u.
Proof.
  induction l as [|j l IH]; intros acc Hacc; simpl.
  - split; [done|]. intros u. split; [by left|]. intros [?|(j & Hj & _)]; [done|].
    by apply elem_of_nil in Hj.
  - destruct (decide (i ≠ j)) as [Hij|Hij].
    + destruct (IH _ (set_insert_sorted (dist i j) _ Hacc)) as [Hs He].
      split; [done|]. intros u. rewrite He, set_insert_elem. split.
      * intros [[->|?]|(j' & Hj' & ? & ?)].
        -- right. exists j. split; [by left|done].
        -- by left.
        -- right. exists j'. split; [by right|done].
      * intros [?|(j' & Hj' & Hne & Hd)]; [by left; right|].
        apply elem_of_cons in Hj' as [->|Hj']; [by left; left|].
        right. by exists j'.
    + destruct (IH _ Hacc) as [Hs He]. split; [done|]. intros u. rewrite He. split.
      * intros [?|(j' & Hj' & ? & ?)]; [by left|]. right. exists j'. split; [by right|done].
      * intros [?|(j' & Hj' & Hne & Hd)]; [by left|].
        apply elem_of_cons in Hj' as [->|Hj']; [done|]. right. by exists j'.
Qed.

Lemma uniques_spec n i :
  Sorted.StronglySorted Z.lt (uniques dist n i)
  ∧ ∀ u, u ∈ uniques dist n i ↔ ∃ j, (j < n)%nat ∧ i ≠ j ∧ dist i j = u.
Proof.
  destruct (uniques_fold i (seq 0 n) [] ltac:(constructor)) as [Hs He].
  split; [exact Hs|]. intros u. unfold uniques. rewrite He. split.
  - intros [?%elem_of_nil|(j & Hj & ? & ?)]; [done|].
    apply elem_of_seq in Hj. exists j. split; [lia|done].
  - intros (j & Hj & ? & ?). right. exists j. split; [|done]. apply elem_of_seq. lia.
Qed.

Lemma self_snoc i l j d :
  self i (l ++ [(j, d)]) = self i l ++ (if decide (i = j) then [d] else []).
Proof.
  unfold self. rewrite filter_app, fmap_app. f_equal.
  rewrite filter_cons, filter_nil. simpl. by destruct (decide (i = j)).
Qed.

Lemma cohort_snoc i u l j d :
  cohort dist i u (l ++ [(j, d)])
  = cohort dist i u l ++ (if decide (i ≠ j ∧ dist i j = u) then [d] else []).
Proof.
  unfold cohort. rewrite filter_app, fmap_app. f_equal.
  rewrite filter_cons, filter_nil. simpl. by destruct (decide (i ≠ j ∧ dist i j = u)).
Qed.

Lemma place_step us i l j d :
  NoDup us → (i = j ∨ dist i j ∈ us) →
  place dist us i (Some (self i l :: ((λ u, cohort dist i u l) <$> us))) (j, d)
  = Some (self i (l ++ [(j, d)]) :: ((λ u, cohort dist i u (l ++ [(j, d)])) <$> us)).
Proof.
  intros Hnd Hin. unfold place. cbn [mbind option_bind fst snd].
  destruct (decide (i = j)) as [->|Hij].
  - cbn. f_equal. rewrite self_snoc, decide_True by done. f_equal.
    apply list_fmap_ext. intros k u _. rewrite cohort_snoc.
    rewrite decide_False by (intros [? _]; done). by rewrite app_nil_r.
  - destruct Hin as [?|Hin]; [done|].
    pose proof (set_index_lookup _ _ Hin) as Hl.
    set (m := set_index (dist i j) us) in *.
    assert (∀ (x : list Z) F, (x :: F) !! S m = F !! m) as Hcons by done.
    rewrite Hcons, list_lookup_fmap, Hl. cbn [fmap option_fmap option_map mbind option_bind].
    assert (∀ (x y : list Z) F, <[S m := y]> (x :: F) = x :: <[m := y]> F) as Hins by done.
    rewrite Hins. f_equal.
    rewrite self_snoc, decide_False, app_nil_r by done. f_equal.
    apply list_eq. intros k.
    destruct (decide (k = m)) as [->|Hkm].
    + rewrite list_lookup_insert_eq
        by (rewrite length_fmap; by eapply lookup_lt_Some).
      rewrite list_lookup_fmap, Hl. cbn. rewrite cohort_snoc, decide_True; done.
    + rewrite list_lookup_insert_ne by done. rewrite !list_lookup_fmap.
      destruct (us !! k) as [u|] eqn:Hk; [|done]. cbn. f_equal.
      rewrite cohort_snoc, decide_False, app_nil_r; [done|].
      intros [_ Hd]. subst u. apply Hkm.
      by apply (NoDup_lookup _ _ _ _ Hnd Hk Hl).
Qed.

Lemma place_fold us i l : ∀ pre,
  NoDup us → (∀ jd, jd ∈ l → i = jd.1 ∨ dist i jd.1 ∈ us) →
  foldl (place dist us i) (Some (self i pre :: ((λ u, cohort dist i u pre) <$> us))) l
  = Some (self i (pre ++ l) :: ((λ u, cohort dist i u (pre ++ l)) <$> us)).
Proof.
  induction l as [|[j d] l IH]; intros pre Hnd Hin; cbn [foldl].
  - by rewrite app_nil_r.
  - rewrite place_step; [|done|apply (Hin (j, d)); by left].
    rewrite IH; [|done|intros jd Hjd; apply Hin; by right].
    by rewrite <- app_assoc.
Qed.

Lemma place_concat us i nb jd nb' :
  place dist us i (Some nb) jd = Some nb' → concat nb' ≡ₚ concat nb ++ [jd.2].
Proof.
  unfold place. cbn [mbind option_bind].
  set (k := if decide (i = jd.1) then _ else _).
  destruct (nb !! k) as [b|] eqn:Hk; [|done]. cbn. intros [= <-].
  by apply concat_insert_snoc.
Qed.

Lemma place_fold_concat us i l : ∀ nb nb',
  foldl (place dist us i) (Some nb) l = Some nb' →
  concat nb' ≡ₚ concat nb ++ ((λ jd, jd.2) <$> l).
Proof.
  induction l as [|jd l IH]; intros nb nb'; cbn [foldl fmap list_fmap].
  - intros [= <-]. by rewrite app_nil_r.
  - destruct (place dist us i (Some nb) jd) as [nb1|] eqn:Hp.
    + intros Hf. rewrite (IH _ _ Hf), (place_concat _ _ _ _ _ Hp).
      by rewrite <- app_assoc.
    + assert (∀ l', foldl (place dist us i) None l' = None) as Hnone
        by (induction l'; done).
      by rewrite Hnone.
Qed.

Lemma imap_pair_snd (data : list Z) k :
  (λ jd : nat * Z, jd.2) <$> imap (λ j, pair (k + j)%nat) data = data.
Proof.
  revert k. induction data as [|d data IH]; intros k; [done|]. simpl. f_equal.
  rewrite <- (IH (S k)) at 2. f_equal. apply imap_ext. intros; simpl. f_equal. lia.
Qed.

Lemma self_imap (data : list Z) : ∀ k i d,
  data !! i = Some d → self (k + i) (imap (λ j, pair (k + j)%nat) data) = [d].
Proof.
  assert (Hnone : ∀ (data : list Z) k i, (i < k)%nat →
            self i (imap (λ j, pair (k + j)%nat) data) = []).
  { clear data. induction data as [|x data IH]; intros k i Hlt; [reflexivity|].
    unfold self. simpl. rewrite filter_cons. simpl.
    rewrite decide_False by lia.
    erewrite imap_ext; [apply (IH (S k) i); lia|]. intros; simpl. f_equal. lia. }
  induction data as [|x data IH]; intros k i d Hi; [done|].
  unfold self. simpl. rewrite filter_cons. simpl. destruct i as [|i]; simpl in Hi.
  - injection Hi as ->. rewrite decide_True by lia. simpl. f_equal.
    erewrite imap_ext; [apply (Hnone data (S k) (k + 0)%nat); lia|].
    intros; simpl. f_equal. lia.
  - rewrite decide_False by lia.
    erewrite imap_ext; [replace (k + S i)%nat with (S k + i)%nat by lia; by apply IH|].
    intros; simpl. f_equal. lia.
Qed.


Lemma replicate_cohorts i (us : list Z) :
  replicate (S (length us)) [] = self i [] :: ((λ u, cohort dist i u []) <$> us).
Proof.
  simpl. f_equal. induction us as [|u us IH]; [done|]. simpl. by f_equal.
Qed.

Lemma imap_pair_elem (data : list Z) j d :
  (j, d) ∈ imap pair data ↔ data !! j = Some d.
Proof.
  rewrite list_elem_of_lookup. split.
  - intros (k & Hk). rewrite list_lookup_imap in Hk.
    destruct (data !! k) as [x|] eqn:Hx; [|done]. simpl in Hk. by injection Hk as <- <-.
  - intros Hj. exists j. by rewrite list_lookup_imap, Hj.
Qed.

End TopologyHwloc.

Lemma hwloc_neighbors_spec (dist : nat → nat → Z) (data : list Z) (i : nat) (d : Z) :
  data !! i = Some d →
  let us := Topology.Hwloc.uniques dist (length data) i in
  let lists := [d] :: ((λ u, Topology.Hwloc.cohort dist i u (imap pair data)) <$> us) in
  Topology.Hwloc.neighbors dist data i = Some lists
  ∧ Sorted.StronglySorted Z.lt us
  ∧ (∀ u, u ∈ us ↔ ∃ j, (j < length data)%nat ∧ i ≠ j ∧ dist i j = u)
  ∧ (∀ u, u ∈ us → Topology.Hwloc.cohort dist i u (imap pair data) ≠ [])
  ∧ concat lists ≡ₚ data.
Proof.
  intros Hi us lists.
  destruct (uniques_spec dist (length data) i) as [Hsorted Helem]. fold us in Hsorted, Helem.
  assert (Topology.Hwloc.neighbors dist data i = Some lists) as Hnb.
  { unfold Topology.Hwloc.neighbors. fold us.
    rewrite (replicate_cohorts dist i us).
    rewrite place_fold.
    - rewrite app_nil_l. unfold lists. do 2 f_equal.
      apply (self_imap data 0 i d Hi).
    - by apply sorted_NoDup.
    - intros [j x] Hjx. apply imap_pair_elem in Hjx. simpl.
      destruct (decide (i = j)) as [|Hij]; [by left|]. right.
      apply Helem. exists j. split; [by eapply lookup_lt_Some|done]. }
  split; [exact Hnb|]. split; [exact Hsorted|]. split; [exact Helem|]. split.
  - intros u Hu. apply Helem in Hu as (j & Hj & Hij & Hd).
    destruct (lookup_lt_is_Some_2 data j Hj) as [x Hx].
    assert (x ∈ Topology.Hwloc.cohort dist i u (imap pair data)) as Hin.
    { unfold Topology.Hwloc.cohort. apply list_elem_of_fmap. exists (j, x).
      split; [done|]. apply list_elem_of_filter. split; [done|].
      by apply imap_pair_elem. }
    intros Hnil. rewrite Hnil in Hin. by apply elem_of_nil in Hin.
  - assert (∀ n, concat (replicate n ([] : list Z)) = []) as Hrep
      by (induction n; done).
    assert ((λ jd : nat * Z, jd.2) <$> imap pair data = data) as Hs
      by exact (imap_pair_snd data 0).
    pose proof (place_fold_concat dist us i (imap pair data)
                  (replicate (S (length us)) []) lists Hnb) as Hp.
    by rewrite Hp, Hrep, Hs.
Qed.

(** X7.  The neighbors-lists that [distribute] builds for worker [i] from
    hwloc's distance matrix: the first list is the worker itself; the lists
    after it are the other workers grouped by their distance from [i], one
    list for each distance that occurs, in strictly ascending order of
    distance, so that none of them is empty; and every worker of [data] is in
    exactly one list.  No [push_back] goes past the end of [neighbors]. *)
Theorem distribute_neighbors_by_distance (dist : nat → nat → Z) (data : list Z)
    (i : nat) (d : Z) :
  data !! i = Some d →
  let us := Topology.Hwloc.uniques dist (length data) i in
  let lists := [d] :: ((λ u, Topology.Hwloc.cohort dist i u (imap pair data)) <$> us) in
  Topology.Hwloc.neighbors dist data i = Some lists
  ∧ Sorted.StronglySorted Z.lt us
  ∧ (∀ u, u ∈ us ↔ ∃ j, (j < length data)%nat ∧ i ≠ j ∧ dist i j = u)
  ∧ (∀ u, u ∈ us → Topology.Hwloc.cohort dist i u (imap pair data) ≠ [])
  ∧ concat lists ≡ₚ data.
Proof. exact (hwloc_neighbors_spec dist data i d). Qed.

Lemma distribute_neighbors_by_distance_witness :
  Topology.Hwloc.neighbors Samples.dist_two_sockets [10; 11; 12; 13] 1
  = Some [[11]; [10]; [12; 13]].
Proof.
  exact (proj1 (distribute_neighbors_by_distance Samples.dist_two_sockets [10; 11; 12; 13] 1 11
                  eq_refl)).
Defined.

(** X8.  From the topology to the steal list.  When worker [i] hands the
    neighbors-lists that [distribute] built for it to
    [init_worker_and_bind], the assertions of [init_worker_and_bind] about
    the first list hold, [m_close] is the list of the nearest other workers,
    and [m_neigh] holds every other worker exactly once: each worker of the
    pool can be drawn as a victim, and, the workers being distinct, a worker
    never draws itself. *)
Theorem distribute_then_bind (dist : nat → nat → Z) (data : list Z) (i : nat) (d : Z) :
  data !! i = Some d →
  ∃ first rest,
    Topology.Hwloc.neighbors dist data i = Some ([d] :: rest)
    ∧ Numa.m_close (Numa.init_worker_and_bind ([d] :: rest)) = first
    ∧ first = default [] (head rest)
    ∧ Numa.m_neigh (Numa.init_worker_and_bind ([d] :: rest)) ≡ₚ delete i data
    ∧ length (Numa.weights (Numa.init_worker_and_bind ([d] :: rest)))
      = (length data - 1)%nat
    ∧ (NoDup data → d ∉ Numa.m_neigh (Numa.init_worker_and_bind ([d] :: rest))).
Proof.
  intros Hi.
  destruct (hwloc_neighbors_spec dist data i d Hi) as (Hnb & _ & _ & _ & Hperm).
  set (rest := (λ u, Topology.Hwloc.cohort dist i u (imap pair data))
                 <$> Topology.Hwloc.uniques dist (length data) i) in *.
  destruct (init_worker_and_bind_lists ([d] :: rest)) as (Hclose & Hneigh & Hlen & _).
  cbn [tail] in Hneigh.
  assert (concat rest ≡ₚ delete i data) as Hrest.
  { apply (Permutation_cons_inv (a := d)).
    rewrite <- (delete_Permutation data i d Hi). exact Hperm. }
  exists (default [] (head rest)), rest.
  split; [exact Hnb|]. split; [rewrite Hclose; by destruct rest|]. split; [done|].
  split; [by rewrite Hneigh|]. split.
  - rewrite Hlen, Hneigh, Hrest, length_delete by done. done.
  - intros Hnd. rewrite Hneigh, Hrest. intros Hin.
    rewrite (delete_take_drop data i) in Hin.
    rewrite <- (take_drop_middle data i d Hi) in Hnd.
    apply NoDup_app in Hnd as (_ & Hdis & Hnd2). apply NoDup_cons in Hnd2 as [Hnotin _].
    apply elem_of_app in Hin as [Hin|Hin]; [|done].
    apply (Hdis d Hin). by left.
Qed.

Lemma distribute_then_bind_witness :
  ∃ first rest,
    Topology.Hwloc.neighbors Samples.dist_two_sockets [10; 11; 12; 13] 1 = Some ([11] :: rest)
    ∧ Numa.m_close (Numa.init_worker_and_bind ([11] :: rest)) = first
    ∧ first = default [] (head rest)
    ∧ Numa.m_neigh (Numa.init_worker_and_bind ([11] :: rest)) ≡ₚ delete 1%nat [10; 11; 12; 13]
    ∧ length (Numa.weights (Numa.init_worker_and_bind ([11] :: rest)))
      = (length [10; 11; 12; 13] - 1)%nat
    ∧ (NoDup [10; 11; 12; 13] → 11 ∉ Numa.m_neigh (Numa.init_worker_and_bind ([11] :: rest))).
Proof.
  exact (distribute_then_bind Samples.dist_two_sockets [10; 11; 12; 13] 1 11 eq_refl).
Defined.

Section TopologyNoHwloc.

Import Topology.NoHwloc.

Lemma no_hwloc_fold d l : ∀ acc,
  foldl (place d) (Some [[d]; acc]) l = Some [[d]; acc ++ filter (λ x, x ≠ d) l].
Proof.
  induction l as [|x l IH]; intros acc; cbn [foldl].
  - by rewrite filter_nil, app_nil_r.
  - unfold place at 2. cbn [mbind option_bind]. rewrite filter_cons.
    destruct (decide (x ≠ d)).
    + cbn. rewrite IH. by rewrite <- app_assoc.
    + by rewrite IH.
Qed.

Lemma no_hwloc_neighbors data d :
  d ∈ data →
  neighbors data d
  = Some (if decide (1 < length data)%nat then [[d]; filter (λ x, x ≠ d) data] else [[d]]).
Proof.
  intros Hin. unfold neighbors. destruct (decide (1 < length data)%nat) as [Hlt|Hge].
  - by rewrite no_hwloc_fold.
  - destruct data as [|x [|y data]]; [by apply elem_of_nil in Hin| |simpl in Hge; lia].
    apply list_elem_of_singleton in Hin as ->. cbn. by rewrite decide_False by (intros H; by apply H).
Qed.

End TopologyNoHwloc.

(** X9.  Without hwloc every other worker is one hop away.  [distribute]
    gives worker [d] the lists [[d]] and, when the pool has more than one
    worker, the list of all the others in the order of [data]; after
    [init_worker_and_bind] both [m_close] and [m_neigh] are that list, and
    every weight of the distribution is [1 / m], with [m] the number of the
    other workers, so that every other worker is as likely a victim as
    any. *)
Theorem no_hwloc_uniform (data : list Z) (d : Z) :
  d ∈ data →
  let others := filter (λ x, x ≠ d) data in
  ∃ lists q,
    Topology.NoHwloc.neighbors data d = Some lists
    ∧ head lists = Some [d]
    ∧ Numa.m_close (Numa.init_worker_and_bind lists) = others
    ∧ Numa.m_neigh (Numa.init_worker_and_bind lists) = others
    ∧ Numa.weights (Numa.init_worker_and_bind lists) = replicate (length others) q
    ∧ (others ≠ [] →
       QArith_base.Qeq q (QArith_base.Qmake 1 (Pos.of_nat (length others)))).
Proof.
  intros Hin others. rewrite (no_hwloc_neighbors data d Hin). fold others.
  assert (Hq : others ≠ [] →
    QArith_base.Qeq (Numa.weight (length others) 1)
                    (QArith_base.Qmake 1 (Pos.of_nat (length others)))).
  { intros Hne. pose proof (weight_value (length others) 1) as H.
    replace (1 * 1 * length others)%nat with (length others) in H by lia.
    apply H; [| lia]. destruct others; [done | simpl; lia]. }
  destruct (decide (1 < length data)%nat) as [Hlt|Hge].
  - exists [[d]; others], (Numa.weight (length others) 1). split; [done|]. split; [done|].
    destruct (init_worker_and_bind_lists [[d]; others]) as (Hclose & Hneigh & Hlen & Hw).
    cbn [tail concat] in Hneigh. rewrite app_nil_r in Hneigh.
    split; [exact Hclose|]. split; [exact Hneigh|]. split; [| exact Hq].
    apply list_eq. intros k.
    destruct (others !! k) as [c|] eqn:Hk.
    + destruct (Hw 1%nat others k c ltac:(lia) eq_refl Hk) as [_ Hwk].
      cbv zeta in Hwk.
      change (length (concat (take (1 - 1) (tail [[d]; others]))) + k)%nat with k in Hwk.
      rewrite Hwk. symmetry.
      apply lookup_replicate. split; [done|]. by eapply lookup_lt_Some.
    + apply lookup_ge_None in Hk.
      rewrite (proj2 (lookup_ge_None _ _)) by (rewrite Hlen, Hneigh; lia).
      symmetry. apply lookup_replicate_None. lia.
  - exists [[d]], (Numa.weight (length others) 1). split; [done|]. split; [done|].
    destruct data as [|x [|y data]]; [by apply elem_of_nil in Hin| |simpl in Hge; lia].
    apply list_elem_of_singleton in Hin as ->.
    split_and!; [| | | exact Hq];
      unfold others; rewrite filter_cons, filter_nil;
      rewrite decide_False by (intros H; by apply H); done.
Qed.

(** Three workers: the two others are drawn with weight one half each. *)
Lemma no_hwloc_uniform_witness :
  ∃ lists q,
    Topology.NoHwloc.neighbors [10; 11; 12] 11 = Some lists
    ∧ head lists = Some [11]
    ∧ Numa.m_close (Numa.init_worker_and_bind lists) = [10; 12]
    ∧ Numa.m_neigh (Numa.init_worker_and_bind lists) = [10; 12]
    ∧ Numa.weights (Numa.init_worker_and_bind lists) = [q; q]
    ∧ QArith_base.Qeq q (QArith_base.Qmake 1 2).
Proof.
  destruct (no_hwloc_uniform [10; 11; 12] 11) as (lists & q & H1 & H2 & H3 & H4 & H5 & H6).
  { apply list_elem_of_In. right. left. reflexivity. }
  exists lists, q. split_and!; [exact H1 | exact H2 | exact H3 | exact H4 | exact H5 |].
  apply H6. discriminate.
Defined.
(** ** deque.hpp: the ring buffer against the owner's list *)

Section RingBuffer.

Import RingDeque.

Lemma slot_mod r index :
  ring_ok r → 0 ≤ index →
  Z.to_nat (Z.land index (m_mask r)) = Z.to_nat (index mod m_cap r)
  ∧ 0 ≤ index mod m_cap r < m_cap r.
Proof.
  intros (k & Hk & Hcap & Hmask & Hlen) Hi.
  rewrite Hmask, Hcap, Z.sub_1_r, <- Z.ones_equiv, Z.land_ones by lia.
  split; [done|]. apply Z.mod_pos_bound. apply Z.pow_pos_nonneg; lia.
Qed.

Lemma load_in_range r index :
  ring_ok r → 0 ≤ index → ∃ v, load index r = Some v.
Proof.
  intros Hok Hi. destruct (slot_mod r index Hok Hi) as [Hs Hb].
  unfold load. rewrite decide_True by done. rewrite Hs.
  apply lookup_lt_is_Some_2. destruct Hok as (k & _ & _ & _ & ->). lia.
Qed.

Lemma store_ok r index val :
  ring_ok r → 0 ≤ index →
  ∃ r', store index val r = Some r' ∧ ring_ok r' ∧ m_cap r' = m_cap r
    ∧ ∀ i, 0 ≤ i →
        load i r' = if decide (i mod m_cap r = index mod m_cap r) then Some val else load i r.
Proof.
  intros Hok Hi. destruct (slot_mod r index Hok Hi) as [Hs Hb].
  pose proof Hok as (k & Hk & Hcap & Hmask & Hlen).
  unfold store. rewrite decide_True by done. rewrite Hs.
  destruct (lookup_lt_is_Some_2 (m_array r) (Z.to_nat (index mod m_cap r)) ltac:(lia)) as [x Hx].
  rewrite Hx. cbn [mbind option_bind]. eexists. split; [reflexivity|].
  assert (ring_ok (mk_ring (m_cap r) (m_mask r)
                   (<[Z.to_nat (index mod m_cap r) := val]> (m_array r)))) as Hok'.
  { exists k. cbn. rewrite length_insert. done. }
  split; [exact Hok'|]. split; [done|].
  intros i Hi0. destruct (slot_mod r i Hok Hi0) as [Hsi Hbi].
  unfold load. rewrite !decide_True by done. cbn [m_array m_mask]. rewrite Hsi.
  destruct (decide (i mod m_cap r = index mod m_cap r)) as [->|Hne].
  - apply list_lookup_insert_eq. lia.
  - rewrite decide_True by done. apply list_lookup_insert_ne. lia.
Qed.


Lemma mod_apart a b c : 0 < b - a < c → a mod c ≠ b mod c.
Proof.
  intros Hd Heq.
  assert ((b - a) mod c = 0) as H0.
  { rewrite Zminus_mod, Heq, Z.sub_diag. apply Z.mod_0_l. lia. }
  rewrite Z.mod_small in H0 by lia. lia.
Qed.

Lemma ring_new_ok k :
  0 ≤ k < 62 →
  ∃ r, ring_new (2 ^ k) = Some r ∧ ring_ok r ∧ m_cap r = 2 ^ k
       ∧ ∀ i, 0 ≤ i → load i r = Some 0.
Proof.
  intros Hk. unfold ring_new, has_single_bit.
  assert (0 < 2 ^ k) as Hpos by (apply Z.pow_pos_nonneg; lia).
  rewrite Z.log2_pow2 by lia.
  rewrite (proj2 (Z.ltb_lt _ _) Hpos), Z.eqb_refl. cbn [andb].
  eexists. split; [reflexivity|].
  assert (ring_ok (mk_ring (2 ^ k) (2 ^ k - 1) (replicate (Z.to_nat (2 ^ k)) 0))) as Hok.
  { exists k. cbn. by rewrite length_replicate. }
  split; [exact Hok|]. split; [done|].
  intros i Hi. destruct (slot_mod _ i Hok Hi) as [Hs Hb].
  unfold load. rewrite decide_True by done. rewrite Hs. cbn [m_array m_cap] in *.
  apply lookup_replicate. split; [done|]. lia.
Qed.

Lemma resize_fold r top (n : nat) : ∀ p,
  ring_ok r → ring_ok p → 0 ≤ top → Z.of_nat n ≤ m_cap p →
  ∃ p', foldl (λ acc i, p ← acc; v ← load i r; store i v p) (Some p)
              (seqZ top (Z.of_nat n)) = Some p'
        ∧ ring_ok p' ∧ m_cap p' = m_cap p
        ∧ ∀ i, top ≤ i < top + Z.of_nat n → load i p' = load i r.
Proof.
  intros p Hr Hp Htop. induction n as [|n IH]; intros Hn.
  - exists p. split; [done|]. split; [done|]. split; [done|]. intros i Hi. lia.
  - destruct IH as (p1 & Hfold & Hp1 & Hcap1 & Hload1); [lia|].
    rewrite seqZ_S, foldl_snoc, Hfold. cbn [mbind option_bind].
    destruct (load_in_range r (top + Z.of_nat n) Hr ltac:(lia)) as [v Hv].
    rewrite Hv. cbn [mbind option_bind].
    destruct (store_ok p1 (top + Z.of_nat n) v Hp1 ltac:(lia)) as (p' & Hst & Hp' & Hcap' & Hload').
    exists p'. split; [exact Hst|]. split; [exact Hp'|]. split; [congruence|].
    intros i Hi. rewrite Hload' by lia.
    destruct (decide (i = top + Z.of_nat n)) as [->|Hne].
    + by rewrite decide_True.
    + rewrite decide_False; [apply Hload1; lia|].
      apply mod_apart. lia.
Qed.

Lemma resize_ok r bot top :
  ring_ok r → m_cap r < 2 ^ 60 → 0 ≤ top ≤ bot → bot - top ≤ 2 * m_cap r →
  ∃ r', resize bot top r = Some r' ∧ ring_ok r' ∧ m_cap r' = 2 * m_cap r
        ∧ ∀ i, top ≤ i < bot → load i r' = load i r.
Proof.
  intros Hr Hcap Htb Hsz. pose proof Hr as (k & Hk & Hck & _).
  assert (k < 60) as Hk60.
  { apply (Z.pow_lt_mono_r_iff 2); [lia|lia|]. by rewrite <- Hck. }
  unfold resize. rewrite decide_True by lia.
  assert (0 < 2 ^ k) as Hpos by (apply Z.pow_pos_nonneg; lia).
  unfold ptrdiff. rewrite decide_True by lia. cbn [mbind option_bind].
  replace (2 * m_cap r) with (2 ^ (k + 1)) by (rewrite Z.pow_add_r by lia; lia).
  destruct (ring_new_ok (k + 1) ltac:(lia)) as (p & Hnew & Hp & Hcp & _).
  rewrite Hnew. cbn [mbind option_bind].
  destruct (resize_fold r top (Z.to_nat (bot - top)) p Hr Hp ltac:(lia))
    as (p' & Hfold & Hp' & Hcap' & Hload).
  { rewrite Hcp, Z.pow_add_r by lia. lia. }
  rewrite Z2Nat.id in Hfold, Hload by lia.
  exists p'. split; [exact Hfold|]. split; [exact Hp'|]. split; [congruence|].
  intros i Hi. apply Hload. lia.
Qed.

Lemma omap_cons_eq (f : Z → option Z) i (l : list Z) :
  omap f (i :: l) = match f i with Some y => y :: omap f l | None => omap f l end.
Proof. reflexivity. Qed.

Lemma omap_load_ext r r' (l : list Z) :
  (∀ i, i ∈ l → load i r' = load i r) →
  omap (λ i, load i r') l = omap (λ i, load i r) l.
Proof.
  induction l as [|i l IH]; intros H; [done|]. rewrite !omap_cons_eq.
  rewrite (H i) by (by left). rewrite IH; [done|]. intros j Hj. apply H. by right.
Qed.

Lemma omap_load_length r top n :
  ring_ok r → 0 ≤ top → length (omap (λ i, load i r) (seqZ top n)) = Z.to_nat n.
Proof.
  intros Hr Htop. rewrite <- (length_seqZ top n).
  assert (∀ l, (∀ i, i ∈ l → 0 ≤ i) → length (omap (λ i, load i r) l) = length l) as H.
  { induction l as [|i l IH]; intros Hl; [done|]. rewrite omap_cons_eq.
    destruct (load_in_range r i Hr (Hl i ltac:(left))) as [v ->]. simpl.
    rewrite IH; [done|]. intros j Hj. apply Hl. by right. }
  apply H. intros i Hi. apply elem_of_seqZ in Hi. lia.
Qed.

Lemma contents_length d :
  deque_ok d → length (contents d) = Z.to_nat (m_bottom d - m_top d).
Proof. intros (Hr & Htb & _). apply omap_load_length; [done|lia]. Qed.

Lemma contents_snoc top bottom r v :
  ring_ok r → 0 ≤ top ≤ bottom → load bottom r = Some v →
  omap (λ i, load i r) (seqZ top (bottom + 1 - top))
  = omap (λ i, load i r) (seqZ top (bottom - top)) ++ [v].
Proof.
  intros Hr Htb Hv.
  replace (bottom + 1 - top) with (bottom - top + 1) by lia.
  rewrite seqZ_app, omap_app by lia. f_equal.
  rewrite seqZ_cons, seqZ_nil by lia. rewrite omap_cons_eq.
  replace (top + (bottom - top)) with bottom by lia. by rewrite Hv.
Qed.

Lemma contents_cons top bottom r v :
  ring_ok r → 0 ≤ top < bottom → load top r = Some v →
  omap (λ i, load i r) (seqZ top (bottom - top))
  = v :: omap (λ i, load i r) (seqZ (top + 1) (bottom - (top + 1))).
Proof.
  intros Hr Htb Hv. rewrite seqZ_cons by lia. rewrite omap_cons_eq, Hv.
  replace (Z.succ top) with (top + 1) by lia.
  replace (Z.pred (bottom - top)) with (bottom - (top + 1)) by lia. done.
Qed.

End RingBuffer.

Lemma push_spec (new_ok : bool) (val : Z) (d : RingDeque.deque) :
  RingDeque.deque_ok d →
  RingDeque.m_bottom d + 1 < 2 ^ 62 →
  RingDeque.m_cap (RingDeque.m_buf d) < 2 ^ 60 →
  match Deque.push new_ok val (RingDeque.view d) with
  | Ok a =>
      ∃ d', RingDeque.push new_ok val d = Some (Ok d')
            ∧ RingDeque.view d' = a
            ∧ RingDeque.contents d' = RingDeque.contents d ++ [val]
            ∧ RingDeque.deque_ok d'
            ∧ RingDeque.m_top d' = RingDeque.m_top d
            ∧ RingDeque.m_bottom d' = RingDeque.m_bottom d + 1
  | Throw e => RingDeque.push new_ok val d = Some (Throw e)
  end.
Proof.
  intros Hok Hb Hcap. pose proof Hok as (Hr & Htb & Hb62 & Hsz).
  pose proof (contents_length d Hok) as Hlen.
  assert (0 < RingDeque.m_cap (RingDeque.m_buf d)) as Hcpos.
  { destruct Hr as (k & Hk & -> & _). apply Z.pow_pos_nonneg; lia. }
  unfold Deque.push, RingDeque.push, RingDeque.view.
  cbn [Deque.items Deque.buf_cap]. rewrite length_reverse, Hlen, Z2Nat.id by lia.
  unfold RingDeque.capacity.
  assert (∀ r', RingDeque.ring_ok r' →
            RingDeque.m_cap (RingDeque.m_buf d) ≤ RingDeque.m_cap r' →
            RingDeque.m_bottom d - RingDeque.m_top d < RingDeque.m_cap r' →
            (∀ i, RingDeque.m_top d ≤ i < RingDeque.m_bottom d →
                  RingDeque.load i r' = RingDeque.load i (RingDeque.m_buf d)) →
            ∀ g, ∃ buf', RingDeque.store (RingDeque.m_bottom d) val r' = Some buf'
              ∧ RingDeque.m_cap buf' = RingDeque.m_cap r'
              ∧ RingDeque.contents
                  (RingDeque.mk_deque (RingDeque.m_top d) (RingDeque.m_bottom d + 1) buf' g)
                = RingDeque.contents d ++ [val]
              ∧ RingDeque.deque_ok
                  (RingDeque.mk_deque (RingDeque.m_top d) (RingDeque.m_bottom d + 1) buf' g))
    as Hstore.
  { intros r' Hr' Hge Hroom Hsame g.
    destruct (store_ok r' (RingDeque.m_bottom d) val Hr' ltac:(lia))
      as (buf' & Hst & Hbuf' & Hcap' & Hload).
    exists buf'. split; [exact Hst|]. split; [exact Hcap'|]. split.
    - unfold RingDeque.contents. cbn [RingDeque.m_top RingDeque.m_bottom RingDeque.m_buf].
      rewrite (contents_snoc (RingDeque.m_top d) (RingDeque.m_bottom d) buf' val Hbuf' ltac:(lia)).
      + f_equal. apply omap_load_ext. intros i Hi. apply elem_of_seqZ in Hi.
        rewrite Hload by lia. rewrite decide_False; [apply Hsame; lia|].
        apply mod_apart. lia.
      + rewrite Hload by lia. by rewrite decide_True.
    - split; [exact Hbuf'|]. cbn. lia. }
  destruct (decide (RingDeque.m_cap (RingDeque.m_buf d)
                    < RingDeque.m_bottom d - RingDeque.m_top d + 1)) as [Hfull|Hroom].
  - destruct new_ok; [|done].
    destruct (resize_ok (RingDeque.m_buf d) (RingDeque.m_bottom d) (RingDeque.m_top d)
                Hr Hcap ltac:(lia) ltac:(lia)) as (bigger & Hres & Hbig & Hcapb & Hload).
    destruct (Hstore bigger Hbig ltac:(lia) ltac:(lia) Hload
                (RingDeque.m_garbage d ++ [RingDeque.m_buf d]))
      as (buf' & Hst & Hcap' & Hcont & Hok').
    eexists. rewrite Hres. cbn [mbind option_bind]. rewrite Hst. cbn [mbind option_bind].
    unfold RingDeque.ptrdiff. rewrite decide_True by lia. cbn [mbind option_bind].
    split; [reflexivity|].
    split; [|split; [exact Hcont|split; [exact Hok'|done]]].
    unfold RingDeque.view, RingDeque.capacity. rewrite Hcont, reverse_snoc.
    cbn [RingDeque.m_buf]. by rewrite Hcap', Hcapb.
  - destruct (Hstore (RingDeque.m_buf d) Hr ltac:(lia) ltac:(lia) ltac:(done)
                (RingDeque.m_garbage d))
      as (buf' & Hst & Hcap' & Hcont & Hok').
    eexists. rewrite Hst. cbn [mbind option_bind].
    unfold RingDeque.ptrdiff. rewrite decide_True by lia. cbn [mbind option_bind].
    split; [reflexivity|].
    split; [|split; [exact Hcont|split; [exact Hok'|done]]].
    unfold RingDeque.view, RingDeque.capacity. rewrite Hcont, reverse_snoc.
    cbn [RingDeque.m_buf]. by rewrite Hcap'.
Qed.

Lemma pop_steal_spec (d : RingDeque.deque) :
  RingDeque.deque_ok d →
  (∃ r d', RingDeque.pop d = Some (r, d')
           ∧ RingDeque.deque_ok d'
           ∧ Deque.pop (RingDeque.view d) = (default 0 r, RingDeque.view d')
           ∧ match r with
             | Some v => RingDeque.contents d = RingDeque.contents d' ++ [v]
             | None => RingDeque.contents d = [] ∧ d' = d
             end)
  ∧ (∃ e v d', RingDeque.steal d = Some (e, v, d')
               ∧ RingDeque.deque_ok d'
               ∧ Deque.steal (RingDeque.view d) = (e, v, RingDeque.view d')
               ∧ match e with
                 | Deque.none => RingDeque.contents d = v :: RingDeque.contents d'
                 | _ => RingDeque.contents d = [] ∧ d' = d
                 end).
Proof.
  intros Hok. pose proof Hok as (Hr & Htb & Hb62 & Hsz). split.
  - unfold RingDeque.pop, RingDeque.ptrdiff. rewrite decide_True by lia.
    cbn [mbind option_bind].
    destruct (decide (RingDeque.m_top d ≤ RingDeque.m_bottom d - 1)) as [Hne|Hemp].
    + destruct (load_in_range (RingDeque.m_buf d) (RingDeque.m_bottom d - 1) Hr ltac:(lia))
        as [v Hv].
      assert (RingDeque.contents d
              = omap (λ i, RingDeque.load i (RingDeque.m_buf d))
                  (seqZ (RingDeque.m_top d) (RingDeque.m_bottom d - 1 - RingDeque.m_top d))
                ++ [v]) as Hc.
      { unfold RingDeque.contents.
        replace (RingDeque.m_bottom d - RingDeque.m_top d)
          with ((RingDeque.m_bottom d - 1) + 1 - RingDeque.m_top d) by lia.
        apply contents_snoc; [done|lia|done]. }
      rewrite Hv. cbn [mbind option_bind].
      destruct (decide (RingDeque.m_top d = RingDeque.m_bottom d - 1)) as [Heq|Hneq].
      * eexists _, _. split; [reflexivity|]. split; [split; [done|cbn; lia]|].
        rewrite seqZ_nil in Hc by lia.
        assert (RingDeque.contents
                  (RingDeque.mk_deque (RingDeque.m_top d + 1) (RingDeque.m_bottom d - 1 + 1)
                     (RingDeque.m_buf d) (RingDeque.m_garbage d)) = []) as Hc'.
        { unfold RingDeque.contents. cbn. rewrite seqZ_nil by lia. done. }
        split; [|by rewrite Hc, Hc'].
        unfold Deque.pop, RingDeque.view. rewrite Hc, Hc'. done.
      * eexists _, _. split; [reflexivity|]. split; [split; [done|cbn; lia]|].
        split; [|exact Hc].
        unfold Deque.pop, RingDeque.view. rewrite Hc, reverse_snoc. done.
    + assert (RingDeque.m_top d = RingDeque.m_bottom d) as Heq by lia.
      assert (RingDeque.contents d = []) as Hc.
      { unfold RingDeque.contents. rewrite seqZ_nil by lia. done. }
      assert (RingDeque.mk_deque (RingDeque.m_top d) (RingDeque.m_bottom d - 1 + 1)
                (RingDeque.m_buf d) (RingDeque.m_garbage d) = d) as Hd.
      { replace (RingDeque.m_bottom d - 1 + 1) with (RingDeque.m_bottom d) by lia.
        by destruct d. }
      exists None, d. rewrite Hd. split; [done|]. split; [done|].
      split; [|done].
      unfold Deque.pop, RingDeque.view. by rewrite Hc.
  - unfold RingDeque.steal.
    destruct (decide (RingDeque.m_top d < RingDeque.m_bottom d)) as [Hne|Hemp].
    + destruct (load_in_range (RingDeque.m_buf d) (RingDeque.m_top d) Hr ltac:(lia))
        as [v Hv].
      rewrite Hv. cbn [mbind option_bind].
      assert (RingDeque.contents d
              = v :: RingDeque.contents
                       (RingDeque.mk_deque (RingDeque.m_top d + 1) (RingDeque.m_bottom d)
                          (RingDeque.m_buf d) (RingDeque.m_garbage d))) as Hc.
      { unfold RingDeque.contents. cbn [RingDeque.m_top RingDeque.m_bottom RingDeque.m_buf].
        apply contents_cons; [done|lia|done]. }
      eexists _, _, _. split; [reflexivity|]. split; [split; [done|cbn; lia]|].
      split; [|exact Hc].
      unfold Deque.steal, RingDeque.view at 1. cbn [Deque.items Deque.buf_cap].
      rewrite reverse_involutive, Hc. done.
    + assert (RingDeque.contents d = []) as Hc.
      { unfold RingDeque.contents. rewrite seqZ_nil by lia. done. }
      exists Deque.empty, 0, d. split; [done|]. split; [done|]. split; [|done].
      unfold Deque.steal, RingDeque.view. by rewrite Hc.
Qed.

(** X10.  [deque::push] on the ring buffer does what pushing on the owner's
    list does.  On a well-formed deque the item is added at the bottom and
    every item already there stays where it was, also when the buffer was
    full and is replaced by one of twice the capacity (the old one is kept as
    garbage, for the thieves that still read it); when that allocation fails
    the push throws [bad_alloc] and leaves the deque unchanged.  No index is
    out of range and the result is well formed again. *)
Theorem push_refines (new_ok : bool) (val : Z) (d : RingDeque.deque) :
  RingDeque.deque_ok d →
  RingDeque.m_bottom d + 1 < 2 ^ 62 →
  RingDeque.m_cap (RingDeque.m_buf d) < 2 ^ 60 →
  match Deque.push new_ok val (RingDeque.view d) with
  | Ok a =>
      ∃ d', RingDeque.push new_ok val d = Some (Ok d')
            ∧ RingDeque.view d' = a
            ∧ RingDeque.contents d' = RingDeque.contents d ++ [val]
            ∧ RingDeque.deque_ok d'
            ∧ RingDeque.m_top d' = RingDeque.m_top d
            ∧ RingDeque.m_bottom d' = RingDeque.m_bottom d + 1
  | Throw e => RingDeque.push new_ok val d = Some (Throw e)
  end.
Proof. exact (push_spec new_ok val d). Qed.

Lemma sample_ring_ok : RingDeque.deque_ok Samples.ring_full.
Proof.
  split; [exists 1; cbn; repeat split; lia|]. cbn. lia.
Qed.

(** A full buffer of capacity 2 grows to capacity 4 and keeps 7 and 8. *)
Lemma push_refines_witness :
  ∃ d', RingDeque.push true 9 Samples.ring_full = Some (Ok d')
        ∧ RingDeque.view d' = Deque.mk_deque [9; 8; 7] 4
        ∧ RingDeque.contents d' = [7; 8; 9]
        ∧ RingDeque.deque_ok d'
        ∧ RingDeque.m_top d' = 0
        ∧ RingDeque.m_bottom d' = 3.
Proof.
  assert (RingDeque.m_bottom Samples.ring_full + 1 < 2 ^ 62) as Hb by (cbn; lia).
  assert (RingDeque.m_cap (RingDeque.m_buf Samples.ring_full) < 2 ^ 60) as Hc by (cbn; lia).
  exact (push_refines true 9 Samples.ring_full sample_ring_ok Hb Hc).
Defined.

(** X11.  The owner takes items last in first out and a thief first in
    first out.  On a well-formed ring-buffer deque, [pop] gives what popping
    the owner's list gives and [steal] what stealing from it gives: the
    newest, respectively the oldest, item, which leaves the deque; on an
    empty deque [pop] invokes [when_empty], [steal] reports [err::empty], and
    both leave [m_top] and [m_bottom] as they were.  No load is out of
    range. *)
Theorem pop_steal_refine (d : RingDeque.deque) :
  RingDeque.deque_ok d →
  (∃ r d', RingDeque.pop d = Some (r, d')
           ∧ RingDeque.deque_ok d'
           ∧ Deque.pop (RingDeque.view d) = (default 0 r, RingDeque.view d')
           ∧ match r with
             | Some v => RingDeque.contents d = RingDeque.contents d' ++ [v]
             | None => RingDeque.contents d = [] ∧ d' = d
             end)
  ∧ (∃ e v d', RingDeque.steal d = Some (e, v, d')
               ∧ RingDeque.deque_ok d'
               ∧ Deque.steal (RingDeque.view d) = (e, v, RingDeque.view d')
               ∧ match e with
                 | Deque.none => RingDeque.contents d = v :: RingDeque.contents d'
                 | _ => RingDeque.contents d = [] ∧ d' = d
                 end).
Proof. exact (pop_steal_spec d). Qed.

Lemma pop_steal_refine_witness :
  ∃ e v d', RingDeque.steal Samples.ring_full = Some (e, v, d')
            ∧ RingDeque.deque_ok d'
            ∧ Deque.steal (RingDeque.view Samples.ring_full) = (e, v, RingDeque.view d')
            ∧ match e with
              | Deque.none => RingDeque.contents Samples.ring_full = v :: RingDeque.contents d'
              | _ => RingDeque.contents Samples.ring_full = [] ∧ d' = Samples.ring_full
              end.
Proof. exact (proj2 (pop_steal_refine Samples.ring_full sample_ring_ok)). Defined.

Section RingSequences.

Import RingDeque.

Lemma pushes_spec c0 vals : ∀ d,
  deque_ok d → c0 < 2 ^ 60 →
  m_cap (m_buf d) ≤ Z.max c0 (2 * (m_bottom d - m_top d)) →
  m_bottom d - m_top d + Z.of_nat (length vals) < 2 ^ 59 →
  m_bottom d + Z.of_nat (length vals) < 2 ^ 62 →
  ∃ d', pushes vals d = Some d' ∧ contents d' = contents d ++ vals ∧ deque_ok d'.
Proof.
  induction vals as [|v vals IH]; intros d Hok Hc0 Hcap Hsz Hb.
  - exists d. by rewrite app_nil_r.
  - rewrite length_cons, Nat2Z.inj_succ in Hsz, Hb.
    pose proof Hok as (_ & Htb & _).
    pose proof (push_spec true v d Hok ltac:(lia) ltac:(lia)) as Hpush.
    unfold Deque.push in Hpush. cbn [view Deque.items Deque.buf_cap capacity] in Hpush.
    rewrite length_reverse, (contents_length d Hok), Z2Nat.id in Hpush by lia.
    assert (∃ d', push true v d = Some (Ok d') ∧ contents d' = contents d ++ [v]
                  ∧ deque_ok d' ∧ m_top d' = m_top d ∧ m_bottom d' = m_bottom d + 1
                  ∧ m_cap (m_buf d') ≤ Z.max c0 (2 * (m_bottom d' - m_top d')))
      as (d' & Hp & Hcont & Hok' & Ht & Hbo & Hcap').
    { destruct (decide (m_cap (m_buf d) < m_bottom d - m_top d + 1)).
      - rewrite decide_True in Hpush by done.
        destruct Hpush as (d' & Hp & Hv & Hcont & Hok' & Ht & Hbo).
        exists d'. repeat (split; [done|]).
        apply (f_equal Deque.buf_cap) in Hv. cbn in Hv. unfold capacity in Hv. lia.
      - rewrite decide_False in Hpush by done.
        destruct Hpush as (d' & Hp & Hv & Hcont & Hok' & Ht & Hbo).
        exists d'. repeat (split; [done|]).
        apply (f_equal Deque.buf_cap) in Hv. cbn in Hv. unfold capacity in Hv. lia. }
    destruct (IH d' Hok' Hc0 Hcap' ltac:(lia) ltac:(lia)) as (d'' & Hps & Hcont'' & Hok'').
    exists d''. cbn [pushes]. rewrite Hp. cbn [mbind option_bind].
    split; [exact Hps|]. split; [|exact Hok''].
    by rewrite Hcont'', Hcont, <- app_assoc.
Qed.

Lemma pops_spec n : ∀ d vals,
  deque_ok d → contents d = vals → length vals = n →
  ∃ d', pops n d = Some (Some <$> reverse vals, d') ∧ contents d' = [] ∧ deque_ok d'.
Proof.
  induction n as [|n IH]; intros d vals Hok Hc Hn.
  - destruct vals; [|done]. by exists d.
  - destruct (pop_steal_spec d Hok) as [(r & d' & Hp & Hok' & _ & Hr) _].
    subst vals.
    destruct r as [v|]; [|destruct Hr as [Hr _]; by rewrite Hr in Hn].
    rewrite Hr in Hn |- *. rewrite length_app in Hn. simpl in Hn.
    destruct (IH d' (contents d') Hok' eq_refl ltac:(lia)) as (d'' & Hps & Hc'' & Hok'').
    exists d''. cbn [pops]. rewrite Hp. cbn [mbind option_bind]. rewrite Hps.
    cbn [mbind option_bind]. by rewrite reverse_snoc.
Qed.

Lemma steals_spec n : ∀ d vals,
  deque_ok d → contents d = vals → length vals = n →
  ∃ d', steals n d = Some ((λ v, (Deque.none, v)) <$> vals, d') ∧ contents d' = []
        ∧ deque_ok d'.
Proof.
  induction n as [|n IH]; intros d vals Hok Hc Hn.
  - destruct vals; [|done]. by exists d.
  - destruct (pop_steal_spec d Hok) as [_ (e & v & d' & Hs & Hok' & _ & He)].
    subst vals.
    destruct e; [|destruct He as [He _]; by rewrite He in Hn..].
    rewrite He in Hn |- *. simpl in Hn.
    destruct (IH d' (contents d') Hok' eq_refl ltac:(lia)) as (d'' & Hss & Hc'' & Hok'').
    exists d''. cbn [steals]. rewrite Hs. cbn [mbind option_bind]. rewrite Hss.
    by cbn [mbind option_bind].
Qed.

End RingSequences.

(** X12.  Nothing is lost or reordered, however often the buffer grows.
    From a new deque of capacity [2^k], pushing the values [vals] (each push
    doubling the buffer when it is full) succeeds and leaves exactly [vals]
    in the deque; from there the owner's pops hand out [vals] newest first,
    and a thief's steals hand them out oldest first, each until the deque is
    empty. *)
Theorem pushes_then_pops_or_steals (k : Z) (vals : list Z) (d0 : RingDeque.deque) :
  0 ≤ k < 60 → Z.of_nat (length vals) < 2 ^ 59 →
  RingDeque.deque_new (2 ^ k) = Some d0 →
  ∃ d, RingDeque.pushes vals d0 = Some d
       ∧ RingDeque.contents d = vals
       ∧ (∃ d1, RingDeque.pops (length vals) d = Some (Some <$> reverse vals, d1)
                ∧ RingDeque.contents d1 = [])
       ∧ (∃ d2, RingDeque.steals (length vals) d
                = Some ((λ v, (Deque.none, v)) <$> vals, d2)
                ∧ RingDeque.contents d2 = []).
Proof.
  intros Hk Hlen Hnew. unfold RingDeque.deque_new in Hnew.
  destruct (ring_new_ok k ltac:(lia)) as (r & Hr & Hrok & Hcap & _).
  rewrite Hr in Hnew. cbn in Hnew. injection Hnew as <-.
  assert (2 ^ k < 2 ^ 60) as Hc0 by (apply Z.pow_lt_mono_r; lia).
  destruct (pushes_spec (2 ^ k) vals (RingDeque.mk_deque 0 0 r []))
    as (d & Hp & Hc & Hok).
  { split; [done|]. cbn. rewrite Hcap.
    assert (0 < 2 ^ k) by (apply Z.pow_pos_nonneg; lia). lia. }
  { done. }
  { cbn. lia. }
  { cbn. lia. }
  { cbn. lia. }
  assert (RingDeque.contents (RingDeque.mk_deque 0 0 r []) = []) as Hc0'.
  { unfold RingDeque.contents. cbn. by rewrite seqZ_nil by lia. }
  rewrite Hc0', app_nil_l in Hc.
  exists d. split; [exact Hp|]. split; [exact Hc|]. split.
  - destruct (pops_spec (length vals) d vals Hok Hc eq_refl) as (d1 & ? & ? & _).
    by exists d1.
  - destruct (steals_spec (length vals) d vals Hok Hc eq_refl) as (d2 & ? & ? & _).
    by exists d2.
Qed.

(** Three pushes on a new deque of capacity 2. *)
Lemma pushes_then_pops_or_steals_witness :
  ∃ d, RingDeque.pushes [7; 8; 9] (RingDeque.mk_deque 0 0 (RingDeque.mk_ring 2 1 [0; 0]) [])
       = Some d
       ∧ RingDeque.contents d = [7; 8; 9]
       ∧ (∃ d1, RingDeque.pops 3 d = Some ([Some 9; Some 8; Some 7], d1)
                ∧ RingDeque.contents d1 = [])
       ∧ (∃ d2, RingDeque.steals 3 d
                = Some ([(Deque.none, 7); (Deque.none, 8); (Deque.none, 9)], d2)
                ∧ RingDeque.contents d2 = []).
Proof.
  assert (0 ≤ 1 < 60) as Hk by lia.
  assert (Z.of_nat (length [7; 8; 9]) < 2 ^ 59) as Hl by (cbn; lia).
  exact (pushes_then_pops_or_steals 1 [7; 8; 9] _ Hk Hl eq_refl).
Defined.
(** ** list.hpp: submissions are handed out in the order they came *)

Section IntrusiveListSpec.

Import IntrusiveList.

Lemma linked_ext h h' ns : ∀ p,
  (∀ n, n ∈ ns → h' !! n = h !! n) → linked h p ns → linked h' p ns.
Proof.
  induction ns as [|n ns IH]; intros p Hext; [done|].
  intros (-> & Hn0 & nd & Hnd & Hl). split; [done|]. split; [done|].
  exists nd. split; [rewrite Hext; [done|by left]|].
  apply IH; [|done]. intros m Hm. apply Hext. by right.
Qed.

Lemma reverse_loop_spec l1 : ∀ fuel last first l2 h,
  linked h last l1 → linked h first l2 → NoDup (l1 ++ l2) →
  (length l1 < fuel)%nat →
  ∃ h', reverse_loop fuel last first h = Some (default 0 (head (reverse l1 ++ l2)), h')
        ∧ linked h' (default 0 (head (reverse l1 ++ l2))) (reverse l1 ++ l2)
        ∧ (∀ n, m_data <$> h' !! n = m_data <$> h !! n)
        ∧ (∀ n, n ∉ l1 → h' !! n = h !! n).
Proof.
  induction l1 as [|n l1 IH]; intros fuel last first l2 h Hl1 Hl2 Hnd Hfuel.
  - simpl in Hl1. subst last. destruct fuel; [simpl in Hfuel; lia|].
    simpl. exists h. split.
    + f_equal. f_equal. destruct l2 as [|m l2]; [done|]. by destruct Hl2 as (-> & _).
    + split; [|done]. destruct l2 as [|m l2]; [done|].
      simpl. by destruct Hl2 as (-> & ?).
  - destruct Hl1 as (-> & Hn0 & nd & Hn & Hl1).
    destruct fuel as [|fuel]; [simpl in Hfuel; lia|]. simpl in Hfuel.
    cbn [reverse_loop]. rewrite decide_True by done. rewrite Hn. cbn [mbind option_bind].
    simpl in Hnd. apply NoDup_cons in Hnd as [Hnotin Hnd].
    set (h1 := <[n := mk_node (m_data nd) first]> h).
    destruct (IH fuel (m_next nd) n (n :: l2) h1) as (h' & Hrun & Hlk & Hdata & Hsame).
    { apply (linked_ext h); [|done]. intros m Hm. unfold h1.
      apply lookup_insert_ne. intros ->. apply Hnotin. apply elem_of_app. by left. }
    { split; [done|]. split; [done|]. exists (mk_node (m_data nd) first).
      split; [apply lookup_insert_eq|]. cbn.
      apply (linked_ext h); [|done]. intros m Hm. unfold h1.
      apply lookup_insert_ne. intros ->. apply Hnotin. apply elem_of_app. by right. }
    { apply NoDup_app. apply NoDup_app in Hnd as (Hn1 & Hdis & Hn2).
      split; [done|]. split.
      - intros m Hm1 Hm2. apply elem_of_cons in Hm2 as [->|Hm2].
        + apply Hnotin. apply elem_of_app. by left.
        + by apply (Hdis m).
      - apply NoDup_cons. split; [|done]. intros Hin. apply Hnotin. apply elem_of_app. by right. }
    { lia. }
    rewrite reverse_cons, <- app_assoc. cbn [app].
    exists h'. split; [exact Hrun|]. split; [exact Hlk|]. split.
    + intros m. rewrite Hdata. unfold h1.
      destruct (decide (m = n)) as [->|Hne].
      * by rewrite lookup_insert_eq, Hn.
      * by rewrite lookup_insert_ne.
    + intros m Hm. rewrite Hsame by (intros Hin; apply Hm; by right).
      unfold h1. apply lookup_insert_ne. intros ->. apply Hm. by left.
Qed.


Lemma list_pushes_spec ns : ∀ hd h l,
  linked h hd l → NoDup (ns ++ l) →
  (∀ n, n ∈ ns → n ≠ 0 ∧ ∃ nd, h !! n = Some nd ∧ m_next nd = 0) →
  ∃ hd' h', pushes ns hd h = Some (hd', h')
            ∧ linked h' hd' (reverse ns ++ l)
            ∧ (∀ n, m_data <$> h' !! n = m_data <$> h !! n).
Proof.
  induction ns as [|n ns IH]; intros hd h l Hl Hnd Hns.
  - exists hd, h. done.
  - destruct (Hns n ltac:(left)) as (Hn0 & nd & Hn & Hnx).
    simpl in Hnd. apply NoDup_cons in Hnd as [Hnotin Hnd].
    cbn [pushes]. unfold push. rewrite Hn. cbn [mbind option_bind].
    rewrite decide_True by done. cbn [mbind option_bind].
    set (h1 := <[n := mk_node (m_data nd) hd]> h).
    destruct (IH n h1 (n :: l)) as (hd' & h' & Hrun & Hlk & Hdata).
    { split; [done|]. split; [done|]. exists (mk_node (m_data nd) hd).
      split; [apply lookup_insert_eq|]. cbn.
      apply (linked_ext h); [|done]. intros m Hm. unfold h1.
      apply lookup_insert_ne. intros ->. apply Hnotin. apply elem_of_app. by right. }
    { apply NoDup_app. apply NoDup_app in Hnd as (Hn1 & Hdis & Hn2).
      split; [done|]. split.
      - intros m Hm1 Hm2. apply elem_of_cons in Hm2 as [->|Hm2].
        + apply Hnotin. apply elem_of_app. by left.
        + by apply (Hdis m).
      - apply NoDup_cons. split; [|done]. intros Hin. apply Hnotin. apply elem_of_app. by right. }
    { intros m Hm. destruct (Hns m ltac:(by right)) as (Hm0 & md & Hmd & Hmx).
      split; [done|]. exists md. split; [|done]. unfold h1.
      rewrite lookup_insert_ne; [done|]. intros ->. apply Hnotin. apply elem_of_app. by left. }
    rewrite reverse_cons, <- app_assoc. cbn [app].
    exists hd', h'. split; [exact Hrun|]. split; [exact Hlk|].
    intros m. rewrite Hdata. unfold h1.
    destruct (decide (m = n)) as [->|Hne].
    + by rewrite lookup_insert_eq, Hn.
    + by rewrite lookup_insert_ne.
Qed.

Lemma for_each_elem_spec l : ∀ fuel root h,
  linked h root l → NoDup l → (length l < fuel)%nat →
  ∃ h', for_each_elem fuel root h = Some (omap (λ n, m_data <$> h !! n) l, h')
        ∧ (∀ n, n ∈ l → h' !! n = None)
        ∧ (∀ n, n ∉ l → h' !! n = h !! n).
Proof.
  induction l as [|n l IH]; intros fuel root h Hl Hnd Hfuel.
  - simpl in Hl. subst root. destruct fuel; [simpl in Hfuel; lia|].
    exists h. split; [done|]. split; [|done]. by intros n ?%elem_of_nil.
  - destruct Hl as (-> & Hn0 & nd & Hn & Hl).
    destruct fuel as [|fuel]; [simpl in Hfuel; lia|]. simpl in Hfuel.
    apply NoDup_cons in Hnd as [Hnotin Hnd].
    cbn [for_each_elem]. rewrite decide_True by done. rewrite Hn. cbn [mbind option_bind].
    destruct (IH fuel (m_next nd) (delete n h)) as (h' & Hrun & Hgone & Hsame);
      [|done|lia|].
    { apply (linked_ext h); [|done]. intros m Hm.
      apply lookup_delete_ne. by intros ->. }
    rewrite Hrun. cbn [mbind option_bind].
    exists h'. split.
    + f_equal. f_equal. cbn [omap list_omap]. rewrite Hn. cbn. f_equal.
      clear -Hnotin. induction l as [|m l IH]; [done|].
      cbn [omap list_omap]. rewrite lookup_delete_ne by (intros ->; apply Hnotin; by left).
      destruct (h !! m); cbn; [f_equal|]; apply IH; intros Hin; apply Hnotin; by right.
    + split.
      * intros m Hm. apply elem_of_cons in Hm as [->|Hm]; [|by apply Hgone].
        rewrite Hsame by done. apply lookup_delete_eq.
      * intros m Hm. rewrite Hsame by (intros Hin; apply Hm; by right).
        apply lookup_delete_ne. intros ->. apply Hm. by left.
Qed.

End IntrusiveListSpec.

(** X13.  Submissions come out first in, first out.  Producers push the
    unlinked nodes [ns] onto an empty list; the consumer's [try_pop_all]
    reverses the links in place, leaves the list empty, and [for_each_elem]
    then calls [func] on the data of the nodes in the order in which they
    were pushed, each node once, reading a node's link before [func] may
    destroy it.  The loops end after one step for each node. *)
Theorem submissions_first_in_first_out (ns : list Z) (h : gmap Z IntrusiveList.node) :
  NoDup ns →
  (∀ n, n ∈ ns → n ≠ 0 ∧ ∃ nd, h !! n = Some nd ∧ IntrusiveList.m_next nd = 0) →
  ∃ hd h1 root h2 h3,
    IntrusiveList.pushes ns 0 h = Some (hd, h1)
    ∧ IntrusiveList.try_pop_all (S (length ns)) hd h1 = Some (root, 0, h2)
    ∧ IntrusiveList.for_each_elem (S (length ns)) root h2
      = Some (omap (λ n, IntrusiveList.m_data <$> h !! n) ns, h3)
    ∧ length (omap (λ n, IntrusiveList.m_data <$> h !! n) ns) = length ns
    ∧ (∀ n, n ∈ ns → h3 !! n = None).
Proof.
  intros Hnd Hns.
  destruct (list_pushes_spec ns 0 h [] eq_refl ltac:(by rewrite app_nil_r) Hns)
    as (hd & h1 & Hpush & Hlk1 & Hd1).
  rewrite app_nil_r in Hlk1.
  destruct (reverse_loop_spec (reverse ns) (S (length ns)) hd 0 [] h1 Hlk1 eq_refl)
    as (h2 & Hrev & Hlk2 & Hd2 & _).
  { rewrite app_nil_r. by rewrite reverse_Permutation. }
  { rewrite length_reverse. lia. }
  rewrite reverse_involutive, app_nil_r in Hrev, Hlk2.
  destruct (for_each_elem_spec ns (S (length ns)) _ h2 Hlk2 Hnd ltac:(lia))
    as (h3 & Hfe & Hgone & _).
  exists hd, h1, (default 0 (head ns)), h2, h3.
  split; [exact Hpush|]. split; [unfold IntrusiveList.try_pop_all; by rewrite Hrev|].
  assert (omap (λ n, IntrusiveList.m_data <$> h2 !! n) ns
          = omap (λ n, IntrusiveList.m_data <$> h !! n) ns) as Heq.
  { clear -Hd1 Hd2. induction ns as [|n ns IH]; [done|].
    cbn [omap list_omap]. rewrite Hd2, Hd1.
    destruct (h !! n); cbn; [f_equal|]; apply IH. }
  rewrite <- Heq. split; [exact Hfe|]. split; [|exact Hgone].
  rewrite Heq. clear -Hns. induction ns as [|n ns IH]; [done|].
  destruct (Hns n ltac:(left)) as (_ & nd & Hn & _).
  cbn [omap list_omap]. rewrite Hn. cbn. f_equal. apply IH.
  intros m Hm. apply Hns. by right.
Qed.

(** Three submissions. *)
Lemma submissions_first_in_first_out_witness :
  ∃ hd h1 root h2 h3,
    IntrusiveList.pushes [16; 32; 48] 0 Samples.three_nodes = Some (hd, h1)
    ∧ IntrusiveList.try_pop_all 4 hd h1 = Some (root, 0, h2)
    ∧ IntrusiveList.for_each_elem 4 root h2 = Some ([101; 102; 103], h3)
    ∧ length [101; 102; 103] = 3%nat
    ∧ (∀ n, n ∈ [16; 32; 48] → h3 !! n = None).
Proof.
  apply (submissions_first_in_first_out [16; 32; 48] Samples.three_nodes).
  - apply NoDup_ListNoDup. repeat constructor; cbn; intuition discriminate.
  - intros n Hn. apply list_elem_of_In in Hn. cbn in Hn.
    destruct Hn as [<-|[<-|[<-|[]]]]; (split; [discriminate|]); eexists; split; reflexivity.
Defined.
(** ** random.hpp: the state of xoshiro256** never becomes zero *)

Section XoshiroSpec.

Import Xoshiro.

Lemma lxor_range a b : 0 ≤ a < 2 ^ 64 → 0 ≤ b < 2 ^ 64 → 0 ≤ Z.lxor a b < 2 ^ 64.
Proof.
  intros Ha Hb. split; [apply Z.lxor_nonneg; lia|].
  destruct (decide (Z.lxor a b = 0)) as [->|Hne]; [lia|].
  apply Z.log2_lt_pow2; [pose proof (proj2 (Z.lxor_nonneg a b)); lia|].
  eapply Z.le_lt_trans; [apply Z.log2_lxor; lia|].
  apply Z.max_lub_lt.
  - destruct (decide (a = 0)) as [->|]; [done|]. apply Z.log2_lt_pow2; lia.
  - destruct (decide (b = 0)) as [->|]; [done|]. apply Z.log2_lt_pow2; lia.
Qed.

Lemma wrap64_range x : 0 ≤ wrap64 x < 2 ^ 64.
Proof. unfold wrap64. apply Z.mod_pos_bound. lia. Qed.

Lemma rotl_range val bits :
  0 ≤ val < 2 ^ 64 → 0 < bits < 64 → 0 ≤ rotl val bits < 2 ^ 64.
Proof.
  intros Hv Hb. unfold rotl.
  pose proof (wrap64_range (Z.shiftl val bits)) as Hw.
  assert (0 ≤ Z.shiftr val (64 - bits) < 2 ^ 64) as Hs.
  { rewrite Z.shiftr_div_pow2 by lia. split; [apply Z.div_pos; [lia|apply Z.pow_pos_nonneg; lia]|].
    apply Z.div_lt_upper_bound; [apply Z.pow_pos_nonneg; lia|].
    assert (1 ≤ 2 ^ (64 - bits)) by (apply (Z.pow_le_mono_r 2 0); lia). nia. }
  set (a := wrap64 _) in *. set (b := Z.shiftr _ _) in *.
  split; [apply Z.lor_nonneg; lia|].
  destruct (decide (Z.lor a b = 0)) as [->|Hne]; [lia|].
  apply Z.log2_lt_pow2; [pose proof (proj2 (Z.lor_nonneg a b)); lia|].
  rewrite Z.log2_lor by lia.
  apply Z.max_lub_lt.
  - destruct (decide (a = 0)) as [->|]; [done|]. apply Z.log2_lt_pow2; lia.
  - destruct (decide (b = 0)) as [->|]; [done|]. apply Z.log2_lt_pow2; lia.
Qed.

Lemma rotl_zero val bits :
  0 ≤ val < 2 ^ 64 → 0 < bits < 64 → rotl val bits = 0 → val = 0.
Proof.
  intros Hv Hb. unfold rotl. intros H. apply Z.lor_eq_0_iff in H as [Hlo Hhi].
  rewrite Z.shiftr_div_pow2 in Hhi by lia.
  assert (0 < 2 ^ (64 - bits)) as Hp by (apply Z.pow_pos_nonneg; lia).
  assert (0 < 2 ^ bits) as Hq by (apply Z.pow_pos_nonneg; lia).
  assert (val < 2 ^ (64 - bits)) as Hsmall.
  { apply Z.div_small_iff in Hhi; lia. }
  unfold wrap64 in Hlo. rewrite Z.shiftl_mul_pow2 in Hlo by lia.
  rewrite Z.mod_small in Hlo.
  - nia.
  - split; [nia|].
    replace (2 ^ 64) with (2 ^ (64 - bits) * 2 ^ bits)
      by (rewrite <- Z.pow_add_r by lia; f_equal; lia).
    nia.
Qed.

Lemma shift17_fixed x : 0 ≤ x < 2 ^ 64 → wrap64 (Z.shiftl x 17) = x → x = 0.
Proof.
  intros Hx. unfold wrap64. rewrite Z.shiftl_mul_pow2 by lia. intros H.
  pose proof (Z.div_mod (x * 2 ^ 17) (2 ^ 64) ltac:(lia)) as Hd. rewrite H in Hd.
  assert (Z.divide (2 ^ 64) (x * (2 ^ 17 - 1))) as Hdiv.
  { exists ((x * 2 ^ 17) / 2 ^ 64). lia. }
  rewrite Z.mul_comm in Hdiv. apply Z.gauss in Hdiv; [|reflexivity].
  destruct Hdiv as [k Hk]. nia.
Qed.


Lemma next_spec g :
  in_range g →
  in_range (next g).2 ∧ 0 ≤ (next g).1 < 2 ^ 64 ∧ ((next g).2 = zero ↔ g = zero).
Proof.
  intros (H0 & H1 & H2 & H3). unfold next. cbn [fst snd].
  pose proof (lxor_range _ _ H2 H0) as H20.
  pose proof (lxor_range _ _ H3 H1) as H31.
  pose proof (lxor_range _ _ H1 H20) as H120.
  pose proof (lxor_range _ _ H0 H31) as H031.
  pose proof (lxor_range _ _ H20 (wrap64_range (Z.shiftl (s1 g) 17))) as H2b.
  pose proof (rotl_range _ 45 H31 ltac:(lia)) as H3b.
  split; [unfold in_range; cbn [s0 s1 s2 s3]; tauto|]. split; [apply wrap64_range|]. split.
  - intros [= E0 E1 E2 E3].
    apply (rotl_zero _ 45 H31 ltac:(lia)) in E3.
    rewrite E3, Z.lxor_0_r in E0.
    apply Z.lxor_eq in E3. rewrite E0, Z.lxor_0_r in E1, E2.
    apply Z.lxor_eq in E1. apply Z.lxor_eq in E2.
    assert (s1 g = 0) as E by (apply shift17_fixed; [done|congruence]).
    destruct g as [a b c d]. cbn in *. unfold zero. f_equal; congruence.
  - intros ->. reflexivity.
Qed.

Lemma draws_spec n : ∀ g,
  in_range g →
  in_range (draws n g).2
  ∧ Forall (λ x, 0 ≤ x < 2 ^ 64) (draws n g).1
  ∧ ((draws n g).2 = zero ↔ g = zero).
Proof.
  induction n as [|n IH]; intros g Hg.
  - cbn [draws fst snd]. split; [done|]. split; [constructor|done].
  - destruct (next_spec g Hg) as (Hr & Hx & Hz).
    cbn [draws]. destruct (next g) as [x g'] eqn:Hn. cbn [fst snd] in *.
    destruct (IH g' Hr) as (Hr' & Hxs & Hz').
    destruct (draws n g') as [xs g'']. cbn [fst snd] in *.
    split; [done|]. split; [by constructor|]. by rewrite Hz', Hz.
Qed.

Lemma draws_zero n : draws n zero = (replicate n 0, zero).
Proof.
  induction n as [|n IH]; [done|].
  assert (next zero = (0, zero)) as Hz by reflexivity.
  cbn [draws]. rewrite Hz, IH. done.
Qed.

End XoshiroSpec.

(** X14.  A seeded generator never gets stuck.  The state of xoshiro256**
    stays four 64-bit words and every number drawn is a 64-bit value; after
    any number of draws the state is all zero only if the seed was; and the
    all-zero state is the one the seed must avoid: from it every draw is
    zero and the state does not move. *)
Theorem xoshiro_state_never_zero (n : nat) (g : Xoshiro.xoshiro) :
  Xoshiro.in_range g →
  Xoshiro.in_range (Xoshiro.draws n g).2
  ∧ Forall (λ x, 0 ≤ x < 2 ^ 64) (Xoshiro.draws n g).1
  ∧ ((Xoshiro.draws n g).2 = Xoshiro.zero ↔ g = Xoshiro.zero)
  ∧ Xoshiro.draws n Xoshiro.zero = (replicate n 0, Xoshiro.zero).
Proof.
  intros Hg. destruct (draws_spec n g Hg) as (H1 & H2 & H3).
  split; [exact H1|]. split; [exact H2|]. split; [exact H3|]. apply draws_zero.
Qed.

(** The default seed. *)
Lemma xoshiro_state_never_zero_witness :
  (Xoshiro.draws 3 Xoshiro.default_seed).2 = Xoshiro.zero
  ↔ Xoshiro.default_seed = Xoshiro.zero.
Proof.
  assert (Xoshiro.in_range Xoshiro.default_seed) as Hg.
  { unfold Xoshiro.in_range. cbn. lia. }
  exact (proj1 (proj2 (proj2 (xoshiro_state_never_zero 3 Xoshiro.default_seed Hg)))).
Defined.
(** ** fold.hpp: the parallel fold is the sequential one *)

Section FoldSpec.

Import Fold.

Variables A B : Type.
Variable proj : A → B.
Variable bop : B → B → B.
Variable data : list A.
Hypothesis bop_assoc : ∀ x y z, bop (bop x y) z = bop x (bop y z).

Lemma foldl_assoc c cs : ∀ a, foldl bop (bop a c) cs = bop a (foldl bop c cs).
Proof.
  revert c. induction cs as [|d cs IH]; intros c a; [done|].
  simpl. by rewrite <- IH, bop_assoc.
Qed.

Lemma reduce_app (l1 l2 : list B) b1 b2 :
  reduce bop l1 = Some b1 → reduce bop l2 = Some b2 →
  reduce bop (l1 ++ l2) = Some (bop b1 b2).
Proof.
  destruct l1 as [|x l1]; [done|]. destruct l2 as [|y l2]; [done|].
  simpl. intros [= <-] [= <-]. f_equal.
  by rewrite foldl_app, <- foldl_assoc.
Qed.

Lemma slice_split (head mid tail : nat) :
  (head ≤ mid ≤ tail)%nat →
  slice A B proj data head tail
  = slice A B proj data head mid ++ slice A B proj data mid tail.
Proof.
  intros H. unfold slice. rewrite <- fmap_app. f_equal.
  replace (tail - head)%nat with ((mid - head) + (tail - mid))%nat by lia.
  rewrite <- take_take_drop, drop_drop. do 3 f_equal. lia.
Qed.

Lemma slice_cons (head tail : nat) x :
  (head < tail)%nat → data !! head = Some x →
  slice A B proj data head tail = proj x :: slice A B proj data (S head) tail.
Proof.
  intros Hlt Hx. unfold slice.
  rewrite (drop_S _ _ _ Hx).
  replace (tail - head)%nat with (S (tail - S head)) by lia. done.
Qed.

Lemma accumulate_spec (tail : nat) : ∀ (k head : nat) lhs,
  (tail ≤ length data)%nat → (head + k = tail)%nat →
  accumulate A B proj bop data lhs head tail
  = Some (foldl bop lhs (slice A B proj data head tail)).
Proof.
  intros k. induction k as [|k IH]; intros head lhs Hlen Hk.
  - unfold accumulate, slice. replace (tail - head)%nat with 0%nat by lia. done.
  - destruct (lookup_lt_is_Some_2 data head ltac:(lia)) as [x Hx].
    rewrite (slice_cons head tail x ltac:(lia) Hx).
    unfold accumulate. replace (tail - head)%nat with (S (tail - S head)) by lia.
    cbn [seq foldl mbind option_bind]. rewrite Hx. cbn [mbind option_bind].
    apply (IH (S head)); [done|lia].
Qed.

Lemma slice_reduce (head tail : nat) :
  (head < tail ≤ length data)%nat →
  ∃ b, reduce bop (slice A B proj data head tail) = Some b.
Proof.
  intros H. destruct (lookup_lt_is_Some_2 data head ltac:(lia)) as [x Hx].
  rewrite (slice_cons head tail x ltac:(lia) Hx). by eexists.
Qed.

Lemma halves (head tail : nat) :
  (head + 1 < tail)%nat →
  let mid := (head + Z.to_nat ((Z.of_nat tail - Z.of_nat head) / 2))%nat in
  (head < mid < tail)%nat.
Proof.
  intros H mid.
  assert (1 ≤ (Z.of_nat tail - Z.of_nat head) / 2) by (apply Z.div_le_lower_bound; lia).
  assert ((Z.of_nat tail - Z.of_nat head) / 2 < Z.of_nat tail - Z.of_nat head)
    by (apply Z.div_lt_upper_bound; lia).
  unfold mid. lia.
Qed.

Lemma fold_impl_n_spec (n : Z) : ∀ (fuel head tail : nat),
  1 < n → (head < tail ≤ length data)%nat → (tail - head < fuel)%nat →
  fold_impl_n A B proj bop data fuel head tail n
  = reduce bop (slice A B proj data head tail).
Proof.
  induction fuel as [|fuel IH]; intros head tail Hn Hr Hfuel; [lia|].
  cbn [fold_impl_n]. rewrite decide_True by lia. rewrite decide_True by lia.
  destruct (decide (Z.of_nat tail - Z.of_nat head ≤ n)) as [Hsmall|Hbig].
  - destruct (lookup_lt_is_Some_2 data head ltac:(lia)) as [x Hx].
    rewrite Hx. cbn [mbind option_bind].
    rewrite (accumulate_spec tail (tail - S head) (S head)) by lia.
    by rewrite (slice_cons head tail x ltac:(lia) Hx).
  - pose proof (halves head tail ltac:(lia)) as Hmid. cbv zeta in Hmid.
    set (mid := (head + Z.to_nat ((Z.of_nat tail - Z.of_nat head) / 2))%nat) in *.
    rewrite decide_True by lia.
    rewrite (IH head mid), (IH mid tail) by lia.
    destruct (slice_reduce head mid ltac:(lia)) as [b1 Hb1].
    destruct (slice_reduce mid tail ltac:(lia)) as [b2 Hb2].
    rewrite Hb1, Hb2. cbn [mbind option_bind].
    rewrite (slice_split head mid tail) by lia. symmetry. by apply reduce_app.
Qed.

Lemma fold_impl_spec : ∀ (fuel head tail : nat),
  (head < tail ≤ length data)%nat → (tail - head < fuel)%nat →
  fold_impl A B proj bop data fuel head tail
  = reduce bop (slice A B proj data head tail).
Proof.
  induction fuel as [|fuel IH]; intros head tail Hr Hfuel; [lia|].
  cbn [fold_impl]. rewrite decide_True by lia. rewrite decide_False by lia.
  destruct (decide (Z.of_nat tail - Z.of_nat head = 1)) as [Hone|Hmore].
  - destruct (lookup_lt_is_Some_2 data head ltac:(lia)) as [x Hx].
    rewrite Hx. cbn [mbind option_bind].
    rewrite (slice_cons head tail x ltac:(lia) Hx).
    unfold slice. replace (tail - S head)%nat with 0%nat by lia. done.
  - pose proof (halves head tail ltac:(lia)) as Hmid. cbv zeta in Hmid.
    set (mid := (head + Z.to_nat ((Z.of_nat tail - Z.of_nat head) / 2))%nat) in *.
    rewrite decide_True by lia.
    rewrite (IH head mid), (IH mid tail) by lia.
    destruct (slice_reduce head mid ltac:(lia)) as [b1 Hb1].
    destruct (slice_reduce mid tail ltac:(lia)) as [b2 Hb2].
    rewrite Hb1, Hb2. cbn [mbind option_bind].
    rewrite (slice_split head mid tail) by lia. symmetry. by apply reduce_app.
Qed.

(** X15.  [lf::fold] returns what the sequential left fold returns.  For
    an associative [bop], folding a range with any chunk size [n >= 1] gives
    [std::nullopt] on an empty range and otherwise the left fold of the
    projected elements, whatever way the range was split between the forked
    and the called halves; the recursion ends within one level for each
    element.  A chunk size [n < 1] on a range that is not empty fails the
    assertion [n > 1]. *)
Theorem fold_is_left_fold (n : Z) (fuel : nat) :
  (length data < fuel)%nat →
  (1 ≤ n → fold A B proj bop data fuel n = Some (reduce bop (proj <$> data)))
  ∧ (n < 1 → data ≠ [] → fold A B proj bop data fuel n = None).
Proof.
  intros Hfuel. unfold fold.
  assert (slice A B proj data 0 (length data) = proj <$> data) as Hall.
  { unfold slice. by rewrite drop_0, Nat.sub_0_r, firstn_all. }
  split.
  - intros Hn. destruct (decide (data = [])) as [->|Hne]; [done|].
    assert (0 < length data)%nat as Hpos by (destruct data; [done|simpl; lia]).
    destruct (slice_reduce 0 (length data) ltac:(lia)) as [b Hb].
    destruct (decide (n = 1)).
    + rewrite fold_impl_spec by lia. rewrite Hb. cbn [mbind option_bind].
      by rewrite <- Hall, Hb.
    + rewrite fold_impl_n_spec by lia. rewrite Hb. cbn [mbind option_bind].
      by rewrite <- Hall, Hb.
  - intros Hn Hne. rewrite decide_False by done. rewrite decide_False by lia.
    destruct fuel; [done|]. cbn [fold_impl_n]. by rewrite decide_False by lia.
Qed.

End FoldSpec.

(** The sum of 1..5 in chunks of 2. *)
Lemma fold_is_left_fold_witness :
  Fold.fold Z Z id Z.add [1; 2; 3; 4; 5] 6 2 = Some (Some 15).
Proof.
  assert (length [1; 2; 3; 4; 5] < 6)%nat as Hfuel by (cbn; lia).
  assert (1 ≤ 2) as Hn by lia.
  exact (proj1 (fold_is_left_fold Z Z id Z.add [1; 2; 3; 4; 5]
                  (λ x y z, eq_sym (Z.add_assoc x y z)) 2 6 Hfuel) Hn).
Defined.
(** ** for_each.hpp and map.hpp: every element once *)

Section ForEachSpec.

Import Fold ForEach.

Variables A B : Type.
Variable proj : A → B.
Variable data : list A.

Lemma visit_spec (tail : nat) : ∀ (k head : nat) acc,
  (tail ≤ length data)%nat → (head + k = tail)%nat →
  foldl (λ acc i, l ← acc; x ← data !! i; Some (l ++ [proj x]))
        (Some acc) (seq head (tail - head))
  = Some (acc ++ slice A B proj data head tail).
Proof.
  intros k. induction k as [|k IH]; intros head acc Hlen Hk.
  - unfold slice. replace (tail - head)%nat with 0%nat by lia. cbn. by rewrite app_nil_r.
  - destruct (lookup_lt_is_Some_2 data head ltac:(lia)) as [x Hx].
    rewrite (slice_cons A B proj data head tail x ltac:(lia) Hx).
    replace (tail - head)%nat with (S (tail - S head)) by lia.
    cbn [seq foldl mbind option_bind]. rewrite Hx. cbn [mbind option_bind].
    rewrite (IH (S head)) by lia. by rewrite <- app_assoc.
Qed.

Lemma for_each_n_spec (n : Z) : ∀ (fuel head tail : nat),
  0 < n → (head ≤ tail ≤ length data)%nat → (tail - head < fuel)%nat →
  for_each_n A B proj data fuel head tail n = Some (slice A B proj data head tail).
Proof.
  induction fuel as [|fuel IH]; intros head tail Hn Hr Hfuel; [lia|].
  cbn [for_each_n]. rewrite decide_True by lia. rewrite decide_True by lia.
  destruct (decide (Z.of_nat tail - Z.of_nat head = 0)) as [Hz|Hnz].
  - unfold slice. replace (tail - head)%nat with 0%nat by lia. done.
  - destruct (decide (Z.of_nat tail - Z.of_nat head ≤ n)) as [Hsmall|Hbig].
    + unfold visit. by rewrite (visit_spec tail (tail - head) head []) by lia.
    + pose proof (halves head tail ltac:(lia)) as Hmid. cbv zeta in Hmid.
      set (mid := (head + Z.to_nat ((Z.of_nat tail - Z.of_nat head) / 2))%nat) in *.
      rewrite (IH head mid), (IH mid tail) by lia. cbn [mbind option_bind].
      by rewrite (slice_split A B proj data head mid tail) by lia.
Qed.

Lemma for_each_1_spec : ∀ (fuel head tail : nat),
  (head ≤ tail ≤ length data)%nat → (tail - head < fuel)%nat →
  for_each_1 A B proj data fuel head tail = Some (slice A B proj data head tail).
Proof.
  induction fuel as [|fuel IH]; intros head tail Hr Hfuel; [lia|].
  cbn [for_each_1]. rewrite decide_True by lia.
  destruct (decide (Z.of_nat tail - Z.of_nat head = 0)) as [Hz|Hnz].
  - unfold slice. replace (tail - head)%nat with 0%nat by lia. done.
  - destruct (decide (Z.of_nat tail - Z.of_nat head = 1)) as [Hone|Hmore].
    + destruct (lookup_lt_is_Some_2 data head ltac:(lia)) as [x Hx].
      rewrite Hx. cbn [mbind option_bind].
      rewrite (slice_cons A B proj data head tail x ltac:(lia) Hx).
      unfold slice. replace (tail - S head)%nat with 0%nat by lia. done.
    + pose proof (halves head tail ltac:(lia)) as Hmid. cbv zeta in Hmid.
      set (mid := (head + Z.to_nat ((Z.of_nat tail - Z.of_nat head) / 2))%nat) in *.
      rewrite (IH head mid), (IH mid tail) by lia. cbn [mbind option_bind].
      by rewrite (slice_split A B proj data head mid tail) by lia.
Qed.

End ForEachSpec.

(** X16.  [lf::for_each] calls [fun] on every element once.  For a chunk
    size [n >= 1] the calls are, in the order of the serial execution, the
    projected elements of the range from first to last, each once, however
    the range was split; the recursion ends within one level for each
    element.  A chunk size [n < 1] fails the assertion [n > 0], also on an
    empty range. *)
Theorem for_each_visits_each_once (A B : Type) (proj : A → B) (data : list A)
    (n : Z) (fuel : nat) :
  (length data < fuel)%nat →
  (1 ≤ n → ForEach.for_each A B proj data fuel n = Some (proj <$> data))
  ∧ (n < 1 → ForEach.for_each A B proj data fuel n = None).
Proof.
  intros Hfuel. unfold ForEach.for_each.
  assert (Fold.slice A B proj data 0 (length data) = proj <$> data) as Hall.
  { unfold Fold.slice. by rewrite drop_0, Nat.sub_0_r, firstn_all. }
  split.
  - intros Hn. rewrite decide_True by lia. destruct (decide (n = 1)).
    + by rewrite for_each_1_spec, Hall by lia.
    + by rewrite for_each_n_spec, Hall by lia.
  - intros Hn. by rewrite decide_False by lia.
Qed.

Lemma for_each_visits_each_once_witness :
  ForEach.for_each Z Z (Z.mul 2) [1; 2; 3; 4; 5] 6 2 = Some [2; 4; 6; 8; 10].
Proof.
  assert (length [1; 2; 3; 4; 5] < 6)%nat as Hfuel by (cbn; lia).
  assert (1 ≤ 2) as Hn by lia.
  exact (proj1 (for_each_visits_each_once Z Z (Z.mul 2) [1; 2; 3; 4; 5] 2 6 Hfuel) Hn).
Defined.

Section MapSpec.

Import Fold Map.

Variables A B C : Type.
Variable proj : A → B.
Variable func : B → C.
Variable data : list A.

Lemma slice_length (head tail : nat) :
  (head ≤ tail ≤ length data)%nat → length (slice A B proj data head tail) = (tail - head)%nat.
Proof.
  intros H. unfold slice. rewrite length_fmap, length_take_le; [done|].
  rewrite length_drop. lia.
Qed.

Lemma assign_spec (head tail out : nat) : ∀ (k i : nat) acc,
  (tail ≤ length data)%nat → (head + i + k = tail)%nat →
  foldl (λ acc i, l ← acc; x ← data !! (head + i)%nat;
                  Some (l ++ [((out + i)%nat, func (proj x))]))
        (Some acc) (seq i k)
  = Some (acc ++ zip (seq (out + i) k) (func <$> slice A B proj data (head + i) tail)).
Proof.
  intros k. induction k as [|k IH]; intros i acc Hlen Hk.
  - cbn. by rewrite app_nil_r.
  - destruct (lookup_lt_is_Some_2 data (head + i) ltac:(lia)) as [x Hx].
    rewrite (slice_cons A B proj data (head + i) tail x ltac:(lia) Hx).
    cbn [seq foldl mbind option_bind]. rewrite Hx. cbn [mbind option_bind].
    rewrite (IH (S i)) by lia. rewrite <- app_assoc. cbn [fmap list_fmap zip zip_with app].
    replace (out + S i)%nat with (S (out + i)) by lia.
    replace (head + S i)%nat with (S (head + i)) by lia. done.
Qed.

Lemma zip_split (out a b : nat) (l1 l2 : list C) :
  length l1 = a →
  zip (seq out (a + b)) (l1 ++ l2) = zip (seq out a) l1 ++ zip (seq (out + a) b) l2.
Proof.
  intros Hl. rewrite seq_app. apply zip_with_app. by rewrite length_seq.
Qed.

Lemma map_split (head mid tail out : nat) :
  (head ≤ mid ≤ tail)%nat → (tail ≤ length data)%nat →
  zip (seq out (tail - head)) (func <$> slice A B proj data head tail)
  = zip (seq out (mid - head)) (func <$> slice A B proj data head mid)
    ++ zip (seq (out + (mid - head)) (tail - mid)) (func <$> slice A B proj data mid tail).
Proof.
  intros H Hlen. rewrite (slice_split A B proj data head mid tail) by lia.
  rewrite fmap_app.
  replace (tail - head)%nat with ((mid - head) + (tail - mid))%nat by lia.
  apply zip_split. rewrite length_fmap. apply slice_length. lia.
Qed.

Lemma map_n_spec (n : Z) : ∀ (fuel head tail out : nat),
  0 < n → (head ≤ tail ≤ length data)%nat → (tail - head < fuel)%nat →
  map_n A B C proj func data fuel head tail out n
  = Some (zip (seq out (tail - head)) (func <$> slice A B proj data head tail)).
Proof.
  induction fuel as [|fuel IH]; intros head tail out Hn Hr Hfuel; [lia|].
  cbn [map_n]. rewrite decide_True by lia. rewrite decide_True by lia.
  destruct (decide (Z.of_nat tail - Z.of_nat head = 0)) as [Hz|Hnz].
  - replace (tail - head)%nat with 0%nat by lia. done.
  - destruct (decide (Z.of_nat tail - Z.of_nat head ≤ n)) as [Hsmall|Hbig].
    + unfold assign. rewrite (assign_spec head tail out (tail - head) 0 []) by lia.
      cbn [app]. do 3 f_equal; [lia|]. do 2 f_equal. lia.
    + pose proof (halves head tail ltac:(lia)) as Hmid. cbv zeta in Hmid.
      set (dif := Z.to_nat ((Z.of_nat tail - Z.of_nat head) / 2)) in *.
      rewrite (IH head (head + dif)%nat), (IH (head + dif)%nat tail) by lia.
      cbn [mbind option_bind].
      rewrite (map_split head (head + dif) tail out) by lia.
      do 4 f_equal; lia.
Qed.

Lemma map_1_spec : ∀ (fuel head tail out : nat),
  (head ≤ tail ≤ length data)%nat → (tail - head < fuel)%nat →
  map_1 A B C proj func data fuel head tail out
  = Some (zip (seq out (tail - head)) (func <$> slice A B proj data head tail)).
Proof.
  induction fuel as [|fuel IH]; intros head tail out Hr Hfuel; [lia|].
  cbn [map_1]. rewrite decide_True by lia.
  destruct (decide (Z.of_nat tail - Z.of_nat head = 0)) as [Hz|Hnz].
  - replace (tail - head)%nat with 0%nat by lia. done.
  - destruct (decide (Z.of_nat tail - Z.of_nat head = 1)) as [Hone|Hmore].
    + destruct (lookup_lt_is_Some_2 data head ltac:(lia)) as [x Hx].
      rewrite Hx. cbn [mbind option_bind].
      rewrite (slice_cons A B proj data head tail x ltac:(lia) Hx).
      replace (tail - head)%nat with 1%nat by lia. done.
    + pose proof (halves head tail ltac:(lia)) as Hmid. cbv zeta in Hmid.
      set (dif := Z.to_nat ((Z.of_nat tail - Z.of_nat head) / 2)) in *.
      rewrite (IH head (head + dif)%nat), (IH (head + dif)%nat tail) by lia.
      cbn [mbind option_bind].
      rewrite (map_split head (head + dif) tail out) by lia.
      do 4 f_equal; lia.
Qed.

Lemma store_all_spec (vs : list C) : ∀ (out : nat) (o : list C),
  (out + length vs ≤ length o)%nat →
  store_all C (zip (seq out (length vs)) vs) o
  = Some (take out o ++ vs ++ drop (out + length vs) o).
Proof.
  unfold store_all.
  induction vs as [|v vs IH]; intros out o Hlen.
  - cbn. by rewrite Nat.add_0_r, take_drop.
  - cbn [length] in Hlen. cbn [length seq zip zip_with foldl fst snd mbind option_bind].
    destruct (lookup_lt_is_Some_2 o out ltac:(lia)) as [x Hx].
    rewrite Hx. cbn [mbind option_bind].
    rewrite IH by (rewrite length_insert; lia).
    rewrite (take_S_r _ _ v) by (apply list_lookup_insert_eq; lia).
    rewrite take_insert_ge by lia. rewrite drop_insert_lt by lia.
    rewrite <- app_assoc.
    replace (out + S (length vs))%nat with (S out + length vs)%nat by lia. done.
Qed.

End MapSpec.

(** X17.  [lf::map] assigns every position of the output once.  For a
    chunk size [n >= 1] and an output range that has room for the input, the
    assignments are [out[i] = fun(proj(data[i]))], one for each position [i]
    of the input and none elsewhere, so that the forked and the called halves
    never assign to the same position; afterwards the output holds the mapped
    elements and is unchanged outside them.  A chunk size [n < 1] fails the
    assertion [n > 0]. *)
Theorem map_assigns_each_once (A B C : Type) (proj : A → B) (func : B → C)
    (data : list A) (n : Z) (fuel out : nat) (o : list C) :
  (length data < fuel)%nat → (out + length data ≤ length o)%nat →
  (1 ≤ n →
     Map.map A B C proj func data fuel out n
     = Some (zip (seq out (length data)) (func <$> (proj <$> data)))
     ∧ Map.store_all C (zip (seq out (length data)) (func <$> (proj <$> data))) o
       = Some (take out o ++ (func <$> (proj <$> data)) ++ drop (out + length data) o))
  ∧ (n < 1 → Map.map A B C proj func data fuel out n = None).
Proof.
  intros Hfuel Hroom. unfold Map.map.
  assert (Fold.slice A B proj data 0 (length data) = proj <$> data) as Hall.
  { unfold Fold.slice. by rewrite drop_0, Nat.sub_0_r, firstn_all. }
  split.
  - intros Hn. rewrite decide_True by lia. split.
    + destruct (decide (n = 1)).
      * by rewrite map_1_spec, Nat.sub_0_r, Hall by lia.
      * by rewrite map_n_spec, Nat.sub_0_r, Hall by lia.
    + pose proof (store_all_spec C (func <$> (proj <$> data)) out o) as Hs.
      rewrite !length_fmap in Hs. by apply Hs.
  - intros Hn. by rewrite decide_False by lia.
Qed.

Lemma map_assigns_each_once_witness :
  Map.map Z Z Z id (Z.mul 2) [1; 2; 3] 4 1 2 = Some [(1%nat, 2); (2%nat, 4); (3%nat, 6)]
  ∧ Map.store_all Z [(1%nat, 2); (2%nat, 4); (3%nat, 6)] [0; 0; 0; 0; 0]
    = Some [0; 2; 4; 6; 0].
Proof.
  assert (length [1; 2; 3] < 4)%nat as Hfuel by (cbn; lia).
  assert (1 + length [1; 2; 3] ≤ length [0; 0; 0; 0; 0])%nat as Hroom by (cbn; lia).
  assert (1 ≤ 2) as Hn by lia.
  exact (proj1 (map_assigns_each_once Z Z Z id (Z.mul 2) [1; 2; 3] 2 4 1 [0; 0; 0; 0; 0]
                  Hfuel Hroom) Hn).
Defined.
(** ** tls.hpp: a worker's life *)

(** X18.  The life of a worker.  On a thread whose thread-local variables
    are as initialised, [worker_init] (the stack being constructed) returns
    the context and [finalize] of that context brings the variables back to
    where they were.  In between, a second [worker_init] and a [schedule]
    throw and change nothing; before and after, [finalize] throws; and
    [finalize] of any other pointer throws.  [schedule] on a thread that is
    no worker leaves the variables as initialised, whether it returns or
    throws. *)
Theorem worker_init_finalize_protocol (data other : Z) (stack_ok rest_ok : bool) :
  other ≠ data →
  let worker := Tls.mk_tls true true true true in
  Tls.worker_init true data Tls.initial = Some (Tls.Returns data, worker)
  ∧ Tls.stack worker = Some () ∧ Tls.context worker = Some ()
  ∧ Tls.worker_init stack_ok data worker = Some (Tls.Throws Tls.worker_already_initialized, worker)
  ∧ Tls.schedule stack_ok rest_ok worker = Some (Tls.Throws Tls.schedule_in_worker, worker)
  ∧ Tls.finalize other data worker = Some (Tls.Throws Tls.finalize_on_wrong_thread, worker)
  ∧ Tls.finalize data data worker = Some (Tls.Returns (), Tls.initial)
  ∧ Tls.finalize data data Tls.initial
    = Some (Tls.Throws Tls.finalize_not_initialized, Tls.initial)
  ∧ ∃ o, Tls.schedule stack_ok rest_ok Tls.initial = Some (o, Tls.initial).
Proof.
  intros Hne worker. unfold worker.
  repeat split; try reflexivity.
  - unfold Tls.finalize. by rewrite decide_True.
  - unfold Tls.finalize. by rewrite decide_False by (intros H; by apply H).
  - unfold Tls.finalize. by rewrite decide_False by (intros H; by apply H).
  - destruct stack_ok, rest_ok; eexists; reflexivity.
Qed.

Lemma worker_init_finalize_protocol_witness :
  Tls.finalize 64 64 (Tls.mk_tls true true true true) = Some (Tls.Returns (), Tls.initial).
Proof.
  assert (0 ≠ 64) as Hne by discriminate.
  exact (proj1 (proj2 (proj2 (proj2 (proj2 (proj2 (proj2
    (worker_init_finalize_protocol 64 0 true true Hne)))))))).
Defined.

(** X19.  A failure that is not reported.  When the construction of the
    stack throws in [worker_init], the handler destroys the context and does
    not rethrow: [worker_init] returns the pointer to the destroyed context
    with both flags set, although neither the stack nor the context lives.
    The accessors [tls::stack()] and [tls::context()] then hand out storage
    without an object, and [finalize] destroys the context a second time. *)
Theorem worker_init_swallows_bad_alloc (data : Z) (t : Tls.tls) :
  Tls.has_context t && Tls.has_stack t = false →
  ∃ t', Tls.worker_init false data t = Some (Tls.Returns data, t')
        ∧ Tls.has_stack t' = true ∧ Tls.has_context t' = true
        ∧ Tls.thread_context t' = false
        ∧ Tls.thread_stack t' = Tls.thread_stack t
        ∧ Tls.context t' = None
        ∧ (Tls.thread_stack t = false → Tls.stack t' = None)
        ∧ Tls.finalize data data t' = None.
Proof.
  intros Hinit. unfold Tls.worker_init. rewrite Hinit. cbn.
  eexists. split; [reflexivity|]. cbn. repeat split.
  - unfold Tls.stack. cbn. by intros ->.
  - unfold Tls.finalize. by rewrite decide_False by (intros H; by apply H).
Qed.

Lemma worker_init_swallows_bad_alloc_witness :
  ∃ t', Tls.worker_init false 64 Tls.initial = Some (Tls.Returns 64, t')
        ∧ Tls.has_stack t' = true ∧ Tls.has_context t' = true
        ∧ Tls.thread_context t' = false
        ∧ Tls.thread_stack t' = false
        ∧ Tls.context t' = None
        ∧ (false = false → Tls.stack t' = None)
        ∧ Tls.finalize 64 64 t' = None.
Proof. exact (worker_init_swallows_bad_alloc 64 Tls.initial eq_refl). Defined.
(** ** lazy_pool.hpp: the counters count workers *)

(** X20.  The counters of the lazy pool are exact.  In every state that
    the workers reach within [2^31] atomic operations, [active] is the number
    of workers inside [thief_work_sleep] past its increment, the thief counter
    of each domain is the number of that domain's workers between their
    increment and their decrement, and the low half of the domain's notifier
    is the number of its workers registered as waiters, while its epoch has
    been bumped at most once for each operation.  So no [fetch_sub] ever takes
    a counter below zero, and no counter exceeds the number of workers. *)
Theorem lazy_counters_exact (ndom : nat) (doms : list nat) (n : nat) (s : Lazy.state) :
  Forall (λ d, (d < ndom)%nat) doms →
  Z.of_nat (length doms) < 2 ^ 31 →
  Z.of_nat n < 2 ^ 31 →
  Lazy.reachable ndom doms n s →
  Lazy.active (Lazy.vars s) = Lazy.count (λ t, Lazy.active_pc (Lazy.at_pc t)) (Lazy.threads s)
  ∧ 0 ≤ Lazy.active (Lazy.vars s) ≤ Z.of_nat (length (Lazy.threads s))
  ∧ ∀ d c, Lazy.numa (Lazy.vars s) !! d = Some c →
      Lazy.thief c = Lazy.count (Lazy.in_dom d Lazy.thief_pc) (Lazy.threads s)
      ∧ 0 ≤ Lazy.thief c ≤ Z.of_nat (length (Lazy.threads s))
      ∧ EventCount.waiters (Lazy.notifier c)
        = Lazy.count (Lazy.in_dom d Lazy.waiter_pc) (Lazy.threads s)
      ∧ 0 ≤ EventCount.epoch (Lazy.notifier c) ≤ Z.of_nat n.
Proof.
  intros Hdoms Hlen Hn (ls & Hls & Hrun).
  destruct (init_consistent ndom doms Hdoms Hlen) as [Hc0 Hv0].
  destruct (run_preserves ls 0 _ s Hc0 Hv0 ltac:(lia) Hrun) as [Hcons _].
  rewrite Z.add_0_l, Hls in Hcons.
  split; [exact (Lazy.c_active _ _ Hcons)|]. split.
  - rewrite (Lazy.c_active _ _ Hcons).
    split; [apply count_nonneg|apply count_le_length].
  - intros d c Hc.
    destruct (Lazy.c_domain _ _ Hcons d c Hc) as (HT & e & He & Hnot & _).
    destruct (consistent_bounds _ _ d c Hcons Hc) as (Hw & _ & _).
    split; [exact HT|]. split.
    + rewrite HT. split; [apply count_nonneg|apply count_le_length].
    + rewrite Hnot.
      destruct (word_join e (Lazy.count (Lazy.in_dom d Lazy.waiter_pc) (Lazy.threads s)))
        as [Hep Hwt]; [lia|lia|].
      rewrite Hep, Hwt. split; [done|lia].
Qed.

Lemma lazy_counters_exact_witness :
  Lazy.active (Lazy.vars Samples.race_state)
  = Lazy.count (λ t, Lazy.active_pc (Lazy.at_pc t)) (Lazy.threads Samples.race_state).
Proof.
  assert (Forall (λ d, (d < 2)%nat) [0; 1]%nat) as Hd by (repeat constructor).
  assert (Z.of_nat (length [0; 1]%nat) < 2 ^ 31) as Hl by (cbn; lia).
  assert (Z.of_nat 14 < 2 ^ 31) as Hn by (cbn; lia).
  exact (proj1 (lazy_counters_exact 2 [0; 1]%nat 14 Samples.race_state Hd Hl Hn
                  race_state_reachable)).
Defined.
(** ** awaitables.hpp and promise.hpp: a fork that nobody steals *)

(** X21.  The fast path of fork and join.  A parent [self] forks a child:
    [fork_awaitable::await_suspend] pushes the parent on the worker's deque
    and transfers to the child.  When the child reaches its final suspend
    and no thief has taken the parent in between, the child's frame is
    destroyed, the pop returns the parent, and control goes back to the parent
    by symmetric transfer; the deque holds what it held before the fork, the
    parent's frame (its join and steal counters too) is untouched, and the
    only event is the destruction of the child: no atomic operation on a join
    counter.  The parent's join is then ready at once, again without an
    atomic operation. *)
Theorem fork_join_fast_path (sizeof_stacklet : Z) (malloc : Z → option Z) (new_ok : bool)
    (self child : Z) (f fc : Frame.frame) (w : world) (d : Deque.deque) (s : Stack.stack) :
  self ≠ 0 → self ≠ child →
  frames w !! self = Some f → Frame.load_steals f = 0 →
  frames w !! child = Some fc → Frame.parent fc = self →
  Deque.push new_ok self (tls_context w) = Ok d →
  Stack.deallocate child (tls_stack w) = Some s →
  ∃ a' w1 w2,
    Awaitables.fork_await_suspend new_ok (Awaitables.mk_fork_awaitable child self) w
    = Some (Ok (coro child), a', w1)
    ∧ Promise.final_awaitable_await_suspend sizeof_stacklet tag_fork malloc child w1
      = Some (transfer (coro self), w2)
    ∧ Deque.items (tls_context w2) = Deque.items (tls_context w)
    ∧ frames w2 = delete child (frames w)
    ∧ trace w2 = trace w ++ [ev_destroy child]
    ∧ Awaitables.join_await_ready self w2 = Some (true, w2).
Proof.
  intros Hs0 Hsc Hf Hsteal Hfc Hpar Hpush Hdealloc.
  unfold Awaitables.fork_await_suspend. cbn [Awaitables.fork_self Awaitables.fork_child].
  rewrite Hpush.
  eexists _, _, _. split; [reflexivity|].
  assert (Deque.items d = self :: Deque.items (tls_context w)) as Hitems.
  { unfold Deque.push in Hpush. repeat case_decide; try destruct new_ok;
      try discriminate; by injection Hpush as <-. }
  unfold Promise.final_awaitable_await_suspend. cbn [frames set_context].
  rewrite Hfc. cbn [mbind option_bind].
  unfold destroy. cbn [frames set_context tls_stack]. rewrite Hfc, Hdealloc.
  cbn [mbind option_bind]. rewrite Hpar.
  unfold Promise.final_await_suspend.
  cbn [tls_context emit set_stack set_frames set_context].
  unfold Deque.pop. rewrite Hitems. rewrite decide_True by done.
  split; [reflexivity|]. cbn.
  split; [reflexivity|]. split; [reflexivity|]. split; [reflexivity|].
  unfold Awaitables.join_await_ready. cbn.
  rewrite lookup_delete_ne by (intros ->; done). rewrite Hf. cbn.
  by rewrite decide_True.
Qed.

Lemma fork_join_fast_path_witness :
  ∃ a' w1 w2,
    Awaitables.fork_await_suspend true (Awaitables.mk_fork_awaitable 4144 100)
      Samples.forking_world
    = Some (Ok (coro 4144), a', w1)
    ∧ Promise.final_awaitable_await_suspend 48 tag_fork StackSamples.malloc0 4144 w1
      = Some (transfer (coro 100), w2)
    ∧ Deque.items (tls_context w2) = Deque.items (tls_context Samples.forking_world)
    ∧ frames w2 = delete 4144 (frames Samples.forking_world)
    ∧ trace w2 = trace Samples.forking_world ++ [ev_destroy 4144]
    ∧ Awaitables.join_await_ready 100 w2 = Some (true, w2).
Proof.
  assert (100 ≠ 0) as H0 by discriminate.
  assert (100 ≠ 4144) as H1 by discriminate.
  exact (fork_join_fast_path 48 StackSamples.malloc0 true 100 4144
           (Frame.frame_new 4096) (Frame.set_parent 100 (Frame.frame_new 4096))
           Samples.forking_world
           (Deque.mk_deque [100] Deque.k_default_capacity)
           (Stack.mk_stack {[ 4096 := Stack.mk_stacklet 4144 4144 8144 0 0 ]} 4096)
           H0 H1 eq_refl eq_refl eq_refl eq_refl eq_refl eq_refl).
Defined.
Section ScanSpec.

Import Scan.

Context {A B : Type}.
Variable proj : A → B.
Variable bop : B → B → B.
Variable data : list A.
Hypothesis bop_assoc : ∀ x y z, bop (bop x y) z = bop x (bop y z).


Lemma deref_Some {T} (l : list T) i : 0 ≤ i < Z.of_nat (length l) → is_Some (deref l i).
Proof.
  intros Hi. unfold deref. rewrite decide_True by lia.
  apply lookup_lt_is_Some_2. lia.
Qed.

Lemma deref_range {T} (l : list T) i x : deref l i = Some x → 0 ≤ i < Z.of_nat (length l).
Proof.
  unfold deref. destruct (decide (0 ≤ i)); [|done].
  intros H%lookup_lt_Some. lia.
Qed.

Lemma assign_Some {T} (l : list T) i v :
  0 ≤ i < Z.of_nat (length l) → assign l i v = Some (<[Z.to_nat i := v]> l).
Proof.
  intros Hi. unfold assign. destruct (deref_Some l i Hi) as [x ->]. done.
Qed.

Lemma assign_inv {T} (l l' : list T) i v :
  assign l i v = Some l' → 0 ≤ i < Z.of_nat (length l) ∧ l' = <[Z.to_nat i := v]> l.
Proof.
  unfold assign. destruct (deref l i) eqn:E; [|done].
  intros [= <-]. split; [by eapply deref_range|done].
Qed.

Lemma deref_insert_eq {T} (l : list T) i v :
  0 ≤ i < Z.of_nat (length l) → deref (<[Z.to_nat i := v]> l) i = Some v.
Proof.
  intros Hi. unfold deref. rewrite decide_True by lia.
  apply list_lookup_insert_eq. lia.
Qed.

Lemma deref_insert_ne {T} (l : list T) i j v :
  0 ≤ i → j ≠ i → deref (<[Z.to_nat i := v]> l) j = deref l j.
Proof.
  intros Hi Hj. unfold deref. destruct (decide (0 ≤ j)); [|done].
  apply list_lookup_insert_ne. lia.
Qed.

Lemma unchanged_refl (o : list B) lo hi : unchanged o o lo hi.
Proof. by split. Qed.

Lemma unchanged_trans (o o1 o2 : list B) lo hi lo1 hi1 lo2 hi2 :
  unchanged o o1 lo1 hi1 → unchanged o1 o2 lo2 hi2 →
  lo ≤ lo1 → lo ≤ lo2 → hi1 ≤ hi → hi2 ≤ hi →
  unchanged o o2 lo hi.
Proof.
  intros [Hl1 H1] [Hl2 H2] ? ? ? ?. split; [congruence|].
  intros j Hj. rewrite H2 by lia. apply H1. lia.
Qed.

Lemma unchanged_insert (o : list B) i v :
  0 ≤ i → unchanged o (<[Z.to_nat i := v]> o) i (i + 1).
Proof.
  intros Hi. split; [by rewrite length_insert|].
  intros j Hj. apply deref_insert_ne; lia.
Qed.

(** *** The totals *)

Lemma running_S (l : list B) : ∀ a i,
  running bop a l !! S i = (x ← running bop a l !! i; y ← l !! S i; Some (bop x y)).
Proof.
  induction l as [|b rest IH]; intros a i; [done|].
  destruct i as [|j]; cbn [running].
  - change ((bop a b :: running bop (bop a b) rest) !! 1%nat)
      with (running bop (bop a b) rest !! 0%nat).
    change ((bop a b :: running bop (bop a b) rest) !! 0%nat) with (Some (bop a b)).
    change ((b :: rest) !! 1%nat) with (rest !! 0%nat).
    by destruct rest.
  - change ((bop a b :: running bop (bop a b) rest) !! S (S j))
      with (running bop (bop a b) rest !! S j).
    change ((bop a b :: running bop (bop a b) rest) !! S j)
      with (running bop (bop a b) rest !! j).
    change ((b :: rest) !! S (S j)) with (rest !! S j).
    apply IH.
Qed.

Lemma length_running (l : list B) : ∀ a, length (running bop a l) = length l.
Proof. induction l; intros; cbn; [done|]. by rewrite IHl. Qed.

Lemma length_totals : length (totals proj bop data) = length data.
Proof.
  unfold Scan.totals, inclusive_scan.
  destruct data; cbn; [done|]. by rewrite length_running, length_fmap.
Qed.

Lemma totals_0 : deref (totals proj bop data) 0 = proj <$> deref data 0.
Proof. unfold Scan.totals, inclusive_scan, deref. cbn. by destruct data. Qed.

Lemma totals_S i :
  0 ≤ i →
  deref (totals proj bop data) (i + 1)
  = (a ← deref (totals proj bop data) i; y ← deref data (i + 1); Some (bop a (proj y))).
Proof.
  intros Hi. unfold deref. rewrite !decide_True by lia.
  replace (Z.to_nat (i + 1)) with (S (Z.to_nat i)) by lia.
  generalize (Z.to_nat i) as k. intros k.
  unfold Scan.totals, inclusive_scan.
  destruct data as [|x rest]; [done|]. cbn [fmap list_fmap].
  change ((proj x :: running bop (proj x) (proj <$> rest)) !! S k)
    with (running bop (proj x) (proj <$> rest) !! k).
  change ((x :: rest) !! S k) with (rest !! k).
  destruct k as [|j].
  - change ((proj x :: running bop (proj x) (proj <$> rest)) !! 0%nat) with (Some (proj x)).
    by destruct rest.
  - rewrite running_S.
    change ((proj x :: running bop (proj x) (proj <$> rest)) !! S j)
      with (running bop (proj x) (proj <$> rest) !! j).
    rewrite list_lookup_fmap.
    destruct (running bop (proj x) (proj <$> rest) !! j); [|done]. cbn.
    by destruct (rest !! S j).
Qed.

(** *** The two loops *)

Lemma seqZ_snoc m k : 0 ≤ k → seqZ m (k + 1) = seqZ m k ++ [m + k].
Proof.
  intros Hk. replace (k + 1) with (Z.of_nat (S (Z.to_nat k))) by lia.
  rewrite seqZ_S. by rewrite Z2Nat.id by lia.
Qed.

Lemma fold_loop_one b : chunk proj bop data b (b + 1) = proj <$> deref data b.
Proof.
  unfold chunk, fold_loop, from_range. rewrite decide_True by lia.
  replace (b + 1 - b - 1) with 0 by lia. cbn. by destruct (deref data b).
Qed.

Lemma fold_loop_snoc b e :
  b < e →
  chunk proj bop data b (e + 1)
  = (acc ← chunk proj bop data b e; y ← deref data e; Some (bop acc (proj y))).
Proof.
  intros Hbe. unfold chunk, fold_loop, from_range. rewrite !decide_True by lia.
  destruct (deref data b) as [x|]; [|done]. cbn [mbind option_bind].
  replace (e + 1 - b - 1) with (e - b - 1 + 1) by lia.
  rewrite seqZ_snoc by lia. rewrite foldl_snoc.
  replace (b + 1 + (e - b - 1)) with e by lia. done.
Qed.

Lemma Z_ind_from (P : Z → Prop) z :
  P z → (∀ x, z ≤ x → P x → P (x + 1)) → ∀ x, z ≤ x → P x.
Proof.
  intros H0 HS x Hx. replace x with (z + Z.of_nat (Z.to_nat (x - z))) by lia.
  induction (Z.to_nat (x - z)) as [|k IH].
  - by replace (z + Z.of_nat 0) with z by lia.
  - replace (z + Z.of_nat (S k)) with (z + Z.of_nat k + 1) by lia. apply HS; [lia|done].
Qed.

Lemma fold_loop_is_Some b e :
  0 ≤ b → b < e → e ≤ Z.of_nat (length data) → is_Some (chunk proj bop data b e).
Proof.
  intros Hb Hbe. assert (He : b + 1 ≤ e) by lia. clear Hbe. revert e He.
  apply (Z_ind_from (λ e, e ≤ _ → is_Some (chunk proj bop data b e))).
  - intros Hlen. rewrite fold_loop_one.
    destruct (deref_Some data b) as [y ->]; [lia|]. by eexists.
  - intros x Hx IH Hlen. rewrite fold_loop_snoc by lia.
    destruct IH as [acc ->]; [lia|].
    destruct (deref_Some data x) as [y ->]; [lia|]. by eexists.
Qed.

Lemma fold_loop_app b m e s t :
  b < m → m < e →
  chunk proj bop data b m = Some s → chunk proj bop data m e = Some t →
  chunk proj bop data b e = Some (bop s t).
Proof.
  intros Hbm Hme Hs. assert (He : m + 1 ≤ e) by lia. clear Hme. revert e He t.
  apply (Z_ind_from (λ e, ∀ t, chunk proj bop data m e = Some t →
                               chunk proj bop data b e = Some (bop s t))).
  - intros t Ht. rewrite fold_loop_one in Ht. rewrite fold_loop_snoc by lia. rewrite Hs. cbn.
    destruct (deref data m); [|done]. cbn in *. congruence.
  - intros x Hx IH t Ht.
    rewrite fold_loop_snoc in Ht |- * by lia.
    destruct (chunk proj bop data m x) as [t'|] eqn:Et; [|done].
    rewrite (IH t' eq_refl). cbn in *.
    destruct (deref data x); [|done]. cbn in *.
    injection Ht as <-. by rewrite bop_assoc.
Qed.

Lemma totals_app b e p s :
  1 ≤ b → b < e →
  deref (totals proj bop data) (b - 1) = Some p → chunk proj bop data b e = Some s →
  deref (totals proj bop data) (e - 1) = Some (bop p s).
Proof.
  intros Hb Hbe Hp. assert (He : b + 1 ≤ e) by lia. clear Hbe. revert e He s.
  apply (Z_ind_from (λ e, ∀ s, chunk proj bop data b e = Some s →
                               deref (totals proj bop data) (e - 1) = Some (bop p s))).
  - intros s Hs. rewrite fold_loop_one in Hs.
    replace (b + 1 - 1) with (b - 1 + 1) by lia. rewrite totals_S by lia. rewrite Hp. cbn.
    replace (b - 1 + 1) with b by lia.
    destruct (deref data b); [|done]. cbn in *. congruence.
  - intros x Hx IH s Hs. rewrite fold_loop_snoc in Hs by lia.
    destruct (chunk proj bop data b x) as [s'|] eqn:Es; [|done].
    replace (x + 1 - 1) with (x - 1 + 1) by lia. rewrite totals_S by lia.
    rewrite (IH s' eq_refl). cbn in *.
    replace (x - 1 + 1) with x by lia.
    destruct (deref data x); [|done]. cbn in *.
    injection Hs as <-. by rewrite bop_assoc.
Qed.

Variable input : list B → Z → option A.
Variable d : Z.
Hypothesis d_nonneg : 0 ≤ d.

(** Where [input] still reads the input [data]: at the positions that are
    [intact], which a position stays as long as the position of the output
    range that belongs to it is not written. *)
Variable intact : list B → Z → Prop.
Hypothesis intact_read : ∀ o i, intact o i → input o i = deref data i.
Hypothesis intact_keep : ∀ o o' i,
  intact o i → deref o' (i + d) = deref o (i + d) → intact o' i.

Lemma intact_unchanged (o o' : list B) lo hi b e :
  (∀ i, b ≤ i < e → intact o i) →
  unchanged o o' lo hi → hi ≤ b + d ∨ e + d ≤ lo →
  ∀ i, b ≤ i < e → intact o' i.
Proof.
  intros Hin [_ Hu] Hout i Hi. apply (intact_keep o); [by apply Hin|]. apply Hu. lia.
Qed.

Lemma fold_loop_snoc_input b e (o : list B) :
  b < e →
  fold_loop proj bop input b (e + 1) o
  = (acc ← fold_loop proj bop input b e o; y ← input o e; Some (bop acc (proj y))).
Proof.
  intros Hbe. unfold fold_loop. rewrite !decide_True by lia.
  destruct (input o b) as [x|]; [|done]. cbn [mbind option_bind].
  replace (e + 1 - b - 1) with (e - b - 1 + 1) by lia.
  rewrite seqZ_snoc by lia. rewrite foldl_snoc.
  replace (b + 1 + (e - b - 1)) with e by lia. done.
Qed.

(** The fold of a chunk whose input is intact. *)
Lemma fold_loop_intact b e (o : list B) :
  b < e → (∀ i, b ≤ i < e → intact o i) →
  fold_loop proj bop input b e o = chunk proj bop data b e.
Proof.
  intros Hbe. assert (He : b + 1 ≤ e) by lia. clear Hbe. revert e He.
  apply (Z_ind_from (λ e, (∀ i, b ≤ i < e → intact o i) →
                          fold_loop proj bop input b e o = chunk proj bop data b e)).
  - intros Hin. rewrite fold_loop_one.
    unfold fold_loop. rewrite decide_True by lia. rewrite intact_read by (apply Hin; lia).
    replace (b + 1 - b - 1) with 0 by lia. cbn. by destruct (deref data b).
  - intros x Hx IH Hin. rewrite fold_loop_snoc_input by lia. rewrite IH by (intros; apply Hin; lia).
    rewrite intact_read by (apply Hin; lia). by rewrite fold_loop_snoc by lia.
Qed.

Lemma scan_loop_nil acc b out (o : list B) :
  scan_loop proj bop input acc b b out o = Some (acc, o).
Proof. unfold scan_loop. rewrite decide_True by lia. by replace (b - b) with 0 by lia. Qed.

Lemma scan_loop_snoc acc b e out (o : list B) :
  b ≤ e →
  scan_loop proj bop input acc b (e + 1) out o
  = ('(a, o1) ← scan_loop proj bop input acc b e out o;
     x ← input o1 e;
     o' ← assign o1 (out + (e - b)) (bop a (proj x));
     Some (bop a (proj x), o')).
Proof.
  intros Hbe. unfold scan_loop. rewrite !decide_True by lia.
  replace (e + 1 - b) with (e - b + 1) by lia.
  rewrite seqZ_snoc by lia. rewrite foldl_snoc.
  replace (b + (0 + (e - b))) with e by lia.
  replace (out + (0 + (e - b))) with (out + (e - b)) by lia.
  destruct (foldl _ _ _) as [[a o1]|]; done.
Qed.

(** The loop after a position that holds its total writes the totals that
    follow, where its input is intact. *)
Lemma scan_loop_spec acc b e (o : list B) :
  1 ≤ b → b ≤ e → e ≤ Z.of_nat (length data) → e + d ≤ Z.of_nat (length o) →
  (∀ i, b ≤ i < e → intact o i) →
  deref (totals proj bop data) (b - 1) = Some acc →
  ∃ acc' o',
    scan_loop proj bop input acc b e (b + d) o = Some (acc', o')
    ∧ deref (totals proj bop data) (e - 1) = Some acc'
    ∧ unchanged o o' (b + d) (e + d)
    ∧ scanned proj bop data d o' b e.
Proof.
  intros Hb Hbe Hlen Ho Hin Hacc. revert e Hbe Hlen Ho Hin.
  apply (Z_ind_from (λ e, e ≤ _ → e + d ≤ _ → (∀ i, b ≤ i < e → intact o i) →
    ∃ acc' o',
    scan_loop proj bop input acc b e (b + d) o = Some (acc', o')
    ∧ deref (totals proj bop data) (e - 1) = Some acc'
    ∧ unchanged o o' (b + d) (e + d)
    ∧ scanned proj bop data d o' b e)).
  - intros _ _ _. exists acc, o. rewrite scan_loop_nil.
    split_and!; [done|done|apply unchanged_refl|]. intros i Hi. lia.
  - intros x Hx IH Hlen Ho Hin.
    destruct IH as (a & o1 & Hrun & Ha & [Hl1 Hf1] & Hs1); [lia|lia|intros; apply Hin; lia|].
    rewrite scan_loop_snoc by lia. rewrite Hrun. cbn [mbind option_bind].
    assert (Hx1 : intact o1 x).
    { apply (intact_keep o); [apply Hin; lia|]. apply Hf1. lia. }
    rewrite (intact_read _ _ Hx1).
    destruct (deref_Some data x) as [y Hy]; [lia|]. rewrite Hy. cbn [mbind option_bind].
    replace (b + d + (x - b)) with (x + d) by lia.
    rewrite assign_Some by lia. cbn [mbind option_bind].
    assert (Htot : deref (totals proj bop data) (x + 1 - 1) = Some (bop a (proj y))).
    { replace (x + 1 - 1) with (x - 1 + 1) by lia. rewrite totals_S by lia.
      rewrite Ha. cbn. replace (x - 1 + 1) with x by lia. by rewrite Hy. }
    eexists _, _. split_and!; [done|done| |].
    + eapply unchanged_trans; [by split|apply unchanged_insert; lia|lia..].
    + intros i Hi. destruct (decide (i = x)) as [->|Hi'].
      * rewrite deref_insert_eq by lia. by replace (x + 1 - 1) with x in Htot by lia.
      * rewrite deref_insert_ne by lia. apply Hs1. lia.
Qed.

(** *** What stays when the output range changes elsewhere *)

Variable ready : Z → Z → bool.
Variable right_first : site → Z → Z → bool.
Variable n : Z.
Hypothesis n_pos : 1 ≤ n.

Ltac div_lia := Z.div_mod_to_equations; lia.

Lemma unchanged_weaken (o o' : list B) lo hi lo' hi' :
  unchanged o o' lo hi → lo' ≤ lo → hi ≤ hi' → unchanged o o' lo' hi'.
Proof. intros [Hl H] ? ?. split; [done|]. intros j Hj. apply H. lia. Qed.

Lemma scan_halves b e : 2 ≤ e - b → 1 ≤ (e - b) / 2 ∧ (e - b) / 2 < e - b.
Proof. intros H. split; [apply Z.div_le_lower_bound|apply Z.div_lt_upper_bound]; lia. Qed.

Lemma upto_r_child ival e : upto (r_child_of ival) e = upto ival e.
Proof. by destruct ival. Qed.

Lemma upto_l_child ival e : upto (l_child_of ival) e = e - 1.
Proof. by destruct ival. Qed.

Lemma upto_bounds ival e : e - 1 ≤ upto ival e ≤ e.
Proof. destruct ival; cbn; lia. Qed.

Lemma folded_unchanged (o o' : list B) ival b e lo hi :
  folded proj bop data intact n d o ival b e →
  unchanged o o' lo hi → hi ≤ b + d ∨ upto ival e + d ≤ lo →
  folded proj bop data intact n d o' ival b e.
Proof.
  intros Hf Hu.
  induction Hf as [ival b e Hsz Hin|ival b e Hsz Hl IHl Hm Hr IHr]; intros Hout.
  - apply folded_leaf; [done|]. by eapply intact_unchanged.
  - pose proof (upto_bounds ival e). apply folded_node; [done| | |].
    + apply IHl. cbn [upto]. div_lia.
    + destruct Hu as [_ Hu]. rewrite Hu by div_lia. done.
    + apply IHr. rewrite upto_r_child. div_lia.
Qed.

Lemma risen_unchanged (o o' : list B) ival b e s lo hi :
  risen proj bop data intact n d o ival b e s →
  unchanged o o' lo hi → b < s → s ≤ e → hi ≤ b + d ∨ upto ival e + d ≤ lo →
  risen proj bop data intact n d o' ival b e s.
Proof.
  intros Hr Hu.
  induction Hr as [ival b e|ival b e s Hs Hl IHl Hm Hf|ival b e Hf|ival b e s Hs Hr IHr];
    intros Hbs Hse Hout; pose proof (upto_bounds ival e).
  - apply risen_full.
  - apply risen_left; [done| | |].
    + apply IHl; [div_lia..|]. rewrite upto_l_child. div_lia.
    + destruct Hu as [_ Hu]. rewrite Hu by div_lia. done.
    + eapply folded_unchanged; [done..|]. rewrite upto_r_child. div_lia.
  - apply risen_split. eapply folded_unchanged; [done..|]. rewrite upto_r_child. div_lia.
  - apply risen_right; [done|]. apply IHr; [div_lia..|]. rewrite upto_r_child. div_lia.
Qed.

Lemma scanned_unchanged (o o' : list B) b s lo hi :
  scanned proj bop data d o b s →
  unchanged o o' lo hi → hi ≤ b + d ∨ s + d ≤ lo →
  scanned proj bop data d o' b s.
Proof. intros Hs [_ Hu] Hout i Hi. rewrite Hu by lia. by apply Hs. Qed.

Lemma scanned_app (o : list B) b m e :
  scanned proj bop data d o b m → scanned proj bop data d o m e →
  scanned proj bop data d o b e.
Proof. intros H1 H2 i Hi. destruct (decide (i < m)); [apply H1|apply H2]; lia. Qed.

(** The forked and the called half write to the two sides of [md]: in
    either order both leave what they leave alone. *)
Lemma fork_call_spec {L R : Type} (rf : bool)
    (l : list B → option (L * list B)) (r : list B → option (R * list B))
    (o : list B) (lo md hi : Z) (Ql : L → list B → Prop) (Qr : list B → Prop) :
  lo ≤ md → md ≤ hi →
  (∀ o0, unchanged o o0 md hi →
     ∃ x o', l o0 = Some (x, o') ∧ unchanged o0 o' lo md ∧ Ql x o') →
  (∀ o0, unchanged o o0 lo md → (o0 = o ∨ ∃ x, Ql x o0) →
     ∃ y o', r o0 = Some (y, o') ∧ unchanged o0 o' md hi ∧ Qr o') →
  (∀ x o' o'', Ql x o' → unchanged o' o'' md hi → Ql x o'') →
  (∀ o' o'', Qr o' → unchanged o' o'' lo md → Qr o'') →
  ∃ x o2, fork_call rf l r o = Some (x, o2) ∧ unchanged o o2 lo hi ∧ Ql x o2 ∧ Qr o2.
Proof.
  intros Hlo Hhi Hl Hr Hls Hrs. unfold fork_call. destruct rf.
  - destruct (Hr o (unchanged_refl _ _ _) (or_introl eq_refl)) as (y & o1 & -> & Hu1 & Hq1).
    cbn [mbind option_bind].
    destruct (Hl o1 Hu1) as (x & o2 & -> & Hu2 & Hq2).
    exists x, o2. split_and!; [done| |done|by eapply Hrs].
    eapply unchanged_trans; [done..|lia|lia|lia|lia].
  - destruct (Hl o (unchanged_refl _ _ _)) as (x & o1 & -> & Hu1 & Hq1).
    cbn [mbind option_bind].
    destruct (Hr o1 Hu1 (or_intror (ex_intro _ x Hq1))) as (y & o2 & -> & Hu2 & Hq2).
    cbn [mbind option_bind].
    exists x, o2. split_and!; [done| |by eapply Hls|done].
    eapply unchanged_trans; [done..|lia|lia|lia|lia].
Qed.

(** *** The up-sweep of an interval that is folded *)

Lemma rise_fold_spec : ∀ (fuel : nat) ival b e (o : list B),
  ival = ival_mid ∨ ival = ival_rhs →
  0 ≤ b → b < e → e ≤ Z.of_nat (length data) → e + d ≤ Z.of_nat (length o) →
  (∀ i, b ≤ i < e → intact o i) →
  e - b ≤ Z.of_nat fuel →
  ∃ o',
    rise_sweep proj bop input ready right_first fuel ival op_fold b e n (b + d) o
    = Some (None, o')
    ∧ unchanged o o' (b + d) (e + d)
    ∧ folded proj bop data intact n d o' ival b e
    ∧ (ival = ival_mid → deref o' (e - 1 + d) = chunk proj bop data b e).
Proof.
  induction fuel as [|k IH]; intros ival b e o Hival Hb Hbe Hlen Ho Hin Hfuel; [lia|].
  cbn [rise_sweep]. rewrite decide_True by lia.
  destruct (decide (e - b ≤ n)) as [Hleaf|Hnode].
  - destruct Hival as [-> | ->].
    + rewrite fold_loop_intact by done.
      destruct (fold_loop_is_Some b e) as [acc Hacc]; [lia..|]. rewrite Hacc.
      cbn [mbind option_bind].
      replace (b + d + (e - b) - 1) with (e - 1 + d) by lia.
      rewrite assign_Some by lia. cbn [mbind option_bind].
      assert (Hu : unchanged o (<[Z.to_nat (e - 1 + d) := acc]> o) (e - 1 + d) (e + d)).
      { eapply unchanged_weaken; [apply unchanged_insert; lia|lia..]. }
      eexists. split_and!; [done| | |].
      * eapply unchanged_weaken; [done|lia..].
      * apply folded_leaf; [done|]. cbn [upto].
        eapply intact_unchanged; [|done|lia]. intros i Hi. apply Hin. lia.
      * intros _. rewrite deref_insert_eq by lia. done.
    + exists o. split_and!; [done|apply unchanged_refl| |done].
      by apply folded_leaf.
  - destruct (scan_halves b e) as [Hm1 Hm2]; [lia|].
    set (m := (e - b) / 2) in *.
    assert (Hfork : ∃ x o2,
      fork_call (right_first in_rise_sweep b e)
        (rise_sweep proj bop input ready right_first k (l_child_of ival) op_fold b (b + m) n (b + d))
        (rise_sweep proj bop input ready right_first k (r_child_of ival) op_fold (b + m) e n (b + d + m))
        o = Some (x, o2)
      ∧ unchanged o o2 (b + d) (e + d)
      ∧ (folded proj bop data intact n d o2 ival_mid b (b + m)
         ∧ deref o2 (b + m - 1 + d) = chunk proj bop data b (b + m))
      ∧ (folded proj bop data intact n d o2 (r_child_of ival) (b + m) e
         ∧ (r_child_of ival = ival_mid →
            deref o2 (e - 1 + d) = chunk proj bop data (b + m) e))).
    { apply (fork_call_spec _ _ _ o (b + d) (b + m + d) (e + d)
        (λ _ o', folded proj bop data intact n d o' ival_mid b (b + m)
                 ∧ deref o' (b + m - 1 + d) = chunk proj bop data b (b + m))
        (λ o', folded proj bop data intact n d o' (r_child_of ival) (b + m) e
               ∧ (r_child_of ival = ival_mid →
                  deref o' (e - 1 + d) = chunk proj bop data (b + m) e))); [lia|lia| | | |].
      - intros o0 Hu0.
        destruct (IH (l_child_of ival) b (b + m) o0) as (o' & Hrun & Hu & Hf & Hlast);
          [destruct Hival as [-> | ->]; by left|lia|lia|lia|destruct Hu0 as [-> _]; lia| |lia|].
        { eapply intact_unchanged; [|done|lia]. intros i Hi. apply Hin. lia. }
        exists None, o'. split_and!; [done| | |].
        + eapply unchanged_weaken; [done|lia..].
        + by destruct Hival as [-> | ->].
        + apply Hlast. by destruct Hival as [-> | ->].
      - intros o0 Hu0 _.
        destruct (IH (r_child_of ival) (b + m) e o0) as (o' & Hrun & Hu & Hf & Hlast);
          [destruct Hival as [-> | ->]; [by left|by right]
          |lia|lia|lia|destruct Hu0 as [-> _]; lia| |lia|].
        { eapply intact_unchanged; [|done|lia]. intros i Hi. apply Hin. lia. }
        replace (b + m + d) with (b + d + m) in Hrun by lia.
        exists None, o'. split_and!; [done| |done|done].
        eapply unchanged_weaken; [done|lia..].
      - intros _ o' o'' [Hf Hlast] Hu. split.
        + eapply folded_unchanged; [done..|]. cbn [upto r_child_of l_child_of]. lia.
        + destruct Hu as [_ Hu]. rewrite Hu by lia. done.
      - intros o' o'' [Hf Hlast] Hu. split.
        + eapply folded_unchanged; [done..|]. lia.
        + intros Hr. destruct Hu as [_ Hu]. rewrite Hu by lia. by apply Hlast. }
    destruct Hfork as (x & o2 & Hrun & Hu2 & [Hfl Hll] & [Hfr Hlr]).
    fold m. destruct Hival as [-> | ->].
    + cbn [l_child_of r_child_of] in *. rewrite Hrun. cbn [mbind option_bind propagate].
      destruct (fold_loop_is_Some b (b + m)) as [s Hs]; [lia..|].
      destruct (fold_loop_is_Some (b + m) e) as [t Ht]; [lia..|].
      replace (b + d + m - 1) with (b + m - 1 + d) by lia.
      replace (b + d + (e - b) - 1) with (e - 1 + d) by lia.
      rewrite Hll, Hs, (Hlr eq_refl), Ht. cbn [mbind option_bind].
      destruct Hu2 as [Hlen2 Hu2].
      rewrite assign_Some by lia. cbn [mbind option_bind].
      eexists. split_and!; [done| | |].
      * eapply unchanged_trans; [by split|apply unchanged_insert; lia|lia..].
      * apply folded_node; [lia| | |]; fold m.
        -- eapply folded_unchanged; [done|apply unchanged_insert; lia|cbn [upto r_child_of l_child_of]; lia].
        -- rewrite deref_insert_ne by lia. congruence.
        -- eapply folded_unchanged; [done|apply unchanged_insert; lia|cbn [upto r_child_of l_child_of]; lia].
      * intros _. rewrite deref_insert_eq by lia. symmetry.
        by apply (fold_loop_app b (b + m) e); [lia..| |].
    + cbn [l_child_of r_child_of] in *. rewrite Hrun. cbn [mbind option_bind propagate].
      exists o2. split_and!; [done|done| |done].
      apply folded_node; [lia|done..].
Qed.

(** *** The up-sweep of an interval that is scanned from the left *)

Lemma totals_is_Some i :
  0 ≤ i < Z.of_nat (length data) → is_Some (deref (totals proj bop data) i).
Proof. intros Hi. apply deref_Some. rewrite length_totals. lia. Qed.

Lemma propagate_spec ival b e s1 (o2 : list B) :
  n < e - b → 0 ≤ b → e ≤ Z.of_nat (length data) → e + d ≤ Z.of_nat (length o2) →
  b < s1 → s1 ≤ b + (e - b) / 2 →
  scanned proj bop data d o2 b s1 →
  risen proj bop data intact n d o2 (l_child_of ival) b (b + (e - b) / 2) s1 →
  deref o2 (b + (e - b) / 2 - 1 + d) = deref (totals proj bop data) (b + (e - b) / 2 - 1) →
  folded proj bop data intact n d o2 (r_child_of ival) (b + (e - b) / 2) e →
  (r_child_of ival = ival_mid →
   deref o2 (e - 1 + d) = chunk proj bop data (b + (e - b) / 2) e) →
  ∃ o3,
    propagate bop ival (b + d) ((e - b) / 2) (e - b) o2 = Some o3
    ∧ unchanged o2 o3 (e - 1 + d) (e + d)
    ∧ scanned proj bop data d o3 b s1
    ∧ risen proj bop data intact n d o3 ival b e s1
    ∧ (ival = ival_lhs ∨ ival = ival_mid →
       deref o3 (e - 1 + d) = deref (totals proj bop data) (e - 1)).
Proof.
  intros Hsz Hb Hlen Ho Hbs Hsm Hscan Hrisen Hlast Hfold Hrlast.
  destruct (scan_halves b e) as [Hm1 Hm2]; [lia|].
  set (m := (e - b) / 2) in *.
  assert (Hshape : ∀ o3 lo hi, unchanged o2 o3 lo hi → upto ival e + d ≤ lo →
    risen proj bop data intact n d o3 ival b e s1).
  { intros o3 lo hi Hu Hlo. pose proof (upto_bounds ival e).
    destruct (decide (s1 = b + m)) as [->|Hne].
    - apply risen_split. fold m. eapply folded_unchanged; [done..|].
      rewrite upto_r_child. lia.
    - apply risen_left; fold m; [lia| | |].
      + eapply risen_unchanged; [done..|lia|lia|]. rewrite upto_l_child. lia.
      + destruct Hu as [_ Hu]. rewrite Hu by lia. done.
      + eapply folded_unchanged; [done..|]. rewrite upto_r_child. lia. }
  assert (Hcase : (ival = ival_lhs ∨ ival = ival_mid) ∨ (ival = ival_all ∨ ival = ival_rhs))
    by (destruct ival; auto).
  destruct Hcase as [Hlm|Har].
  - assert (Hr : r_child_of ival = ival_mid) by (by destruct Hlm as [-> | ->]).
    destruct (totals_is_Some (b + m - 1)) as [p Hp]; [lia|].
    destruct (fold_loop_is_Some (b + m) e) as [t Ht]; [lia..|].
    assert (Hrun : propagate bop ival (b + d) m (e - b) o2
                   = Some (<[Z.to_nat (e - 1 + d) := bop p t]> o2)).
    { unfold propagate.
      replace (b + d + m - 1) with (b + m - 1 + d) by lia.
      replace (b + d + (e - b) - 1) with (e - 1 + d) by lia.
      rewrite Hlast, Hp, (Hrlast Hr), Ht.
      destruct Hlm as [-> | ->]; cbn [mbind option_bind]; by rewrite assign_Some by lia. }
    assert (Hu : unchanged o2 (<[Z.to_nat (e - 1 + d) := bop p t]> o2) (e - 1 + d) (e + d)).
    { eapply unchanged_weaken; [apply unchanged_insert; lia|lia..]. }
    eexists. split_and!; [done|done| | |].
    + eapply scanned_unchanged; [done..|]. lia.
    + eapply Hshape; [done|]. destruct Hlm as [-> | ->]; cbn [upto]; lia.
    + intros _. rewrite deref_insert_eq by lia. symmetry.
      apply (totals_app (b + m) e); [lia|lia|done|done].
  - exists o2. split_and!.
    + by destruct Har as [-> | ->].
    + apply unchanged_refl.
    + done.
    + apply (Hshape o2 (e + d) (e + d)); [apply unchanged_refl|].
      destruct Har as [-> | ->]; cbn [upto]; lia.
    + intros [-> | ->]; by destruct Har.
Qed.

Lemma rise_scan_spec : ∀ (fuel : nat) ival b e (o : list B),
  0 ≤ b → b < e → e ≤ Z.of_nat (length data) → e + d ≤ Z.of_nat (length o) →
  match ival with
  | ival_all | ival_lhs => b = 0
  | _ => 1 ≤ b ∧ deref o (b - 1 + d) = deref (totals proj bop data) (b - 1)
  end →
  (∀ i, b ≤ i < e → intact o i) →
  e - b ≤ Z.of_nat fuel →
  ∃ s o',
    rise_sweep proj bop input ready right_first fuel ival op_scan b e n (b + d) o
    = Some (Some s, o')
    ∧ b < s ∧ s ≤ e
    ∧ unchanged o o' (b + d) (e + d)
    ∧ scanned proj bop data d o' b s
    ∧ risen proj bop data intact n d o' ival b e s
    ∧ (ival = ival_lhs ∨ ival = ival_mid →
       deref o' (e - 1 + d) = deref (totals proj bop data) (e - 1)).
Proof.
  induction fuel as [|k IH]; intros ival b e o Hb Hbe Hlen Ho Hpre Hin Hfuel; [lia|].
  cbn [rise_sweep]. rewrite decide_True by lia.
  destruct (decide (e - b ≤ n)) as [Hleaf|Hnode].
  - assert (Hcase : (ival = ival_all ∨ ival = ival_lhs) ∨ (ival = ival_mid ∨ ival = ival_rhs))
      by (destruct ival; auto).
    destruct Hcase as [Hal|Hmr].
    + assert (b = 0) as -> by (by destruct Hal as [-> | ->]).
      destruct (deref_Some data 0) as [x Hx]; [lia|].
      assert (Hrun : rise_sweep proj bop input ready right_first (S k) ival op_scan 0 e n (0 + d) o
        = ('(_, o') ← scan_loop proj bop input (proj x) 1 e (1 + d)
                                (<[Z.to_nat d := proj x]> o);
           Some (Some e, o'))).
      { cbn [rise_sweep]. rewrite decide_True by lia. rewrite decide_True by lia.
        replace (0 + d) with d by lia. replace (d + 1) with (1 + d) by lia.
        rewrite (intact_read o 0) by (apply Hin; lia).
        destruct Hal as [-> | ->]; rewrite Hx; cbn [mbind option_bind];
          by rewrite assign_Some by lia. }
      cbn [rise_sweep] in Hrun. rewrite decide_True in Hrun by lia.
      rewrite decide_True in Hrun by lia. rewrite Hrun. clear Hrun.
      destruct (scan_loop_spec (proj x) 1 e (<[Z.to_nat d := proj x]> o))
        as (acc' & o' & Hloop & Hacc & Hu & Hscan); [lia..|by rewrite length_insert; lia| | |].
      { eapply intact_unchanged; [|apply (unchanged_insert o d (proj x)); lia|lia].
        intros i Hi. apply Hin. lia. }
      { change (1 - 1) with 0. rewrite totals_0, Hx. done. }
      rewrite Hloop. cbn [mbind option_bind].
      assert (H0 : deref o' (0 + d) = deref (totals proj bop data) 0).
      { destruct Hu as [_ Hu]. rewrite Hu by lia. replace (0 + d) with d by lia.
        rewrite deref_insert_eq by lia. rewrite totals_0, Hx. done. }
      exists e, o'. split_and!; [done|lia|lia| | |apply risen_full|].
      * eapply unchanged_trans; [apply (unchanged_insert o d (proj x)); lia|done|lia..].
      * intros i Hi. destruct (decide (i = 0)) as [->|Hi0]; [done|]. apply Hscan. lia.
      * intros _. destruct (decide (e - 1 = 0)) as [E|E].
        -- rewrite E. replace (0 + d) with (0 + d) by lia. done.
        -- apply Hscan. lia.
    + assert (Hpre' : 1 ≤ b ∧ deref o (b - 1 + d) = deref (totals proj bop data) (b - 1))
        by (by destruct Hmr as [-> | ->]).
      destruct Hpre' as [Hb1 Hprev].
      destruct (totals_is_Some (b - 1)) as [p Hp]; [lia|].
      destruct (scan_loop_spec p b e o) as (acc' & o' & Hloop & Hacc & Hu & Hscan);
        [lia..|done|done|].
      exists e, o'. split_and!; [|lia|lia|done|done|apply risen_full|].
      * replace (b + d - 1) with (b - 1 + d) by lia. rewrite Hprev, Hp.
        destruct Hmr as [-> | ->]; cbn [mbind option_bind]; by rewrite Hloop.
      * intros _. apply Hscan. lia.
  - destruct (scan_halves b e) as [Hm1 Hm2]; [lia|].
    set (m := (e - b) / 2) in *.
    set (Ql := λ (x : option Z) (o' : list B), ∃ s1, x = Some s1 ∧ b < s1 ∧ s1 ≤ b + m
      ∧ scanned proj bop data d o' b s1
      ∧ risen proj bop data intact n d o' (l_child_of ival) b (b + m) s1
      ∧ deref o' (b + m - 1 + d) = deref (totals proj bop data) (b + m - 1)).
    set (Qr := λ (o' : list B), folded proj bop data intact n d o' (r_child_of ival) (b + m) e
      ∧ (r_child_of ival = ival_mid →
         deref o' (e - 1 + d) = chunk proj bop data (b + m) e)).
    assert (Hleft : ∀ o0, unchanged o o0 (b + m + d) (e + d) →
      ∃ x o', rise_sweep proj bop input ready right_first k (l_child_of ival) op_scan
                b (b + m) n (b + d) o0 = Some (x, o')
              ∧ unchanged o0 o' (b + d) (b + m + d) ∧ Ql x o').
    { intros o0 Hu0'. pose proof Hu0' as [Hl0 Hu0].
      destruct (IH (l_child_of ival) b (b + m) o0)
        as (s1 & o' & Hrun & Hs1 & Hs2 & Hu & Hscan & Hrisen & Hlast); [lia..| | |lia|].
      { destruct ival; cbn [l_child_of]; try done;
          (split; [tauto|]); rewrite Hu0 by lia; tauto. }
      { eapply intact_unchanged; [|done|lia]. intros i Hi. apply Hin. lia. }
      exists (Some s1), o'. split_and!; [done|done|].
      exists s1. split_and!; [done..|]. apply Hlast. destruct ival; auto. }
    assert (Hright : ∀ o0, unchanged o o0 (b + d) (b + m + d) →
      ∃ (y : option Z) o', rise_sweep proj bop input ready right_first k (r_child_of ival) op_fold
                (b + m) e n (b + d + m) o0 = Some (y, o')
              ∧ unchanged o0 o' (b + m + d) (e + d) ∧ Qr o').
    { intros o0 Hu0'. pose proof Hu0' as [Hl0 Hu0].
      destruct (rise_fold_spec k (r_child_of ival) (b + m) e o0)
        as (o' & Hrun & Hu & Hf & Hlast); [destruct ival; auto|lia..| |lia|].
      { eapply intact_unchanged; [|done|lia]. intros i Hi. apply Hin. lia. }
      replace (b + m + d) with (b + d + m) in Hrun by lia.
      exists None, o'. split_and!; [done|done|]. by split. }
    assert (Hls : ∀ x o' o'', Ql x o' → unchanged o' o'' (b + m + d) (e + d) → Ql x o'').
    { intros x o' o'' (s1 & -> & ? & ? & Hscan & Hrisen & Hlast) Hu.
      exists s1. split_and!; [done..| | |].
      - eapply scanned_unchanged; [done..|]. lia.
      - eapply risen_unchanged; [done..|lia|lia|]. rewrite upto_l_child. lia.
      - destruct Hu as [_ Hu]. rewrite Hu by lia. done. }
    assert (Hrs : ∀ o' o'', Qr o' → unchanged o' o'' (b + d) (b + m + d) → Qr o'').
    { intros o' o'' [Hf Hlast] Hu. split.
      - eapply folded_unchanged; [done..|]. lia.
      - intros Hr. destruct Hu as [_ Hu]. rewrite Hu by lia. by apply Hlast. }
    assert (Hjoin : ∀ x o2, unchanged o o2 (b + d) (e + d) → Ql x o2 → Qr o2 →
      ∃ s o',
        (o3 ← propagate bop ival (b + d) m (e - b) o2; Some (x, o3)) = Some (Some s, o')
        ∧ b < s ∧ s ≤ e
        ∧ unchanged o o' (b + d) (e + d)
        ∧ scanned proj bop data d o' b s
        ∧ risen proj bop data intact n d o' ival b e s
        ∧ (ival = ival_lhs ∨ ival = ival_mid →
           deref o' (e - 1 + d) = deref (totals proj bop data) (e - 1))).
    { intros x o2 Hu2 (s1 & -> & ? & ? & Hscan & Hrisen & Hlast) [Hf Hrlast].
      destruct (propagate_spec ival b e s1 o2)
        as (o3 & Hrun & Hu3 & Hscan3 & Hrisen3 & Hlast3);
        [lia|lia|lia|destruct Hu2 as [-> _]; lia|lia|done..|].
      fold m in Hrun. rewrite Hrun. cbn [mbind option_bind].
      exists s1, o3. split_and!; [done|lia|lia| |done..].
      eapply unchanged_trans; [done..|lia|lia|lia|lia]. }
    fold m. destruct (ready b (b + m)).
    + destruct (Hleft o (unchanged_refl _ _ _)) as (x & o1 & Hrun1 & Hu1 & Hq1).
      rewrite Hrun1. cbn [mbind option_bind].
      destruct (decide (x = Some (b + m))) as [->|Hx].
      * destruct Hq1 as (s1 & [= <-] & ? & ? & Hscan & Hrisen & Hlast).
        destruct (IH (r_child_of ival) (b + m) e o1)
          as (s2 & o2 & Hrun2 & Hs1 & Hs2 & Hu2 & Hscan2 & Hrisen2 & Hlast2);
          [lia|lia|lia|destruct Hu1 as [-> _]; lia| | |lia|].
        { destruct ival; cbn [r_child_of]; (split; [lia|]);
            by replace (b + m - 1 + d) with (b + m - 1 + d) by lia. }
        { eapply intact_unchanged; [|done|lia]. intros i Hi. apply Hin. lia. }
        replace (b + m + d) with (b + d + m) in Hrun2 by lia. rewrite Hrun2.
        exists s2, o2. split_and!; [done|lia|lia| | | |].
        -- eapply unchanged_trans; [done..|lia|lia|lia|lia].
        -- apply (scanned_app _ b (b + m) s2); [|done].
           eapply scanned_unchanged; [done..|]. lia.
        -- apply risen_right; fold m; [lia|done].
        -- intros Hlm. apply Hlast2. destruct Hlm as [-> | ->]; auto.
      * destruct (Hright o1 Hu1) as (y & o2 & Hrun2 & Hu2 & Hq2).
        rewrite Hrun2. cbn [mbind option_bind].
        apply Hjoin; [|by eapply Hls|done].
        eapply unchanged_trans; [done..|lia|lia|lia|lia].
    + destruct (fork_call_spec (right_first in_rise_sweep b e) _ _ o
                  (b + d) (b + m + d) (e + d) Ql Qr ltac:(lia) ltac:(lia)
                  Hleft (λ o0 Hu _, Hright o0 Hu) Hls Hrs)
        as (x & o2 & Hrun & Hu2 & Hq1 & Hq2).
      rewrite Hrun. cbn [mbind option_bind]. by apply Hjoin.
Qed.

(** *** The down-sweep *)

Lemma fall_sweep_impl_spec : ∀ (fuel : nat) ival b e (o : list B),
  ival = ival_mid ∨ ival = ival_rhs →
  1 ≤ b → b < e → e ≤ Z.of_nat (length data) → e + d ≤ Z.of_nat (length o) →
  deref o (b - 1 + d) = deref (totals proj bop data) (b - 1) →
  folded proj bop data intact n d o ival b e →
  (ival = ival_mid → deref o (e - 1 + d) = deref (totals proj bop data) (e - 1)) →
  e - b ≤ Z.of_nat fuel →
  ∃ o',
    fall_sweep_impl proj bop input right_first fuel ival b e n (b + d) o = Some ((), o')
    ∧ unchanged o o' (b + d) (e + d)
    ∧ scanned proj bop data d o' b e.
Proof.
  induction fuel as [|k IH]; intros ival b e o Hival Hb Hbe Hlen Ho Hprev Hfold Hlast Hfuel;
    [lia|].
  destruct (totals_is_Some (b - 1)) as [p Hp]; [lia|].
  assert (Hrun : fall_sweep_impl proj bop input right_first (S k) ival b e n (b + d) o
    = if decide (e - b ≤ n) then
        '(_, o') ← scan_loop proj bop input p b
                     (if decide (ival = ival_rhs) then e else b + (e - b) - 1) (b + d) o;
        Some ((), o')
      else
        r ← deref o (b + d + (e - b) / 2 - 1);
        o1 ← assign o (b + d + (e - b) / 2 - 1) (bop p r);
        fork_call (right_first in_fall_sweep_impl b e)
          (fall_sweep_impl proj bop input right_first k (l_child_of ival)
             b (b + (e - b) / 2) n (b + d))
          (fall_sweep_impl proj bop input right_first k (r_child_of ival)
             (b + (e - b) / 2) e n (b + d + (e - b) / 2))
          o1).
  { cbn [fall_sweep_impl]. replace (b + d - 1) with (b - 1 + d) by lia.
    rewrite Hprev, Hp. destruct Hival as [-> | ->]; by rewrite decide_True by lia. }
  rewrite Hrun. clear Hrun.
  destruct (decide (e - b ≤ n)) as [Hleaf|Hnode].
  - assert (Hin : ∀ i, b ≤ i < upto ival e → intact o i).
    { inversion Hfold as [? ? ? Hsz Hin|? ? ? Hsz]; subst; [done|lia]. }
    destruct Hival as [-> | ->]; cbn [upto] in Hin.
    + rewrite decide_False by done.
      destruct (scan_loop_spec p b (b + (e - b) - 1) o)
        as (acc' & o' & Hloop & Hacc & Hu & Hscan);
        [lia..|intros i Hi; apply Hin; lia|done|].
      rewrite Hloop. cbn [mbind option_bind].
      exists o'. split_and!; [done| |].
      * eapply unchanged_weaken; [done|lia..].
      * intros i Hi. destruct (decide (i = e - 1)) as [->|Hi'].
        -- destruct Hu as [_ Hu]. rewrite Hu by lia. by apply Hlast.
        -- apply Hscan. lia.
    + rewrite decide_True by done.
      destruct (scan_loop_spec p b e o)
        as (acc' & o' & Hloop & Hacc & Hu & Hscan); [lia..|done|done|].
      rewrite Hloop. cbn [mbind option_bind]. by exists o'.
  - destruct (scan_halves b e) as [Hm1 Hm2]; [lia|].
    inversion Hfold as [? ? ? Hsz ?|? ? ? Hsz Hfl Hmid Hfr]; subst; [lia|].
    set (m := (e - b) / 2) in *.
    destruct (fold_loop_is_Some b (b + m)) as [s Hs]; [lia..|].
    replace (b + d + m - 1) with (b + m - 1 + d) by lia.
    rewrite Hmid, Hs. cbn [mbind option_bind].
    rewrite assign_Some by lia. cbn [mbind option_bind].
    set (o1 := <[Z.to_nat (b + m - 1 + d) := bop p s]> o).
    assert (Hu1 : unchanged o o1 (b + m - 1 + d) (b + m + d)).
    { eapply unchanged_weaken; [apply unchanged_insert; lia|lia..]. }
    assert (Hmid1 : deref o1 (b + m - 1 + d) = deref (totals proj bop data) (b + m - 1)).
    { unfold o1. rewrite deref_insert_eq by lia. symmetry.
      apply (totals_app b (b + m)); [lia|lia|done|done]. }
    destruct (fork_call_spec (right_first in_fall_sweep_impl b e)
                (fall_sweep_impl proj bop input right_first k (l_child_of ival)
                   b (b + m) n (b + d))
                (fall_sweep_impl proj bop input right_first k (r_child_of ival)
                   (b + m) e n (b + d + m))
                o1 (b + d) (b + m + d) (e + d)
                (λ _ o', scanned proj bop data d o' b (b + m))
                (λ o', scanned proj bop data d o' (b + m) e))
      as (x & o2 & Hrun & Hu2 & Hq1 & Hq2); [lia|lia| | | | |].
    + intros o0 Hu0.
      destruct (IH (l_child_of ival) b (b + m) o0) as (o' & Hrun & Hu & Hscan).
      * destruct Hival as [-> | ->]; by left.
      * lia.
      * lia.
      * lia.
      * destruct Hu0 as [-> _]. unfold o1. rewrite length_insert. lia.
      * destruct Hu0 as [_ Hu0]. rewrite Hu0 by lia.
        destruct Hu1 as [_ Hu1']. rewrite Hu1' by lia. done.
      * replace (l_child_of ival) with ival_mid by (by destruct Hival as [-> | ->]).
        eapply folded_unchanged;
          [eapply folded_unchanged; [exact Hfl|exact Hu1|cbn [upto]; lia]|done|cbn [upto]; lia].
      * intros _. destruct Hu0 as [_ Hu0]. rewrite Hu0 by lia. done.
      * lia.
      * by exists (), o'.
    + intros o0 Hu0 Hfrom.
      destruct (IH (r_child_of ival) (b + m) e o0) as (o' & Hrun & Hu & Hscan).
      * destruct Hival as [-> | ->]; [by left|by right].
      * lia.
      * lia.
      * lia.
      * destruct Hu0 as [-> _]. unfold o1. rewrite length_insert. lia.
      * destruct Hfrom as [->|[_ Hq]]; [done|]. apply Hq. lia.
      * eapply folded_unchanged; [eapply folded_unchanged; [exact Hfr|exact Hu1|lia]|done|lia].
      * intros Hr. destruct Hu0 as [_ Hu0]. rewrite Hu0 by lia.
        destruct Hu1 as [_ Hu1']. rewrite Hu1' by lia. apply Hlast.
        destruct Hival as [-> | ->]; done.
      * lia.
      * replace (b + m + d) with (b + d + m) in Hrun by lia. by exists (), o'.
    + intros _ o' o'' Hq Hu. eapply scanned_unchanged; [done..|]. lia.
    + intros o' o'' Hq Hu. eapply scanned_unchanged; [done..|]. lia.
    + destruct x. rewrite Hrun. exists o2. split_and!; [done| |].
      * eapply unchanged_trans; [done..|lia|lia|lia|lia].
      * by apply (scanned_app _ b (b + m) e).
Qed.

Lemma fall_sweep_spec : ∀ (fuel : nat) ival b e s (o : list B),
  0 ≤ b → b < s → s < e → e ≤ Z.of_nat (length data) → e + d ≤ Z.of_nat (length o) →
  scanned proj bop data d o b s →
  risen proj bop data intact n d o ival b e s →
  (ival = ival_lhs ∨ ival = ival_mid →
   deref o (e - 1 + d) = deref (totals proj bop data) (e - 1)) →
  e - b ≤ Z.of_nat fuel →
  ∃ o',
    fall_sweep proj bop input right_first fuel ival b e n (b + d) s o = Some ((), o')
    ∧ unchanged o o' (b + d) (e + d)
    ∧ scanned proj bop data d o' b e.
Proof.
  induction fuel as [|k IH]; intros ival b e s o Hb Hbs Hse Hlen Ho Hscan Hrisen Hlast Hfuel;
    [lia|].
  cbn [fall_sweep]. rewrite decide_True by lia.
  rewrite Z.quot_div_nonneg by lia.
  destruct (scan_halves b e) as [Hm1 Hm2]; [lia|].
  assert (Hrc : r_child_of ival = ival_mid ∨ r_child_of ival = ival_rhs)
    by (destruct ival; auto).
  assert (Hrlast : ∀ o0, (∀ j, b + (e - b) / 2 + d ≤ j → deref o0 j = deref o j) →
    r_child_of ival = ival_mid →
    deref o0 (e - 1 + d) = deref (totals proj bop data) (e - 1)).
  { intros o0 Hu0 Hr. rewrite Hu0 by lia. apply Hlast.
    destruct ival; auto; done. }
  inversion Hrisen as [| ? ? ? ? Hs Hl Hmid Hf | ? ? ? Hf | ? ? ? ? Hs Hr ]; subst.
  - lia.
  - set (m := (e - b) / 2) in *. rewrite decide_True by done.
    destruct (fork_call_spec (right_first in_fall_sweep b e)
                (fall_sweep proj bop input right_first k (l_child_of ival)
                   b (b + m) n (b + d) s)
                (fall_sweep_impl proj bop input right_first k (r_child_of ival)
                   (b + m) e n (b + d + m))
                o (b + d) (b + m + d) (e + d)
                (λ _ o', scanned proj bop data d o' b (b + m))
                (λ o', scanned proj bop data d o' (b + m) e))
      as (x & o2 & Hrun & Hu2 & Hq1 & Hq2); [lia|lia| | | | |].
    + intros o0 Hu0.
      destruct (IH (l_child_of ival) b (b + m) s o0) as (o' & Hrun & Hu & Hscan').
      * lia.
      * lia.
      * lia.
      * lia.
      * destruct Hu0 as [-> _]. lia.
      * eapply scanned_unchanged; [done..|]. lia.
      * eapply risen_unchanged; [done..|lia|lia|]. rewrite upto_l_child. lia.
      * intros _. destruct Hu0 as [_ Hu0]. rewrite Hu0 by lia. done.
      * lia.
      * by exists (), o'.
    + intros o0 Hu0 Hfrom.
      destruct (fall_sweep_impl_spec k (r_child_of ival) (b + m) e o0)
        as (o' & Hrun & Hu & Hscan').
      * done.
      * lia.
      * lia.
      * lia.
      * destruct Hu0 as [-> _]. lia.
      * destruct Hfrom as [->|[_ Hq]]; [done|]. apply Hq. lia.
      * eapply folded_unchanged; [done..|]. lia.
      * apply Hrlast. intros j Hj. destruct Hu0 as [_ Hu0]. apply Hu0. lia.
      * lia.
      * replace (b + m + d) with (b + d + m) in Hrun by lia. by exists (), o'.
    + intros _ o' o'' Hq Hu. eapply scanned_unchanged; [done..|]. lia.
    + intros o' o'' Hq Hu. eapply scanned_unchanged; [done..|]. lia.
    + destruct x. rewrite Hrun. exists o2. split_and!; [done|done|].
      by apply (scanned_app _ b (b + m) e).
  - set (m := (e - b) / 2) in *.
    rewrite decide_False by lia. rewrite decide_True by done.
    destruct (fall_sweep_impl_spec k (r_child_of ival) (b + m) e o)
      as (o' & Hrun & Hu & Hscan').
    + done.
    + lia.
    + lia.
    + lia.
    + lia.
    + apply Hscan. lia.
    + done.
    + apply Hrlast. done.
    + lia.
    + replace (b + m + d) with (b + d + m) in Hrun by lia. rewrite Hrun.
      exists o'. split_and!; [done| |].
      * eapply unchanged_weaken; [done|lia..].
      * apply (scanned_app _ b (b + m) e); [|done].
        eapply scanned_unchanged; [done..|]. lia.
  - set (m := (e - b) / 2) in *.
    rewrite decide_False by lia. rewrite decide_False by lia.
    destruct (IH (r_child_of ival) (b + m) e s o) as (o' & Hrun & Hu & Hscan').
    + lia.
    + lia.
    + lia.
    + lia.
    + lia.
    + intros i Hi. apply Hscan. lia.
    + done.
    + intros Hlm. apply Hrlast; [done|].
      destruct ival; cbn [r_child_of] in Hlm |- *; destruct Hlm; done.
    + lia.
    + replace (b + m + d) with (b + d + m) in Hrun by lia. rewrite Hrun.
      exists o'. split_and!; [done| |].
      * eapply unchanged_weaken; [done|lia..].
      * apply (scanned_app _ b (b + m) e); [|done].
        eapply scanned_unchanged; [intros i Hi; apply Hscan; lia|done|lia].
Qed.

(** *** The whole scan *)

Lemma deref_of_nat {T} (l : list T) (i : nat) : deref l (Z.of_nat i) = l !! i.
Proof. unfold deref. rewrite decide_True by lia. by rewrite Nat2Z.id. Qed.

Lemma scanned_all (o o' : list B) :
  d + Z.of_nat (length data) ≤ Z.of_nat (length o) →
  unchanged o o' d (Z.of_nat (length data) + d) →
  scanned proj bop data d o' 0 (Z.of_nat (length data)) →
  o' = take (Z.to_nat d) o ++ totals proj bop data
       ++ drop (Z.to_nat d + length data) o.
Proof.
  intros Ho [Hlen Hu] Hscan. apply list_eq. intros i.
  rewrite <- (deref_of_nat o').
  destruct (decide (i < Z.to_nat d)%nat) as [Hlo|Hlo].
  - rewrite lookup_app_l by (rewrite length_take; lia).
    rewrite lookup_take_lt by lia. rewrite Hu by lia. apply deref_of_nat.
  - rewrite lookup_app_r by (rewrite length_take; lia).
    rewrite length_take. replace (Z.to_nat d `min` length o)%nat with (Z.to_nat d) by lia.
    destruct (decide (i - Z.to_nat d < length data)%nat) as [Hmid|Hhi].
    + rewrite lookup_app_l by (rewrite length_totals; lia).
      replace (Z.of_nat i) with (Z.of_nat (i - Z.to_nat d) + d) by lia.
      rewrite Hscan by lia. apply deref_of_nat.
    + rewrite lookup_app_r by (rewrite length_totals; lia).
      rewrite length_totals. rewrite lookup_drop.
      rewrite Hu by lia. rewrite deref_of_nat. f_equal. lia.
Qed.

Lemma rise_sweep_no_chunk (n0 : Z) : n0 < 1 → ∀ (fuel : nat) ival o_p b e out (o : list B),
  rise_sweep proj bop input ready right_first fuel ival o_p b e n0 out o = None.
Proof.
  intros Hn0. induction fuel as [|k IH]; intros ival o_p b e out o; [done|].
  cbn [rise_sweep]. destruct (decide (e - b >= 1)); [|done].
  rewrite decide_False by lia.
  destruct o_p.
  - destruct (ready _ _).
    + by rewrite IH.
    + unfold fork_call. destruct (right_first _ _ _); by rewrite IH.
  - unfold fork_call. destruct ival; try done; destruct (right_first _ _ _); by rewrite IH.
Qed.

(** The scan of an input that is intact writes the totals and nothing
    else. *)
Lemma scan_impl_spec (fuel : nat) (o : list B) :
  d + Z.of_nat (length data) ≤ Z.of_nat (length o) →
  (∀ i, 0 ≤ i < Z.of_nat (length data) → intact o i) →
  (length data ≤ fuel)%nat →
  scan_impl proj bop input ready right_first fuel 0 (Z.of_nat (length data)) d n o
  = Some (take (Z.to_nat d) o ++ totals proj bop data
          ++ drop (Z.to_nat d + length data) o).
Proof.
  intros Ho Hin Hfuel. unfold scan_impl.
  destruct (decide (Z.of_nat (length data) = 0)) as [Hnil|Hne].
  - assert (data = []) as Hdata by (destruct data; [done|cbn in Hnil; lia]).
    unfold totals. rewrite Hdata.
    cbn [length fmap list_fmap inclusive_scan app]. rewrite Nat.add_0_r.
    by rewrite take_drop.
  - destruct (rise_scan_spec fuel ival_all 0 (Z.of_nat (length data)) o)
      as (s & o1 & Hrun & Hs1 & Hs2 & Hu1 & Hscan1 & Hrisen1 & _); [lia..|done|done|lia|].
    replace (0 + d) with d in Hrun, Hu1 by lia. rewrite Hrun. cbn [mbind option_bind].
    destruct (decide (s ≠ Z.of_nat (length data))) as [Hpart|Hfull].
    + destruct (fall_sweep_spec fuel ival_all 0 (Z.of_nat (length data)) s o1)
        as (o2 & Hrun2 & Hu2 & Hscan2);
        [lia|lia|lia|lia|destruct Hu1 as [-> _]; lia|done|done| |lia|].
      { intros [|]; done. }
      replace (0 + d) with d in Hrun2, Hu2 by lia. rewrite Hrun2. cbn [mbind option_bind].
      f_equal. apply scanned_all; [done| |done].
      eapply unchanged_trans; [done..|lia|lia|lia|lia].
    + assert (s = Z.of_nat (length data)) as ->
        by (by destruct (decide (s = Z.of_nat (length data)))).
      f_equal. by apply scanned_all.
Qed.

End ScanSpec.

(** X22. For an associative [bop], a chunk size of at least one and an output
    range with room for the input, [lf::scan] on distinct ranges writes the
    totals of [std::inclusive_scan] and nothing else, whichever forks are
    stolen and in whichever order the two halves of a stolen fork run; a
    chunk size below one is undefined on a non-empty input. *)
Theorem scan_any_schedule {A B : Type} (proj : A → B) (bop : B → B → B) (data : list A)
    (ready : Z → Z → bool) (right_first : Scan.site → Z → Z → bool)
    (n out : Z) (fuel : nat) (o : list B) :
  (∀ x y z, bop (bop x y) z = bop x (bop y z)) →
  1 ≤ n → 0 ≤ out →
  out + Z.of_nat (length data) ≤ Z.of_nat (length o) →
  (length data ≤ fuel)%nat →
  Scan.scan_n proj bop data ready right_first fuel out n o
  = Some (take (Z.to_nat out) o ++ Scan.inclusive_scan bop (proj <$> data)
          ++ drop (Z.to_nat out + length data) o)
  ∧ (∀ n0, n0 < 1 → data ≠ [] →
       Scan.scan_n proj bop data ready right_first fuel out n0 o = None).
Proof.
  intros Hassoc Hn Hout Ho Hfuel. split.
  - unfold Scan.scan_n.
    apply (scan_impl_spec proj bop data Hassoc (Scan.from_range data) out Hout
             (λ _ _, True)); done.
  - intros n0 Hn0 Hdata. unfold Scan.scan_n, Scan.scan_impl.
    rewrite decide_False by (destruct data; [done|cbn; lia]).
    by rewrite rise_sweep_no_chunk.
Qed.

(** Seven ones in chunks of two, written one position into a range of nine,
    with some of the forks stolen. *)
Lemma scan_any_schedule_witness :
  Scan.scan_n id Z.add Samples.seven_ones (λ _ e, Z.even e) (λ _ b _, Z.odd b)
              7 1 2 (replicate 9 0)
  = Some [0; 1; 2; 3; 4; 5; 6; 7; 0].
Proof.
  assert (1 ≤ 2) as Hn by lia.
  assert (0 ≤ 1) as Hd by lia.
  assert (1 + Z.of_nat (length Samples.seven_ones) ≤ Z.of_nat (length (replicate 9 0)))
    as Ho by (cbn; lia).
  assert (length Samples.seven_ones ≤ 7)%nat as Hfuel by (cbn; lia).
  exact (proj1 (scan_any_schedule id Z.add Samples.seven_ones
                  (λ _ e, Z.even e) (λ _ b _, Z.odd b) 2 1 7 (replicate 9 0)
                  (λ x y z, eq_sym (Z.add_assoc x y z)) Hn Hd Ho Hfuel)).
Defined.

Lemma in_place_intact {B : Type} (o o' : list B) (out len i : Z) :
  0 ≤ out → 0 ≤ len → out + len ≤ Z.of_nat (length o) →
  0 ≤ i < len →
  Scan.deref o' (i + out) = Scan.deref o (i + out) →
  Scan.deref o' (i + out)
  = Scan.deref (take (Z.to_nat len) (drop (Z.to_nat out) o)) i.
Proof.
  intros Hout Hlen Ho Hi ->. unfold Scan.deref. rewrite !decide_True by lia.
  rewrite lookup_take_lt by lia. rewrite lookup_drop. f_equal. lia.
Qed.

(** X26. The scan in place: for an associative [bop] and a chunk size of at
    least one, [lf::scan] on [len] positions of a range replaces them by the
    totals of [std::inclusive_scan] over their projections and leaves the
    rest of the range as it was, whichever forks are stolen and in whichever
    order the two halves of a stolen fork run. *)
Theorem scan_in_place_any_schedule {B : Type} (proj : B → B) (bop : B → B → B)
    (ready : Z → Z → bool) (right_first : Scan.site → Z → Z → bool)
    (n out len : Z) (fuel : nat) (o : list B) :
  (∀ x y z, bop (bop x y) z = bop x (bop y z)) →
  1 ≤ n → 0 ≤ out → 0 ≤ len →
  out + len ≤ Z.of_nat (length o) →
  (Z.to_nat len ≤ fuel)%nat →
  Scan.scan_in_place_n proj bop ready right_first fuel out len n o
  = Some (take (Z.to_nat out) o
          ++ Scan.inclusive_scan bop (proj <$> take (Z.to_nat len) (drop (Z.to_nat out) o))
          ++ drop (Z.to_nat out + Z.to_nat len) o).
Proof.
  intros Hassoc Hn Hout Hlen Ho Hfuel. unfold Scan.scan_in_place_n.
  set (data := take (Z.to_nat len) (drop (Z.to_nat out) o)).
  assert (Hdata : length data = Z.to_nat len).
  { unfold data. rewrite length_take, length_drop. lia. }
  pose proof (scan_impl_spec proj bop data Hassoc (Scan.in_place out len) out Hout
                (λ o' i, 0 ≤ i < len ∧ Scan.deref o' (i + out) = Scan.deref data i)) as H.
  unfold Scan.totals in H. rewrite Hdata in H. rewrite Z2Nat.id in H by lia.
  apply H.
  - intros o' i [Hi Heq]. unfold Scan.in_place. by rewrite decide_True.
  - intros o1 o2 i [Hi Heq] Hsame. split; [done|]. by rewrite Hsame.
  - done.
  - lia.
  - intros i Hi. split; [lia|]. apply in_place_intact; [done..|lia|done].
  - lia.
Qed.

(** The seven ones of a range of ten, scanned in place. *)
Lemma scan_in_place_any_schedule_witness :
  Scan.scan_in_place_n id Z.add (λ _ e, Z.odd e) (λ _ _ _, true) 7 2 7 2
                       [9; 9; 1; 1; 1; 1; 1; 1; 1; 9]
  = Some [9; 9; 1; 2; 3; 4; 5; 6; 7; 9].
Proof.
  assert (1 ≤ 2) as Hn by lia.
  assert (0 ≤ 2) as Hout by lia.
  assert (0 ≤ 7) as Hlen by lia.
  assert (2 + 7 ≤ Z.of_nat (length [9; 9; 1; 1; 1; 1; 1; 1; 1; 9])) as Ho by (cbn; lia).
  assert (Z.to_nat 7 ≤ 7)%nat as Hfuel by lia.
  exact (scan_in_place_any_schedule id Z.add (λ _ e, Z.odd e) (λ _ _ _, true) 2 2 7 7
           [9; 9; 1; 1; 1; 1; 1; 1; 1; 9]
           (λ x y z, eq_sym (Z.add_assoc x y z)) Hn Hout Hlen Ho Hfuel).
Defined.

Section JoinRaceSpec.

Import JoinRace.

Variable sizeof_stacklet : Z.
Variable malloc : Z → option Z.
Variable self : Z.
Variable f : Frame.frame.

Hypothesis malloc_total : ∀ r, is_Some (malloc r).
Hypothesis steals_range : 0 ≤ Frame.m_steal f < k_u16_max.

Lemma run_app ps qs st :
  run sizeof_stacklet malloc self (ps ++ qs) st
  = (st' ← run sizeof_stacklet malloc self ps st; run sizeof_stacklet malloc self qs st').
Proof.
  revert st. induction ps as [|p ps IH]; intros st; [done|].
  cbn [app run]. destruct (step _ _ _ p st); [apply IH|done].
Qed.

Lemma reset_counting j : Frame.reset (counting j f) = Frame.reset f.
Proof. done. Qed.

(** A child that finds the counter above 1 goes back to the scheduler. *)
Lemma child_loses p st j :
  stolen_from p → shared st !! self = Some (counting j f) → 1 < j ≤ k_u16_max →
  step sizeof_stacklet malloc self p st
  = Some (mk_state (<[self := counting (j - 1) f]> (shared st))
                   (parent_stack st) (parent_context st) (pc st) (resumptions st)).
Proof.
  intros Hp Hf Hj. destruct p as [s d| |]; [|done..]. destruct Hp as [Hd [t Ht]].
  cbn [step]. unfold Promise.final_await_suspend. cbn [tls_context].
  unfold Deque.pop. rewrite Hd.
  rewrite decide_False by (intros H; by apply H).
  cbn [set_context frames tls_stack tls_context trace]. rewrite Hf.
  cbn [mbind option_bind Frame.fetch_sub_joins counting Frame.m_join Frame.m_eptr
         Frame.m_stacklet Frame.m_parent Frame.m_steal Frame.m_except].
  rewrite decide_False by lia.
  rewrite wrap16_small by (unfold k_u16_max in *; lia).
  destruct (decide (Frame.stacklet (counting j f) = Stack.stack_top s)) as [E|E].
  - unfold Stack.stack_release, Stack.next_stacklet.
    cbn [emit set_frames set_stack set_context frames tls_stack tls_context trace].
    destruct (malloc_total (Stack.round_up_to_page_size
                (wrap64 (Stack.fibre_init_size + sizeof_stacklet)))) as [a ->].
    rewrite decide_False by (intros H; by apply H).
    cbn [mbind option_bind]. done.
  - done.
Qed.

(** The child that finds the counter at 1 resumes the parent. *)
Lemma child_wins p st :
  stolen_from p → shared st !! self = Some (counting 1 f) →
  ∃ fs,
    step sizeof_stacklet malloc self p st
    = Some (mk_state fs (parent_stack st) (parent_context st) (pc st)
                     (S (resumptions st)))
    ∧ fs !! self = Some (Frame.reset f).
Proof.
  intros Hp Hf. destruct p as [s d| |]; [|done..]. destruct Hp as [Hd [t Ht]].
  cbn [step]. unfold Promise.final_await_suspend. cbn [tls_context].
  unfold Deque.pop. rewrite Hd.
  rewrite decide_False by (intros H; by apply H).
  cbn [set_context frames tls_stack tls_context trace]. rewrite Hf.
  cbn [mbind option_bind Frame.fetch_sub_joins counting Frame.m_join Frame.m_eptr
         Frame.m_stacklet Frame.m_parent Frame.m_steal Frame.m_except].
  rewrite decide_True by done.
  destruct (decide (Frame.stacklet (counting 1 f) ≠ Stack.stack_top s)) as [E|E].
  - cbn [emit set_frames frames tls_stack tls_context trace].
    unfold Stack.stack_assign_from, Stack.stack_destroy, Stack.set_next.
    cbn [emit set_frames set_stack set_context frames tls_stack tls_context trace].
    rewrite Ht.
    cbn [mbind option_bind set_stack frames is_handle].
    rewrite bool_decide_eq_true_2 by done.
    eexists. split; [done|].
    cbn [emit set_frames set_stack set_context frames]. by rewrite lookup_insert_eq.
  - cbn [mbind option_bind emit set_frames frames is_handle].
    rewrite bool_decide_eq_true_2 by done.
    eexists. split; [done|].
    cbn [emit set_frames set_stack set_context frames]. by rewrite lookup_insert_eq.
Qed.

(** Children that leave the counter above zero all go back to the
    scheduler. *)
Lemma children_lose ps : ∀ st j,
  Forall stolen_from ps → shared st !! self = Some (counting j f) →
  Z.of_nat (length ps) < j → j ≤ k_u16_max →
  run sizeof_stacklet malloc self ps st
  = Some (mk_state (<[self := counting (j - Z.of_nat (length ps)) f]> (shared st))
                   (parent_stack st) (parent_context st) (pc st) (resumptions st)).
Proof.
  induction ps as [|p ps IH]; intros st j Hps Hf Hlen Hj.
  - cbn [run length]. rewrite Z.sub_0_r. rewrite insert_id by done. by destruct st.
  - inversion Hps as [|? ? Hp Hps']; subst. cbn [length] in Hlen.
    cbn [run]. rewrite (child_loses p st j) by (done || lia). cbn [mbind option_bind].
    rewrite (IH _ (j - 1)); [|done|cbn [shared]; by rewrite lookup_insert_eq|lia|lia].
    cbn [shared parent_stack parent_context pc resumptions].
    rewrite insert_insert_eq. cbn [length].
    by replace (j - 1 - Z.of_nat (length ps)) with (j - Z.of_nat (S (length ps))) by lia.
Qed.

(** As many children as the counter says: the last one resumes the parent. *)
Lemma children_finish ps : ∀ st,
  Forall stolen_from ps → ps ≠ [] →
  shared st !! self = Some (counting (Z.of_nat (length ps)) f) →
  Z.of_nat (length ps) ≤ k_u16_max →
  ∃ fs,
    run sizeof_stacklet malloc self ps st
    = Some (mk_state fs (parent_stack st) (parent_context st) (pc st)
                     (S (resumptions st)))
    ∧ fs !! self = Some (Frame.reset f).
Proof.
  intros st Hps Hne Hf Hlen.
  destruct (exists_last Hne) as (qs & p & ->).
  apply Forall_app in Hps as [Hqs Hp]. apply Forall_inv in Hp.
  rewrite length_app in Hf, Hlen. cbn [length] in Hf, Hlen.
  rewrite run_app, (children_lose qs st _ Hqs Hf) by lia. cbn [mbind option_bind run].
  replace (Z.of_nat (length qs + 1)%nat - Z.of_nat (length qs)) with 1 by lia.
  destruct (child_wins p (mk_state (<[self := counting 1 f]> (shared st))
                                   (parent_stack st) (parent_context st) (pc st)
                                   (resumptions st)) Hp) as (fs' & Hstep & Hfs').
  { cbn [shared]. by rewrite lookup_insert_eq. }
  rewrite Hstep. cbn [mbind option_bind]. by exists fs'.
Qed.


(** The parent at the join: [await_ready] is true when all the children
    that were left behind have joined, and false otherwise. *)
Lemma parent_ready_all st c :
  pc st = at_join → shared st !! self = Some (counting (k_u16_max - c) f) →
  c = Frame.m_steal f →
  is_Some (Stack.heap (parent_stack st) !! Stack.m_fib (parent_stack st)) →
  Frame.m_join f = k_u16_max →
  ∃ fs ps pd,
    step sizeof_stacklet malloc self parent_ready st
    = Some (mk_state fs ps pd resumed (S (resumptions st)))
    ∧ fs !! self = Some (Frame.reset f).
Proof.
  intros Hpc Hf -> [t Ht] Hjoin. cbn [step]. rewrite Hpc.
  unfold Awaitables.join_await_ready. cbn [frames]. rewrite Hf.
  cbn [mbind option_bind Frame.load_steals counting Frame.m_steal Frame.load_joins
         Frame.m_join].
  destruct (decide (Frame.m_steal f = 0)) as [E|E].
  - cbn [mbind option_bind frames]. eexists _, _, _. split; [done|].
    rewrite Hf. f_equal. rewrite E, Z.sub_0_r. destruct f; cbn in *. by subst.
  - rewrite decide_True by lia.
    unfold Awaitables.take_stack_reset_frame.
    cbn [emit set_frames set_stack frames tls_stack tls_context trace]. rewrite Hf.
    cbn [mbind option_bind].
    unfold Stack.stack_assign_from, Stack.stack_destroy, Stack.set_next. rewrite Ht.
    cbn [mbind option_bind set_frames set_stack frames tls_stack tls_context].
    eexists _, _, _. split; [done|]. by rewrite lookup_insert_eq.
Qed.

Lemma parent_ready_some st c :
  pc st = at_join → shared st !! self = Some (counting (k_u16_max - c) f) →
  0 ≤ c → c < Frame.m_steal f →
  step sizeof_stacklet malloc self parent_ready st
  = Some (mk_state (shared st) (parent_stack st) (parent_context st) not_ready
                   (resumptions st)).
Proof.
  intros Hpc Hf Hc Hcs. cbn [step]. rewrite Hpc.
  unfold Awaitables.join_await_ready. cbn [frames]. rewrite Hf.
  cbn [mbind option_bind Frame.load_steals counting Frame.m_steal Frame.load_joins
         Frame.m_join].
  rewrite decide_False by lia. rewrite decide_False by lia. done.
Qed.

(** The parent that suspends at the join resumes itself when all the
    children have joined, and otherwise leaves the number of the missing
    children in the counter. *)
Lemma parent_suspend_all st c :
  pc st = not_ready → shared st !! self = Some (counting (k_u16_max - c) f) →
  c = Frame.m_steal f →
  is_Some (Stack.heap (parent_stack st) !! Stack.m_fib (parent_stack st)) →
  ∃ fs ps pd,
    step sizeof_stacklet malloc self parent_suspend st
    = Some (mk_state fs ps pd resumed (S (resumptions st)))
    ∧ fs !! self = Some (Frame.reset f).
Proof.
  intros Hpc Hf -> [t Ht]. cbn [step]. rewrite Hpc.
  unfold Awaitables.join_await_suspend. cbn [frames]. rewrite Hf.
  cbn [mbind option_bind Frame.load_steals counting Frame.m_steal Frame.fetch_sub_joins
         Frame.m_join Frame.m_eptr Frame.m_stacklet Frame.m_parent Frame.m_except].
  rewrite decide_True by lia.
  unfold Awaitables.take_stack_reset_frame.
  cbn [emit set_frames set_stack frames tls_stack tls_context trace].
  rewrite lookup_insert_eq. cbn [mbind option_bind].
  unfold Stack.stack_assign_from, Stack.stack_destroy, Stack.set_next. rewrite Ht.
  cbn [mbind option_bind set_frames set_stack frames tls_stack tls_context is_handle].
  rewrite bool_decide_eq_true_2 by done.
  eexists _, _, _. split; [done|]. by rewrite lookup_insert_eq.
Qed.

Lemma parent_suspend_some st c :
  pc st = not_ready → shared st !! self = Some (counting (k_u16_max - c) f) →
  0 ≤ c → c < Frame.m_steal f →
  (∀ x rest, Deque.items (parent_context st) = x :: rest → x ≠ 0 →
     x ≠ self ∧ is_Some (shared st !! x)) →
  ∃ fs pd,
    step sizeof_stacklet malloc self parent_suspend st
    = Some (mk_state fs (parent_stack st) pd suspended (resumptions st))
    ∧ fs !! self = Some (counting (Frame.m_steal f - c) f).
Proof.
  intros Hpc Hf Hc Hcs Hdeque. cbn [step]. rewrite Hpc.
  unfold Awaitables.join_await_suspend. cbn [frames]. rewrite Hf.
  cbn [mbind option_bind Frame.load_steals counting Frame.m_steal Frame.fetch_sub_joins
         Frame.m_join Frame.m_eptr Frame.m_stacklet Frame.m_parent Frame.m_except].
  rewrite decide_False by lia.
  rewrite (wrap16_small (k_u16_max - Frame.m_steal f)) by (unfold k_u16_max in *; lia).
  replace (k_u16_max - c - (k_u16_max - Frame.m_steal f)) with (Frame.m_steal f - c) by lia.
  rewrite wrap16_small by (unfold k_u16_max in *; lia).
  unfold Awaitables.try_self_stealing, Deque.pop.
  cbn [emit set_frames set_stack set_context frames tls_stack tls_context trace].
  destruct (Deque.items (parent_context st)) as [|x rest] eqn:Hitems.
  - rewrite decide_False by (intros H; by apply H).
    cbn [mbind option_bind set_context frames tls_stack tls_context is_handle].
    eexists _, _. split; [done|].
      cbn [emit set_frames set_context frames]. by rewrite lookup_insert_eq.
  - destruct (decide (x ≠ 0)) as [Hx|Hx].
    + destruct (Hdeque x rest eq_refl Hx) as [Hxs [fx Hfx]].
      rewrite lookup_insert_ne by done. rewrite Hfx.
      cbn [mbind option_bind set_frames set_context frames tls_stack tls_context is_handle].
      rewrite bool_decide_eq_false_2 by done.
      eexists _, _. split; [done|].
      cbn [emit set_frames set_context frames].
      rewrite lookup_insert_ne by done. by rewrite lookup_insert_eq.
    + cbn [mbind option_bind set_context frames tls_stack tls_context is_handle].
      eexists _, _. split; [done|].
      cbn [emit set_frames set_context frames]. by rewrite lookup_insert_eq.
Qed.


Lemma counting_own : Frame.m_join f = k_u16_max → f = counting (k_u16_max - 0) f.
Proof. clear. intros H. rewrite Z.sub_0_r, <- H. by destruct f. Qed.

(** X23. A frame whose continuation was stolen [s] times (fewer than
    [k_u16_max]) is resumed exactly once after its join, whatever the order
    of the operations on its join counter: by its own worker when the [s]
    children it left behind have all reached their final suspend before the
    parent's [await_ready] or [await_suspend], and otherwise by the last of
    these children; whoever resumes it has reset its counters before. *)
Theorem join_exactly_one_resumer (st0 : state) (l1 l2 l3 : list party) :
  shared st0 !! self = Some f → Frame.m_join f = k_u16_max →
  pc st0 = at_join → resumptions st0 = 0%nat →
  is_Some (Stack.heap (parent_stack st0) !! Stack.m_fib (parent_stack st0)) →
  (∀ x rest, Deque.items (parent_context st0) = x :: rest → x ≠ 0 →
     x ≠ self ∧ is_Some (shared st0 !! x)) →
  Forall stolen_from l1 → Forall stolen_from l2 → Forall stolen_from l3 →
  (Z.of_nat (length l1) = Frame.m_steal f →
     ∃ st, run sizeof_stacklet malloc self (l1 ++ [parent_ready]) st0 = Some st
           ∧ resumptions st = 1%nat ∧ pc st = resumed
           ∧ shared st !! self = Some (Frame.reset f))
  ∧ (Z.of_nat (length l1) < Frame.m_steal f →
     Z.of_nat (length l1 + length l2 + length l3) = Frame.m_steal f →
     ∃ st, run sizeof_stacklet malloc self
               (l1 ++ parent_ready :: l2 ++ parent_suspend :: l3) st0 = Some st
           ∧ resumptions st = 1%nat ∧ (pc st = resumed ↔ l3 = [])
           ∧ shared st !! self = Some (Frame.reset f)).
Proof.
  intros Hf Hjoin Hpc Hres Hstack Hdeque H1 H2 H3.
  rewrite (counting_own Hjoin) in Hf.
  assert (Hrun1 := children_lose l1 st0 _ H1 Hf).
  rewrite Z.sub_0_r in Hrun1. rewrite Hpc, Hres in Hrun1.
  set (st1 := mk_state (<[self := counting (k_u16_max - Z.of_nat (length l1)) f]> (shared st0))
                       (parent_stack st0) (parent_context st0) at_join 0) in *.
  split.
  - intros Hall. rewrite run_app, Hrun1 by lia. cbn [mbind option_bind run].
    destruct (parent_ready_all st1 (Z.of_nat (length l1))) as (fs & ps & pd & Hstep & Hfs);
      [done|by apply lookup_insert_eq|done|done|done|].
    rewrite Hstep. cbn [mbind option_bind]. eexists. split; [done|]. by cbn.
  - intros Hsome Hlen. rewrite run_app, Hrun1 by lia. cbn [mbind option_bind run].
    rewrite (parent_ready_some st1 (Z.of_nat (length l1)));
      [|done|by apply lookup_insert_eq|lia|done].
    cbn [mbind option_bind shared parent_stack parent_context resumptions st1].
    set (st2 := mk_state _ _ _ not_ready 0).
    assert (Hf2 : shared st2 !! self
                  = Some (counting (k_u16_max - Z.of_nat (length l1)) f))
      by apply lookup_insert_eq.
    rewrite run_app, (children_lose l2 st2 _ H2 Hf2) by lia.
    cbn [mbind option_bind run shared parent_stack parent_context pc resumptions st2].
    rewrite insert_insert_eq.
    set (st3 := mk_state _ _ _ not_ready 0).
    assert (Hf3 : shared st3 !! self
                  = Some (counting (k_u16_max - Z.of_nat (length l1 + length l2)) f)).
    { cbn [shared st3]. rewrite lookup_insert_eq. do 2 f_equal. lia. }
    destruct l3 as [|p3 l3'].
    + destruct (parent_suspend_all st3 (Z.of_nat (length l1 + length l2)))
        as (fs & ps & pd & Hstep & Hfs); [done|done|cbn [length] in Hlen; lia|done|].
      rewrite Hstep. cbn [mbind option_bind run]. eexists. split; [done|]. by cbn.
    + destruct (parent_suspend_some st3 (Z.of_nat (length l1 + length l2)))
        as (fs & pd & Hstep & Hfs); [done|done|lia|cbn [length] in Hlen; lia| |].
      { intros x rest Hx Hx0. destruct (Hdeque x rest Hx Hx0) as [Hxs Hsome'].
        split; [done|]. cbn [shared st3]. by rewrite lookup_insert_ne. }
      rewrite Hstep. cbn [mbind option_bind parent_stack resumptions st3].
      set (st4 := mk_state fs (parent_stack st0) pd suspended 0).
      destruct (children_finish (p3 :: l3') st4 H3) as (fs' & Hrun4 & Hfs');
        [done| |lia|].
      { cbn [shared st4]. rewrite Hfs. do 2 f_equal. lia. }
      rewrite Hrun4. eexists. split; [done|]. cbn. split_and!; [done| |done].
      split; intros; done.
Qed.

End JoinRaceSpec.

(** One child joins before the parent reaches the join, the other after the
    parent has suspended: the second child resumes the parent. *)
Lemma join_exactly_one_resumer_witness :
  ∃ st,
    JoinRace.run 48 Samples.malloc1 4200
      ([Samples.child_on_parents_stack]
       ++ JoinRace.parent_ready :: [] ++ JoinRace.parent_suspend
       :: [Samples.child_on_own_stack]) Samples.join_start = Some st
    ∧ JoinRace.resumptions st = 1%nat
    ∧ (JoinRace.pc st = JoinRace.resumed ↔ [Samples.child_on_own_stack] = [])
    ∧ JoinRace.shared st !! 4200 = Some (Frame.reset (Samples.parent_frame k_u16_max 2)).
Proof.
  assert (∀ r, is_Some (Samples.malloc1 r)) as Hmalloc by (intros r; by eexists).
  assert (0 ≤ Frame.m_steal (Samples.parent_frame k_u16_max 2) < k_u16_max) as Hsteals
    by (cbn; unfold k_u16_max; lia).
  assert (JoinRace.shared Samples.join_start !! 4200
          = Some (Samples.parent_frame k_u16_max 2)) as Hf by reflexivity.
  assert (Frame.m_join (Samples.parent_frame k_u16_max 2) = k_u16_max) as Hjoin
    by reflexivity.
  assert (is_Some (Stack.heap (JoinRace.parent_stack Samples.join_start)
                   !! Stack.m_fib (JoinRace.parent_stack Samples.join_start))) as Hstack
    by (by eexists).
  assert (∀ x rest, Deque.items (JoinRace.parent_context Samples.join_start) = x :: rest →
            x ≠ 0 → x ≠ 4200 ∧ is_Some (JoinRace.shared Samples.join_start !! x)) as Hdeque
    by (intros x rest Hx; discriminate Hx).
  assert (Forall JoinRace.stolen_from [Samples.child_on_parents_stack]) as H1.
  { apply Forall_singleton. split; [reflexivity|by eexists]. }
  assert (Forall JoinRace.stolen_from []) as H2 by apply Forall_nil_2.
  assert (Forall JoinRace.stolen_from [Samples.child_on_own_stack]) as H3.
  { apply Forall_singleton. split; [reflexivity|by eexists]. }
  assert (Z.of_nat (length [Samples.child_on_parents_stack])
          < Frame.m_steal (Samples.parent_frame k_u16_max 2)) as Hsome by (cbn; lia).
  assert (Z.of_nat (length [Samples.child_on_parents_stack] + length (@nil JoinRace.party)
                    + length [Samples.child_on_own_stack])
          = Frame.m_steal (Samples.parent_frame k_u16_max 2)) as Hlen by reflexivity.
  exact (proj2 (join_exactly_one_resumer 48 Samples.malloc1 4200
                  (Samples.parent_frame k_u16_max 2) Hmalloc Hsteals
                  Samples.join_start [Samples.child_on_parents_stack] []
                  [Samples.child_on_own_stack]
                  Hf Hjoin eq_refl eq_refl Hstack Hdeque H1 H2 H3) Hsome Hlen).
Defined.


(** X24. The join counter has room for 65534 children: when [k_u16_max]
    children whose parent was stolen reach their final suspend before the
    parent reaches its join, the last of them finds the counter at 1 and
    resumes the parent, which has not suspended. *)
Theorem join_counter_overflow (sizeof_stacklet : Z) (malloc : Z → option Z) (self : Z)
    (f : Frame.frame) (st0 : JoinRace.state) (ps : list JoinRace.party) :
  (∀ r, is_Some (malloc r)) →
  JoinRace.shared st0 !! self = Some f → Frame.m_join f = k_u16_max →
  Forall JoinRace.stolen_from ps → Z.of_nat (length ps) = k_u16_max →
  ∃ st,
    JoinRace.run sizeof_stacklet malloc self ps st0 = Some st
    ∧ JoinRace.resumptions st = S (JoinRace.resumptions st0)
    ∧ JoinRace.pc st = JoinRace.pc st0
    ∧ JoinRace.shared st !! self = Some (Frame.reset f).
Proof.
  intros Hmalloc Hf Hjoin Hps Hlen.
  assert (Hne : ps ≠ []) by (intros ->; cbn in Hlen; unfold k_u16_max in Hlen; lia).
  rewrite (counting_own f Hjoin), Z.sub_0_r, <- Hlen in Hf.
  destruct (children_finish sizeof_stacklet malloc self f Hmalloc ps st0 Hps Hne Hf)
    as (fs & Hrun & Hfs); [lia|].
  eexists. split; [done|]. by cbn.
Qed.

Lemma join_counter_overflow_witness :
  ∃ st,
    JoinRace.run 48 Samples.malloc1 4200
      (replicate (Z.to_nat k_u16_max) Samples.child_on_own_stack) Samples.join_start
    = Some st
    ∧ JoinRace.resumptions st = S (JoinRace.resumptions Samples.join_start)
    ∧ JoinRace.pc st = JoinRace.pc Samples.join_start
    ∧ JoinRace.shared st !! 4200
      = Some (Frame.reset (Samples.parent_frame k_u16_max 2)).
Proof.
  assert (∀ r, is_Some (Samples.malloc1 r)) as Hmalloc by (intros r; by eexists).
  assert (JoinRace.shared Samples.join_start !! 4200
          = Some (Samples.parent_frame k_u16_max 2)) as Hf by reflexivity.
  assert (Frame.m_join (Samples.parent_frame k_u16_max 2) = k_u16_max) as Hjoin
    by reflexivity.
  assert (Forall JoinRace.stolen_from
            (replicate (Z.to_nat k_u16_max) Samples.child_on_own_stack)) as Hps.
  { apply Forall_replicate. split; [reflexivity|by eexists]. }
  assert (Z.of_nat (length (replicate (Z.to_nat k_u16_max) Samples.child_on_own_stack))
          = k_u16_max) as Hlen.
  { rewrite length_replicate. apply Z2Nat.id. unfold k_u16_max. lia. }
  exact (join_counter_overflow 48 Samples.malloc1 4200 (Samples.parent_frame k_u16_max 2)
           Samples.join_start _ Hmalloc Hf Hjoin Hps Hlen).
Defined.

Section SharedDequeSpec.

Import RingDeque SharedDeque.

Variable limit : Z.
Hypothesis limit_small : limit < 2 ^ 59.

Lemma ptrdiff_small x : - 2 ^ 62 ≤ x ≤ 2 ^ 62 → ptrdiff x = Some x.
Proof. intros Hx. unfold ptrdiff. rewrite decide_True; [done|lia]. Qed.

Lemma pushes_in_nonneg work : 0 ≤ pushes_in work.
Proof. induction work as [|[v|] rest IH]; cbn [pushes_in]; lia. Qed.

Lemma loads_eq top bl buf buf' :
  (∀ i, top ≤ i < bl → load i buf' = load i buf) →
  omap (λ i, load i buf') (seqZ top (bl - top))
  = omap (λ i, load i buf) (seqZ top (bl - top)).
Proof.
  intros Hload. apply omap_load_ext.
  intros i Hi%elem_of_seqZ. apply Hload. lia.
Qed.

Lemma pushed_values_snoc l e :
  pushed_values (l ++ [e])
  = pushed_values l ++ match e with pushed v => [v] | _ => [] end.
Proof. unfold pushed_values. rewrite omap_app. by destruct e. Qed.

Lemma taken_values_snoc l e :
  taken_values (l ++ [e])
  = taken_values l ++ match e with popped v | stolen v => [v] | _ => [] end.
Proof. unfold taken_values. rewrite omap_app. by destruct e. Qed.

Lemma thieves_ok_impl st st' :
  thieves st' = thieves st →
  (∀ t, thief_ok st t → thief_ok st' t) →
  Forall (thief_ok st) (thieves st) → Forall (thief_ok st') (thieves st').
Proof. intros -> H HF. eapply Forall_impl; done. Qed.

Ltac deque_simpl :=
  unfold claim, items in *;
  unfold logical_bottom, pushes_left, owner_ok, held, buffers,
    set_top, set_bottom, capacity in *;
  cbn [mem owner todo thieves log m_top m_bottom m_buf m_garbage pushes_in] in *.

Ltac thieves_step Hths :=
  revert Hths; apply thieves_ok_impl; [done|];
  intros [|t0|t0|t0 g|t0 tmp]; unfold thief_ok; deque_simpl.

(** Every atomic operation of the owner is defined and keeps the
    invariant. *)
Lemma inv_owner_step st :
  inv limit st → ∃ st', owner_step st = Some st' ∧ inv limit st'.
Proof.
  intros (Hrings & Htop & Hcap & Hcap60 & Hlim & Hown & Hths & Hlog).
  destruct st as [[top bottom buf garbage] o work ths lg].
  assert (Hbuf : ring_ok buf).
  { unfold buffers in Hrings. cbn in Hrings. apply Forall_app in Hrings as [_ H].
    by apply Forall_inv in H. }
  assert (Hpos : 0 < m_cap buf).
  { destruct Hbuf as (k & Hk & -> & _). apply Z.pow_pos_nonneg; lia. }
  unfold owner_step. cbn [mem owner todo thieves log].
  destruct o as [|val t|val|val|b|b t|b|b]; deque_simpl.
  - (* idle *)
    destruct work as [|[val|] rest]; cbn [pushes_in] in *.
    + eexists. split; [done|]. unfold inv. deque_simpl. done.
    + eexists. split; [done|]. pose proof (pushes_in_nonneg rest).
      unfold inv. deque_simpl. split_and!; try done; try lia.
    + pose proof (pushes_in_nonneg rest).
      rewrite ptrdiff_small by lia. cbn [mbind option_bind].
      eexists. split; [done|].
      unfold inv. deque_simpl. split_and!; try done; try lia.
      * thieves_step Hths; intuition lia.
      * by replace (bottom - 1 + 1) with bottom by lia.
  - (* push: the test of the capacity *)
    destruct Hown as (Ht0 & Ht & Hroom).
    pose proof (pushes_in_nonneg work).
    destruct (decide (m_cap buf < bottom - t + 1)) as [Hfull|Hfits].
    + destruct (resize_ok buf bottom t) as (bigger & Hres & Hbig & Hbigcap & Hload);
        [done|lia|lia|lia|].
      rewrite Hres. cbn [mbind option_bind]. eexists. split; [done|].
      unfold inv. deque_simpl. split_and!; try done; try lia.
      * rewrite Forall_app. split; [done|]. by apply Forall_singleton.
      * thieves_step Hths.
        -- done.
        -- done.
        -- tauto.
        -- intros (? & ? & Hg & Hclaim). split_and!; [done|done| |].
           { rewrite !length_app in *. cbn [length] in *. lia. }
           intros ->. destruct (Hclaim eq_refl) as [[? ?] Hr]. split; [done|].
           intros r Hlook. rewrite Hload by lia.
           apply Hr. rewrite lookup_app_l in Hlook; [done|].
           rewrite length_app. cbn [length]. rewrite length_app in Hg. cbn [length] in Hg. lia.
        -- intros (? & ? & Hclaim). split_and!; [done|done|]. intros ->.
           destruct (Hclaim eq_refl) as [[? ?] Hr]. split; [done|].
           rewrite Hload by lia. done.
      * rewrite (loads_eq top bottom buf bigger) by (intros i Hi; apply Hload; lia). done.
    + eexists. split; [done|]. unfold inv. deque_simpl. split_and!; try done; try lia.
  - (* push: the store of the item *)
    pose proof (pushes_in_nonneg work).
    destruct (store_ok buf bottom val) as (buf' & Hst & Hbuf' & Hcap' & Hload);
      [done|lia|].
    rewrite Hst. cbn [mbind option_bind]. eexists. split; [done|].
    assert (Hkeep : ∀ i, top ≤ i < bottom → load i buf' = load i buf).
    { intros i Hi. rewrite Hload by lia. rewrite decide_False; [done|].
      apply mod_apart. lia. }
    unfold inv. deque_simpl. split_and!; try done; try lia.
    + apply Forall_app in Hrings as [Hg _]. rewrite Forall_app. split; [done|].
      by apply Forall_singleton.
    + rewrite Hload by lia. by rewrite decide_True.
    + thieves_step Hths.
      * done.
      * done.
      * tauto.
      * intros (? & ? & Hg & Hclaim). split_and!; [done|done|by rewrite length_app in *|].
        intros ->. destruct (Hclaim eq_refl) as [[? ?] Hr]. split; [done|].
        intros r Hlook. rewrite Hkeep by lia.
        destruct (decide (g < length garbage)%nat) as [Hold|Hnew].
        -- apply Hr. rewrite lookup_app_l in Hlook |- *; done.
        -- rewrite lookup_app_r in Hlook by lia.
           rewrite length_app in Hg. cbn [length] in Hg.
           replace (g - length garbage)%nat with 0%nat in Hlook by lia.
           injection Hlook as <-. apply Hkeep. lia.
      * intros (? & ? & Hclaim). split_and!; [done|done|]. intros ->.
        destruct (Hclaim eq_refl) as [[? ?] Hr]. split; [done|].
        rewrite Hkeep by lia. done.
    + by rewrite (loads_eq top bottom buf buf') by done.
  - (* push: the store of the bottom *)
    destruct Hown as [Hroom Hval]. pose proof (pushes_in_nonneg work).
    rewrite ptrdiff_small by lia. cbn [mbind option_bind]. eexists. split; [done|].
    unfold inv. deque_simpl. split_and!; try done; try lia.
    + thieves_step Hths; intuition lia.
    + rewrite pushed_values_snoc, taken_values_snoc.
      rewrite Hlog. cbn [app]. rewrite app_nil_r.
      rewrite (contents_snoc top bottom buf val) by (done || lia).
      by rewrite app_assoc.
  - (* pop: the load of the top *)
    eexists. split; [done|]. unfold inv. deque_simpl. split_and!; try done; try lia.
    thieves_step Hths; intuition lia.
  - (* pop: the test *)
    destruct Hown as (Hb & Ht0 & Ht & Hfree). subst bottom.
    pose proof (pushes_in_nonneg work).
    destruct (decide (t ≤ b)) as [Hle|Hgt].
    + destruct (decide (t = b)) as [->|Hlt].
      * rewrite ptrdiff_small by lia. cbn [mbind option_bind].
        destruct (decide (top = b)) as [->|Hne].
        -- eexists. split; [done|].
           destruct (load_in_range buf b) as [v Hv]; [done|lia|].
           unfold inv. deque_simpl. split_and!; try done; try lia.
           ++ thieves_step Hths; intuition lia.
           ++ rewrite Hv. rewrite (contents_cons b (b + 1) buf v) in Hlog by (done || lia).
              exact Hlog.
        -- eexists. split; [done|].
           unfold inv. deque_simpl. split_and!; try done; try lia.
           thieves_step Hths; intuition lia.
      * destruct (load_in_range buf b) as [v Hv]; [done|lia|].
        rewrite Hv. cbn [mbind option_bind]. eexists. split; [done|].
        unfold inv. deque_simpl. split_and!; try done; try lia.
        -- thieves_step Hths; intuition lia.
        -- rewrite pushed_values_snoc, taken_values_snoc.
           rewrite Hlog. cbn [app]. rewrite app_nil_r.
           rewrite (contents_snoc top b buf v) by (done || lia).
           rewrite <- !app_assoc. apply Permutation_app_head. apply Permutation_app_comm.
    + eexists. split; [done|].
      unfold inv. deque_simpl. split_and!; try done; try lia.
      * thieves_step Hths; intuition lia.
      * rewrite pushed_values_snoc, taken_values_snoc.
        by rewrite !app_nil_r.
  - (* pop: after the compare-exchange was won *)
    destruct Hown as (Hb & Hb0 & Htopb). subst bottom top.
    destruct (load_in_range buf b) as [v Hv]; [done|lia|].
    rewrite Hv in *. cbn [mbind option_bind]. eexists. split; [done|].
    pose proof (pushes_in_nonneg work).
    unfold inv. deque_simpl. split_and!; try done; try lia.
    rewrite pushed_values_snoc, taken_values_snoc.
    rewrite Hlog. cbn [app]. rewrite app_nil_r.
    replace (b + 1 - (b + 1)) with 0 by lia. cbn [seqZ omap]. by rewrite app_nil_r.
  - (* pop: after the compare-exchange was lost *)
    destruct Hown as (Hb & Hb0 & Htopb). subst bottom top.
    eexists. split; [done|]. pose proof (pushes_in_nonneg work).
    unfold inv. deque_simpl. split_and!; try done; try lia.
    rewrite pushed_values_snoc, taken_values_snoc.
    by rewrite !app_nil_r.
Qed.

Lemma thief_ok_ext st st' t :
  mem st' = mem st → owner st' = owner st → thief_ok st t → thief_ok st' t.
Proof.
  intros Hm Ho. unfold thief_ok, claim, logical_bottom. by rewrite Hm, Ho.
Qed.

Lemma inv_thieves_log st ths' lg' :
  inv limit st → Forall (thief_ok st) ths' →
  pushed_values lg' = pushed_values (log st) →
  taken_values lg' = taken_values (log st) →
  inv limit (mk_state (mem st) (owner st) (todo st) ths' lg').
Proof.
  intros (Hrings & Htop & Hcap & Hcap60 & Hlim & Hown & Hths & Hlog) Hths' Hp Ht.
  unfold inv, items in *. unfold logical_bottom, pushes_left, owner_ok, held in *.
  cbn [mem owner todo thieves log].
  split_and!; try tauto. by rewrite Hp, Ht.
Qed.

(** Every atomic operation of a thief is defined and keeps the invariant. *)
Lemma inv_thief_step st i t :
  inv limit st → thieves st !! i = Some t →
  ∃ d t' evs,
    thief_step (mem st) t = Some (d, t', evs)
    ∧ inv limit (mk_state d (owner st) (todo st) (<[i := t']> (thieves st))
                          (log st ++ evs)).
Proof.
  intros Hinv Hi.
  pose proof Hinv as (Hrings & Htop & Hcap & Hcap60 & Hlim & Hown & Hths & Hlog).
  assert (Hme : thief_ok st t) by (eapply Forall_lookup_1; done).
  destruct st as [[top bottom buf garbage] o work ths lg].
  assert (Hbuf : ring_ok buf).
  { unfold buffers in Hrings. cbn in Hrings. apply Forall_app in Hrings as [_ H].
    by apply Forall_inv in H. }
  assert (Hbot : bottom ≤ logical_bottom
            (mk_state (mk_deque top bottom buf garbage) o work ths lg)).
  { unfold logical_bottom, owner_ok in *. cbn [mem owner m_bottom] in *.
    destruct o; try lia; intuition lia. }
  assert (Hpush : 0 ≤ pushes_left (mk_state (mk_deque top bottom buf garbage) o work ths lg)).
  { unfold pushes_left. cbn [todo owner]. pose proof (pushes_in_nonneg work).
    destruct o; lia. }
  cbn [mem owner todo thieves log m_top m_bottom m_buf m_garbage] in *.
  assert (Hsame : ∀ t' evs, evs = [] ∨ evs = [steal_empty] ∨ evs = [steal_lost] →
    thief_ok (mk_state (mk_deque top bottom buf garbage) o work ths lg) t' →
    inv limit (mk_state (mk_deque top bottom buf garbage) o work (<[i := t']> ths)
                        (lg ++ evs))).
  { intros t' evs Hevs Ht'.
    apply (inv_thieves_log (mk_state (mk_deque top bottom buf garbage) o work ths lg)).
    - done.
    - by apply Forall_insert.
    - cbn [log]. destruct Hevs as [->|[->| ->]];
        [by rewrite app_nil_r|rewrite pushed_values_snoc; by rewrite app_nil_r..].
    - cbn [log]. destruct Hevs as [->|[->| ->]];
        [by rewrite app_nil_r|rewrite taken_values_snoc; by rewrite app_nil_r..]. }
  destruct t as [|t0|t0|t0 g|t0 tmp]; unfold thief_step; cbn [m_top m_bottom m_garbage].
  - (* the load of the top *)
    eexists _, _, _. split; [done|]. apply Hsame; [by left|].
    unfold thief_ok. cbn [mem m_top]. lia.
  - (* the load of the bottom *)
    destruct Hme as [Ht0 Hle]. cbn [mem m_top] in Hle.
    destruct (decide (t0 < bottom)) as [Hlt|Hge].
    + eexists _, _, _. split; [done|]. apply Hsame; [by left|].
      unfold thief_ok, claim. cbn [mem m_top]. split_and!; [done|done|].
      intros ->. split; [lia|].
      unfold owner_ok in Hown. cbn [owner mem m_bottom m_top] in *.
      destruct o; try done. intros. lia.
    + eexists _, _, _. split; [done|]. apply Hsame; [by right; left|done].
  - (* the load of the buffer *)
    destruct Hme as (Ht0 & Hle & Hclaim). cbn [mem m_top] in *.
    eexists _, _, _. split; [done|]. apply Hsame; [by left|].
    unfold thief_ok, buffers. cbn [mem m_top m_buf m_garbage].
    split_and!; [done|done|rewrite length_app; cbn [length]; lia|].
    intros ->. split; [by apply Hclaim|].
    intros r Hr. rewrite lookup_app_r in Hr by lia.
    rewrite Nat.sub_diag in Hr. by injection Hr as <-.
  - (* the load of the item *)
    destruct Hme as (Ht0 & Hle & Hg & Hclaim). cbn [mem m_top m_buf] in *.
    destruct (lookup_lt_is_Some_2 _ _ Hg) as [r Hr].
    assert (Hrok : ring_ok r) by (eapply Forall_lookup_1; done).
    destruct (load_in_range r t0) as [tmp Htmp]; [done|done|].
    rewrite Hr. cbn [mbind option_bind]. rewrite Htmp. cbn [mbind option_bind].
    eexists _, _, _. split; [done|]. apply Hsame; [by left|].
    unfold thief_ok. cbn [mem m_top m_buf]. split_and!; [done|done|].
    intros ->. destruct (Hclaim eq_refl) as [Hc Hload]. split; [done|].
    by rewrite <- (Hload r Hr).
  - (* the compare-exchange *)
    destruct Hme as (Ht0 & Hle & Hclaim). cbn [mem m_top m_buf] in *.
    rewrite ptrdiff_small by lia. cbn [mbind option_bind].
    destruct (decide (top = t0)) as [->|Hne].
    + destruct (Hclaim eq_refl) as [[Hlive Hfree] Hload]. clear Hclaim.
      eexists _, _, _. split; [done|].
      unfold inv. unfold claim, items in *.
      unfold logical_bottom, pushes_left, owner_ok, held, buffers, set_top in *.
      cbn [mem owner todo thieves log m_top m_bottom m_buf m_garbage] in *.
      split_and!; try done; try lia.
      * destruct o; try done; try lia; intuition lia.
      * apply Forall_insert; [|done].
        eapply Forall_impl; [exact Hths|].
        intros [|t1|t1|t1 g1|t1 tmp1]; unfold thief_ok, claim, logical_bottom, buffers;
          cbn [mem owner m_top m_bottom m_buf m_garbage]; intuition lia.
      * rewrite pushed_values_snoc, taken_values_snoc. rewrite app_nil_r.
        rewrite Hlog.
        rewrite (contents_cons t0 _ buf tmp) by (done || lia).
        rewrite <- !app_assoc. apply Permutation_app_head.
        cbn [app]. symmetry. apply Permutation_middle.
    + eexists _, _, _. split; [done|]. apply Hsame; [by right; right|done].
Qed.


Lemma inv_run schedule : ∀ st,
  inv limit st → ∃ st', run schedule st = Some st' ∧ inv limit st'.
Proof.
  induction schedule as [|who rest IH]; intros st Hinv; [by exists st|].
  cbn [run].
  assert (Hstep : ∃ st1, step who st = Some st1 ∧ inv limit st1).
  { destruct who as [i|]; cbn [step].
    - destruct (thieves st !! i) as [t|] eqn:Hi; [|by exists st].
      destruct (inv_thief_step st i t Hinv Hi) as (d & t' & evs & -> & Hinv').
      cbn [mbind option_bind]. by eexists.
    - by apply inv_owner_step. }
  destruct Hstep as (st1 & -> & Hinv1). cbn [mbind option_bind]. by apply IH.
Qed.

End SharedDequeSpec.

Lemma pushes_in_le work : SharedDeque.pushes_in work ≤ Z.of_nat (length work).
Proof.
  induction work as [|[v|] rest IH]; cbn [SharedDeque.pushes_in length]; lia.
Qed.

Lemma inv_init k work n :
  0 ≤ k < 60 →
  ∃ st0, SharedDeque.init (2 ^ k) work n = Some st0
         ∧ SharedDeque.inv (Z.of_nat (length work)) st0.
Proof.
  intros Hk. unfold SharedDeque.init, RingDeque.deque_new.
  destruct (ring_new_ok k) as (r & -> & Hr & Hcap & _); [lia|].
  cbn [mbind option_bind]. eexists. split; [done|].
  pose proof (pushes_in_le work).
  assert (0 < 2 ^ k < 2 ^ 60).
  { split; [apply Z.pow_pos_nonneg; lia|apply Z.pow_lt_mono_r; lia]. }
  unfold SharedDeque.inv, SharedDeque.items.
  unfold SharedDeque.logical_bottom, SharedDeque.pushes_left, SharedDeque.owner_ok,
    SharedDeque.held, SharedDeque.buffers.
  cbn [SharedDeque.mem SharedDeque.owner SharedDeque.todo SharedDeque.thieves
         SharedDeque.log RingDeque.m_top RingDeque.m_bottom RingDeque.m_buf
         RingDeque.m_garbage].
  split_and!; try done; try lia.
  - by apply Forall_singleton.
  - by apply Forall_replicate.
Qed.

(** X25. The owner and any number of thieves at work on one deque, in any
    sequentially consistent order of their atomic operations: no operation
    is undefined, and at every moment the values pushed so far are, each as
    often as it was pushed, the values that pops and steals have returned
    together with the items in the deque and the item a pop has won and not
    yet returned; no item is lost and none is handed out twice. *)
Theorem shared_deque_hands_out_once (k : Z) (work : list SharedDeque.op) (n : nat)
    (schedule : list (option nat)) :
  0 ≤ k < 60 → Z.of_nat (length work) < 2 ^ 59 →
  ∃ st0 st,
    SharedDeque.init (2 ^ k) work n = Some st0
    ∧ SharedDeque.run schedule st0 = Some st
    ∧ SharedDeque.pushed_values (SharedDeque.log st)
      ≡ₚ SharedDeque.taken_values (SharedDeque.log st)
         ++ SharedDeque.held st ++ SharedDeque.items st
    ∧ (SharedDeque.owner st = SharedDeque.o_idle →
       SharedDeque.held st = []
       ∧ SharedDeque.items st = RingDeque.contents (SharedDeque.mem st)).
Proof.
  intros Hk Hwork.
  destruct (inv_init k work n Hk) as (st0 & Hinit & Hinv0).
  destruct (inv_run _ Hwork schedule st0 Hinv0) as (st & Hrun & Hinv).
  exists st0, st. split_and!; [done|done|apply Hinv|].
  intros Hidle. unfold SharedDeque.held, SharedDeque.items, SharedDeque.logical_bottom.
  by rewrite Hidle.
Qed.

Lemma shared_deque_hands_out_once_witness :
  ∃ st0 st,
    SharedDeque.init (2 ^ 1) Samples.steal_race_work 2 = Some st0
    ∧ SharedDeque.run Samples.steal_race st0 = Some st
    ∧ SharedDeque.pushed_values (SharedDeque.log st)
      ≡ₚ SharedDeque.taken_values (SharedDeque.log st)
         ++ SharedDeque.held st ++ SharedDeque.items st
    ∧ (SharedDeque.owner st = SharedDeque.o_idle →
       SharedDeque.held st = []
       ∧ SharedDeque.items st = RingDeque.contents (SharedDeque.mem st)).
Proof.
  assert (0 ≤ 1 < 60) as Hk by lia.
  assert (Z.of_nat (length Samples.steal_race_work) < 2 ^ 59) as Hwork
    by (apply Z.ltb_lt; reflexivity).
  exact (shared_deque_hands_out_once 1 Samples.steal_race_work 2 Samples.steal_race
           Hk Hwork).
Defined.

